(** * B-PLUS-TREE: the augmented B+ tree, the candidate-size chooser and the
    two hybrid query planners

    A shallow embedding of [include/BPlusTree4.h], [include/vectorIndex.h]
    and [include/probabilisticVectorIndex.h].

    - Nodes live in an explicit store: a [Node*] is an address (or null),
      [new] appends a cell, [delete] runs the destructor and kills the
      cell.  Dereferencing null, reading a dead cell or indexing a vector
      out of range is undefined behaviour in C++ and is reported here as
      [Undefined].
    - [float] is IEEE-754 binary32, through the standard library's
      [SpecFloat] operations; [double] is binary64, the kernel's primitive
      floats.
    - [int] is a 32-bit two's complement integer, kept as a [Z] and wrapped
      after arithmetic.
    - Loops and recursive member functions take a fuel argument; running
      out of it is reported as [NoFuel]. *)

From Stdlib Require Import ZArith Lia SpecFloat PrimFloat Uint63.
From Stdlib Require String.
From stdpp Require Import base option list sorting.

(** ** Outcomes of a call *)

Inductive fault := NullPointer | Dangling | OutOfRange.

Inductive exn := InvalidArgument | LengthError | RuntimeError.

Inductive outcome (A : Type) : Type :=
  | Done (a : A)
  | Throw (e : exn)
  | Undefined (f : fault)
  | NoFuel.
Arguments Done {A} a.
Arguments Throw {A} e.
Arguments Undefined {A} f.
Arguments NoFuel {A}.

Definition obind {A B} (x : outcome A) (k : A → outcome B) : outcome B :=
  match x with
  | Done a => k a
  | Throw e => Throw e
  | Undefined f => Undefined f
  | NoFuel => NoFuel
  end.

(** A member function that mutates its object: state in, state out. *)
Definition St (S A : Type) : Type := S → outcome (A * S).

Definition sret {S A} (a : A) : St S A := λ s, Done (a, s).

Definition sbind {S A B} (x : St S A) (k : A → St S B) : St S B :=
  λ s, match x s with
       | Done (a, s') => k a s'
       | Throw e => Throw e
       | Undefined f => Undefined f
       | NoFuel => NoFuel
       end.

(** A [const] member function reads the state only. *)
Definition sread {S A} (f : S → outcome A) : St S A :=
  λ s, obind (f s) (λ a, Done (a, s)).

Definition sfail {S A} (o : outcome A) : St S A := sread (λ _, o).

Global Instance outcome_ret : MRet outcome := @Done.
Global Instance outcome_bind : MBind outcome := λ A B k x, obind x k.
Global Instance St_ret {S} : MRet (St S) := @sret S.
Global Instance St_bind {S} : MBind (St S) := λ A B k x, sbind x k.

(** ** Machine integers *)

(** [int]: the value in [-2^31, 2^31) congruent to [z]. *)
Definition int32 (z : Z) : Z :=
  if ((-2147483648 <=? z) && (z <=? 2147483647))%Z then z
  else ((z + 2147483648) mod 4294967296 - 2147483648)%Z.

(** ** Vectors *)

(** [v[i]], undefined out of range. *)
Definition at_ {A} (l : list A) (i : nat) : outcome A :=
  match l !! i with
  | Some x => Done x
  | None => Undefined OutOfRange
  end.

(** [v.insert(v.begin() + i, x)]. *)
Definition insert_at {A} (i : nat) (x : A) (l : list A) : list A :=
  take i l ++ x :: drop i l.

(** [v.erase(v.begin() + i)]. *)
Definition erase_at {A} (i : nat) (l : list A) : list A :=
  take i l ++ drop (S i) l.

(** ** Keys *)

(** What the tree template asks of [KeyType]: the comparison operators,
    [Smin - 1] and [std::numeric_limits<KeyType>::lowest()].  [a > b] is
    [b < a] and [a >= b] is [b <= a], for integers and for IEEE floats. *)
Class KeyOps (K : Type) := {
  klt : K → K → bool;
  kle : K → K → bool;
  keq : K → K → bool;
  kpred1 : K → K;
  klowest : K;
}.

Section Bounds.
Context {K : Type} `{KeyOps K}.

(** [std::upper_bound]: the library's bisection, first index given by
    [first], [len] elements still to look at. *)
Fixpoint upper_bound_loop (fuel : nat) (l : list K) (x : K) (first len : nat) : nat :=
  match fuel with
  | O => first
  | S fuel' =>
      if (len =? 0)%nat then first
      else
        let half := (len / 2)%nat in
        let middle := (first + half)%nat in
        match l !! middle with
        | Some y =>
            if klt x y then upper_bound_loop fuel' l x first half
            else upper_bound_loop fuel' l x (S middle) (len - half - 1)%nat
        | None => first
        end
  end.

Definition upper_bound (l : list K) (x : K) : nat :=
  upper_bound_loop (length l) l x 0 (length l).

(** [std::lower_bound]. *)
Fixpoint lower_bound_loop (fuel : nat) (l : list K) (x : K) (first len : nat) : nat :=
  match fuel with
  | O => first
  | S fuel' =>
      if (len =? 0)%nat then first
      else
        let half := (len / 2)%nat in
        let middle := (first + half)%nat in
        match l !! middle with
        | Some y =>
            if klt y x then lower_bound_loop fuel' l x (S middle) (len - half - 1)%nat
            else lower_bound_loop fuel' l x first half
        | None => first
        end
  end.

Definition lower_bound (l : list K) (x : K) : nat :=
  lower_bound_loop (length l) l x 0 (length l).
End Bounds.

(** ** The tree: [include/BPlusTree4.h] *)

(** Addresses of store cells. *)
Abbreviation addr := nat (only parsing).

Section Tree.
Context {K V : Type} `{KeyOps K}.
(** [ValueType()], the value-initialised value [search] falls back on. *)
Context (default_value : V).
(** Fuel handed to every loop and recursive call. *)
Context (gas : nat).

(** [struct Node]. *)
Record Node := mkNode {
  isLeaf : bool;
  keys : list K;
  children : list addr;
  values : list (list V);
  next : option addr;
  subtree_size : Z;
}.

(** [class BPlusTree]: the store of nodes, [root] and [order]. *)
Record BPlusTree := mkTree {
  heap : list (option Node);
  root : option addr;
  order : Z;
}.

Definition with_keys (ks : list K) (n : Node) : Node :=
  mkNode (isLeaf n) ks (children n) (values n) (next n) (subtree_size n).
Definition with_children (cs : list addr) (n : Node) : Node :=
  mkNode (isLeaf n) (keys n) cs (values n) (next n) (subtree_size n).
Definition with_values (vs : list (list V)) (n : Node) : Node :=
  mkNode (isLeaf n) (keys n) (children n) vs (next n) (subtree_size n).
Definition with_next (p : option addr) (n : Node) : Node :=
  mkNode (isLeaf n) (keys n) (children n) (values n) p (subtree_size n).
Definition with_size (z : Z) (n : Node) : Node :=
  mkNode (isLeaf n) (keys n) (children n) (values n) (next n) z.

(** [*p] for a non-null [p]. *)
Definition load (h : list (option Node)) (a : addr) : outcome Node :=
  match h !! a with
  | Some (Some n) => Done n
  | _ => Undefined Dangling
  end.

(** [*p] for any [p]. *)
Definition deref (h : list (option Node)) (p : option addr) : outcome Node :=
  match p with
  | Some a => load h a
  | None => Undefined NullPointer
  end.

Definition get_node (a : addr) : St BPlusTree Node :=
  sread (λ t, load (heap t) a).

Definition get_ptr (p : option addr) : St BPlusTree (addr * Node) :=
  sread (λ t, n ← deref (heap t) p; Done (default 0%nat p, n)).

Definition put_node (a : addr) (n : Node) : St BPlusTree unit :=
  λ t, Done (tt, mkTree (<[a := Some n]> (heap t)) (root t) (order t)).

Definition get_root : St BPlusTree (option addr) := λ t, Done (root t, t).
Definition set_root (p : option addr) : St BPlusTree unit :=
  λ t, Done (tt, mkTree (heap t) p (order t)).
Definition get_order : St BPlusTree Z := λ t, Done (order t, t).

(** [new Node(leaf)]: a fresh cell, [next = nullptr], [subtree_size = 0]. *)
Definition new_Node (leaf : bool) : St BPlusTree addr :=
  λ t, Done (length (heap t),
             mkTree (heap t ++ [Some (mkNode leaf [] [] [] None 0)]) (root t) (order t)).

Definition release (a : addr) : St BPlusTree unit :=
  λ t, Done (tt, mkTree (<[a := None]> (heap t)) (root t) (order t)).

(** [delete p] for a non-null [p]: [~Node] deletes every child of an
    internal node, then the cell goes. *)
Fixpoint delete_Node (fuel : nat) (a : addr) : St BPlusTree unit :=
  match fuel with
  | O => sfail NoFuel
  | S fuel' =>
      n ← get_node a;
      (if isLeaf n then mret tt
       else foldr (λ c rest, delete_Node fuel' c;; rest) (mret tt) (children n));;
      release a
  end.

Definition ptr_eqb (p q : option addr) : bool := bool_decide (p = q).

(** The [for] loop of [findParent] over the children of [current];
    [below] is [findParent] on a child. *)
Fixpoint findParent_children (below : addr → outcome (option addr))
    (current child : option addr) (cs : list addr) : outcome (option addr) :=
  match cs with
  | [] => Done None
  | ci :: cs' =>
      if ptr_eqb (Some ci) child then Done current
      else
        parent ← below ci;
        match parent with
        | Some _ => Done parent
        | None => findParent_children below current child cs'
        end
  end.

(** [findParent(current, child)]. *)
Fixpoint findParent (fuel : nat) (h : list (option Node))
    (current child : option addr) : outcome (option addr) :=
  match fuel with
  | 0%nat => NoFuel
  | S fuel' =>
      match current with
      | None => Done None
      | Some c =>
          n ← load h c;
          if isLeaf n then Done None
          else findParent_children (λ ci, findParent fuel' h (Some ci) child)
                 current child (children n)
      end
  end.

(** The sum of the [subtree_size] fields of the nodes [cs] point to. *)
Fixpoint sum_child_sizes (h : list (option Node)) (cs : list addr) (count : Z) : outcome Z :=
  match cs with
  | [] => Done count
  | c :: cs' => n ← load h c; sum_child_sizes h cs' (int32 (count + subtree_size n))
  end.

Definition sum_value_sizes (vs : list (list V)) : Z :=
  foldl (λ count valVec, int32 (count + Z.of_nat (length valVec))) 0%Z vs.

(** [updateSubtreeSize(node)]. *)
Definition updateSubtreeSize (node : option addr) : St BPlusTree unit :=
  match node with
  | None => mret tt
  | Some a =>
      n ← get_node a;
      if isLeaf n then put_node a (with_size (sum_value_sizes (values n)) n)
      else
        count ← sread (λ t, sum_child_sizes (heap t) (children n) 0);
        put_node a (with_size count n)
  end.

(** [updateSubtreeSizesUpwards(node)]. *)
Fixpoint updateSubtreeSizesUpwards_loop (fuel : nat) (node : option addr) : St BPlusTree unit :=
  match fuel with
  | O => sfail NoFuel
  | S fuel' =>
      match node with
      | None => mret tt
      | Some _ =>
          updateSubtreeSize node;;
          parent ← sread (λ t, findParent gas (heap t) (root t) node);
          updateSubtreeSizesUpwards_loop fuel' parent
      end
  end.

Definition updateSubtreeSizesUpwards (node : option addr) : St BPlusTree unit :=
  updateSubtreeSizesUpwards_loop gas node.

(** The loop [while (!leaf->isLeaf) leaf = leaf->children[upper_bound(key)]]
    that [insert], [search], [searchAll] and [rangeQuery] start with. *)
Fixpoint descend (fuel : nat) (h : list (option Node)) (current : addr) (key : K) : outcome addr :=
  match fuel with
  | 0%nat => NoFuel
  | S fuel' =>
      n ← load h current;
      if isLeaf n then Done current
      else
        c ← at_ (children n) (upper_bound (keys n) key);
        descend fuel' h c key
  end.

(** [it != keys.end() && *it == key] for [it = keys.begin() + index]. *)
Definition found_at (ks : list K) (index : nat) (key : K) : bool :=
  match ks !! index with
  | Some k => keq k key
  | None => false
  end.

(** [splitInternal(internal)], with the call back into [insertInternal]
    passed in as [insertInternal_rec]. *)
Definition splitInternal_body
    (insertInternal_rec : K → option addr → addr → St BPlusTree unit)
    (internal : addr) : St BPlusTree unit :=
  n ← get_node internal;
  let mid := (length (keys n) / 2)%nat in
  newInternal ← new_Node false;
  upKey ← sfail (at_ (keys n) mid);
  if bool_decide (length (keys n) < S mid ∨ length (children n) < S mid)%nat
  then sfail (Undefined OutOfRange)
  else
    put_node newInternal
      (mkNode false (drop (S mid) (keys n)) (drop (S mid) (children n)) [] None 0);;
    put_node internal (with_children (take (S mid) (children n)) (with_keys (take mid (keys n)) n));;
    updateSubtreeSize (Some internal);;
    updateSubtreeSize (Some newInternal);;
    r ← get_root;
    if ptr_eqb (Some internal) r then
      newRoot ← new_Node false;
      put_node newRoot (mkNode false [upKey] [internal; newInternal] [] None 0);;
      updateSubtreeSize (Some newRoot);;
      set_root (Some newRoot);;
      updateSubtreeSizesUpwards (Some newRoot)
    else
      parent ← sread (λ t, findParent gas (heap t) (root t) (Some internal));
      insertInternal_rec upKey parent newInternal.

(** [insertInternal(key, current, child)]. *)
Fixpoint insertInternal_loop (fuel : nat) (key : K) (current : option addr) (child : addr)
    : St BPlusTree unit :=
  match fuel with
  | O => sfail NoFuel
  | S fuel' =>
      '(c, n) ← get_ptr current;
      let index := upper_bound (keys n) key in
      if bool_decide (length (children n) < S index)%nat then sfail (Undefined OutOfRange)
      else
        put_node c (with_children (insert_at (S index) child (children n))
                      (with_keys (insert_at index key (keys n)) n));;
        ord ← get_order;
        if (ord <=? Z.of_nat (S (length (keys n))))%Z
        then splitInternal_body (insertInternal_loop fuel') c
        else updateSubtreeSizesUpwards current
  end.

Definition insertInternal : K → option addr → addr → St BPlusTree unit :=
  insertInternal_loop gas.

Definition splitInternal : addr → St BPlusTree unit :=
  splitInternal_body insertInternal.

(** [splitLeaf(leaf)]. *)
Definition splitLeaf (leaf : addr) : St BPlusTree unit :=
  ord ← get_order;
  let mid := Z.to_nat (int32 (ord + 1) ÷ 2) in
  newLeaf ← new_Node true;
  l ← get_node leaf;
  if bool_decide (length (keys l) < mid ∨ length (values l) < mid)%nat
  then sfail (Undefined OutOfRange)
  else
    put_node newLeaf (mkNode true (drop mid (keys l)) [] (drop mid (values l)) (next l) 0);;
    put_node leaf
      (with_next (Some newLeaf) (with_values (take mid (values l)) (with_keys (take mid (keys l)) l)));;
    newKey ← sfail (at_ (drop mid (keys l)) 0);
    updateSubtreeSize (Some leaf);;
    updateSubtreeSize (Some newLeaf);;
    r ← get_root;
    if ptr_eqb (Some leaf) r then
      newRoot ← new_Node false;
      put_node newRoot (mkNode false [newKey] [leaf; newLeaf] [] None 0);;
      updateSubtreeSize (Some newRoot);;
      set_root (Some newRoot);;
      updateSubtreeSizesUpwards (Some newRoot)
    else
      parent ← sread (λ t, findParent gas (heap t) (root t) (Some leaf));
      insertInternal newKey parent newLeaf.

(** [insert(key, value)].  There is no check of [root] before
    [leaf->isLeaf] is read. *)
Definition insert (key : K) (value : V) : St BPlusTree unit :=
  leaf ← sread (λ t, match root t with
                     | None => Undefined NullPointer
                     | Some r => descend gas (heap t) r key
                     end);
  n ← get_node leaf;
  let index := lower_bound (keys n) key in
  (if found_at (keys n) index key then
     vals ← sfail (at_ (values n) index);
     put_node leaf (with_values (<[index := vals ++ [value]]> (values n)) n)
   else if bool_decide (length (values n) < index)%nat then sfail (Undefined OutOfRange)
   else
     put_node leaf (with_values (insert_at index [value] (values n))
                      (with_keys (insert_at index key (keys n)) n)));;
  n' ← get_node leaf;
  ord ← get_order;
  if (ord <=? Z.of_nat (length (keys n')))%Z then splitLeaf leaf
  else updateSubtreeSizesUpwards (Some leaf).

(** The constructor [BPlusTree(order)]. *)
Definition BPlusTree_new (order : Z) : outcome BPlusTree :=
  if (order <? 3)%Z then Throw InvalidArgument
  else
    '(_, t) ← (r ← new_Node true; set_root (Some r);; updateSubtreeSize (Some r))
               (mkTree [] None order);
    Done t.

(** [search(key)]. *)
Definition search (key : K) (t : BPlusTree) : outcome V :=
  match root t with
  | None => Done default_value
  | Some r =>
      current ← descend gas (heap t) r key;
      n ← load (heap t) current;
      let index := lower_bound (keys n) key in
      if found_at (keys n) index key then
        vals ← at_ (values n) index;
        Done (match vals with [] => default_value | v :: _ => v end)
      else Done default_value
  end.

(** [searchAll(key)]: the values the returned pointer points to, or
    [None] for [nullptr]. *)
Definition searchAll (key : K) (t : BPlusTree) : outcome (option (list V)) :=
  match root t with
  | None => Done None
  | Some r =>
      current ← descend gas (heap t) r key;
      n ← load (heap t) current;
      let index := lower_bound (keys n) key in
      if found_at (keys n) index key then
        vals ← at_ (values n) index;
        Done (Some vals)
      else Done None
  end.

(** The descent of [remove], which records the nodes it leaves in [path]. *)
Fixpoint descend_path (fuel : nat) (h : list (option Node)) (leaf : addr) (key : K)
    (path : list addr) : outcome (list addr * addr) :=
  match fuel with
  | 0%nat => NoFuel
  | S fuel' =>
      n ← load h leaf;
      if isLeaf n then Done (path, leaf)
      else
        c ← at_ (children n) (upper_bound (keys n) key);
        descend_path fuel' h c key (path ++ [leaf])
  end.

(** The first [j] with [cs[j] == a]. *)
Fixpoint index_of (a : addr) (cs : list addr) : option nat :=
  match cs with
  | [] => None
  | c :: cs' => if bool_decide (c = a) then Some 0%nat else S <$> index_of a cs'
  end.

(** The loop of [remove] that walks [path] from its last internal node
    back to the root looking for [leaf] among the children; [rpath] is
    that part of [path], reversed. *)
Fixpoint find_in_path (h : list (option Node)) (rpath : list addr) (leaf : addr)
    (parent : option addr) : outcome (option addr * Z) :=
  match rpath with
  | [] => Done (parent, (-1)%Z)
  | p :: rest =>
      n ← load h p;
      match index_of leaf (children n) with
      | Some j => Done (Some p, Z.of_nat j)
      | None => find_in_path h rest leaf (Some p)
      end
  end.

(** [v.back()]. *)
Definition back {A} (l : list A) : outcome A :=
  match last l with
  | Some x => Done x
  | None => Undefined OutOfRange
  end.

(** [borrowFromLeftLeaf(leaf, leftSibling, parent, index)]. *)
Definition borrowFromLeftLeaf (leaf leftSibling parent : addr) (index : Z) : St BPlusTree unit :=
  ls ← get_node leftSibling;
  k ← sfail (back (keys ls));
  l ← get_node leaf;
  put_node leaf (with_keys (k :: keys l) l);;
  ls ← get_node leftSibling;
  v ← sfail (back (values ls));
  l ← get_node leaf;
  put_node leaf (with_values (v :: values l) l);;
  ls ← get_node leftSibling;
  put_node leftSibling
    (with_values (removelast (values ls)) (with_keys (removelast (keys ls)) ls));;
  l ← get_node leaf;
  front ← sfail (at_ (keys l) 0);
  p ← get_node parent;
  if bool_decide (0 ≤ index - 1 < Z.of_nat (length (keys p)))%Z then
    put_node parent (with_keys (<[Z.to_nat (index - 1) := front]> (keys p)) p);;
    updateSubtreeSizesUpwards (Some leaf)
  else sfail (Undefined OutOfRange).

(** [borrowFromRightLeaf(leaf, rightSibling, parent, index)]. *)
Definition borrowFromRightLeaf (leaf rightSibling parent : addr) (index : Z) : St BPlusTree unit :=
  rs ← get_node rightSibling;
  k ← sfail (at_ (keys rs) 0);
  l ← get_node leaf;
  put_node leaf (with_keys (keys l ++ [k]) l);;
  rs ← get_node rightSibling;
  v ← sfail (at_ (values rs) 0);
  l ← get_node leaf;
  put_node leaf (with_values (values l ++ [v]) l);;
  rs ← get_node rightSibling;
  put_node rightSibling (with_values (erase_at 0 (values rs)) (with_keys (erase_at 0 (keys rs)) rs));;
  rs ← get_node rightSibling;
  front ← sfail (at_ (keys rs) 0);
  p ← get_node parent;
  if bool_decide (0 ≤ index < Z.of_nat (length (keys p)))%Z then
    put_node parent (with_keys (<[Z.to_nat index := front]> (keys p)) p);;
    updateSubtreeSizesUpwards (Some leaf)
  else sfail (Undefined OutOfRange).

(** [mergeLeaf(left, right, parent, index)].  When [parent] is the root
    and loses its last key, [root = left] is followed by [delete parent],
    and [parent->children] still holds [left]. *)
Definition mergeLeaf (left right parent : addr) (index : Z) : St BPlusTree unit :=
  r ← get_node right;
  l ← get_node left;
  put_node left (with_next (next r) (with_values (values l ++ values r) (with_keys (keys l ++ keys r) l)));;
  p ← get_node parent;
  if bool_decide (0 ≤ index < Z.of_nat (length (keys p))
                  ∧ index + 1 < Z.of_nat (length (children p)))%Z then
    put_node parent (with_children (erase_at (S (Z.to_nat index)) (children p))
                       (with_keys (erase_at (Z.to_nat index) (keys p)) p));;
    delete_Node gas right;;
    updateSubtreeSize (Some left);;
    updateSubtreeSize (Some parent);;
    rt ← get_root;
    p ← get_node parent;
    (if ptr_eqb (Some parent) rt && bool_decide (keys p = [])
     then set_root (Some left);; delete_Node gas parent
     else mret tt);;
    updateSubtreeSizesUpwards (Some left)
  else sfail (Undefined OutOfRange).

(** [remove(key)]. *)
Definition remove (key : K) : St BPlusTree unit :=
  rt ← get_root;
  match rt with
  | None => mret tt
  | Some r =>
      '(path, leaf) ← sread (λ t, descend_path gas (heap t) r key []);
      n ← get_node leaf;
      let index := lower_bound (keys n) key in
      if negb (found_at (keys n) index key) then mret tt
      else
        put_node leaf (with_values (erase_at index (values n)) (with_keys (erase_at index (keys n)) n));;
        n ← get_node leaf;
        if ptr_eqb (Some leaf) rt && bool_decide (keys n = []) then
          delete_Node gas r;;
          set_root None
        else
          ord ← get_order;
          let minKeys := (int32 (ord - 1) ÷ 2)%Z in
          if (Z.of_nat (length (keys n)) <? minKeys)%Z && negb (ptr_eqb (Some leaf) rt) then
            '(parent, indexInParent) ← sread (λ t, find_in_path (heap t) (reverse path) leaf None);
            '(pa, p) ← get_ptr parent;
            let nchildren := Z.of_nat (length (children p)) in
            borrowed ←
              (if (0 <? indexInParent)%Z then
                 leftSibling ← sfail (at_ (children p) (Z.to_nat (indexInParent - 1)));
                 ls ← get_node leftSibling;
                 if (minKeys <? Z.of_nat (length (keys ls)))%Z then
                   borrowFromLeftLeaf leaf leftSibling pa indexInParent;;
                   updateSubtreeSizesUpwards (Some leaf);;
                   mret true
                 else mret false
               else mret false);
            if borrowed : bool then mret tt
            else
              borrowed ←
                (if (indexInParent <? nchildren - 1)%Z then
                   rightSibling ← sfail (at_ (children p) (Z.to_nat (indexInParent + 1)));
                   rs ← get_node rightSibling;
                   if (minKeys <? Z.of_nat (length (keys rs)))%Z then
                     borrowFromRightLeaf leaf rightSibling pa indexInParent;;
                     updateSubtreeSizesUpwards (Some leaf);;
                     mret true
                   else mret false
                 else mret false);
              if borrowed : bool then mret tt
              else if (0 <? indexInParent)%Z then
                leftSibling ← sfail (at_ (children p) (Z.to_nat (indexInParent - 1)));
                mergeLeaf leftSibling leaf pa (indexInParent - 1);;
                updateSubtreeSizesUpwards (Some leftSibling)
              else if (indexInParent <? nchildren - 1)%Z then
                rightSibling ← sfail (at_ (children p) (Z.to_nat (indexInParent + 1)));
                mergeLeaf leaf rightSibling pa indexInParent;;
                updateSubtreeSizesUpwards (Some leaf)
              else mret tt
          else updateSubtreeSizesUpwards (Some leaf)
  end.

(** The loop [for (i = 0; i < idx; i++) count += values[i].size()]. *)
Fixpoint count_values (vs : list (list V)) (i : nat) (idx : nat) (count : Z) : outcome Z :=
  match idx with
  | O => Done count
  | S idx' =>
      vals ← at_ vs i;
      count_values vs (S i) idx' (int32 (count + Z.of_nat (length vals)))
  end.

(** The loop [for (c = 0; c < i; c++) count += children[c]->subtree_size]. *)
Fixpoint count_children (h : list (option Node)) (cs : list addr) (c : nat) (i : nat)
    (count : Z) : outcome Z :=
  match i with
  | O => Done count
  | S i' =>
      a ← at_ cs c;
      n ← load h a;
      count_children h cs (S c) i' (int32 (count + subtree_size n))
  end.

(** [countLessOrEqualRecursive(node, x)]. *)
Fixpoint countLessOrEqualRecursive (fuel : nat) (h : list (option Node))
    (node : option addr) (x : K) : outcome Z :=
  match fuel with
  | 0%nat => NoFuel
  | S fuel' =>
      match node with
      | None => Done 0%Z
      | Some a =>
          n ← load h a;
          if isLeaf n then count_values (values n) 0 (upper_bound (keys n) x) 0
          else
            let i := upper_bound (keys n) x in
            count ← count_children h (children n) 0 i 0;
            match children n !! i with
            | Some c =>
                below ← countLessOrEqualRecursive fuel' h (Some c) x;
                Done (int32 (count + below))
            | None => Done count
            end
      end
  end.

(** [countLessOrEqual(x)]. *)
Definition countLessOrEqual (x : K) (t : BPlusTree) : outcome Z :=
  countLessOrEqualRecursive gas (heap t) (root t) x.

(** [countInRange(Smin, Smax)]. *)
Definition countInRange (Smin Smax : K) (t : BPlusTree) : outcome Z :=
  match root t with
  | None => Done 0%Z
  | Some _ =>
      highCount ← countLessOrEqual Smax t;
      lowCount ← (if klt klowest Smin then countLessOrEqual (kpred1 Smin) t else Done 0%Z);
      Done (int32 (highCount - lowCount))
  end.

(** The [for] loop of [rangeQuery] over one leaf; the flag tells whether
    it hit [key > Smax] and returned. *)
Fixpoint scan_leaf (ks : list K) (vs : list (list V)) (i : nat) (Smin Smax : K)
    (results : list V) : outcome (list V * bool) :=
  match ks with
  | [] => Done (results, false)
  | key :: ks' =>
      if klt Smax key then Done (results, true)
      else if kle Smin key && kle key Smax then
        vals ← at_ vs i;
        scan_leaf ks' vs (S i) Smin Smax (results ++ vals)
      else scan_leaf ks' vs (S i) Smin Smax results
  end.

(** The [while (current != nullptr)] loop of [rangeQuery]. *)
Fixpoint walk_leaves (fuel : nat) (h : list (option Node)) (current : option addr)
    (Smin Smax : K) (results : list V) : outcome (list V) :=
  match fuel with
  | 0%nat => NoFuel
  | S fuel' =>
      match current with
      | None => Done results
      | Some a =>
          n ← load h a;
          '(results', stop) ← scan_leaf (keys n) (values n) 0 Smin Smax results;
          if stop : bool then Done results'
          else walk_leaves fuel' h (next n) Smin Smax results'
      end
  end.

(** [rangeQuery(Smin, Smax)]. *)
Definition rangeQuery (Smin Smax : K) (t : BPlusTree) : outcome (list V) :=
  match root t with
  | None => Done []
  | Some r =>
      current ← descend gas (heap t) r Smin;
      walk_leaves gas (heap t) (Some current) Smin Smax []
  end.

End Tree.

Arguments Node : clear implicits.
Arguments BPlusTree : clear implicits.

(** ** Key types *)

(** [int] keys. *)
Global Instance int_keys : KeyOps Z := {|
  klt := Z.ltb;
  kle := Z.leb;
  keq := Z.eqb;
  kpred1 := λ x, int32 (x - 1);
  klowest := (-2147483648)%Z;
|}.

(** [float] scalars: IEEE-754 binary32. *)
Definition f32_of_Z (z : Z) : spec_float := binary_normalize 24 128 z 0 false.
Definition f32_add : spec_float → spec_float → spec_float := SFadd 24 128.
Definition f32_sub : spec_float → spec_float → spec_float := SFsub 24 128.
Definition f32_mul : spec_float → spec_float → spec_float := SFmul 24 128.
Definition f32_div : spec_float → spec_float → spec_float := SFdiv 24 128.

(** [float] keys, as in [BPlusTree<float, int>]: [Smin - 1] is a float
    subtraction and [lowest()] is [-FLT_MAX]. *)
Global Instance float_keys : KeyOps spec_float := {|
  klt := SFltb;
  kle := SFleb;
  keq := SFeqb;
  kpred1 := λ x, f32_sub x (f32_of_Z 1);
  klowest := SFopp (SFmax_float 24 128);
|}.

(** [double]: IEEE-754 binary64, the kernel's primitive floats. *)
(** [static_cast<double>(z)] for an [int] [z]: exact. *)
Definition f64_of_Z (z : Z) : float :=
  if (z <? 0)%Z then PrimFloat.opp (PrimFloat.of_uint63 (Uint63.of_Z (- z)))
  else PrimFloat.of_uint63 (Uint63.of_Z z).
Definition f64_add : float → float → float := PrimFloat.add.
Definition f64_sub : float → float → float := PrimFloat.sub.
Definition f64_mul : float → float → float := PrimFloat.mul.
Definition f64_div : float → float → float := PrimFloat.div.
Definition f64_ltb : float → float → bool := PrimFloat.ltb.
Definition f64_leb : float → float → bool := PrimFloat.leb.

(** ** The candidate-size chooser: [include/probabilisticVectorIndex.h] *)

Section Chooser.
(** [std::pow(double, int)], from the C library. *)
Context (pow : float → Z → float).
Context (gas : nat).

(** The loop [for (i = 1; i <= kk; i++) result = result * (n - (kk - i)) / i]
    of [binomialCoefficient], [steps] iterations still to run. *)
Fixpoint binomialCoefficient_loop (steps : nat) (n kk i : Z) (result : float) : float :=
  match steps with
  | O => result
  | S steps' =>
      binomialCoefficient_loop steps' n kk (int32 (i + 1))
        (f64_div (f64_mul result (f64_of_Z (int32 (n - int32 (kk - i))))) (f64_of_Z i))
  end.

(** [binomialCoefficient(n, k)]. *)
Definition binomialCoefficient (n k : Z) : float :=
  if (n <? k)%Z then f64_of_Z 0
  else if (k =? 0)%Z || (k =? n)%Z then f64_of_Z 1
  else
    let kk := if (k <? int32 (n - k))%Z then k else int32 (n - k) in
    binomialCoefficient_loop (Z.to_nat kk) n kk 1 (f64_of_Z 1).

(** [binomialPMF(n, k, p)]. *)
Definition binomialPMF (n k : Z) (p : float) : float :=
  if f64_ltb p (f64_of_Z 0) || f64_ltb (f64_of_Z 1) p then f64_of_Z 0
  else
    let c := binomialCoefficient n k in
    let pk := pow p k in
    let pmk := pow (f64_sub (f64_of_Z 1) p) (int32 (n - k)) in
    f64_mul (f64_mul c pk) pmk.

(** The loop [for (i = 0; i < k; i++) sumProb += binomialPMF(n, i, p)]. *)
Fixpoint binomialCDFLessThan_loop (steps : nat) (n i : Z) (p sumProb : float) : float :=
  match steps with
  | O => sumProb
  | S steps' =>
      binomialCDFLessThan_loop steps' n (int32 (i + 1)) p (f64_add sumProb (binomialPMF n i p))
  end.

(** [binomialCDFLessThan(n, k, p)]. *)
Definition binomialCDFLessThan (n k : Z) (p : float) : float :=
  binomialCDFLessThan_loop (Z.to_nat k) n 0 p (f64_of_Z 0).

(** The test [binomialCDFLessThan(O, k, p) <= alpha] both searches make,
    with [p = static_cast<double>(S) / M]. *)
Definition enough (M S k : Z) (alpha : float) (O : Z) : bool :=
  f64_leb (binomialCDFLessThan O k (f64_div (f64_of_Z S) (f64_of_Z M))) alpha.

(** The [while (O <= M)] loop of [computeRequiredO_Linear]. *)
Fixpoint computeRequiredO_Linear_loop (fuel : nat) (M S k : Z) (alpha : float) (O : Z)
    : outcome Z :=
  match fuel with
  | 0%nat => NoFuel
  | S fuel' =>
      if (O <=? M)%Z then
        if enough M S k alpha O then Done O
        else computeRequiredO_Linear_loop fuel' M S k alpha (int32 (O + 1))
      else Done M
  end.

(** [computeRequiredO_Linear(M, S, k, alpha)]. *)
Definition computeRequiredO_Linear (M S k : Z) (alpha : float) : outcome Z :=
  if (k <=? 0)%Z then Done 0%Z
  else if (S <=? 0)%Z then Done k
  else if (M <=? S)%Z then Done k
  else if f64_leb alpha (f64_of_Z 0) then Done k
  else computeRequiredO_Linear_loop gas M S k alpha k.

(** The [while (left <= right)] loop of [computeRequiredO_BinarySearch]. *)
Fixpoint computeRequiredO_BinarySearch_loop (fuel : nat) (M S k : Z) (alpha : float)
    (left right best : Z) : outcome Z :=
  match fuel with
  | 0%nat => NoFuel
  | S fuel' =>
      if (left <=? right)%Z then
        let mid := (int32 (left + right) ÷ 2)%Z in
        if enough M S k alpha mid
        then computeRequiredO_BinarySearch_loop fuel' M S k alpha left (int32 (mid - 1)) mid
        else computeRequiredO_BinarySearch_loop fuel' M S k alpha (int32 (mid + 1)) right best
      else Done best
  end.

(** [computeRequiredO_BinarySearch(M, S, k, alpha)]. *)
Definition computeRequiredO_BinarySearch (M S k : Z) (alpha : float) : outcome Z :=
  if (k <=? 0)%Z then Done 0%Z
  else if (S <=? 0)%Z then Done k
  else if (M <=? S)%Z then Done k
  else if f64_leb alpha (f64_of_Z 0) then Done k
  else computeRequiredO_BinarySearch_loop gas M S k alpha k M M.

(** [computeRequiredO_Enhanced(M, S, k, alpha)]. *)
Definition computeRequiredO_Enhanced (M S k : Z) (alpha : float) : outcome Z :=
  O ← computeRequiredO_BinarySearch M S k alpha;
  Done (int32 (O + 100)).

End Chooser.

(** Powers by repeated squaring, standing in for [std::pow] where a
    concrete value is needed: it is used at base [0.5] only, every power of
    which is a power of two or underflows to zero, so that rounding never
    enters. *)
Fixpoint pow_pos (x : float) (n : positive) : float :=
  match n with
  | xH => x
  | xO n' => let y := pow_pos x n' in f64_mul y y
  | xI n' => let y := pow_pos x n' in f64_mul x (f64_mul y y)
  end.

Definition pow_int (x : float) (n : Z) : float :=
  match n with
  | Z0 => f64_of_Z 1
  | Zpos n' => pow_pos x n'
  | Zneg n' => f64_div (f64_of_Z 1) (pow_pos x n')
  end.

(** ** The planners: [include/vectorIndex.h] and
    [include/probabilisticVectorIndex.h] *)

(** The graph index of hnswlib, kept as what was handed to it: the points
    added, with their labels, the search effort last set and the capacity
    it was created with. *)
Record Hnsw := mkHnsw {
  points : list (list spec_float * Z);
  ef : Z;
  max_elements : Z;
}.

(** The state shared by [class VectorIndex] and
    [class ProbabilisticVectorIndex]: both declare the same members.
    [hnswIndex] is [None] for [nullptr]. *)
Record VectorIndex := mkIndex {
  tree : BPlusTree spec_float Z;
  dataVectors : list (list spec_float);
  sValues : list spec_float;
  dimension : Z;
  hnswIndex : option Hnsw;
}.

Definition hnswEfSearch : Z := 200.

(** [size_t maxElements = 100000] of [insert]. *)
Definition maxElements : Z := 100000.

(** [HierarchicalNSW::addPoint(data, label)] with a label not yet in the
    index; it throws [std::runtime_error] once the index holds
    [max_elements] points. *)
Definition addPoint (hn : Hnsw) (vec : list spec_float) (label : Z) : outcome Hnsw :=
  if (max_elements hn <=? Z.of_nat (length (points hn)))%Z then Throw RuntimeError
  else Done (mkHnsw (points hn ++ [(vec, label)]) (ef hn) (max_elements hn)).

(** [v[idx]] for an [int] index. *)
Definition at_int {A} (l : list A) (idx : Z) : outcome A :=
  if (idx <? 0)%Z then Undefined OutOfRange else at_ l (Z.to_nat idx).

(** The loop of [euclideanDistSquared(a, b)] over the positions of [a]. *)
Fixpoint euclideanDistSquared_loop (a b : list spec_float) (i : nat) (dist : spec_float)
    : outcome spec_float :=
  match a with
  | [] => Done dist
  | ai :: a' =>
      bi ← at_ b i;
      let diff := f32_sub ai bi in
      euclideanDistSquared_loop a' b (S i) (f32_add dist (f32_mul diff diff))
  end.

(** [euclideanDistSquared(a, b)]. *)
Definition euclideanDistSquared (a b : list spec_float) : outcome spec_float :=
  euclideanDistSquared_loop a b 0 (f32_of_Z 0).

(** The comparator both planners hand to [std::sort]:
    [a.first < b.first]. *)
Definition by_distance (a b : spec_float * Z) : bool := SFltb a.1 b.1.

(** The loop that copies [distIndex[i].second] for [i < k]. *)
Definition top_k (k : Z) (distIndex : list (spec_float * Z)) : list Z :=
  take (Z.to_nat k) (map snd distIndex).

Section Planner.
(** [HierarchicalNSW::searchKnn(query, O)], the labels in the order the
    returned priority queue pops them. *)
Context (searchKnn : Hnsw → list spec_float → Z → list Z).
(** [std::sort] with a comparator. *)
Context (std_sort : (spec_float * Z → spec_float * Z → bool) →
                    list (spec_float * Z) → list (spec_float * Z)).
Context (pow : float → Z → float).
Context (gas : nat).

(** The constructor of both classes. *)
Definition VectorIndex_new (order : Z) : outcome VectorIndex :=
  t ← BPlusTree_new order;
  Done (mkIndex t [] [] 0 None).

(** [insert(vec, s)], the same text in both classes. *)
Definition VectorIndex_insert (vec : list spec_float) (s : spec_float) (ix : VectorIndex)
    : outcome VectorIndex :=
  if bool_decide (vec = []) then Throw InvalidArgument
  else
    '(dim, h) ←
      (if bool_decide (dataVectors ix = [])
       then Done (int32 (Z.of_nat (length vec)), Some (mkHnsw [] hnswEfSearch maxElements))
       else if bool_decide (int32 (Z.of_nat (length vec)) = dimension ix)
            then Done (dimension ix, hnswIndex ix)
            else Throw InvalidArgument);
    let idx := int32 (Z.of_nat (length (dataVectors ix))) in
    '(_, t) ← insert gas s idx (tree ix);
    hn ← (match h with
          | Some hn => addPoint hn vec idx
          | None => Undefined NullPointer
          end);
    Done (mkIndex t (dataVectors ix ++ [vec]) (sValues ix ++ [s]) dim (Some hn)).

(** The loop that pairs every candidate with its distance to [v]; with
    [filtered] it keeps the candidates whose scalar is in [Smin, Smax]. *)
Fixpoint rank_candidates (filtered : bool) (ix : VectorIndex) (v : list spec_float)
    (Smin Smax : spec_float) (candidates : list Z) (distIndex : list (spec_float * Z))
    : outcome (list (spec_float * Z)) :=
  match candidates with
  | [] => Done distIndex
  | idx :: rest =>
      keep ← (if filtered then
                sVal ← at_int (sValues ix) idx;
                Done (SFleb Smin sVal && SFleb sVal Smax)
              else Done true);
      if keep : bool then
        vec ← at_int (dataVectors ix) idx;
        dist ← euclideanDistSquared v vec;
        rank_candidates filtered ix v Smin Smax rest (distIndex ++ [(dist, idx)])
      else rank_candidates filtered ix v Smin Smax rest distIndex
  end.

(** [VectorIndex::query(v, k, Smin, Smax, O)]. *)
Definition VectorIndex_query (v : list spec_float) (k : Z) (Smin Smax : spec_float) (O : Z)
    (ix : VectorIndex) : outcome (list Z) :=
  match hnswIndex ix with
  | None => Done []
  | Some hn =>
      if bool_decide (dataVectors ix = []) then Done []
      else if negb (bool_decide (int32 (Z.of_nat (length v)) = dimension ix))
      then Throw InvalidArgument
      else
        count ← countInRange gas Smin Smax (tree ix);
        if (count <=? 0)%Z then Done []
        else if (count <? O)%Z then
          candidates ← rangeQuery gas Smin Smax (tree ix);
          distIndex ← rank_candidates false ix v Smin Smax candidates [];
          Done (top_k k (std_sort by_distance distIndex))
        else
          let annCandidates := reverse (searchKnn hn v O) in
          distIndex ← rank_candidates true ix v Smin Smax annCandidates [];
          Done (top_k k (std_sort by_distance distIndex))
  end.

(** [ProbabilisticVectorIndex::query(v, k, Smin, Smax, alpha)]; it sets
    the search effort of the graph index, so the index comes back too. *)
Definition ProbabilisticVectorIndex_query (v : list spec_float) (k : Z)
    (Smin Smax : spec_float) (alpha : float) (ix : VectorIndex)
    : outcome (list Z * VectorIndex) :=
  match hnswIndex ix with
  | None => Done ([], ix)
  | Some hn =>
      if bool_decide (dataVectors ix = []) then Done ([], ix)
      else if negb (bool_decide (int32 (Z.of_nat (length v)) = dimension ix))
      then Throw InvalidArgument
      else
        S ← countInRange gas Smin Smax (tree ix);
        if (S <=? 0)%Z then Done ([], ix)
        else
          let M := int32 (Z.of_nat (length (dataVectors ix))) in
          O ← computeRequiredO_Enhanced pow gas M S k alpha;
          let hn' := mkHnsw (points hn) (Z.max hnswEfSearch (int32 (O + 50)))
                       (max_elements hn) in
          let ix' := mkIndex (tree ix) (dataVectors ix) (sValues ix) (dimension ix) (Some hn') in
          let annCandidates := if (O <=? 0)%Z then [] else reverse (searchKnn hn' v O) in
          distIndex ← rank_candidates true ix v Smin Smax annCandidates [];
          let sorted := std_sort by_distance distIndex in
          if (k <? 0)%Z then Throw LengthError
          else Done (top_k k sorted, ix')
  end.

End Planner.

(** ** Stand-ins for the two library calls of the planners *)

(** The insertion sort of libstdc++ ([__insertion_sort]), which is what
    [std::sort] runs on ranges of at most sixteen elements.  [place_rev]
    is [__unguarded_linear_insert] on the reversed sorted prefix. *)
Fixpoint place_rev {A} (comp : A → A → bool) (val : A) (rprefix : list A) : list A :=
  match rprefix with
  | [] => [val]
  | y :: r => if comp val y then y :: place_rev comp val r else val :: rprefix
  end.

Definition insertion_step {A} (comp : A → A → bool) (sorted : list A) (val : A) : list A :=
  match sorted with
  | [] => [val]
  | first :: _ =>
      if comp val first then val :: sorted
      else reverse (place_rev comp val (reverse sorted))
  end.

Definition insertion_sort {A} (comp : A → A → bool) (l : list A) : list A :=
  foldl (insertion_step comp) [] l.

(** A graph index that answers with the first [O] labels it was given,
    whatever the query; the farthest comes first, as from the priority
    queue. *)
Definition first_labels (hn : Hnsw) (query : list spec_float) (O : Z) : list Z :=
  reverse (take (Z.to_nat O) (points hn).*2).

(** ** Running operations *)

Inductive op (K V : Type) :=
  | Insert (key : K) (value : V)
  | Remove (key : K).
Arguments Insert {K V} key value.
Arguments Remove {K V} key.

Section Run.
Context {K V : Type} `{KeyOps K}.
Context (gas : nat).

Definition run_op (o : op K V) : St (BPlusTree K V) unit :=
  match o with
  | Insert key value => insert gas key value
  | Remove key => remove gas key
  end.

Fixpoint run_ops (ops : list (op K V)) : St (BPlusTree K V) unit :=
  match ops with
  | [] => mret tt
  | o :: ops' => run_op o;; run_ops ops'
  end.

(** The tree after [BPlusTree(order)] and the calls [ops]. *)
Definition tree_after (order : Z) (ops : list (op K V)) : outcome (BPlusTree K V) :=
  t ← BPlusTree_new order;
  '(_, t') ← run_ops ops t;
  Done t'.

(** What the calls [ops] leave stored, as the specification has it: the
    (key, id) pairs inserted and not removed since, in insertion order. *)
Fixpoint stored (ops : list (op K V)) (pairs : list (K * V)) : list (K * V) :=
  match ops with
  | [] => pairs
  | Insert key value :: ops' => stored ops' (pairs ++ [(key, value)])
  | Remove key :: ops' => stored ops' (filter (λ p, keq p.1 key = false) pairs)
  end.

(** The ids stored under keys in [[Smin, Smax]]. *)
Definition ids_in_range (Smin Smax : K) (pairs : list (K * V)) : list V :=
  snd <$> filter (λ p, kle Smin p.1 = true ∧ kle p.1 Smax = true) pairs.

(** The number of (key, id) pairs in the leaves under node [a]. *)
Fixpoint pairs_under (fuel : nat) (h : list (option (Node K V))) (a : addr) : outcome Z :=
  match fuel with
  | 0%nat => NoFuel
  | S fuel' =>
      n ← load h a;
      if isLeaf n then Done (Z.of_nat (length (concat (values n))))
      else foldr (λ c rest, x ← pairs_under fuel' h c; y ← rest; Done (x + y)%Z)
                 (Done 0%Z) (children n)
  end.
End Run.

(** The index after [VectorIndex(order)] and one [insert] per record. *)
Definition index_after (gas : nat) (order : Z) (records : list (list spec_float * spec_float))
    : outcome VectorIndex :=
  ix ← VectorIndex_new order;
  foldl (λ acc r, ix ← acc; VectorIndex_insert gas r.1 r.2 ix) (Done ix) records.

(** ** What the planners rely on from the two library calls *)

(** [comp] is a strict weak ordering on the elements of [l], which is what
    [std::sort] requires of its comparator. *)
Definition strict_weak_on {A} (comp : A → A → bool) (l : list A) : Prop :=
  (∀ a, a ∈ l → comp a a = false)
  ∧ (∀ a b c, a ∈ l → b ∈ l → c ∈ l → comp a b = true → comp b c = true → comp a c = true)
  ∧ (∀ a b c, a ∈ l → b ∈ l → c ∈ l →
       comp a b = false → comp b a = false → comp b c = false → comp c b = false →
       comp a c = false ∧ comp c a = false).

(** [std::sort]: on a range its comparator orders strictly and weakly, the
    result is a permutation of the range in which no element is smaller
    than one before it. *)
Definition sort_contract {A}
    (sort : (A → A → bool) → list A → list A) : Prop :=
  ∀ comp l, strict_weak_on comp l →
    sort comp l ≡ₚ l ∧
    ∀ i j a b, sort comp l !! i = Some a → sort comp l !! j = Some b → (i < j)%nat →
      comp b a = false.

(** [searchKnn], on an index whose points have distinct labels: the
    labels it returns are labels of points that were added, each at most
    once. *)
Definition knn_contract (searchKnn : Hnsw → list spec_float → Z → list Z) : Prop :=
  ∀ hn query O, NoDup (points hn).*2 →
    NoDup (searchKnn hn query O) ∧ searchKnn hn query O ⊆ (points hn).*2.

(** ** Invariants of the tree under [insert] *)

(** Total correctness of a call: from a state in [P] it returns, in a
    state and with a value in [Q]. *)
Definition returns {S A} (P : S → Prop) (m : St S A) (Q : A → S → Prop) : Prop :=
  ∀ s, P s → ∃ a s', m s = Done (a, s') ∧ Q a s'.

Section Invariants.
Context {K V : Type} `{KeyOps K}.

(** A node without its counter: [isLeaf], [children], and how many keys
    and value lists it has. *)
Definition skel (h : list (option (Node K V))) (a : addr)
    : option (bool * list addr * nat * nat) :=
  match h !! a with
  | Some (Some n) => Some (isLeaf n, children n, length (keys n), length (values n))
  | _ => None
  end.

(** What a leaf holds: its keys, their value lists and [next]. *)
Definition leaf_view (h : list (option (Node K V))) (a : addr)
    : option (list K * list (list V) * option addr) :=
  match h !! a with
  | Some (Some n) => if isLeaf n then Some (keys n, values n, next n) else None
  | _ => None
  end.

(** [b] is [a] or below it. *)
Inductive reach (h : list (option (Node K V))) : addr → addr → Prop :=
  | reach_refl a : reach h a a
  | reach_step a cs nk nv c b :
      skel h a = Some (false, cs, nk, nv) → c ∈ cs → reach h c b → reach h a b.

(** Every live node sits on a level of at most [H]; a leaf has as many
    value lists as keys; an internal node has one child more than keys,
    and its children are live and one level down. *)
Definition shaped (lvl : addr → nat) (H : nat) (h : list (option (Node K V))) : Prop :=
  ∀ a leaf cs nk nv, skel h a = Some (leaf, cs, nk, nv) →
    (lvl a ≤ H)%nat ∧
    if leaf then nv = nk
    else length cs = S nk ∧ ∀ c, c ∈ cs → is_Some (skel h c) ∧ lvl a = S (lvl c).

(** The leaves of [chain] are live and each one's [next] is the one after
    it, the last one's being null. *)
Fixpoint linked (h : list (option (Node K V))) (chain : list addr) : Prop :=
  match chain with
  | [] => True
  | a :: rest => (∃ ks vs, leaf_view h a = Some (ks, vs, head rest)) ∧ linked h rest
  end.

(** [chain] lists the live leaves, each once, in the order of their
    [next] pointers. *)
Definition chained (h : list (option (Node K V))) (chain : list addr) : Prop :=
  NoDup chain ∧ (∀ a, is_Some (leaf_view h a) → a ∈ chain) ∧ linked h chain.

(** The (key, id) pairs of a leaf, in order. *)
Definition group_pairs (ks : list K) (vs : list (list V)) : list (K * V) :=
  concat (zip_with (λ k vals, (k,.) <$> vals) ks vs).

Definition pairs_at (h : list (option (Node K V))) (a : addr) : list (K * V) :=
  match leaf_view h a with
  | Some (ks, vs, _) => group_pairs ks vs
  | None => []
  end.

(** The pairs held along [chain]. *)
Definition pairs_of (h : list (option (Node K V))) (chain : list addr) : list (K * V) :=
  chain ≫= pairs_at h.

(** The pairs a range query may pick. *)
Definition in_range (Smin Smax : K) (p : K * V) : Prop :=
  kle Smin p.1 = true ∧ kle p.1 Smax = true.

(** What [findParent] answers for the child [x], looking from [c]: a
    node below [c] that has [x] among its children, or null when there is
    none. *)
Definition parent_found (h : list (option (Node K V))) (c x : addr) (r : option addr) : Prop :=
  match r with
  | Some p => ∃ cs nk nv, skel h p = Some (false, cs, nk, nv) ∧ x ∈ cs ∧ reach h c p
  | None => ∀ p cs nk nv, reach h c p → skel h p = Some (false, cs, nk, nv) → x ∉ cs
  end.

(** What [shaped] asks of the node [n] sitting at level [l]. *)
Definition fits (lvl : addr → nat) (h : list (option (Node K V))) (l : nat) (n : Node K V)
    : Prop :=
  if isLeaf n then length (values n) = length (keys n)
  else length (children n) = S (length (keys n))
       ∧ ∀ c, c ∈ children n → is_Some (skel h c) ∧ l = S (lvl c).

(** The levels once the fresh cell of [h] sits on level [l]. *)
Definition lvl_with (lvl : addr → nat) (h : list (option (Node K V))) (l : nat) : addr → nat :=
  λ x, if decide (x = length h) then l else lvl x.

(** [chain] with [y] put in after [x]. *)
Fixpoint insert_after (x y : addr) (chain : list addr) : list addr :=
  match chain with
  | [] => []
  | a :: rest => if decide (a = x) then a :: y :: rest else a :: insert_after x y rest
  end.

Record tree_inv (lvl : addr → nat) (H : nat) (chain : list addr) (t : BPlusTree K V) : Prop := {
  inv_order : (3 ≤ order t)%Z;
  inv_root : ∃ r, root t = Some r ∧ is_Some (skel (heap t) r);
  inv_shaped : shaped lvl H (heap t);
  inv_chained : chained (heap t) chain;
}.

(** Two states that differ in [subtree_size] fields at most. *)
Definition same_but_sizes (t t' : BPlusTree K V) : Prop :=
  root t' = root t ∧ order t' = order t
  ∧ (∀ a, skel (heap t') a = skel (heap t) a)
  ∧ (∀ a, leaf_view (heap t') a = leaf_view (heap t) a).

End Invariants.

(** ** Invariant of the index under [insert] *)

(** The key [k] a record sits under in the tree and its scalar [s]: the
    same, or equal for [==]. *)
Definition key_of (k s : spec_float) : Prop := k = s ∨ SFeqb k s = true.

(** What [insert] keeps true of the index: the tree is well shaped, the
    pairs in its leaves have distinct ids, each the index of a record
    whose scalar is the key; [sValues] and [dataVectors] have the same
    length; all stored vectors have the dimension of the index; the graph
    index holds the labels [0 .. M-1]. *)
Record index_inv (ix : VectorIndex) : Prop := {
  ix_tree : ∃ lvl H chain,
      tree_inv lvl H chain (tree ix)
      ∧ (H ≤ length (dataVectors ix))%nat
      ∧ (length chain ≤ S (length (dataVectors ix)))%nat
      ∧ NoDup (pairs_of (heap (tree ix)) chain).*2
      ∧ ∀ k id, (k, id) ∈ pairs_of (heap (tree ix)) chain →
          (0 ≤ id)%Z ∧ ∃ s, sValues ix !! Z.to_nat id = Some s ∧ key_of k s;
  ix_sizes : length (sValues ix) = length (dataVectors ix);
  ix_small : (Z.of_nat (length (dataVectors ix)) < 2147483648)%Z;
  ix_dim : ∀ vec, vec ∈ dataVectors ix → Z.of_nat (length vec) = dimension ix;
  ix_hnsw : dataVectors ix ≠ [] →
      ∃ hn, hnswIndex ix = Some hn
            ∧ (points hn).*2 = Z.of_nat <$> seq 0 (length (dataVectors ix))
            ∧ max_elements hn = maxElements;
}.

(** A query result [ids] for the bound [k] and the filter [[Smin, Smax]]
    is well formed: no id twice, at most [k] ids, each a record index
    whose stored scalar passes the filter. *)
Definition well_formed_result (ix : VectorIndex) (k : Z) (Smin Smax : spec_float)
    (ids : list Z) : Prop :=
  NoDup ids
  ∧ (Z.of_nat (length ids) ≤ Z.max 0 k)%Z
  ∧ ∀ id, id ∈ ids →
      (0 ≤ id < Z.of_nat (length (dataVectors ix)))%Z
      ∧ ∃ s, sValues ix !! Z.to_nat id = Some s ∧ SFleb Smin s = true ∧ SFleb s Smax = true.

(** No stored vector is at a NaN distance from [v]. *)
Definition distances_are_numbers (v : list spec_float) (vecs : list (list spec_float)) : Prop :=
  ∀ vec, vec ∈ vecs → euclideanDistSquared v vec ≠ Done S754_nan.

(** A float that is a number. *)
Definition not_nan (f : spec_float) : Prop := f ≠ S754_nan.

(** The distances of the ids [ids] from [v] never go down. *)
Definition ascending_distance (ix : VectorIndex) (v : list spec_float) (ids : list Z) : Prop :=
  ∀ i j a b da db, ids !! i = Some a → ids !! j = Some b → (i < j)%nat →
    (vec ← at_int (dataVectors ix) a; euclideanDistSquared v vec) = Done da →
    (vec ← at_int (dataVectors ix) b; euclideanDistSquared v vec) = Done db →
    SFltb db da = false.

(** ** What the chooser is to return *)

(** [r] is the smallest [O] in [[k, M]] that passes the test of the two
    searches, or [M] when none does. *)
Definition smallest_enough (pow : float → Z → float) (M S k : Z) (alpha : float) (r : Z) : Prop :=
  ((k ≤ r ≤ M)%Z ∧ enough pow M S k alpha r = true
   ∧ ∀ O, (k ≤ O < r)%Z → enough pow M S k alpha O = false)
  ∨ (r = M ∧ ∀ O, (k ≤ O ≤ M)%Z → enough pow M S k alpha O = false).


(** ** Concrete inputs *)

Definition fuel50 : nat := 50.

(** Order 3; 1, 2, 3 go in, 3 comes out: the right leaf underflows and
    borrows 2 from the left one. *)
Definition ops_borrow : list (op Z Z) :=
  [Insert 1 10; Insert 2 20; Insert 3 30; Remove 3]%Z.

(** Order 3; 1, 2, 3 go in, 1 and 2 come out: the left leaf underflows,
    the right one has nothing to lend, the two merge and the root loses
    its only key. *)
Definition ops_before_merge : list (op Z Z) :=
  [Insert 1 10; Insert 2 20; Insert 3 30; Remove 1]%Z.
Definition ops_merge : list (op Z Z) := ops_before_merge ++ [Remove 2%Z].

(** Order 4, as in [tests/Test6]: 1..4 go in, 1, 2, 3 come out. *)
Definition ops4_before_merge : list (op Z Z) :=
  [Insert 1 10; Insert 2 20; Insert 3 30; Insert 4 40; Remove 1; Remove 2]%Z.
Definition ops4_merge : list (op Z Z) := ops4_before_merge ++ [Remove 3%Z].

(** One key goes in and comes out again. *)
Definition ops_emptied : list (op Z Z) := [Insert 1 10; Remove 1]%Z.

Definition f32_half : spec_float := f32_div (f32_of_Z 1) (f32_of_Z 2).

(** A [BPlusTree<float, int>] holding record 0 under the scalar 0.5. *)
Definition ops_half : list (op spec_float Z) := [Insert f32_half 0%Z].

(** [alpha = 0.01], the default of [ProbabilisticVectorIndex::query]. *)
Definition alpha_default : float := f64_div (f64_of_Z 1) (f64_of_Z 100).


(** Two records with the same vector; the one inserted first has the
    larger scalar. *)
Definition records_tie : list (list spec_float * spec_float) :=
  [([f32_of_Z 1], f32_of_Z 2); ([f32_of_Z 1], f32_of_Z 1)].
Definition query_tie : list spec_float := [f32_of_Z 0].

(** Five records of dimension two. *)
Definition records_five : list (list spec_float * spec_float) :=
  [([f32_of_Z 0; f32_of_Z 0], f32_of_Z 5);
   ([f32_of_Z 1; f32_of_Z 0], f32_of_Z 3);
   ([f32_of_Z 0; f32_of_Z 2], f32_of_Z 4);
   ([f32_of_Z 3; f32_of_Z 1], f32_of_Z 1);
   ([f32_of_Z 2; f32_of_Z 2], f32_of_Z 2)].
Definition query_five : list spec_float := [f32_of_Z 1; f32_of_Z 1].

(** The calls [insert(k, v)] for the pairs of a list, in order. *)
Definition inserts {K V} (pairs : list (K * V)) : list (op K V) :=
  (λ p, Insert p.1 p.2) <$> pairs.

(** [stored] is [given] up to [==] on the keys. *)
Definition same_up_to_keq {K V} `{KeyOps K} (stored given : list (K * V)) : Prop :=
  Forall2 (λ p q, p.2 = q.2 ∧ (p.1 = q.1 ∨ keq p.1 q.1 = true)) stored given.

Definition pairs_small : list (Z * Z) := [(5, 50); (1, 10); (3, 30); (1, 11); (4, 40); (2, 20)]%Z.

(** ** The exhaustive index: [include/naiveVectorIndex.h] *)






Section Naive.
Context (std_sort : (spec_float * Z → spec_float * Z → bool) →
                    list (spec_float * Z) → list (spec_float * Z)).


End Naive.





(** ** The sequential scan: [include/SequentialScan.h] *)

(** [class KeyValueFinder]: the vector [keyValuePairs]. *)
Definition KeyValueFinder : Type := list (String.string * Z).

(** [KeyValueFinder::insert(key, value)]. *)
Definition KeyValueFinder_insert (key : String.string) (value : Z) (f : KeyValueFinder)
    : KeyValueFinder :=
  f ++ [(key, value)].

(** [KeyValueFinder::search(key)]. *)
Fixpoint KeyValueFinder_search (key : String.string) (f : KeyValueFinder) : outcome Z :=
  match f with
  | [] => Throw RuntimeError
  | kv :: rest =>
      if String.eqb kv.1 key then Done kv.2 else KeyValueFinder_search key rest
  end.

(** ** Trees with [int] keys: what the leaves hold, as a sorted map *)

(** The keys go up strictly. *)
Definition ascending (ks : list Z) : Prop :=
  ∀ i j a b, ks !! i = Some a → ks !! j = Some b → (i < j)%nat → (a < b)%Z.

(** [insert(key, value)] on a list of (key, values) entries sorted by
    key: a new entry in its place, or one more value at the end of the
    entry of [key]. *)
Fixpoint ins_entry {V} (key : Z) (value : V) (m : list (Z * list V)) : list (Z * list V) :=
  match m with
  | [] => [(key, [value])]
  | (k, vals) :: rest =>
      if (key <? k)%Z then (key, [value]) :: m
      else if (key =? k)%Z then (k, vals ++ [value]) :: rest
      else (k, vals) :: ins_entry key value rest
  end.

(** The entries after the inserts of [pairs], in order. *)
Definition entries_of {V} (pairs : list (Z * V)) : list (Z * list V) :=
  foldl (λ m p, ins_entry p.1 p.2 m) [] pairs.

(** ** The order invariant of a tree with [int] keys *)

(** [k] is at or above the lower bound [lo] ([None]: no bound). *)
Definition above (lo : option Z) (k : Z) : Prop :=
  match lo with Some l => (l ≤ k)%Z | None => True end.

(** [k] is below the upper bound [hi] ([None]: no bound). *)
Definition below (k : Z) (hi : option Z) : Prop :=
  match hi with Some u => (k < u)%Z | None => True end.

(** The bounds [[lo, hi)] leave room for a key. *)
Definition proper (lo hi : option Z) : Prop :=
  match lo, hi with Some l, Some u => (l < u)%Z | _, _ => True end.

(** The bounds between the children of a node with keys [ks] and bounds
    [[lo, hi)]: child [i] covers [[separators !! i, separators !! (i+1))]. *)
Definition separators (lo : option Z) (ks : list Z) (hi : option Z) : list (option Z) :=
  lo :: (Some <$> ks) ++ [hi].

Section Ordered.
Context {V : Type}.

(** What the order invariant asks of the node [n] at address [a]: its
    keys go up and lie within the bounds of [a], strictly above the lower
    one in an internal node; a leaf has one value list per key; an
    internal node has one child more than keys, its children are below
    [bound], their bounds are its separators, and it is their parent.
    [hiP] is the upper bound of a child as its parent sees it. *)
Definition node_ok (lo hi hiP : addr → option Z) (par : addr → option addr) (bound : nat)
    (a : addr) (n : Node Z V) : Prop :=
  ascending (keys n)
  ∧ (∀ k, k ∈ keys n →
       (if isLeaf n then above (lo a) k else proper (lo a) (Some k)) ∧ below k (hi a))
  ∧ if isLeaf n then length (values n) = length (keys n)
    else length (children n) = S (length (keys n))
         ∧ ∀ i c, children n !! i = Some c →
             (c < bound)%nat
             ∧ separators (lo a) (keys n) (hi a) !! i = Some (lo c)
             ∧ separators (lo a) (keys n) (hi a) !! S i = Some (hiP c)
             ∧ par c = Some a.

Definition ordered (lo hi hiP : addr → option Z) (par : addr → option addr)
    (h : list (option (Node Z V))) : Prop :=
  ∀ a n, h !! a = Some (Some n) → node_ok lo hi hiP par (length h) a n.

(** The upper bounds as the parents see them while the node [x] has
    handed its upper part to [y] and the parent does not know yet. *)
Definition pend (hi : addr → option Z) (x y : addr) : addr → option Z :=
  λ z, if decide (z = x) then hi y else hi z.

(** [f] with the value [v] at [a]. *)
Definition set_at {A} (f : addr → A) (a : addr) (v : A) : addr → A :=
  λ z, if decide (z = a) then v else f z.

(** The leaves of [chain] cover [[from, to)] side by side, in order. *)
Fixpoint chain_seg (lo hi : addr → option Z) (from : option Z) (chain : list addr)
    (to : option Z) : Prop :=
  match chain with
  | [] => from = to
  | a :: rest =>
      lo a = from ∧ proper (lo a) (hi a) ∧ (rest ≠ [] → is_Some (hi a))
      ∧ chain_seg lo hi (hi a) rest to
  end.

(** The entries of a leaf, and those along [chain]. *)
Definition entries_at (h : list (option (Node Z V))) (a : addr) : list (Z * list V) :=
  match leaf_view h a with
  | Some (ks, vs, _) => zip ks vs
  | None => []
  end.

Definition entries (h : list (option (Node Z V))) (chain : list addr) : list (Z * list V) :=
  chain ≫= entries_at h.

(** The order invariant of a tree: every node is in order, the root is
    unbounded and has no parent, and the leaf chain lists the leaves and
    covers all keys. *)
Record sorted_inv (lo hi : addr → option Z) (par : addr → option addr)
    (chain : list addr) (t : BPlusTree Z V) : Prop := {
  so_ordered : ordered lo hi hi par (heap t);
  so_root : ∃ r, root t = Some r ∧ is_Some (skel (heap t) r)
                 ∧ lo r = None ∧ hi r = None ∧ par r = None;
  so_chained : chained (heap t) chain;
  so_chain : chain_seg lo hi None chain None;
}.

(** The state between the split of [x], which handed its upper part to
    the new node [y] with the separator [key], and the insertion of [key]
    and [y] into the parent of [x]. *)
Record pending (lo hi : addr → option Z) (par : addr → option addr)
    (chain : list addr) (x y : addr) (key : Z) (t : BPlusTree Z V) : Prop := {
  pe_ordered : ordered lo hi (pend hi x y) par (heap t);
  pe_root : ∃ r, root t = Some r ∧ is_Some (skel (heap t) r)
                 ∧ lo r = None ∧ pend hi x y r = None ∧ par r = None;
  pe_chained : chained (heap t) chain;
  pe_chain : chain_seg lo hi None chain None;
  pe_x : (x < length (heap t))%nat;
  pe_y : (y < length (heap t))%nat;
  pe_ne : x ≠ y;
  pe_hi_x : hi x = Some key;
  pe_lo_y : lo y = Some key;
  pe_lo_x : proper (lo x) (Some key);
  pe_hi_y : below key (hi y);
  pe_par : par y = par x;
  pe_fresh : ∀ a n, heap t !! a = Some (Some n) → isLeaf n = false → y ∉ children n;
}.

(** A node without its counter. *)
Definition erase_size (n : Node Z V) : Node Z V := with_size 0 n.

(** Two stores that differ in [subtree_size] fields at most. *)
Definition same_nodes (h h' : list (option (Node Z V))) : Prop :=
  ∀ a, fmap erase_size <$> h' !! a = fmap erase_size <$> h !! a.

End Ordered.

(** ** The counters of a tree with [int] keys *)

Section Counters.
Context {V : Type}.

(** The counter of [n] is what [updateSubtreeSize] would compute for
    it. *)
Definition size_ok (h : list (option (Node Z V))) (n : Node Z V) : Prop :=
  if isLeaf n then subtree_size n = sum_value_sizes (values n)
  else sum_child_sizes h (children n) 0 = Done (subtree_size n).

(** The counters are right everywhere but at the nodes in [bad]. *)
Definition sized_but (bad : addr → Prop) (h : list (option (Node Z V))) : Prop :=
  ∀ a n, h !! a = Some (Some n) → ¬ bad a → size_ok h n.

(** Every live node but the root and [skip] is among the children of the
    live node [par] names. *)
Definition linked_up (par : addr → option addr) (h : list (option (Node Z V)))
    (rt skip : option addr) : Prop :=
  ∀ a n, h !! a = Some (Some n) → Some a ≠ rt → Some a ≠ skip →
    ∃ p m, par a = Some p ∧ h !! p = Some (Some m) ∧ isLeaf m = false ∧ a ∈ children m.

(** The parent links are there but for [skip], and the counters are
    right but at the nodes in [bad]. *)
Definition counted_but (par : addr → option addr) (bad : addr → Prop) (skip : option addr)
    (t : BPlusTree Z V) : Prop :=
  linked_up par (heap t) (root t) skip ∧ sized_but bad (heap t).

(** The nodes of [t] sit on levels that [gas] steps can walk. *)
Definition leveled (gas : nat) (t : BPlusTree Z V) : Prop :=
  ∃ lvl H0, shaped lvl H0 (heap t) ∧ (H0 < gas)%nat.

(** The counter stored at [a]. *)
Definition size_at (h : list (option (Node Z V))) (a : addr) : option Z :=
  match h !! a with
  | Some (Some n) => Some (subtree_size n)
  | _ => None
  end.

End Counters.

(** ** The children of a node are all leaves or all internal nodes *)

(** Whether the live node at [a] is a leaf. *)
Definition leafness {V} (h : list (option (Node Z V))) (a : addr) : option bool :=
  match h !! a with
  | Some (Some n) => Some (isLeaf n)
  | _ => None
  end.

(** The children of an internal node are of one kind. *)
Definition uniform {V} (h : list (option (Node Z V))) : Prop :=
  ∀ p pn c1 c2, h !! p = Some (Some pn) → isLeaf pn = false →
    c1 ∈ children pn → c2 ∈ children pn → leafness h c1 = leafness h c2.

(** ** [traverse] *)

(** The loop [while (current && !current->isLeaf) current =
    current->children.front()]; [front()] of an empty vector is
    undefined. *)
Fixpoint leftmost {K V} (fuel : nat) (h : list (option (Node K V))) (current : addr)
    : outcome addr :=
  match fuel with
  | 0%nat => NoFuel
  | S fuel' =>
      n ← load h current;
      if isLeaf n then Done current
      else match children n with
           | [] => Undefined OutOfRange
           | c :: _ => leftmost fuel' h c
           end
  end.

(** The [for] loop of [traverse] over one leaf: it prints one group
    [key:[values]] per key, here the pair of the key and its values. *)
Fixpoint print_leaf {K V} (ks : list K) (vs : list (list V)) (i : nat)
    (out : list (K * list V)) : outcome (list (K * list V)) :=
  match ks with
  | [] => Done out
  | key :: ks' => vals ← at_ vs i; print_leaf ks' vs (S i) (out ++ [(key, vals)])
  end.

(** The loop [while (current != nullptr)] of [traverse]. *)
Fixpoint print_leaves {K V} (fuel : nat) (h : list (option (Node K V)))
    (current : option addr) (out : list (K * list V)) : outcome (list (K * list V)) :=
  match fuel with
  | 0%nat => NoFuel
  | S fuel' =>
      match current with
      | None => Done out
      | Some a =>
          n ← load h a;
          out' ← print_leaf (keys n) (values n) 0 out;
          print_leaves fuel' h (next n) out'
      end
  end.

(** [traverse()]: the groups it prints, in the order it prints them. *)
Definition traverse {K V} (gas : nat) (t : BPlusTree K V) : outcome (list (K * list V)) :=
  match root t with
  | None => Done []
  | Some r =>
      current ← leftmost gas (heap t) r;
      print_leaves gas (heap t) (Some current) []
  end.

(** ** What a tree with [int] keys should answer *)

(** The values an entry list holds under [key]. *)
Fixpoint find_entry {V} (key : Z) (m : list (Z * list V)) : option (list V) :=
  match m with
  | [] => None
  | (k, vals) :: rest => if (k =? key)%Z then Some vals else find_entry key rest
  end.

(** The values inserted under [key], in insertion order. *)
Definition inserted_under {V} (key : Z) (pairs : list (Z * V)) : list V :=
  (filter (λ p, p.1 = key) pairs).*2.

(** The values of the entries with a key in [[Smin, Smax]], entry by
    entry. *)
Definition values_in_range {V} (Smin Smax : Z) (m : list (Z * list V)) : list V :=
  concat (filter (λ e, (Smin ≤ e.1)%Z ∧ (e.1 ≤ Smax)%Z) m).*2.

(** ** What the counters of a tree with [int] keys should say *)

(** The number of values in an entry list. *)
Definition weight {V} (m : list (Z * list V)) : Z :=
  foldr (λ e s, (Z.of_nat (length e.2) + s)%Z) 0%Z m.

(** [k] lies in [[l, u)]. *)
Definition within (l u : option Z) (k : Z) : bool :=
  match l with Some a => (a <=? k)%Z | None => true end
  && match u with Some b => (k <? b)%Z | None => true end.

(** The entries with a key in [[l, u)]. *)
Definition between {V} (l u : option Z) (m : list (Z * list V)) : list (Z * list V) :=
  filter (λ e, within l u e.1 = true) m.

(** The number of values under the first [j] children of a node with
    lower bound [l] and separators [seps]. *)
Definition prefix_weight {V} (l : option Z) (seps : list (option Z)) (m : list (Z * list V))
    (j : nat) : Z :=
  match j with
  | 0%nat => 0%Z
  | S _ => weight (between l (default None (seps !! j)) m)
  end.

(** ** [remove] with a leaf that borrows or merges *)

(** The tree [t2] is in order, with the parents and levels of [t1], and
    its leaf chain holds the entries of the chain of [t1]. *)
Definition kept {V} (lvl : addr → nat) (H0 : nat) (par : addr → option addr)
    (chain : list addr) (t1 t2 : BPlusTree Z V) : Prop :=
  ∃ lo' hi' chain',
    tree_inv lvl H0 chain' t2 ∧ sorted_inv lo' hi' par chain' t2 ∧ uniform (heap t2)
    ∧ (length chain' ≤ length chain)%nat
    ∧ entries (heap t2) chain' = entries (heap t1) chain
    ∧ order t2 = order t1.

(** ** [remove] keeps the tree in order while the root keeps a key *)

(** No [remove] can take the last key of the root of [t]: the root holds
    two keys or more, or it is an internal node over internal nodes. *)
Definition keeps_root {K V} (t : BPlusTree K V) : bool :=
  match root t with
  | Some r =>
      match heap t !! r with
      | Some (Some n) =>
          (2 <=? length (keys n))%nat
          || negb (isLeaf n)
             && match children n with
                | c :: _ =>
                    match heap t !! c with
                    | Some (Some cn) => negb (isLeaf cn)
                    | _ => false
                    end
                | [] => false
                end
      | _ => false
      end
  | None => false
  end.

(** ** Runs of [insert] and [remove] *)

(** Along the calls [ops] from the tree [t], every [remove] finds a tree
    whose root it cannot empty. *)
Fixpoint removes_keep_root {K V} `{KeyOps K} (gas : nat) (ops : list (op K V))
    (t : BPlusTree K V) : bool :=
  match ops with
  | [] => true
  | o :: ops' =>
      match o with
      | Remove _ => keeps_root t
      | Insert _ _ => true
      end
      && match run_op gas o t with
         | Done (_, t') => removes_keep_root gas ops' t'
         | _ => true
         end
  end.

(** The same from the fresh tree [BPlusTree(order)]. *)
Definition safe_removes {K V} `{KeyOps K} (gas : nat) (order : Z) (ops : list (op K V)) : bool :=
  match BPlusTree_new order with
  | Done t => removes_keep_root gas ops t
  | _ => true
  end.

(** Order 3: nine keys go in and make a tree of three levels.  Then
    [remove(9)] makes a leaf borrow from its left sibling, [remove(8)]
    merges two leaves, a second value goes in under 2, and after
    [remove(1)], [remove(2)] makes a leaf borrow from its right sibling
    and [remove(3)] merges it with that sibling. *)
Definition ops_mixed : list (op Z Z) :=
  [Insert 1 10; Insert 2 20; Insert 3 30; Insert 4 40; Insert 5 50; Insert 6 60;
   Insert 7 70; Insert 8 80; Insert 9 90; Remove 9; Remove 8; Insert 2 21; Remove 1;
   Remove 2; Remove 3]%Z.

(** * Theorems *)

(** ** The tree on concrete calls *)

(** C2, at order 3 after [ops_borrow]: both leaves hold one pair, the
    left leaf's [subtree_size] still says 2 and the root's 3.
    [borrowFromLeftLeaf] recomputes the counter of the borrowing leaf and
    of its ancestors, never that of the sibling it took from. *)
Theorem subtree_size_stale_after_borrow :
  ∃ t left_leaf root_node,
    tree_after fuel50 3 ops_borrow = Done t
    ∧ heap t !! 0%nat = Some (Some left_leaf)
    ∧ (isLeaf left_leaf = true ∧ keys left_leaf = [1%Z] ∧ values left_leaf = [[10%Z]])
    ∧ subtree_size left_leaf = 2%Z
    ∧ pairs_under fuel50 (heap t) 0 = Done 1%Z
    ∧ root t = Some 2%nat
    ∧ heap t !! 2%nat = Some (Some root_node)
    ∧ subtree_size root_node = 3%Z
    ∧ pairs_under fuel50 (heap t) 2 = Done 2%Z.
Proof.
  do 3 eexists. split; [vm_compute; reflexivity|].
  repeat split; vm_compute; reflexivity.
Qed.

(** C1, on two inputs.  With [float] keys and the single record (0.5, 0),
    [countInRange(1.0, 2.0)] is [count_le(2.0) - count_le(1.0 - 1)], which
    is 1, and no key lies in [1.0, 2.0].  With [int] keys after
    [ops_borrow], [countInRange(1, 5)] adds the stale counter of the left
    leaf and is 3, and two pairs are stored. *)
Theorem countInRange_miscounts :
  (∃ t, tree_after fuel50 4 ops_half = Done t
        ∧ countInRange fuel50 (f32_of_Z 1) (f32_of_Z 2) t = Done 1%Z
        ∧ ids_in_range (f32_of_Z 1) (f32_of_Z 2) (stored ops_half []) = [])
  ∧ (∃ t, tree_after fuel50 3 ops_borrow = Done t
          ∧ countInRange fuel50 1%Z 5%Z t = Done 3%Z
          ∧ ids_in_range 1%Z 5%Z (stored ops_borrow []) = [10; 20]%Z).
Proof.
  split; eexists; (split; [vm_compute; reflexivity|]); split; vm_compute; reflexivity.
Qed.

(** C3, at order 3: after [ops_before_merge] the tree is sound and
    [rangeQuery(3, 3)] is [[30]]; the next call, [remove(2)], merges the
    two leaves, sets [root = left] and deletes the old root, whose
    destructor deletes [left]; [remove] then reads the dead node, and no
    tree is left for [rangeQuery] to answer [[30]] from. *)
Theorem rangeQuery_after_root_collapse :
  (∃ t, tree_after fuel50 3 ops_before_merge = Done t
        ∧ rangeQuery fuel50 3%Z 3%Z t = Done [30%Z]
        ∧ remove fuel50 2%Z t = Undefined Dangling)
  ∧ tree_after fuel50 3 ops_merge = Undefined Dangling
  ∧ ids_in_range 3%Z 3%Z (stored ops_merge []) = [30%Z].
Proof.
  split; [eexists; split; [vm_compute; reflexivity|]|]; repeat split; vm_compute; reflexivity.
Qed.

(** C5, at order 4: key 4 went in once and was never removed; after
    [ops4_before_merge], [searchAll(4)] is its one value and
    [searchAll(2)] is null; [remove(3)] then merges the last two leaves
    and collapses the root as in the theorem before, and reads the leaf it
    has just deleted. *)
Theorem searchAll_after_root_collapse :
  (∃ t, tree_after fuel50 4 ops4_before_merge = Done t
        ∧ searchAll fuel50 4%Z t = Done (Some [40%Z])
        ∧ searchAll fuel50 2%Z t = Done None
        ∧ remove fuel50 3%Z t = Undefined Dangling)
  ∧ tree_after fuel50 4 ops4_merge = Undefined Dangling
  ∧ stored ops4_merge [] = [(4, 40)]%Z.
Proof.
  split; [eexists; split; [vm_compute; reflexivity|]|]; repeat split; vm_compute; reflexivity.
Qed.

(** C9: after [ops_emptied] the root is null; [search], [searchAll],
    [rangeQuery], [countLessOrEqual], [countInRange] and [remove] test for
    that and answer as on an empty tree; [insert] does not, and
    dereferences the null root. *)
Theorem insert_on_emptied_tree :
  ∃ t, tree_after fuel50 3 ops_emptied = Done t
       ∧ root t = None
       ∧ (∀ key, search 0%Z fuel50 key t = Done 0%Z)
       ∧ (∀ key, searchAll fuel50 key t = Done None)
       ∧ (∀ Smin Smax, rangeQuery fuel50 Smin Smax t = Done [])
       ∧ (∀ x, countLessOrEqual fuel50 x t = Done 0%Z)
       ∧ (∀ Smin Smax, countInRange fuel50 Smin Smax t = Done 0%Z)
       ∧ (∀ key, remove fuel50 key t = Done (tt, t))
       ∧ (∀ key value, insert fuel50 key value t = Undefined NullPointer).
Proof.
  eexists. split; [vm_compute; reflexivity|].
  repeat split; intros; reflexivity.
Qed.

(** ** The candidate-size chooser *)

Lemma int32_id z : (-2147483648 ≤ z < 2147483648)%Z → int32 z = z.
Proof.
  intros Hz. unfold int32.
  destruct (Z.leb_spec (-2147483648) z), (Z.leb_spec z 2147483647); simpl; lia.
Qed.

Lemma int32_mod z : int32 z = ((z + 2147483648) mod 4294967296 - 2147483648)%Z.
Proof.
  unfold int32.
  destruct (Z.leb_spec (-2147483648) z), (Z.leb_spec z 2147483647); simpl; try done.
  rewrite Z.mod_small; lia.
Qed.

Section ChooserFacts.
Context (pow : float → Z → float) (M S k : Z) (alpha : float).
Context (Hk : (0 < k)%Z) (HM : (M < 1073741824)%Z).


Lemma computeRequiredO_Linear_loop_spec fuel O :
  (k ≤ O ≤ M + 1)%Z →
  (M + 1 - O < Z.of_nat fuel)%Z →
  (∀ O', (k ≤ O' < O)%Z → enough pow M S k alpha O' = false) →
  ∃ r, computeRequiredO_Linear_loop pow fuel M S k alpha O = Done r
       ∧ smallest_enough pow M S k alpha r.
Proof.
  revert O. induction fuel as [|fuel IH]; intros O HO Hfuel Hbelow; [lia|].
  simpl. destruct (Z.leb_spec O M) as [HOM|HOM].
  - destruct (enough pow M S k alpha O) eqn:Hen.
    + exists O. split; [done|]. left. repeat split; try lia; done.
    + rewrite int32_id by lia. apply IH; [lia..|].
      intros O' HO'. destruct (decide (O' = O)) as [->|]; [done|]. apply Hbelow. lia.
  - exists M. split; [done|]. right. split; [done|]. intros O' HO'. apply Hbelow. lia.
Qed.


End ChooserFacts.





(** C7, amended: [computeRequiredO_BinarySearch] returns 0 when [k <= 0],
    and [k] when [k > 0] and [S <= 0], [S >= M] or [alpha <= 0]; the
    chooser the planner calls, [computeRequiredO_Enhanced], adds its safety
    margin in these cases too and returns 100, respectively [k + 100] (for
    [k] up to [INT_MAX - 100]). *)
Theorem chooser_edge_cases pow gas M S k alpha :
  ((k ≤ 0)%Z →
     computeRequiredO_BinarySearch pow gas M S k alpha = Done 0%Z
     ∧ computeRequiredO_Enhanced pow gas M S k alpha = Done 100%Z)
  ∧ ((0 < k ≤ 2147483547)%Z →
     (S ≤ 0)%Z ∨ (M ≤ S)%Z ∨ f64_leb alpha (f64_of_Z 0) = true →
     computeRequiredO_BinarySearch pow gas M S k alpha = Done k
     ∧ computeRequiredO_Enhanced pow gas M S k alpha = Done (k + 100)%Z).
Proof.
  unfold computeRequiredO_Enhanced, computeRequiredO_BinarySearch. split.
  - intros Hk. destruct (Z.leb_spec k 0); [|lia]. done.
  - intros Hk Hcase. destruct (Z.leb_spec k 0); [lia|].
    assert (Hr : (if (S <=? 0)%Z then Done k
                  else if (M <=? S)%Z then Done k
                  else if f64_leb alpha (f64_of_Z 0) then Done k
                  else computeRequiredO_BinarySearch_loop pow gas M S k alpha k M M) = Done k).
    { destruct (Z.leb_spec S 0); [done|]. destruct (Z.leb_spec M S); [done|].
      destruct Hcase as [?|[?|Ha]]; [lia|lia|by rewrite Ha]. }
    rewrite Hr. simpl. rewrite int32_id by lia. done.
Qed.

Lemma chooser_edge_cases_witness :
  (computeRequiredO_BinarySearch pow_int fuel50 10 5 0 alpha_default = Done 0%Z
   ∧ computeRequiredO_Enhanced pow_int fuel50 10 5 0 alpha_default = Done 100%Z)
  ∧ (computeRequiredO_BinarySearch pow_int fuel50 10 10 7 alpha_default = Done 7%Z
     ∧ computeRequiredO_Enhanced pow_int fuel50 10 10 7 alpha_default = Done 107%Z).
Proof.
  split.
  - destruct (chooser_edge_cases pow_int fuel50 10 5 0 alpha_default) as [Hle _].
    apply Hle. lia.
  - destruct (chooser_edge_cases pow_int fuel50 10 10 7 alpha_default) as [_ Hgt].
    apply Hgt; [lia|]. right. left. lia.
Defined.

(** C7 as stated fails for the chooser the planner uses: with [k = 0] it
    returns 100, not 0, and with [S = 0] and [k = 5] it returns 105. *)
Lemma enhanced_chooser_adds_margin :
  computeRequiredO_Enhanced pow_int fuel50 10 5 0 alpha_default = Done 100%Z
  ∧ computeRequiredO_Enhanced pow_int fuel50 10 0 5 alpha_default = Done 105%Z.
Proof. split; vm_compute; reflexivity. Qed.

(** ** The planners *)

(** C6, amended: on an index no record was inserted into, both [query]
    functions return an empty result and raise nothing, whatever the
    query, a vector of the wrong dimension included. *)
Theorem query_before_insert_is_empty searchKnn std_sort pow gas order :
  (3 ≤ order)%Z →
  ∃ ix, VectorIndex_new order = Done ix
        ∧ ∀ v k Smin Smax O alpha,
            VectorIndex_query searchKnn std_sort gas v k Smin Smax O ix = Done []
            ∧ ProbabilisticVectorIndex_query searchKnn std_sort pow gas v k Smin Smax alpha ix
              = Done ([], ix).
Proof.
  intros Horder. unfold VectorIndex_new, BPlusTree_new.
  destruct (Z.ltb_spec order 3); [lia|].
  eexists. split; [reflexivity|]. intros. split; reflexivity.
Qed.

Lemma query_before_insert_is_empty_witness :
  ∃ ix, VectorIndex_new 4 = Done ix
        ∧ ∀ v k Smin Smax O alpha,
            VectorIndex_query first_labels insertion_sort fuel50 v k Smin Smax O ix = Done []
            ∧ ProbabilisticVectorIndex_query first_labels insertion_sort pow_int fuel50
                v k Smin Smax alpha ix = Done ([], ix).
Proof. apply query_before_insert_is_empty. lia. Defined.

(** C6 as stated fails: a query on a fresh index of order 4 returns, with
    no ids, instead of raising. *)
Lemma query_before_insert_returns :
  (ix ← VectorIndex_new 4;
   VectorIndex_query first_labels insertion_sort fuel50
     [f32_of_Z 1] 5 (f32_of_Z 0) (f32_of_Z 1) 1000 ix) = Done []
  ∧ (ix ← VectorIndex_new 4;
     r ← ProbabilisticVectorIndex_query first_labels insertion_sort pow_int fuel50
           [f32_of_Z 1] 5 (f32_of_Z 0) (f32_of_Z 1) alpha_default ix;
     Done r.1) = Done [].
Proof. split; vm_compute; reflexivity. Qed.

(** ** Running a call step by step *)

Lemma run_bind {S A B} (m : St S A) (k : A → St S B) s a s' :
  m s = Done (a, s') → (m ≫= k) s = k a s'.
Proof. intros Hm. unfold mbind, St_bind, sbind. by rewrite Hm. Qed.

Lemma run_sread {S A B} (f : S → outcome A) (k : A → St S B) s a :
  f s = Done a → (sread f ≫= k) s = k a s.
Proof. intros Hf. apply run_bind. unfold sread. by rewrite Hf. Qed.

Lemma run_sfail {S A B} (k : A → St S B) (s : S) a :
  (sfail (Done a) ≫= k) s = k a s.
Proof. done. Qed.

Lemma at_Done {A} (l : list A) i x : l !! i = Some x → at_ l i = Done x.
Proof. intros Hl. unfold at_. by rewrite Hl. Qed.

Lemma at_lt {A} (l : list A) i : (i < length l)%nat → ∃ x, at_ l i = Done x ∧ l !! i = Some x.
Proof.
  intros Hi. destruct (lookup_lt_is_Some_2 l i Hi) as [x Hx]. exists x. by rewrite (at_Done _ _ _ Hx).
Qed.

Lemma int32_le z : (0 ≤ z)%Z → (int32 z ≤ z)%Z.
Proof.
  intros Hz. destruct (Z.le_gt_cases 2147483648 z) as [Hbig|Hsmall].
  - rewrite int32_mod.
    pose proof (Z.mod_pos_bound (z + 2147483648) 4294967296 ltac:(lia)). lia.
  - rewrite int32_id; lia.
Qed.

(** ** The two bisections stay within the vector *)

Section BoundsFacts.
Context {K : Type} `{KeyOps K}.

Lemma upper_bound_loop_le fuel (l : list K) x first len :
  (first + len ≤ length l)%nat → (upper_bound_loop fuel l x first len ≤ first + len)%nat.
Proof.
  revert first len.
  induction fuel as [|fuel IH]; intros first len Hlen; cbn [upper_bound_loop]; [lia|].
  destruct (Nat.eqb_spec len 0); [lia|].
  assert (Hhalf : (len / 2 < len)%nat) by (apply Nat.div_lt; lia).
  destruct (l !! (first + len / 2)%nat) as [y|]; [|lia].
  destruct (klt x y).
  - etrans; [apply IH|]; lia.
  - etrans; [apply IH|]; lia.
Qed.

Lemma upper_bound_le (l : list K) x : (upper_bound l x ≤ length l)%nat.
Proof. unfold upper_bound. by apply (upper_bound_loop_le _ l x 0). Qed.

Lemma lower_bound_loop_le fuel (l : list K) x first len :
  (first + len ≤ length l)%nat → (lower_bound_loop fuel l x first len ≤ first + len)%nat.
Proof.
  revert first len.
  induction fuel as [|fuel IH]; intros first len Hlen; cbn [lower_bound_loop]; [lia|].
  destruct (Nat.eqb_spec len 0); [lia|].
  assert (Hhalf : (len / 2 < len)%nat) by (apply Nat.div_lt; lia).
  destruct (l !! (first + len / 2)%nat) as [y|]; [|lia].
  destruct (klt y x).
  - etrans; [apply IH|]; lia.
  - etrans; [apply IH|]; lia.
Qed.

Lemma lower_bound_le (l : list K) x : (lower_bound l x ≤ length l)%nat.
Proof. unfold lower_bound. by apply (lower_bound_loop_le _ l x 0). Qed.

End BoundsFacts.

Ltac run_step := erewrite run_bind by reflexivity.

(** ** The store *)

Section StoreFacts.
Context {K V : Type} `{KeyOps K}.
Implicit Types (h : list (option (Node K V))) (n : Node K V) (t : BPlusTree K V).

Lemma load_Done h a n : h !! a = Some (Some n) → load h a = Done n.
Proof. intros Hn. unfold load. by rewrite Hn. Qed.

Lemma skel_lookup h a n :
  h !! a = Some (Some n) →
  skel h a = Some (isLeaf n, children n, length (keys n), length (values n)).
Proof. intros Hn. unfold skel. by rewrite Hn. Qed.

Lemma skel_Some h a leaf cs nk nv :
  skel h a = Some (leaf, cs, nk, nv) →
  ∃ n, h !! a = Some (Some n) ∧ isLeaf n = leaf ∧ children n = cs
       ∧ length (keys n) = nk ∧ length (values n) = nv.
Proof.
  unfold skel. destruct (h !! a) as [[n|]|]; [|done..].
  intros [= <- <- <- <-]. by exists n.
Qed.

Lemma skel_live h a : is_Some (skel h a) → ∃ n, h !! a = Some (Some n).
Proof. unfold skel. destruct (h !! a) as [[n|]|]; [eauto|by intros [??]..]. Qed.

Lemma skel_lt h a : is_Some (skel h a) → (a < length h)%nat.
Proof. intros [n Hn]%skel_live. by eapply lookup_lt_Some. Qed.

Lemma leaf_view_lookup h a n :
  h !! a = Some (Some n) → isLeaf n = true →
  leaf_view h a = Some (keys n, values n, next n).
Proof. intros Hn Hl. unfold leaf_view. by rewrite Hn, Hl. Qed.

Lemma leaf_view_Some h a ks vs nx :
  leaf_view h a = Some (ks, vs, nx) →
  ∃ n, h !! a = Some (Some n) ∧ isLeaf n = true ∧ keys n = ks ∧ values n = vs ∧ next n = nx.
Proof.
  unfold leaf_view. destruct (h !! a) as [[n|]|]; [|done..].
  destruct (isLeaf n) eqn:Hl; [|done]. intros [= <- <- <-]. by exists n.
Qed.

Lemma leaf_view_skel h a ks vs nx :
  leaf_view h a = Some (ks, vs, nx) → ∃ cs, skel h a = Some (true, cs, length ks, length vs).
Proof.
  intros (n & Hn & Hl & <- & <- & <-)%leaf_view_Some. exists (children n).
  by rewrite (skel_lookup _ _ _ Hn), Hl.
Qed.

Lemma leaf_view_internal h a cs nk nv :
  skel h a = Some (false, cs, nk, nv) → leaf_view h a = None.
Proof.
  intros (n & Hn & Hl & _)%skel_Some. unfold leaf_view. by rewrite Hn, Hl.
Qed.

Lemma skel_insert h a b n :
  (a < length h)%nat →
  skel (<[a := Some n]> h) b =
    if decide (a = b) then Some (isLeaf n, children n, length (keys n), length (values n))
    else skel h b.
Proof.
  intros Ha. unfold skel. destruct (decide (a = b)) as [<-|Hne].
  - by rewrite list_lookup_insert_eq.
  - by rewrite list_lookup_insert_ne.
Qed.

Lemma leaf_view_insert h a b n :
  (a < length h)%nat →
  leaf_view (<[a := Some n]> h) b =
    if decide (a = b) then (if isLeaf n then Some (keys n, values n, next n) else None)
    else leaf_view h b.
Proof.
  intros Ha. unfold leaf_view. destruct (decide (a = b)) as [<-|Hne].
  - by rewrite list_lookup_insert_eq.
  - by rewrite list_lookup_insert_ne.
Qed.

Lemma skel_alloc h b n :
  skel (h ++ [Some n]) b =
    if decide (b = length h) then Some (isLeaf n, children n, length (keys n), length (values n))
    else skel h b.
Proof.
  unfold skel. destruct (decide (b = length h)) as [->|Hne].
  - by rewrite list_lookup_middle.
  - destruct (decide (b < length h)%nat).
    + by rewrite lookup_app_l.
    + rewrite !lookup_ge_None_2; [done|lia|]. rewrite length_app. simpl. lia.
Qed.

Lemma leaf_view_alloc h b n :
  leaf_view (h ++ [Some n]) b =
    if decide (b = length h) then (if isLeaf n then Some (keys n, values n, next n) else None)
    else leaf_view h b.
Proof.
  unfold leaf_view. destruct (decide (b = length h)) as [->|Hne].
  - by rewrite list_lookup_middle.
  - destruct (decide (b < length h)%nat).
    + by rewrite lookup_app_l.
    + rewrite !lookup_ge_None_2; [done|lia|]. rewrite length_app. simpl. lia.
Qed.

Lemma skel_fresh h : skel h (length h) = None.
Proof. unfold skel. by rewrite lookup_ge_None_2. Qed.

Lemma leaf_view_fresh h : leaf_view h (length h) = None.
Proof. unfold leaf_view. by rewrite lookup_ge_None_2. Qed.

End StoreFacts.

(** ** Shape, levels and reachability *)

Section ShapeFacts.
Context {K V : Type} `{KeyOps K}.
Implicit Types (h : list (option (Node K V))) (n : Node K V) (t : BPlusTree K V).

Lemma shaped_ext lvl H0 h h' :
  (∀ a, skel h' a = skel h a) → shaped lvl H0 h → shaped lvl H0 h'.
Proof.
  intros Heq Hsh a leaf cs nk nv Ha. rewrite Heq in Ha.
  destruct (Hsh _ _ _ _ _ Ha) as [Hb Hrest]. split; [done|].
  destruct leaf; [done|]. destruct Hrest as [Hlen Hcs]. split; [done|].
  intros c Hc. rewrite Heq. by apply Hcs.
Qed.

Lemma linked_ext h h' chain :
  (∀ a, leaf_view h' a = leaf_view h a) → linked h chain → linked h' chain.
Proof.
  intros Heq. induction chain as [|a rest IH]; [done|].
  simpl. intros [Ha Hrest]. rewrite Heq. auto.
Qed.

Lemma chained_ext h h' chain :
  (∀ a, leaf_view h' a = leaf_view h a) → chained h chain → chained h' chain.
Proof.
  intros Heq (Hnd & Hall & Hlk). split; [done|]. split.
  - intros a. rewrite Heq. apply Hall.
  - by apply (linked_ext h).
Qed.

Lemma pairs_of_ext h h' chain :
  (∀ a, leaf_view h' a = leaf_view h a) → pairs_of h' chain = pairs_of h chain.
Proof.
  intros Heq. unfold pairs_of. induction chain as [|a rest IH]; [done|].
  cbn. rewrite <- IH. f_equal. unfold pairs_at. by rewrite Heq.
Qed.

Lemma reach_ext h h' a b :
  (∀ a, skel h' a = skel h a) → reach h a b → reach h' a b.
Proof.
  intros Heq. induction 1 as [a|a cs nk nv c b Ha Hc _ IH]; [constructor|].
  eapply reach_step; [by rewrite Heq| |]; done.
Qed.

Lemma same_but_sizes_refl t : same_but_sizes t t.
Proof. by repeat split. Qed.

Lemma same_but_sizes_trans t1 t2 t3 :
  same_but_sizes t1 t2 → same_but_sizes t2 t3 → same_but_sizes t1 t3.
Proof.
  intros (Hr1 & Ho1 & Hs1 & Hl1) (Hr2 & Ho2 & Hs2 & Hl2). repeat split.
  - by rewrite Hr2.
  - by rewrite Ho2.
  - intros a. by rewrite Hs2.
  - intros a. by rewrite Hl2.
Qed.

Lemma tree_inv_sizes lvl H0 chain t t' :
  same_but_sizes t t' → tree_inv lvl H0 chain t → tree_inv lvl H0 chain t'.
Proof.
  intros (Hr & Ho & Hs & Hl) [Hord (r & Hroot & Hlive) Hsh Hch]. split.
  - by rewrite Ho.
  - exists r. rewrite Hr, Hs. done.
  - by apply (shaped_ext _ _ (heap t)).
  - by apply (chained_ext (heap t)).
Qed.

Lemma reach_lvl lvl H0 h a b : shaped lvl H0 h → reach h a b → (lvl b ≤ lvl a)%nat.
Proof.
  intros Hsh. induction 1 as [a|a cs nk nv c b Ha Hc _ IH]; [done|].
  destruct (Hsh _ _ _ _ _ Ha) as [_ [_ Hcs]]. destruct (Hcs c Hc) as [_ ->]. lia.
Qed.

(** A path to [b] only goes through nodes above the level of [b]: it
    survives any change to the nodes at that level and below. *)
Lemma reach_above lvl H0 h h' a b :
  shaped lvl H0 h →
  (∀ x, (lvl b < lvl x)%nat → is_Some (skel h x) → skel h' x = skel h x) →
  reach h a b → reach h' a b.
Proof.
  intros Hsh Heq. induction 1 as [a|a cs nk nv c b Ha Hc Hcb IH]; [constructor|].
  destruct (Hsh _ _ _ _ _ Ha) as [_ [_ Hcs]]. destruct (Hcs c Hc) as [_ Hl].
  pose proof (reach_lvl _ _ _ _ _ Hsh Hcb).
  eapply reach_step; [rewrite Heq; [done|lia|by eexists]|done|]. by apply IH.
Qed.

Lemma reach_trans h a b c : reach h a b → reach h b c → reach h a c.
Proof.
  induction 1 as [a|a cs nk nv x b Ha Hx _ IH]; [done|].
  intros Hbc. eapply reach_step; eauto.
Qed.

Lemma reach_parent h r c :
  reach h r c → r ≠ c →
  ∃ p cs nk nv, reach h r p ∧ skel h p = Some (false, cs, nk, nv) ∧ c ∈ cs.
Proof.
  induction 1 as [a|a cs nk nv x b Ha Hx Hxb IH]; [done|]. intros Hne.
  destruct (decide (x = b)) as [->|Hxne].
  - exists a, cs, nk, nv. split; [constructor|done].
  - destruct (IH Hxne) as (p & cs' & nk' & nv' & Hp & Hs & Hc).
    exists p, cs', nk', nv'. split; [|done]. eapply reach_step; eauto.
Qed.

Lemma reach_live lvl H0 h a b :
  shaped lvl H0 h → is_Some (skel h a) → reach h a b → is_Some (skel h b).
Proof.
  intros Hsh Ha Hab. induction Hab as [a|a cs nk nv c b Hs Hc _ IH]; [done|].
  apply IH. destruct (Hsh _ _ _ _ _ Hs) as [_ [_ Hcs]]. by destruct (Hcs c Hc).
Qed.

End ShapeFacts.

(** ** [findParent], the descent and the counters *)

Section WalkFacts.
Context {K V : Type} `{KeyOps K}.
Implicit Types (h : list (option (Node K V))) (n : Node K V) (t : BPlusTree K V).

Lemma findParent_spec lvl H0 h fuel c x :
  shaped lvl H0 h → is_Some (skel h c) → (lvl c < fuel)%nat →
  ∃ r, findParent fuel h (Some c) (Some x) = Done r ∧ parent_found h c x r.
Proof.
  intros Hsh. revert c. induction fuel as [|fuel IH]; intros c Hc Hfuel; [lia|].
  destruct (skel_live _ _ Hc) as [n Hn]. cbn [findParent].
  rewrite (load_Done _ _ _ Hn). cbn.
  pose proof (skel_lookup _ _ _ Hn) as Hskel.
  destruct (isLeaf n) eqn:Hleaf.
  { exists None. split; [done|]. intros p cs nk nv Hp Hsp.
    inversion Hp; subst; congruence. }
  destruct (Hsh _ _ _ _ _ Hskel) as [_ [_ Hcs]].
  assert (Hscan : ∀ cs0, (∀ ci, ci ∈ cs0 → ci ∈ children n) →
    ∃ r, findParent_children (λ ci, findParent fuel h (Some ci) (Some x))
           (Some c) (Some x) cs0 = Done r
         ∧ match r with
           | Some p => ∃ cs nk nv, skel h p = Some (false, cs, nk, nv) ∧ x ∈ cs ∧ reach h c p
           | None => ∀ ci, ci ∈ cs0 → ci ≠ x ∧ parent_found h ci x None
           end).
  { induction cs0 as [|ci cs0 IHcs]; intros Hsub.
    - exists None. split; [done|]. intros ci Hci. by apply elem_of_nil in Hci.
    - cbn [findParent_children]. unfold ptr_eqb.
      assert (Hci : ci ∈ children n) by (apply Hsub; left).
      destruct (decide (ci = x)) as [->|Hne].
      + rewrite bool_decide_eq_true_2 by done. exists (Some c). split; [done|].
        exists (children n), (length (keys n)), (length (values n)).
        split; [done|]. split; [done|constructor].
      + rewrite bool_decide_eq_false_2 by congruence.
        destruct (Hcs ci Hci) as [Hlive Hlvl].
        destruct (IH ci Hlive ltac:(lia)) as (r & -> & Hr). cbn.
        destruct r as [p|].
        * exists (Some p). split; [done|].
          destruct Hr as (cs & nk & nv & Hp & Hx & Hreach).
          exists cs, nk, nv. split; [done|]. split; [done|].
          eapply reach_step; eauto.
        * destruct IHcs as (r & -> & Hr').
          { intros cj Hcj. apply Hsub. by right. }
          exists r. split; [done|]. destruct r as [p|]; [done|].
          intros cj [->|Hcj]%elem_of_cons; [done|]. by apply Hr'. }
  destruct (Hscan (children n)) as (r & -> & Hr); [done|].
  exists r. split; [done|]. destruct r as [p|]; [done|].
  intros p cs nk nv Hp Hsp. inversion Hp as [|? cs' nk' nv' ci ? Hsc Hci Hreach]; subst.
  - rewrite Hskel in Hsp. injection Hsp as <- <- <-.
    intros Hx. by destruct (Hr x Hx).
  - rewrite Hskel in Hsc. injection Hsc as <- <- <-.
    destruct (Hr ci Hci) as [_ Hnone]. by eapply Hnone.
Qed.

(** With [x] strictly below the root, [findParent] finds a parent. *)
Lemma findParent_below lvl H0 h fuel r x :
  shaped lvl H0 h → is_Some (skel h r) → (lvl r < fuel)%nat →
  reach h r x → r ≠ x →
  ∃ p cs nk nv, findParent fuel h (Some r) (Some x) = Done (Some p)
    ∧ skel h p = Some (false, cs, nk, nv) ∧ x ∈ cs ∧ reach h r p.
Proof.
  intros Hsh Hr Hfuel Hreach Hne.
  destruct (findParent_spec _ _ _ _ _ x Hsh Hr Hfuel) as ([p|] & Hfp & Hfound).
  - destruct Hfound as (cs & nk & nv & ?). by exists p, cs, nk, nv.
  - destruct (reach_parent _ _ _ Hreach Hne) as (p & cs & nk & nv & Hp & Hs & Hx).
    by destruct (Hfound p cs nk nv Hp Hs).
Qed.

Lemma descend_spec lvl H0 h fuel r key :
  shaped lvl H0 h → is_Some (skel h r) → (lvl r < fuel)%nat →
  ∃ leaf, descend fuel h r key = Done leaf ∧ reach h r leaf ∧ is_Some (leaf_view h leaf).
Proof.
  intros Hsh. revert r. induction fuel as [|fuel IH]; intros r Hr Hfuel; [lia|].
  destruct (skel_live _ _ Hr) as [n Hn]. cbn [descend].
  rewrite (load_Done _ _ _ Hn). cbn.
  pose proof (skel_lookup _ _ _ Hn) as Hskel.
  destruct (isLeaf n) eqn:Hleaf.
  - exists r. split; [done|]. split; [constructor|].
    rewrite (leaf_view_lookup _ _ _ Hn Hleaf). done.
  - destruct (Hsh _ _ _ _ _ Hskel) as [_ [Hlen Hcs]].
    destruct (at_lt (children n) (upper_bound (keys n) key)) as (c & -> & Hc).
    { pose proof (upper_bound_le (keys n) key). lia. }
    cbn. apply list_elem_of_lookup_2 in Hc. destruct (Hcs c Hc) as [Hlive Hlvl].
    destruct (IH c Hlive ltac:(lia)) as (leaf & -> & Hreach & Hview).
    exists leaf. split; [done|]. split; [|done]. eapply reach_step; eauto.
Qed.

Lemma sum_child_sizes_Done h cs count :
  (∀ c, c ∈ cs → is_Some (skel h c)) → ∃ z, sum_child_sizes h cs count = Done z.
Proof.
  revert count. induction cs as [|c cs IH]; intros count Hcs; [by eexists|].
  destruct (skel_live h c) as [n Hn]; [apply Hcs; left|].
  cbn [sum_child_sizes]. rewrite (load_Done _ _ _ Hn). cbn.
  apply IH. intros c' Hc'. apply Hcs. by right.
Qed.

End WalkFacts.

(** ** Recomputing the counters changes nothing else *)

Section SizeFacts.
Context {K V : Type} `{KeyOps K}.
Context (gas : nat).
Implicit Types (h : list (option (Node K V))) (n : Node K V) (t : BPlusTree K V).

Lemma put_size_same t a n z :
  heap t !! a = Some (Some n) →
  same_but_sizes t (mkTree (<[a := Some (with_size z n)]> (heap t)) (root t) (order t)).
Proof.
  intros Hn. assert (a < length (heap t))%nat by by eapply lookup_lt_Some.
  repeat split; cbn [root order heap].
  - intros b. rewrite skel_insert by done. destruct (decide (a = b)) as [<-|]; [|done].
    by rewrite (skel_lookup _ _ _ Hn).
  - intros b. rewrite leaf_view_insert by done. destruct (decide (a = b)) as [<-|]; [|done].
    unfold leaf_view. by rewrite Hn.
Qed.

Lemma updateSubtreeSize_spec lvl H0 t a :
  shaped lvl H0 (heap t) → is_Some (skel (heap t) a) →
  ∃ t', updateSubtreeSize (Some a) t = Done (tt, t') ∧ same_but_sizes t t'.
Proof.
  intros Hsh Ha. destruct (skel_live _ _ Ha) as [n Hn].
  unfold updateSubtreeSize, get_node.
  rewrite (run_sread _ _ _ n) by by apply load_Done.
  destruct (isLeaf n) eqn:Hleaf.
  - eexists. split; [reflexivity|]. by apply put_size_same.
  - destruct (Hsh _ _ _ _ _ (skel_lookup _ _ _ Hn)) as [_ Hrest]. rewrite Hleaf in Hrest.
    destruct (sum_child_sizes_Done (heap t) (children n) 0%Z) as [z Hz].
    { intros c Hc. by apply Hrest. }
    rewrite (run_sread _ _ _ z) by done.
    eexists. split; [reflexivity|]. by apply put_size_same.
Qed.

Lemma updateSubtreeSizesUpwards_loop_spec lvl H0 chain fuel t a :
  tree_inv lvl H0 chain t → is_Some (skel (heap t) a) →
  (H0 < gas)%nat → (H0 - lvl a + 1 < fuel)%nat →
  ∃ t', updateSubtreeSizesUpwards_loop gas fuel (Some a) t = Done (tt, t')
        ∧ same_but_sizes t t'.
Proof.
  revert t a. induction fuel as [|fuel IH]; intros t a Hinv Ha Hgas Hfuel; [lia|].
  cbn [updateSubtreeSizesUpwards_loop].
  destruct (updateSubtreeSize_spec lvl H0 t a) as (t1 & Hupd & Hsame); [apply Hinv|done|].
  rewrite (run_bind _ _ _ _ _ Hupd).
  pose proof (tree_inv_sizes _ _ _ _ _ Hsame Hinv) as Hinv1.
  destruct Hinv1 as [Hord1 (r & Hroot1 & Hlive1) Hsh1 Hch1].
  destruct Hlive1 as [[[[lf cs] nk] nv] Hr].
  destruct (Hsh1 _ _ _ _ _ Hr) as [Hbound _].
  destruct (findParent_spec lvl H0 (heap t1) gas r a Hsh1) as (p & Hfp & Hfound);
    [by eexists|lia|].
  rewrite (run_sread _ _ _ p) by by rewrite Hroot1.
  destruct p as [p|].
  - destruct Hfound as (cs' & nk' & nv' & Hp & Hx & _).
    destruct (Hsh1 _ _ _ _ _ Hp) as [Hpb [_ Hcs]]. destruct (Hcs a Hx) as [_ Hlvl].
    destruct (IH t1 p) as (t2 & Hloop & Hsame2).
    + split; eauto.
    + by eexists.
    + done.
    + lia.
    + exists t2. split; [done|]. by eapply same_but_sizes_trans.
  - destruct fuel as [|fuel]; [lia|]. exists t1. split; [done|done].
Qed.

Lemma updateSubtreeSizesUpwards_spec lvl H0 chain t a :
  tree_inv lvl H0 chain t → is_Some (skel (heap t) a) → (H0 + 1 < gas)%nat →
  ∃ t', updateSubtreeSizesUpwards gas (Some a) t = Done (tt, t') ∧ same_but_sizes t t'.
Proof.
  intros Hinv Ha Hgas. eapply updateSubtreeSizesUpwards_loop_spec; eauto; lia.
Qed.

End SizeFacts.

(** ** Writing a node, allocating a node *)

Section UpdateFacts.
Context {K V : Type} `{KeyOps K}.
Implicit Types (h : list (option (Node K V))) (n : Node K V) (t : BPlusTree K V).

Lemma skel_insert_live h a b n :
  is_Some (skel h a) → is_Some (skel h b) → is_Some (skel (<[a := Some n]> h) b).
Proof.
  intros Ha Hb. rewrite skel_insert by by apply skel_lt.
  destruct (decide (a = b)); [by eexists|done].
Qed.

Lemma shaped_update lvl H0 h a n :
  shaped lvl H0 h → is_Some (skel h a) → fits lvl h (lvl a) n →
  shaped lvl H0 (<[a := Some n]> h).
Proof.
  intros Hsh Ha Hfit b leaf cs nk nv. rewrite skel_insert by by apply skel_lt.
  destruct (decide (a = b)) as [<-|Hne].
  - intros [= <- <- <- <-]. split.
    + destruct Ha as [[[[??]?]?] Ha]. by destruct (Hsh _ _ _ _ _ Ha).
    + unfold fits in Hfit. destruct (isLeaf n); [done|].
      destruct Hfit as [Hlen Hcs]. split; [done|]. intros c Hc.
      destruct (Hcs c Hc). split; [by apply skel_insert_live|done].
  - intros Hb. destruct (Hsh _ _ _ _ _ Hb) as [Hbound Hrest]. split; [done|].
    destruct leaf; [done|]. destruct Hrest as [Hlen Hcs]. split; [done|].
    intros c Hc. destruct (Hcs c Hc). split; [by apply skel_insert_live|done].
Qed.

Lemma skel_alloc_live h b n : is_Some (skel h b) → is_Some (skel (h ++ [Some n]) b).
Proof.
  intros Hb. rewrite skel_alloc. destruct (decide (b = length h)); [by eexists|done].
Qed.

Lemma lvl_with_old lvl h l x : is_Some (skel h x) → lvl_with lvl h l x = lvl x.
Proof.
  intros Hx%skel_lt. unfold lvl_with. destruct (decide (x = length h)); [lia|done].
Qed.

Lemma lvl_with_new lvl h l : lvl_with lvl h l (length h) = l.
Proof. unfold lvl_with. by rewrite decide_True. Qed.

Lemma shaped_alloc lvl H0 H1 h l n :
  shaped lvl H0 h → (H0 ≤ H1)%nat → (l ≤ H1)%nat → fits lvl h l n →
  shaped (lvl_with lvl h l) H1 (h ++ [Some n]).
Proof.
  intros Hsh HH Hl Hfit b leaf cs nk nv. rewrite skel_alloc.
  destruct (decide (b = length h)) as [->|Hne].
  - intros [= <- <- <- <-]. rewrite lvl_with_new. split; [done|].
    unfold fits in Hfit. destruct (isLeaf n); [done|].
    destruct Hfit as [Hlen Hcs]. split; [done|]. intros c Hc.
    destruct (Hcs c Hc) as [Hlive ->]. split; [by apply skel_alloc_live|].
    by rewrite lvl_with_old.
  - intros Hb. assert (Hlive : is_Some (skel h b)) by by eexists.
    rewrite (lvl_with_old _ _ _ _ Hlive).
    destruct (Hsh _ _ _ _ _ Hb) as [Hbound Hrest]. split; [lia|].
    destruct leaf; [done|]. destruct Hrest as [Hlen Hcs]. split; [done|].
    intros c Hc. destruct (Hcs c Hc) as [Hclive ->].
    split; [by apply skel_alloc_live|]. by rewrite lvl_with_old.
Qed.

(** [new Node] followed by the assignment of its fields. *)
Lemma insert_fresh h (x y : option (Node K V)) :
  <[length h := y]> (h ++ [x]) = h ++ [y].
Proof.
  rewrite insert_app_r_alt by lia. by rewrite Nat.sub_diag.
Qed.

Lemma get_node_Done t a n :
  heap t !! a = Some (Some n) → get_node a t = Done (n, t).
Proof. intros Hn. unfold get_node, sread. by rewrite (load_Done _ _ _ Hn). Qed.

Lemma get_ptr_Done t c n :
  heap t !! c = Some (Some n) → get_ptr (Some c) t = Done ((c, n), t).
Proof. intros Hn. unfold get_ptr, sread. cbn. by rewrite (load_Done _ _ _ Hn). Qed.

Lemma elem_of_insert_at {A} (l : list A) i x y :
  y ∈ insert_at i x l → y = x ∨ y ∈ l.
Proof.
  unfold insert_at. rewrite elem_of_app, elem_of_cons.
  intros [Hy|[->|Hy]]; [right|by left|right].
  - by eapply subseteq_take.
  - by eapply subseteq_drop.
Qed.

Lemma length_insert_at {A} (l : list A) i x :
  (i ≤ length l)%nat → length (insert_at i x l) = S (length l).
Proof.
  intros Hi. unfold insert_at. rewrite length_app, length_take. cbn. rewrite length_drop. lia.
Qed.

(** The store after [splitInternal] has moved the upper half of the node
    at [c] to the fresh node. *)
Lemma split_internal_store lvl H0 h c n mid :
  shaped lvl H0 h → h !! c = Some (Some n) → isLeaf n = false →
  (mid < length (keys n))%nat →
  let n_new := mkNode false (drop (S mid) (keys n)) (drop (S mid) (children n)) [] None 0 in
  let n_c := with_children (take (S mid) (children n)) (with_keys (take mid (keys n)) n) in
  let h' := <[c := Some n_c]> (h ++ [Some n_new]) in
  shaped (lvl_with lvl h (lvl c)) H0 h'
  ∧ (∀ a, leaf_view h' a = leaf_view h a)
  ∧ (∀ x, x ≠ c → x ≠ length h → skel h' x = skel h x)
  ∧ is_Some (skel h' c) ∧ is_Some (skel h' (length h)).
Proof.
  intros Hsh Hn Hleaf Hmid n_new n_c h'.
  pose proof (skel_lookup _ _ _ Hn) as Hskel. rewrite Hleaf in Hskel.
  destruct (Hsh _ _ _ _ _ Hskel) as [Hbound [Hlen Hcs]].
  assert (Hc : (c < length h)%nat) by by eapply lookup_lt_Some.
  assert (Hlive : is_Some (skel h c)) by by eexists.
  assert (Hsh1 : shaped (lvl_with lvl h (lvl c)) H0 (h ++ [Some n_new])).
  { apply (shaped_alloc lvl H0 H0); [done|lia|done|]. unfold fits. cbn. split.
    - rewrite !length_drop. lia.
    - intros x Hx%subseteq_drop. by apply Hcs. }
  assert (Hc1 : is_Some (skel (h ++ [Some n_new]) c)) by by apply skel_alloc_live.
  split; [|split; [|split; [|split]]].
  - apply shaped_update; [done|done|]. unfold fits. cbn. rewrite Hleaf. split.
    + rewrite !length_take. lia.
    + intros x Hx%subseteq_take. destruct (Hcs x Hx) as [Hxl Hxv].
      split; [by apply skel_alloc_live|]. rewrite !lvl_with_old by done. done.
  - intros a. unfold h'. rewrite leaf_view_insert by (rewrite length_app; cbn; lia).
    rewrite leaf_view_alloc. cbn. rewrite Hleaf.
    destruct (decide (c = a)) as [<-|].
    + symmetry. unfold leaf_view. by rewrite Hn, Hleaf.
    + destruct (decide (a = length h)) as [->|]; [|done]. by rewrite leaf_view_fresh.
  - intros x Hxc Hxn. unfold h'. rewrite skel_insert by (rewrite length_app; cbn; lia).
    rewrite decide_False by done. rewrite skel_alloc. by rewrite decide_False.
  - unfold h'. rewrite skel_insert by (rewrite length_app; cbn; lia).
    rewrite decide_True by done. by eexists.
  - unfold h'. rewrite skel_insert by (rewrite length_app; cbn; lia).
    rewrite decide_False by lia. rewrite skel_alloc, decide_True by done. by eexists.
Qed.

End UpdateFacts.

(** ** A new root above two nodes *)

Section NewRoot.
Context {K V : Type} `{KeyOps K}.
Context (gas : nat).
Implicit Types (h : list (option (Node K V))) (n : Node K V) (t : BPlusTree K V).

Lemma new_root_spec lvl H0 chain t x y (key : K) :
  (3 ≤ order t)%Z → shaped lvl H0 (heap t) → chained (heap t) chain →
  is_Some (skel (heap t) x) → is_Some (skel (heap t) y) → lvl x = lvl y →
  (H0 + 2 < gas)%nat →
  ∃ t' lvl',
    (newRoot ← new_Node false;
     put_node newRoot (mkNode false [key] [x; y] [] None 0);;
     updateSubtreeSize (Some newRoot);;
     set_root (Some newRoot);;
     updateSubtreeSizesUpwards gas (Some newRoot)) t = Done (tt, t')
    ∧ tree_inv lvl' (S H0) chain t'
    ∧ (∀ a, leaf_view (heap t') a = leaf_view (heap t) a).
Proof.
  intros Hord Hsh Hch Hx Hy Hlvl Hgas.
  set (n_root := mkNode false [key] [x; y] [] None 0).
  set (lvl' := lvl_with lvl (heap t) (S (lvl x))).
  assert (Hxb : (lvl x ≤ H0)%nat).
  { destruct Hx as [[[[??]?]?] Hx]. by destruct (Hsh _ _ _ _ _ Hx). }
  assert (Hsh1 : shaped lvl' (S H0) (heap t ++ [Some n_root])).
  { apply (shaped_alloc lvl H0); [done|lia|lia|]. unfold fits. cbn. split; [done|].
    intros c [->|[->|Hc%elem_of_nil]%elem_of_cons]%elem_of_cons; [done| |done].
    split; [done|]. by rewrite Hlvl. }
  assert (Hlv : ∀ a, leaf_view (heap t ++ [Some n_root]) a = leaf_view (heap t) a).
  { intros a. rewrite leaf_view_alloc. cbn.
    destruct (decide (a = length (heap t))) as [->|]; [|done]. by rewrite leaf_view_fresh. }
  assert (Hnew : is_Some (skel (heap t ++ [Some n_root]) (length (heap t)))).
  { rewrite skel_alloc, decide_True by done. by eexists. }
  run_step. run_step. cbn [heap root order]. rewrite insert_fresh.
  set (t1 := mkTree (heap t ++ [Some n_root]) (root t) (order t)).
  destruct (updateSubtreeSize_spec lvl' (S H0) t1 (length (heap t)))
    as (t2 & Hupd & Hsame); [done|done|].
  rewrite (run_bind _ _ _ _ _ Hupd). run_step.
  destruct Hsame as (Hr2 & Ho2 & Hs2 & Hl2).
  set (t3 := mkTree (heap t2) (Some (length (heap t))) (order t2)).
  assert (Hinv3 : tree_inv lvl' (S H0) chain t3).
  { split; unfold t3; cbn [heap root order].
    - rewrite Ho2. done.
    - eexists. split; [done|]. by rewrite Hs2.
    - by apply (shaped_ext _ _ (heap t1)).
    - apply (chained_ext (heap t)); [|done]. intros a. rewrite Hl2. apply Hlv. }
  destruct (updateSubtreeSizesUpwards_spec gas lvl' (S H0) chain t3 (length (heap t)))
    as (t4 & Hup & Hsame4); [done|unfold t3; cbn [heap]; by rewrite Hs2|lia|].
  exists t4, lvl'. split; [done|]. split.
  - by eapply tree_inv_sizes.
  - intros a. destruct Hsame4 as (_ & _ & _ & Hl4). rewrite Hl4. unfold t3. cbn [heap].
    rewrite Hl2. apply Hlv.
Qed.

End NewRoot.

(** ** [insertInternal] and [splitInternal] *)

Section InsertInternal.
Context {K V : Type} `{KeyOps K}.
Context (gas : nat).
Implicit Types (h : list (option (Node K V))) (n : Node K V) (t : BPlusTree K V).

Lemma insertInternal_loop_spec fuel : ∀ lvl H0 chain t (key : K) c child r,
  tree_inv lvl H0 chain t → root t = Some r → reach (heap t) r c →
  (∃ cs nk nv, skel (heap t) c = Some (false, cs, nk, nv)) →
  is_Some (skel (heap t) child) → lvl c = S (lvl child) →
  (H0 - lvl c < fuel)%nat → (H0 + 2 < gas)%nat →
  ∃ t' lvl' H', insertInternal_loop gas fuel key (Some c) child t = Done (tt, t')
    ∧ tree_inv lvl' H' chain t' ∧ (H' ≤ S H0)%nat
    ∧ (∀ a, leaf_view (heap t') a = leaf_view (heap t) a).
Proof.
  induction fuel as [|fuel IH];
    intros lvl H0 chain t key c child r Hinv Hroot Hreach (cs & nk & nv & Hskel)
      Hchild Hlvl Hfuel Hgas; [lia|].
  destruct Hinv as [Hord (r0 & Hr0 & Hrlive) Hsh Hch].
  rewrite Hroot in Hr0. injection Hr0 as <-.
  destruct (skel_Some _ _ _ _ _ _ Hskel) as (n & Hn & Hleaf & <- & <- & <-).
  destruct (Hsh _ _ _ _ _ Hskel) as [Hcb [Hlen Hcs]].
  assert (Hclive : is_Some (skel (heap t) c)) by by eexists.
  assert (Hclt : (c < length (heap t))%nat) by by apply skel_lt.
  cbn [insertInternal_loop].
  rewrite (run_bind _ _ _ _ _ (get_ptr_Done _ _ _ Hn)). lazy beta iota.
  pose proof (upper_bound_le (keys n) key) as Hidx.
  set (index := upper_bound (keys n) key) in *.
  rewrite bool_decide_eq_false_2 by lia.
  run_step.
  set (n1 := with_children (insert_at (S index) child (children n))
               (with_keys (insert_at index key (keys n)) n)).
  set (t1 := mkTree (<[c := Some n1]> (heap t)) (root t) (order t)).
  assert (Hsh1 : shaped lvl H0 (heap t1)).
  { apply shaped_update; [done|done|]. unfold fits. cbn. rewrite Hleaf. split.
    - rewrite !length_insert_at by lia. lia.
    - intros x [->|Hx]%elem_of_insert_at; [done|]. by apply Hcs. }
  assert (Hlv1 : ∀ a, leaf_view (heap t1) a = leaf_view (heap t) a).
  { intros a. unfold t1. cbn [heap]. rewrite leaf_view_insert by done. cbn. rewrite Hleaf.
    destruct (decide (c = a)) as [<-|]; [|done]. unfold leaf_view. by rewrite Hn, Hleaf. }
  assert (Hother1 : ∀ x, x ≠ c → skel (heap t1) x = skel (heap t) x).
  { intros x Hx. unfold t1. cbn [heap]. rewrite skel_insert by done. by rewrite decide_False. }
  assert (Hreach1 : reach (heap t1) r c).
  { eapply reach_above; [exact Hsh| |done]. intros x Hx _. apply Hother1. intros ->. lia. }
  assert (Hn1 : heap t1 !! c = Some (Some n1)).
  { unfold t1. cbn [heap]. by rewrite list_lookup_insert_eq. }
  assert (Hinv1 : tree_inv lvl H0 chain t1).
  { split; [done| |done|by apply (chained_ext (heap t))].
    exists r. split; [done|]. unfold t1. cbn [heap]. by apply skel_insert_live. }
  run_step. fold t1.
  destruct (Z.leb_spec (order t1) (Z.of_nat (S (length (keys n))))) as [Hsplit|Hnosplit].
  2: { destruct (updateSubtreeSizesUpwards_spec gas lvl H0 chain t1 c)
         as (t2 & Hup & Hsame);
           [done|by rewrite (skel_lookup _ _ _ Hn1)|lia|].
       exists t2, lvl, H0. split; [done|]. split; [by eapply tree_inv_sizes|].
       split; [lia|]. intros a. destruct Hsame as (_ & _ & _ & Hl). by rewrite Hl. }
  unfold splitInternal_body, get_node.
  rewrite (run_sread _ _ _ n1) by by apply load_Done.
  assert (Hk1 : length (keys n1) = S (length (keys n))).
  { unfold n1. cbn. by rewrite length_insert_at. }
  assert (Hc1 : length (children n1) = S (S (length (keys n)))).
  { unfold n1. cbn. rewrite length_insert_at by lia. lia. }
  assert (Hmid : (length (keys n1) / 2 < length (keys n1))%nat).
  { apply Nat.div_lt; lia. }
  set (mid := (length (keys n1) / 2)%nat) in *.
  run_step.
  destruct (at_lt (keys n1) mid Hmid) as (upKey & -> & _).
  rewrite run_sfail.
  rewrite bool_decide_eq_false_2 by lia.
  run_step. run_step. cbn [heap root order]. rewrite insert_fresh.
  destruct (split_internal_store lvl H0 (heap t1) c n1 mid Hsh1 Hn1 Hleaf Hmid)
    as (Hsh4 & Hlv4 & Hother4 & Hc4 & Hnew4).
  set (lvl2 := lvl_with lvl (heap t1) (lvl c)) in *.
  set (n_new := mkNode false (drop (S mid) (keys n1)) (drop (S mid) (children n1)) [] None 0) in *.
  set (n_c := with_children (take (S mid) (children n1)) (with_keys (take mid (keys n1)) n1)) in *.
  set (newI := length (heap t1)) in *.
  set (t4 := mkTree (<[c := Some n_c]> (heap t1 ++ [Some n_new])) (root t) (order t)).
  change (<[c := Some n_c]> (heap t1 ++ [Some n_new])) with (heap t4) in Hsh4, Hlv4, Hother4, Hc4, Hnew4.
  destruct (updateSubtreeSize_spec lvl2 H0 t4 c) as (t5 & Hupd5 & Hsame5); [done|done|].
  rewrite (run_bind _ _ _ _ _ Hupd5).
  assert (Hsh5 : shaped lvl2 H0 (heap t5)).
  { destruct Hsame5 as (_ & _ & Hs & _). by apply (shaped_ext _ _ (heap t4)). }
  destruct (updateSubtreeSize_spec lvl2 H0 t5 newI) as (t6 & Hupd6 & Hsame6).
  { done. }
  { destruct Hsame5 as (_ & _ & Hs & _). by rewrite Hs. }
  rewrite (run_bind _ _ _ _ _ Hupd6).
  destruct (same_but_sizes_trans _ _ _ Hsame5 Hsame6) as (Hr6 & Ho6 & Hs6 & Hl6).
  assert (Hsh6 : shaped lvl2 H0 (heap t6)) by by apply (shaped_ext _ _ (heap t4)).
  assert (Hlv6 : ∀ a, leaf_view (heap t6) a = leaf_view (heap t) a).
  { intros a. by rewrite Hl6, Hlv4, Hlv1. }
  assert (Hch6 : chained (heap t6) chain) by by apply (chained_ext (heap t)).
  assert (Hlc : lvl2 c = lvl c).
  { apply lvl_with_old. by rewrite (skel_lookup _ _ _ Hn1). }
  assert (Hln : lvl2 newI = lvl c) by apply lvl_with_new.
  run_step. rewrite Hr6. unfold t4 at 1. cbn [root]. rewrite Hroot. unfold ptr_eqb.
  destruct (decide (c = r)) as [->|Hne].
  - rewrite bool_decide_eq_true_2 by done.
    destruct (new_root_spec gas lvl2 H0 chain t6 r newI upKey)
      as (t7 & lvl7 & Hrun & Hinv7 & Hlv7); try done.
    + by rewrite Ho6.
    + by rewrite Hs6.
    + by rewrite Hs6.
    + congruence.
    + exists t7, lvl7, (S H0). split; [done|]. split; [done|]. split; [lia|].
      intros a. by rewrite Hlv7.
  - rewrite bool_decide_eq_false_2 by congruence.
    assert (Hreach6 : reach (heap t6) r c).
    { apply (reach_ext (heap t4)); [done|].
      eapply reach_above; [exact Hsh1| |done].
      intros x Hx Hxlive. apply Hother4; [intros ->; lia|].
      intros ->. apply skel_lt in Hxlive. unfold newI in Hxlive. lia. }
    assert (Hrlive6 : is_Some (skel (heap t6) r)).
    { rewrite Hs6, Hother4; [by rewrite Hother1 by done|done|].
      intros ->. apply skel_lt in Hrlive. unfold newI, t1 in Hrlive. cbn [heap] in Hrlive.
      rewrite length_insert in Hrlive. lia. }
    assert (Hrb : (lvl2 r ≤ H0)%nat).
    { destruct Hrlive6 as [[[[??]?]?] Hr]. by destruct (Hsh6 _ _ _ _ _ Hr). }
    destruct (findParent_below lvl2 H0 (heap t6) gas r c Hsh6 Hrlive6 ltac:(lia) Hreach6
                ltac:(done)) as (p & pcs & pnk & pnv & Hfp & Hps & Hcp & Hrp).
    rewrite (run_sread _ _ _ (Some p)).
    2: { rewrite Hr6. unfold t4. cbn [root]. by rewrite Hroot. }
    destruct (Hsh6 _ _ _ _ _ Hps) as [Hpb [_ Hpcs]]. destruct (Hpcs c Hcp) as [_ Hpl].
    destruct (IH lvl2 H0 chain t6 upKey p newI r) as (t7 & lvl7 & H7 & Hrun & Hinv7 & HH7 & Hlv7).
    + split; [by rewrite Ho6|by exists r; rewrite Hr6|done|done].
    + by rewrite Hr6.
    + done.
    + by exists pcs, pnk, pnv.
    + by rewrite Hs6.
    + lia.
    + lia.
    + done.
    + exists t7, lvl7, H7. split; [done|]. split; [done|]. split; [done|].
      intros a. by rewrite Hlv7.
Qed.

End InsertInternal.

(** ** The leaf chain and what it holds *)

Section ChainFacts.
Context {K V : Type} `{KeyOps K}.
Implicit Types (h : list (option (Node K V))) (n : Node K V) (t : BPlusTree K V).
Implicit Types (ks : list K) (vs : list (list V)).

Lemma group_pairs_app ks1 ks2 vs1 vs2 :
  length ks1 = length vs1 →
  group_pairs (ks1 ++ ks2) (vs1 ++ vs2) = group_pairs ks1 vs1 ++ group_pairs ks2 vs2.
Proof.
  intros Hlen. unfold group_pairs. rewrite zip_with_app by done. by rewrite concat_app.
Qed.

Lemma group_pairs_take_drop m ks vs :
  length vs = length ks →
  group_pairs (take m ks) (take m vs) ++ group_pairs (drop m ks) (drop m vs) = group_pairs ks vs.
Proof.
  intros Hlen. rewrite <- group_pairs_app by (rewrite !length_take; lia).
  by rewrite !take_drop.
Qed.

Lemma group_pairs_insert_at i (k : K) (v : V) ks vs :
  length vs = length ks → (i ≤ length ks)%nat →
  group_pairs (insert_at i k ks) (insert_at i [v] vs) ≡ₚ (k, v) :: group_pairs ks vs.
Proof.
  intros Hlen Hi. unfold insert_at.
  rewrite group_pairs_app by (rewrite !length_take; lia).
  rewrite <- (group_pairs_take_drop i ks vs) by done.
  change (group_pairs (k :: drop i ks) ([v] :: drop i vs))
    with ((k, v) :: group_pairs (drop i ks) (drop i vs)).
  by rewrite <- Permutation_middle.
Qed.

Lemma group_pairs_push_back_middle (k : K) (v : V) vals ks1 ks2 vs1 vs2 :
  length ks1 = length vs1 →
  group_pairs (ks1 ++ k :: ks2) (vs1 ++ (vals ++ [v]) :: vs2)
  ≡ₚ (k, v) :: group_pairs (ks1 ++ k :: ks2) (vs1 ++ vals :: vs2).
Proof.
  intros Hlen. rewrite !group_pairs_app by done.
  change (group_pairs (k :: ks2) ((vals ++ [v]) :: vs2))
    with (((k,.) <$> (vals ++ [v])) ++ group_pairs ks2 vs2).
  change (group_pairs (k :: ks2) (vals :: vs2))
    with (((k,.) <$> vals) ++ group_pairs ks2 vs2).
  rewrite fmap_app. cbn [fmap list_fmap].
  rewrite <- !app_assoc. cbn [app].
  by rewrite <- !Permutation_middle.
Qed.

Lemma group_pairs_push_back i (k : K) (v : V) vals ks vs :
  length vs = length ks → ks !! i = Some k → vs !! i = Some vals →
  group_pairs ks (<[i := vals ++ [v]]> vs) ≡ₚ (k, v) :: group_pairs ks vs.
Proof.
  intros Hlen Hk Hv.
  assert (Hi : (i < length vs)%nat) by by eapply lookup_lt_Some.
  rewrite insert_take_drop by done.
  replace (group_pairs ks vs)
    with (group_pairs (take i ks ++ k :: drop (S i) ks) (take i vs ++ vals :: drop (S i) vs))
    by (by rewrite !take_drop_middle).
  replace (group_pairs ks (take i vs ++ (vals ++ [v]) :: drop (S i) vs))
    with (group_pairs (take i ks ++ k :: drop (S i) ks)
            (take i vs ++ (vals ++ [v]) :: drop (S i) vs))
    by (by rewrite take_drop_middle).
  apply group_pairs_push_back_middle. rewrite !length_take. lia.
Qed.

Lemma linked_agree h h' chain :
  (∀ a, a ∈ chain → leaf_view h' a = leaf_view h a) → linked h chain → linked h' chain.
Proof.
  induction chain as [|a rest IH]; [done|]. intros Heq [Ha Hrest]. split.
  - rewrite Heq by left. done.
  - apply IH; [|done]. intros b Hb. apply Heq. by right.
Qed.

Lemma pairs_of_agree h h' chain :
  (∀ a, a ∈ chain → leaf_view h' a = leaf_view h a) → pairs_of h' chain = pairs_of h chain.
Proof.
  induction chain as [|a rest IH]; [done|]. intros Heq. unfold pairs_of in *. cbn.
  rewrite IH by (intros b Hb; apply Heq; by right).
  f_equal. unfold pairs_at. by rewrite Heq by left.
Qed.

(** A leaf gets new keys and values and keeps its [next]. *)
Lemma linked_refill h h' chain leaf :
  (∀ a, a ≠ leaf → leaf_view h' a = leaf_view h a) →
  (∀ ks vs nx, leaf_view h leaf = Some (ks, vs, nx) →
     ∃ ks' vs', leaf_view h' leaf = Some (ks', vs', nx)) →
  linked h chain → linked h' chain.
Proof.
  intros Hother Hleaf. induction chain as [|a rest IH]; [done|]. intros [(ks & vs & Ha) Hrest].
  split; [|by apply IH]. destruct (decide (a = leaf)) as [->|Hne].
  - destruct (Hleaf _ _ _ Ha) as (ks' & vs' & ->). eauto.
  - rewrite Hother by done. eauto.
Qed.

Lemma pairs_of_refill h h' chain leaf p :
  NoDup chain → leaf ∈ chain →
  (∀ a, a ≠ leaf → leaf_view h' a = leaf_view h a) →
  pairs_at h' leaf ≡ₚ p :: pairs_at h leaf →
  pairs_of h' chain ≡ₚ p :: pairs_of h chain.
Proof.
  intros Hnd Hin Hother Hleaf. induction chain as [|a rest IH]; [by apply elem_of_nil in Hin|].
  apply NoDup_cons in Hnd as [Ha Hnd]. unfold pairs_of in *. cbn.
  destruct (decide (a = leaf)) as [->|Hne].
  - rewrite Hleaf. cbn. do 2 f_equiv.
    change (rest ≫= pairs_at h') with (pairs_of h' rest).
    rewrite (pairs_of_agree h h'); [done|]. intros b Hb. apply Hother. by intros ->.
  - apply elem_of_cons in Hin as [->|Hin]; [done|].
    rewrite IH by done. rewrite <- Permutation_middle. do 2 f_equiv.
    unfold pairs_at. by rewrite Hother.
Qed.

Lemma head_insert_after x y chain : head (insert_after x y chain) = head chain.
Proof. destruct chain as [|a rest]; [done|]. cbn. by destruct (decide (a = x)). Qed.

Lemma elem_of_insert_after x y chain a :
  a ∈ insert_after x y chain → a ∈ chain ∨ a = y.
Proof.
  induction chain as [|b rest IH]; [by intros ?%elem_of_nil|]. cbn.
  destruct (decide (b = x)) as [->|Hne]; rewrite !elem_of_cons.
  - intros [?|[?|?]]; auto.
  - intros [?|[?|?]%IH]; auto.
Qed.

Lemma elem_of_insert_after_2 x y chain a : a ∈ chain → a ∈ insert_after x y chain.
Proof.
  induction chain as [|b rest IH]; [done|]. cbn.
  destruct (decide (b = x)) as [->|Hne]; rewrite !elem_of_cons; intros [?|?]; auto.
Qed.

Lemma elem_of_insert_after_new x y chain : x ∈ chain → y ∈ insert_after x y chain.
Proof.
  induction chain as [|b rest IH]; [by intros ?%elem_of_nil|]. cbn.
  destruct (decide (b = x)) as [->|Hne]; rewrite !elem_of_cons.
  - auto.
  - intros [?|?]; [done|auto].
Qed.

Lemma NoDup_insert_after x y chain :
  NoDup chain → y ∉ chain → NoDup (insert_after x y chain).
Proof.
  induction chain as [|b rest IH]; [done|]. intros [Hb Hnd]%NoDup_cons Hy. cbn.
  apply not_elem_of_cons in Hy as [Hyb Hy].
  destruct (decide (b = x)) as [->|Hne].
  - apply NoDup_cons. split; [|apply NoDup_cons; done].
    rewrite elem_of_cons. intros [?|?]; done.
  - apply NoDup_cons. split; [|by apply IH].
    intros [?| ->]%elem_of_insert_after; done.
Qed.

Lemma length_insert_after x y chain : (length (insert_after x y chain) ≤ S (length chain))%nat.
Proof.
  induction chain as [|b rest IH]; [cbn; lia|]. cbn.
  destruct (decide (b = x)); cbn; lia.
Qed.

(** The leaf [leaf] hands its upper half to the fresh leaf [y]. *)
Lemma linked_split h h' chain leaf y :
  NoDup chain → y ∉ chain →
  (∀ a, a ≠ leaf → a ≠ y → leaf_view h' a = leaf_view h a) →
  (∀ ks vs nx, leaf_view h leaf = Some (ks, vs, nx) →
     (∃ ks' vs', leaf_view h' leaf = Some (ks', vs', Some y))
     ∧ (∃ ks' vs', leaf_view h' y = Some (ks', vs', nx))) →
  linked h chain → linked h' (insert_after leaf y chain).
Proof.
  intros Hnd Hy Hother Hleaf. induction chain as [|a rest IH]; [done|].
  apply NoDup_cons in Hnd as [Ha Hnd]. apply not_elem_of_cons in Hy as [Hya Hy].
  intros [(ks & vs & Hav) Hrest]. cbn. destruct (decide (a = leaf)) as [->|Hne].
  - destruct (Hleaf _ _ _ Hav) as [(ks1 & vs1 & H1) (ks2 & vs2 & H2)].
    split; [eauto|]. split; [eauto|].
    apply (linked_agree h); [|done]. intros b Hb. apply Hother; by intros ->.
  - split; [|by apply IH]. rewrite head_insert_after, Hother by done. eauto.
Qed.

Lemma pairs_of_split h h' chain leaf y :
  NoDup chain → y ∉ chain →
  (∀ a, a ≠ leaf → a ≠ y → leaf_view h' a = leaf_view h a) →
  pairs_at h' leaf ++ pairs_at h' y = pairs_at h leaf →
  pairs_of h' (insert_after leaf y chain) = pairs_of h chain.
Proof.
  intros Hnd Hy Hother Hleaf. induction chain as [|a rest IH]; [done|].
  apply NoDup_cons in Hnd as [Ha Hnd]. apply not_elem_of_cons in Hy as [Hya Hy].
  unfold pairs_of in *. cbn. destruct (decide (a = leaf)) as [->|Hne].
  - cbn. rewrite app_assoc, Hleaf. f_equal.
    apply (pairs_of_agree h h'). intros b Hb. apply Hother; by intros ->.
  - cbn. rewrite IH by done. f_equal. unfold pairs_at. by rewrite Hother.
Qed.

End ChainFacts.

(** ** [splitLeaf] *)

Section SplitLeaf.
Context {K V : Type} `{KeyOps K}.
Context (gas : nat).
Implicit Types (h : list (option (Node K V))) (n : Node K V) (t : BPlusTree K V).
Implicit Types (ks : list K) (vs : list (list V)).

Lemma linked_live h chain a : linked h chain → a ∈ chain → is_Some (leaf_view h a).
Proof.
  induction chain as [|b rest IH]; [by intros _ ?%elem_of_nil|].
  intros [(ks & vs & Hb) Hrest] [->|Ha]%elem_of_cons; [by eexists|by apply IH].
Qed.

Lemma leaf_view_lt h a : is_Some (leaf_view h a) → (a < length h)%nat.
Proof.
  intros [[[ks vs] nx] Ha]. destruct (leaf_view_Some _ _ _ _ _ Ha) as (n & Hn & _).
  by eapply lookup_lt_Some.
Qed.

(** [mid = (order + 1) / 2] leaves something for the new leaf. *)
Lemma splitLeaf_mid (ord : Z) (len : nat) :
  (3 ≤ ord)%Z → (ord ≤ Z.of_nat len)%Z → (Z.to_nat (int32 (ord + 1) ÷ 2) < len)%nat.
Proof.
  intros Hord Hlen. pose proof (int32_le (ord + 1) ltac:(lia)) as Hle.
  destruct (Z.le_gt_cases 0 (int32 (ord + 1))) as [Hpos|Hneg].
  - rewrite Z.quot_div_nonneg by lia.
    assert (int32 (ord + 1) / 2 < ord)%Z; [|lia].
    apply Z.div_lt_upper_bound; lia.
  - assert (int32 (ord + 1) ÷ 2 ≤ 0)%Z; [|lia].
    apply Z.quot_le_upper_bound; lia.
Qed.

Lemma splitLeaf_spec lvl H0 chain t leaf r ks vs nx :
  tree_inv lvl H0 chain t → root t = Some r → reach (heap t) r leaf →
  leaf_view (heap t) leaf = Some (ks, vs, nx) →
  (order t ≤ Z.of_nat (length ks))%Z → (H0 + 2 < gas)%nat →
  ∃ t' lvl' H' chain',
    splitLeaf gas leaf t = Done (tt, t')
    ∧ tree_inv lvl' H' chain' t' ∧ (H' ≤ S H0)%nat
    ∧ (length chain' ≤ S (length chain))%nat
    ∧ pairs_of (heap t') chain' = pairs_of (heap t) chain.
Proof.
  intros [Hord (r0 & Hr0 & Hrlive) Hsh (Hnd & Hall & Hlinked)] Hroot Hreach Hview Hfull Hgas.
  rewrite Hroot in Hr0. injection Hr0 as <-.
  destruct (leaf_view_Some _ _ _ _ _ Hview) as (l & Hl & Hleaf & <- & <- & <-).
  pose proof (skel_lookup _ _ _ Hl) as Hskel. rewrite Hleaf in Hskel.
  destruct (Hsh _ _ _ _ _ Hskel) as [Hlb Hlen].
  assert (Hllt : (leaf < length (heap t))%nat) by by eapply lookup_lt_Some.
  pose proof (splitLeaf_mid _ _ Hord Hfull) as Hmid.
  unfold splitLeaf. run_step. cbn [order].
  set (mid := Z.to_nat (int32 (order t + 1) ÷ 2)) in *.
  run_step. unfold get_node.
  rewrite (run_sread _ _ _ l) by (apply load_Done; cbn [heap]; by rewrite lookup_app_l).
  rewrite bool_decide_eq_false_2 by lia.
  run_step. run_step. cbn [heap root order]. rewrite insert_fresh.
  set (newLeaf := length (heap t)).
  set (n_new := mkNode true (drop mid (keys l)) [] (drop mid (values l)) (next l) 0).
  set (n_l := with_next (Some newLeaf)
                (with_values (take mid (values l)) (with_keys (take mid (keys l)) l))).
  set (h' := <[leaf := Some n_l]> (heap t ++ [Some n_new])).
  set (lvl2 := lvl_with lvl (heap t) (lvl leaf)).
  assert (Hlen' : (leaf < length (heap t ++ [Some n_new]))%nat) by (rewrite length_app; lia).
  assert (Hsh' : shaped lvl2 H0 h').
  { apply shaped_update.
    - apply (shaped_alloc lvl H0 H0); [done|lia|done|]. unfold fits. cbn.
      rewrite !length_drop. lia.
    - apply skel_alloc_live. by eexists.
    - unfold fits. cbn. rewrite Hleaf. rewrite !length_take. lia. }
  assert (Hvl : leaf_view h' leaf = Some (take mid (keys l), take mid (values l), Some newLeaf)).
  { unfold h'. rewrite leaf_view_insert, decide_True by done. cbn. by rewrite Hleaf. }
  assert (Hvn : leaf_view h' newLeaf = Some (drop mid (keys l), drop mid (values l), next l)).
  { unfold h'. rewrite leaf_view_insert, decide_False by (unfold newLeaf; lia).
    by rewrite leaf_view_alloc, decide_True. }
  assert (Hvo : ∀ a, a ≠ leaf → a ≠ newLeaf → leaf_view h' a = leaf_view (heap t) a).
  { intros a Ha1 Ha2. unfold h'. rewrite leaf_view_insert, decide_False by done.
    by rewrite leaf_view_alloc, decide_False. }
  assert (Hso : ∀ a, a ≠ leaf → a ≠ newLeaf → skel h' a = skel (heap t) a).
  { intros a Ha1 Ha2. unfold h'. rewrite skel_insert, decide_False by done.
    by rewrite skel_alloc, decide_False. }
  assert (Hsl : is_Some (skel h' leaf)).
  { unfold h'. rewrite skel_insert, decide_True by done. by eexists. }
  assert (Hsn : is_Some (skel h' newLeaf)).
  { unfold h'. rewrite skel_insert, decide_False by (unfold newLeaf; lia).
    rewrite skel_alloc, decide_True by done. by eexists. }
  assert (Hfresh : newLeaf ∉ chain).
  { intros Hin. apply (linked_live _ _ _ Hlinked), leaf_view_lt in Hin. unfold newLeaf in Hin. lia. }
  assert (Hleafin : leaf ∈ chain) by (apply Hall; by eexists).
  set (chain' := insert_after leaf newLeaf chain).
  assert (Hch' : chained h' chain').
  { split; [by apply NoDup_insert_after|]. split.
    - intros a Ha. destruct (decide (a = newLeaf)) as [->|Hn1].
      { by apply elem_of_insert_after_new. }
      apply elem_of_insert_after_2. destruct (decide (a = leaf)) as [->|Hn2]; [done|].
      apply Hall. by rewrite <- Hvo.
    - apply (linked_split (heap t)); try done.
      intros ks' vs' nx'. rewrite Hview. intros [= <- <- <-]. split; eauto. }
  assert (Hpairs : pairs_of h' chain' = pairs_of (heap t) chain).
  { apply pairs_of_split; try done. unfold pairs_at. rewrite Hvl, Hvn, Hview.
    by apply group_pairs_take_drop. }
  assert (Hreach' : reach h' r leaf).
  { eapply reach_above; [exact Hsh| |done]. intros x Hx Hxl. apply Hso; [intros ->; lia|].
    intros ->. apply skel_lt in Hxl. unfold newLeaf in Hxl. lia. }
  assert (Hrlive' : is_Some (skel h' r)).
  { destruct (decide (r = leaf)) as [->|Hne]; [done|]. rewrite Hso; [done|done|].
    intros ->. apply skel_lt in Hrlive. unfold newLeaf in Hrlive. lia. }
  destruct (at_lt (drop mid (keys l)) 0) as (newKey & -> & _).
  { rewrite length_drop. lia. }
  rewrite run_sfail.
  set (t4 := mkTree h' (root t) (order t)).
  change h' with (heap t4) in Hsh', Hvl, Hvn, Hvo, Hso, Hsl, Hsn, Hch', Hpairs, Hreach', Hrlive'.
  destruct (updateSubtreeSize_spec lvl2 H0 t4 leaf) as (t5 & Hupd5 & Hsame5); [done|done|].
  rewrite (run_bind _ _ _ _ _ Hupd5).
  destruct (updateSubtreeSize_spec lvl2 H0 t5 newLeaf) as (t6 & Hupd6 & Hsame6).
  { destruct Hsame5 as (_ & _ & Hs & _). by apply (shaped_ext _ _ (heap t4)). }
  { destruct Hsame5 as (_ & _ & Hs & _). by rewrite Hs. }
  rewrite (run_bind _ _ _ _ _ Hupd6).
  destruct (same_but_sizes_trans _ _ _ Hsame5 Hsame6) as (Hr6 & Ho6 & Hs6 & Hl6).
  assert (Hsh6 : shaped lvl2 H0 (heap t6)) by by apply (shaped_ext _ _ (heap t4)).
  assert (Hch6 : chained (heap t6) chain') by by apply (chained_ext (heap t4)).
  assert (Hpairs6 : pairs_of (heap t6) chain' = pairs_of (heap t) chain).
  { by rewrite (pairs_of_ext (heap t4)). }
  assert (Hll : lvl2 leaf = lvl leaf) by (apply lvl_with_old; by eexists).
  assert (Hln : lvl2 newLeaf = lvl leaf) by apply lvl_with_new.
  pose proof (length_insert_after leaf newLeaf chain) as Hclen. fold chain' in Hclen.
  run_step. rewrite Hr6. unfold t4 at 1. cbn [root]. rewrite Hroot. unfold ptr_eqb.
  destruct (decide (leaf = r)) as [->|Hne].
  - rewrite bool_decide_eq_true_2 by done.
    destruct (new_root_spec gas lvl2 H0 chain' t6 r newLeaf newKey)
      as (t7 & lvl7 & Hrun & Hinv7 & Hlv7); try done.
    + by rewrite Ho6.
    + by rewrite Hs6.
    + by rewrite Hs6.
    + congruence.
    + exists t7, lvl7, (S H0), chain'. split; [done|]. split; [done|]. split; [lia|].
      split; [done|]. by rewrite (pairs_of_ext (heap t6)).
  - rewrite bool_decide_eq_false_2 by congruence.
    assert (Hreach6 : reach (heap t6) r leaf) by by apply (reach_ext (heap t4)).
    assert (Hrlive6 : is_Some (skel (heap t6) r)) by by rewrite Hs6.
    assert (Hrb : (lvl2 r ≤ H0)%nat).
    { destruct Hrlive6 as [[[[??]?]?] Hr]. by destruct (Hsh6 _ _ _ _ _ Hr). }
    destruct (findParent_below lvl2 H0 (heap t6) gas r leaf Hsh6 Hrlive6 ltac:(lia) Hreach6
                ltac:(done)) as (p & pcs & pnk & pnv & Hfp & Hps & Hcp & Hrp).
    rewrite (run_sread _ _ _ (Some p)).
    2: { rewrite Hr6. unfold t4. cbn [root]. by rewrite Hroot. }
    destruct (Hsh6 _ _ _ _ _ Hps) as [Hpb [_ Hpcs]]. destruct (Hpcs leaf Hcp) as [_ Hpl].
    unfold insertInternal.
    destruct (insertInternal_loop_spec gas gas lvl2 H0 chain' t6 newKey p newLeaf r)
      as (t7 & lvl7 & H7 & Hrun & Hinv7 & HH7 & Hlv7).
    + split; [by rewrite Ho6|by exists r; rewrite Hr6|done|done].
    + by rewrite Hr6.
    + done.
    + by exists pcs, pnk, pnv.
    + by rewrite Hs6.
    + lia.
    + lia.
    + done.
    + exists t7, lvl7, H7, chain'. split; [done|]. split; [done|]. split; [done|].
      split; [done|]. by rewrite (pairs_of_ext (heap t6)).
Qed.

End SplitLeaf.

(** ** [insert] *)

Section Insert.
Context {K V : Type} `{KeyOps K}.
Context (gas : nat).
Implicit Types (h : list (option (Node K V))) (n : Node K V) (t : BPlusTree K V).
Implicit Types (ks : list K) (vs : list (list V)).

(** The leaf [leaf] of [t] gets the keys and values of [n']. *)
Lemma refill_leaf lvl H0 chain t leaf r n n' p :
  tree_inv lvl H0 chain t → root t = Some r → reach (heap t) r leaf →
  heap t !! leaf = Some (Some n) → isLeaf n = true →
  isLeaf n' = true → next n' = next n → length (values n') = length (keys n') →
  group_pairs (keys n') (values n') ≡ₚ p :: group_pairs (keys n) (values n) →
  let t1 := mkTree (<[leaf := Some n']> (heap t)) (root t) (order t) in
  tree_inv lvl H0 chain t1 ∧ reach (heap t1) r leaf
  ∧ leaf_view (heap t1) leaf = Some (keys n', values n', next n')
  ∧ pairs_of (heap t1) chain ≡ₚ p :: pairs_of (heap t) chain.
Proof.
  intros [Hord (r0 & Hr0 & Hrlive) Hsh (Hnd & Hall & Hlinked)] Hroot Hreach Hn Hleaf
    Hleaf' Hnext Hlen Hpairs t1.
  assert (Hlt : (leaf < length (heap t))%nat) by by eapply lookup_lt_Some.
  assert (Hlive : is_Some (skel (heap t) leaf)) by by rewrite (skel_lookup _ _ _ Hn).
  assert (Hview : leaf_view (heap t) leaf = Some (keys n, values n, next n)).
  { by apply leaf_view_lookup. }
  assert (Hview1 : leaf_view (heap t1) leaf = Some (keys n', values n', next n')).
  { unfold t1. cbn [heap]. rewrite leaf_view_insert, decide_True by done. by rewrite Hleaf'. }
  assert (Hvo : ∀ a, a ≠ leaf → leaf_view (heap t1) a = leaf_view (heap t) a).
  { intros a Ha. unfold t1. cbn [heap]. by rewrite leaf_view_insert, decide_False. }
  assert (Hso : ∀ a, a ≠ leaf → skel (heap t1) a = skel (heap t) a).
  { intros a Ha. unfold t1. cbn [heap]. by rewrite skel_insert, decide_False. }
  assert (Hin : leaf ∈ chain) by (apply Hall; by eexists).
  split; [split|split; [|split]].
  - done.
  - exists r0. split; [done|]. unfold t1. cbn [heap]. by apply skel_insert_live.
  - unfold t1. cbn [heap]. apply shaped_update; [done|done|]. unfold fits. by rewrite Hleaf'.
  - split; [done|]. split.
    + intros a Ha. destruct (decide (a = leaf)) as [->|Hne]; [done|]. apply Hall.
      by rewrite <- Hvo.
    + apply (linked_refill (heap t) _ _ leaf); [done| |done].
      intros ks vs nx. rewrite Hview. intros [= <- <- <-]. rewrite Hview1, Hnext. eauto.
  - eapply reach_above; [exact Hsh| |done]. intros x Hx _. apply Hso. intros ->. lia.
  - done.
  - apply (pairs_of_refill _ _ _ leaf); [done|done|done|].
    unfold pairs_at. by rewrite Hview1, Hview.
Qed.

(** What [insert] does once the pair sits in its leaf. *)
Lemma insert_tail lvl H0 chain t leaf r ks vs nx :
  tree_inv lvl H0 chain t → root t = Some r → reach (heap t) r leaf →
  leaf_view (heap t) leaf = Some (ks, vs, nx) → (H0 + 2 < gas)%nat →
  ∃ t' lvl' H' chain',
    (n' ← get_node leaf;
     ord ← get_order;
     if (ord <=? Z.of_nat (length (keys n')))%Z then splitLeaf gas leaf
     else updateSubtreeSizesUpwards gas (Some leaf)) t = Done (tt, t')
    ∧ tree_inv lvl' H' chain' t' ∧ (H' ≤ S H0)%nat
    ∧ (length chain' ≤ S (length chain))%nat
    ∧ pairs_of (heap t') chain' = pairs_of (heap t) chain.
Proof.
  intros Hinv Hroot Hreach Hview Hgas.
  destruct (leaf_view_Some _ _ _ _ _ Hview) as (l & Hl & Hleaf & <- & <- & <-).
  unfold get_node. rewrite (run_sread _ _ _ l) by by apply load_Done.
  run_step. destruct (Z.leb_spec (order t) (Z.of_nat (length (keys l)))) as [Hfull|Hroom].
  - by eapply splitLeaf_spec.
  - destruct (updateSubtreeSizesUpwards_spec gas lvl H0 chain t leaf)
      as (t2 & Hup & Hsame); [done|by rewrite (skel_lookup _ _ _ Hl)|lia|].
    exists t2, lvl, H0, chain. split; [done|]. split; [by eapply tree_inv_sizes|].
    split; [lia|]. split; [lia|]. apply pairs_of_ext. by destruct Hsame as (_ & _ & _ & ?).
Qed.

Lemma insert_spec lvl H0 chain t (key : K) (value : V) :
  tree_inv lvl H0 chain t → (H0 + 2 < gas)%nat →
  ∃ t' lvl' H' chain' k',
    insert gas key value t = Done (tt, t')
    ∧ tree_inv lvl' H' chain' t' ∧ (H' ≤ S H0)%nat
    ∧ (length chain' ≤ S (length chain))%nat
    ∧ (k' = key ∨ keq k' key = true)
    ∧ pairs_of (heap t') chain' ≡ₚ (k', value) :: pairs_of (heap t) chain.
Proof.
  intros Hinv Hgas. pose proof Hinv as [Hord (r & Hroot & Hrlive) Hsh Hch].
  assert (Hrb : (lvl r ≤ H0)%nat).
  { destruct Hrlive as [[[[??]?]?] Hr]. by destruct (Hsh _ _ _ _ _ Hr). }
  destruct (descend_spec lvl H0 (heap t) gas r key Hsh Hrlive ltac:(lia))
    as (leaf & Hdesc & Hreach & [[[ks vs] nx] Hview]).
  destruct (leaf_view_Some _ _ _ _ _ Hview) as (n & Hn & Hleaf & <- & <- & <-).
  pose proof (skel_lookup _ _ _ Hn) as Hskel. rewrite Hleaf in Hskel.
  destruct (Hsh _ _ _ _ _ Hskel) as [_ Hlen].
  unfold insert. rewrite (run_sread _ _ _ leaf) by by rewrite Hroot.
  rewrite (run_bind _ _ _ _ _ (get_node_Done _ _ _ Hn)).
  pose proof (lower_bound_le (keys n) key) as Hidx.
  set (index := lower_bound (keys n) key) in *.
  destruct (found_at (keys n) index key) eqn:Hfound.
  - unfold found_at in Hfound. destruct (keys n !! index) as [k0|] eqn:Hk0; [|done].
    assert (Hi : (index < length (values n))%nat).
    { rewrite Hlen. by eapply lookup_lt_Some. }
    destruct (at_lt (values n) index Hi) as (vals & Hat & Hvals).
    rewrite Hat.
    set (n' := with_values (<[index := vals ++ [value]]> (values n)) n).
    destruct (refill_leaf lvl H0 chain t leaf r n n' (k0, value)) as (Hinv1 & Hreach1 & Hview1 & Hp1);
      try done.
    { unfold n'. cbn. by rewrite length_insert. }
    { unfold n'. cbn. by apply group_pairs_push_back. }
    destruct (insert_tail lvl H0 chain _ leaf r _ _ _ Hinv1 Hroot Hreach1 Hview1 Hgas)
      as (t' & lvl' & H' & chain' & Hrun & Hinv' & HH' & Hlen' & Hp').
    exists t', lvl', H', chain', k0. split.
    { rewrite <- Hrun. reflexivity. }
    split; [done|]. split; [done|]. split; [done|]. split; [by right|].
    by rewrite Hp'.
  - rewrite bool_decide_eq_false_2 by lia.
    set (n' := with_values (insert_at index [value] (values n))
                 (with_keys (insert_at index key (keys n)) n)).
    destruct (refill_leaf lvl H0 chain t leaf r n n' (key, value)) as (Hinv1 & Hreach1 & Hview1 & Hp1);
      try done.
    { unfold n'. cbn. rewrite !length_insert_at by lia. lia. }
    { unfold n'. cbn. by apply group_pairs_insert_at. }
    destruct (insert_tail lvl H0 chain _ leaf r _ _ _ Hinv1 Hroot Hreach1 Hview1 Hgas)
      as (t' & lvl' & H' & chain' & Hrun & Hinv' & HH' & Hlen' & Hp').
    exists t', lvl', H', chain', key. split.
    { rewrite <- Hrun. reflexivity. }
    split; [done|]. split; [done|]. split; [done|]. split; [by left|].
    by rewrite Hp'.
Qed.

End Insert.

(** ** The queries of the tree *)

Section Queries.
Context {K V : Type} `{KeyOps K}.
Context (gas : nat).
Implicit Types (h : list (option (Node K V))) (n : Node K V) (t : BPlusTree K V).
Implicit Types (ks : list K) (vs : list (list V)).

Lemma count_values_Done vs i idx count :
  (i + idx ≤ length vs)%nat → ∃ z, count_values vs i idx count = Done z.
Proof.
  revert i count. induction idx as [|idx IH]; intros i count Hi; [by eexists|].
  cbn [count_values]. destruct (at_lt vs i) as (vals & -> & _); [lia|]. cbn.
  apply IH. lia.
Qed.

Lemma count_children_Done h (cs : list addr) c i count :
  (c + i ≤ length cs)%nat → (∀ x, x ∈ cs → is_Some (skel h x)) →
  ∃ z, count_children h cs c i count = Done z.
Proof.
  intros Hi Hlive. revert c count Hi. induction i as [|i IH]; intros c count Hi; [by eexists|].
  cbn [count_children]. destruct (at_lt cs c) as (a & -> & Ha); [lia|]. cbn.
  destruct (skel_live h a) as [n Hn]; [by eapply Hlive, list_elem_of_lookup_2|].
  rewrite (load_Done _ _ _ Hn). cbn. apply IH. lia.
Qed.

Lemma countLessOrEqualRecursive_Done lvl H0 h fuel a x :
  shaped lvl H0 h → is_Some (skel h a) → (lvl a < fuel)%nat →
  ∃ z, countLessOrEqualRecursive fuel h (Some a) x = Done z.
Proof.
  intros Hsh. revert a. induction fuel as [|fuel IH]; intros a Ha Hfuel; [lia|].
  destruct (skel_live _ _ Ha) as [n Hn]. cbn [countLessOrEqualRecursive].
  rewrite (load_Done _ _ _ Hn). cbn.
  pose proof (skel_lookup _ _ _ Hn) as Hskel.
  pose proof (upper_bound_le (keys n) x) as Hidx.
  destruct (Hsh _ _ _ _ _ Hskel) as [_ Hrest].
  destruct (isLeaf n).
  - apply count_values_Done. lia.
  - destruct Hrest as [Hlen Hcs].
    destruct (count_children_Done h (children n) 0 (upper_bound (keys n) x) 0%Z)
      as [count ->]; [lia|intros c Hc; by apply Hcs|]. cbn.
    destruct (children n !! upper_bound (keys n) x) as [c|] eqn:Hc; [|by eexists].
    apply list_elem_of_lookup_2 in Hc. destruct (Hcs c Hc) as [Hlive Hl].
    destruct (IH c Hlive ltac:(lia)) as [below ->]. by eexists.
Qed.

Lemma countInRange_Done lvl H0 chain t Smin Smax :
  tree_inv lvl H0 chain t → (H0 < gas)%nat →
  ∃ z, countInRange gas Smin Smax t = Done z.
Proof.
  intros [Hord (r & Hroot & Hrlive) Hsh Hch] Hgas.
  assert (Hrb : (lvl r ≤ H0)%nat).
  { destruct Hrlive as [[[[??]?]?] Hr]. by destruct (Hsh _ _ _ _ _ Hr). }
  unfold countInRange, countLessOrEqual. rewrite Hroot.
  destruct (countLessOrEqualRecursive_Done lvl H0 (heap t) gas r Smax Hsh Hrlive ltac:(lia))
    as [high ->]. cbn.
  destruct (klt klowest Smin).
  - destruct (countLessOrEqualRecursive_Done lvl H0 (heap t) gas r (kpred1 Smin) Hsh Hrlive
                ltac:(lia)) as [low ->]. by eexists.
  - by eexists.
Qed.

Lemma snd_pair_fmap (k : K) (vals : list V) : ((k,.) <$> vals).*2 = vals.
Proof. induction vals as [|v vals IH]; [done|]. cbn. by rewrite IH. Qed.

Lemma scan_leaf_spec Smin Smax vs ks : ∀ i results,
  length vs = (i + length ks)%nat →
  ∃ ps stop, scan_leaf ks vs i Smin Smax results = Done (results ++ ps.*2, stop)
    ∧ ps `sublist_of` group_pairs ks (drop i vs) ∧ Forall (in_range Smin Smax) ps.
Proof.
  induction ks as [|key ks IH]; intros i results Hlen.
  { exists [], false. cbn. rewrite app_nil_r. repeat split; [apply sublist_nil_l|constructor]. }
  cbn [scan_leaf]. destruct (klt Smax key).
  { exists [], true. cbn. rewrite app_nil_r. repeat split; [apply sublist_nil_l|constructor]. }
  destruct (at_lt vs i) as (vals & Hat & Hvals); [cbn in Hlen; lia|].
  assert (Hdrop : drop i vs = vals :: drop (S i) vs) by by apply drop_S.
  assert (Hgp : group_pairs (key :: ks) (drop i vs)
                = ((key,.) <$> vals) ++ group_pairs ks (drop (S i) vs)).
  { by rewrite Hdrop. }
  destruct (kle Smin key && kle key Smax) eqn:Hin.
  - rewrite Hat. cbn [mbind outcome_bind obind].
    destruct (IH (S i) (results ++ vals)) as (ps & stop & -> & Hsub & Hall); [cbn in Hlen; lia|].
    exists (((key,.) <$> vals) ++ ps), stop. split; [|split].
    + by rewrite fmap_app, snd_pair_fmap, app_assoc.
    + rewrite Hgp. by apply sublist_app.
    + apply Forall_app. split; [|done]. apply Forall_fmap, Forall_forall. intros v _.
      apply andb_true_iff in Hin. done.
  - destruct (IH (S i) results) as (ps & stop & -> & Hsub & Hall); [cbn in Hlen; lia|].
    exists ps, stop. split; [done|]. split; [|done]. rewrite Hgp. by apply sublist_inserts_l.
Qed.

Lemma walk_leaves_spec lvl H0 h Smin Smax : ∀ suffix fuel results,
  shaped lvl H0 h → linked h suffix → (length suffix < fuel)%nat →
  ∃ ps, walk_leaves fuel h (head suffix) Smin Smax results = Done (results ++ ps.*2)
    ∧ ps `sublist_of` pairs_of h suffix ∧ Forall (in_range Smin Smax) ps.
Proof.
  intros suffix. induction suffix as [|a rest IH]; intros fuel results Hsh Hlinked Hfuel.
  { destruct fuel as [|fuel]; [cbn in Hfuel; lia|].
    exists []. cbn. rewrite app_nil_r. repeat split; [apply sublist_nil_l|constructor]. }
  destruct fuel as [|fuel]; [lia|]. destruct Hlinked as [(ks & vs & Hview) Hrest].
  destruct (leaf_view_Some _ _ _ _ _ Hview) as (n & Hn & Hleaf & <- & <- & Hnext).
  pose proof (skel_lookup _ _ _ Hn) as Hskel. rewrite Hleaf in Hskel.
  destruct (Hsh _ _ _ _ _ Hskel) as [_ Hlen].
  cbn [walk_leaves head]. rewrite (load_Done _ _ _ Hn). cbn [mbind outcome_bind obind].
  destruct (scan_leaf_spec Smin Smax (values n) (keys n) 0 results Hlen)
    as (ps1 & stop & -> & Hsub1 & Hall1). cbn [mbind outcome_bind obind].
  assert (Hpa : pairs_at h a = group_pairs (keys n) (values n)).
  { unfold pairs_at. by rewrite Hview. }
  assert (Hpo : pairs_of h (a :: rest) = pairs_at h a ++ pairs_of h rest) by done.
  destruct stop.
  - exists ps1. split; [done|]. split; [|done]. rewrite Hpo, Hpa. by apply sublist_inserts_r.
  - rewrite Hnext.
    destruct (IH fuel (results ++ ps1.*2) Hsh Hrest) as (ps2 & -> & Hsub2 & Hall2);
      [cbn in Hfuel; lia|].
    exists (ps1 ++ ps2). split; [by rewrite fmap_app, app_assoc|]. split.
    + rewrite Hpo, Hpa. by apply sublist_app.
    + by apply Forall_app.
Qed.

Lemma linked_app_r h l1 l2 : linked h (l1 ++ l2) → linked h l2.
Proof. induction l1 as [|a l1 IH]; [done|]. intros [_ Hrest]. by apply IH. Qed.

Lemma rangeQuery_spec lvl H0 chain t Smin Smax :
  tree_inv lvl H0 chain t → (H0 < gas)%nat → (length chain < gas)%nat →
  ∃ ps, rangeQuery gas Smin Smax t = Done ps.*2
    ∧ ps `sublist_of` pairs_of (heap t) chain ∧ Forall (in_range Smin Smax) ps.
Proof.
  intros [Hord (r & Hroot & Hrlive) Hsh (Hnd & Hall & Hlinked)] Hgas Hlen.
  assert (Hrb : (lvl r ≤ H0)%nat).
  { destruct Hrlive as [[[[??]?]?] Hr]. by destruct (Hsh _ _ _ _ _ Hr). }
  unfold rangeQuery. rewrite Hroot.
  destruct (descend_spec lvl H0 (heap t) gas r Smin Hsh Hrlive ltac:(lia))
    as (leaf & -> & _ & Hview). cbn.
  destruct (list_elem_of_split chain leaf (Hall _ Hview)) as (l1 & l2 & ->).
  destruct (walk_leaves_spec lvl H0 (heap t) Smin Smax (leaf :: l2) gas [] Hsh)
    as (ps & Hwalk & Hsub & Hin).
  { by eapply linked_app_r. }
  { rewrite length_app in Hlen. cbn in *. lia. }
  exists ps. split; [done|]. split; [|done].
  unfold pairs_of in *. rewrite bind_app. by apply sublist_inserts_l.
Qed.

End Queries.

(** ** Comparing floats *)

Lemma SFeqb_cases k s :
  SFeqb k s = true → k = s ∨ ∃ b1 b2, k = S754_zero b1 ∧ s = S754_zero b2.
Proof.
  unfold SFeqb. destruct k as [b1|b1| |b1 m1 e1], s as [b2|b2| |b2 m2 e2]; cbn; try done.
  all: try (intros _; right; by eauto).
  all: try (destruct b1, b2; try done; by left).
  all: try (destruct b1; done).
  all: try (destruct b2; done).
  change (Pos.compare_cont Eq m1 m2) with (Pos.compare m1 m2).
  destruct b1, b2; try done.
  all: destruct (Z.compare_spec e1 e2) as [->| |]; try done.
  all: destruct (Pos.compare_spec m1 m2) as [->| |]; try done.
  all: by left.
Qed.

Lemma SFleb_key_of k s Smin Smax :
  key_of k s → SFleb Smin k = true → SFleb k Smax = true →
  SFleb Smin s = true ∧ SFleb s Smax = true.
Proof.
  intros [->|Heq]; [done|].
  destruct (SFeqb_cases _ _ Heq) as [->|(b1 & b2 & -> & ->)]; [done|].
  unfold SFleb. destruct Smin, Smax; done.
Qed.

(** Case analysis on the integer comparisons inside [SFcompare]. *)
Ltac cmp_cases :=
  repeat match goal with
  | |- context [Z.compare ?a ?b] => destruct (Z.compare_spec a b); subst
  | |- context [Pos.compare ?a ?b] => destruct (Pos.compare_spec a b); subst
  | H : context [Z.compare ?a ?b] |- _ => destruct (Z.compare_spec a b); subst
  | H : context [Pos.compare ?a ?b] |- _ => destruct (Pos.compare_spec a b); subst
  end.

Lemma SFltb_irrefl a : SFltb a a = false.
Proof.
  unfold SFltb. destruct a as [b|b| |b m e]; cbn; try done.
  - by destruct b.
  - change (Pos.compare_cont Eq m m) with (Pos.compare m m).
    rewrite Z.compare_refl, Pos.compare_refl. by destruct b.
Qed.

Lemma SFltb_trans a b c : SFltb a b = true → SFltb b c = true → SFltb a c = true.
Proof.
  unfold SFltb.
  destruct a as [sa|sa| |sa ma ea], b as [sb|sb| |sb mb eb], c as [sc|sc| |sc mc ec];
    cbn; try done;
    try (destruct sa; done); try (destruct sb; done); try (destruct sc; done);
    try (destruct sa, sb; done); try (destruct sb, sc; done); try (destruct sa, sc; done);
    try (destruct sa, sb, sc; done).
  all: change (Pos.compare_cont Eq ?x ?y) with (Pos.compare x y).
  all: destruct sa, sb, sc; try done.
  all: cmp_cases; cbn; try done; try lia.
Qed.

(** Neither smaller than the other: equal, for floats that are not NaN. *)
Lemma SFltb_incomparable a b :
  not_nan a → not_nan b → SFltb a b = false → SFltb b a = false → SFcompare a b = Some Eq.
Proof.
  unfold SFltb, not_nan.
  destruct a as [sa|sa| |sa ma ea], b as [sb|sb| |sb mb eb]; cbn; try done;
    try (destruct sa; done); try (destruct sb; done); try (destruct sa, sb; done).
  all: change (Pos.compare_cont Eq ?x ?y) with (Pos.compare x y).
  all: intros _ _; destruct sa, sb; try done.
  all: cmp_cases; cbn; try done; try lia.
Qed.

Lemma SFcompare_Eq_trans a b c :
  SFcompare a b = Some Eq → SFcompare b c = Some Eq → SFcompare a c = Some Eq.
Proof.
  destruct a as [sa|sa| |sa ma ea], b as [sb|sb| |sb mb eb], c as [sc|sc| |sc mc ec];
    cbn; try done;
    try (destruct sa; done); try (destruct sb; done); try (destruct sc; done);
    try (destruct sa, sb; done); try (destruct sb, sc; done); try (destruct sa, sc; done);
    try (destruct sa, sb, sc; done).
  all: change (Pos.compare_cont Eq ?x ?y) with (Pos.compare x y).
  all: destruct sa, sb, sc; try done.
  all: cmp_cases; cbn; try done; try lia.
Qed.

Lemma SFcompare_Eq_not_lt a b : SFcompare a b = Some Eq → SFltb a b = false ∧ SFltb b a = false.
Proof.
  unfold SFltb.
  destruct a as [sa|sa| |sa ma ea], b as [sb|sb| |sb mb eb]; cbn; try done;
    try (destruct sa; done); try (destruct sb; done); try (destruct sa, sb; done).
  all: change (Pos.compare_cont Eq ?x ?y) with (Pos.compare x y).
  all: destruct sa, sb; try done.
  all: cmp_cases; cbn; try done; try lia.
Qed.

Lemma by_distance_strict_weak (l : list (spec_float * Z)) :
  (∀ p, p ∈ l → not_nan p.1) → strict_weak_on by_distance l.
Proof.
  intros Hnn. unfold by_distance. split; [|split].
  - intros a _. apply SFltb_irrefl.
  - intros a b c _ _ _. apply SFltb_trans.
  - intros a b c Ha Hb Hc Hab Hba Hbc Hcb.
    apply SFcompare_Eq_not_lt.
    apply (SFcompare_Eq_trans _ b.1); apply SFltb_incomparable; try done; by apply Hnn.
Qed.

(** ** The insertion sort meets the contract of [std::sort] *)

Section SortFacts.
Context {A : Type} (comp : A → A → bool).

Lemma place_rev_perm val r : place_rev comp val r ≡ₚ val :: r.
Proof.
  induction r as [|y r IH]; [done|]. cbn. destruct (comp val y); [|done].
  rewrite IH. apply perm_swap.
Qed.

Lemma insertion_step_perm sorted val : insertion_step comp sorted val ≡ₚ val :: sorted.
Proof.
  unfold insertion_step. destruct sorted as [|first rest]; [done|].
  destruct (comp val first); [done|].
  rewrite reverse_Permutation, place_rev_perm. by rewrite reverse_Permutation.
Qed.

Lemma foldl_insertion_step_perm l acc : foldl (insertion_step comp) acc l ≡ₚ acc ++ l.
Proof.
  revert acc. induction l as [|x l IH]; intros acc; cbn; [by rewrite app_nil_r|].
  rewrite IH, insertion_step_perm. by rewrite <- Permutation_middle.
Qed.

Lemma insertion_sort_perm l : insertion_sort comp l ≡ₚ l.
Proof. unfold insertion_sort. by rewrite foldl_insertion_step_perm. Qed.

Lemma StronglySorted_reverse (R : relation A) s :
  StronglySorted R s → StronglySorted (flip R) (reverse s).
Proof.
  induction 1 as [|x s Hs IH Hx]; [constructor|].
  rewrite reverse_cons. apply StronglySorted_app. split; [|split; [done|]].
  - intros a b Ha [->|Hb%elem_of_nil]%elem_of_cons; [|done]. unfold flip.
    rewrite Forall_forall in Hx. apply Hx. by apply elem_of_reverse.
  - repeat constructor.
Qed.

Lemma StronglySorted_lookup (R : relation A) s i j a b :
  StronglySorted R s → s !! i = Some a → s !! j = Some b → (i < j)%nat → R a b.
Proof.
  intros Hs. revert i j. induction Hs as [|x s Hs IH Hx]; intros i j Ha Hb Hij; [done|].
  destruct i as [|i], j as [|j]; try lia; cbn in *.
  - injection Ha as ->. rewrite Forall_forall in Hx. apply Hx.
    by eapply list_elem_of_lookup_2.
  - eapply IH; eauto. lia.
Qed.

Context (U : list A) (Hswo : strict_weak_on comp U).

Lemma comp_asym a b : a ∈ U → b ∈ U → comp a b = true → comp b a = false.
Proof.
  destruct Hswo as (Hirr & Htr & _). intros Ha Hb Hab.
  destruct (comp b a) eqn:Hba; [|done]. rewrite <- (Hirr a Ha). symmetry. by apply (Htr a b a).
Qed.

Lemma comp_not_lt_trans a b c :
  a ∈ U → b ∈ U → c ∈ U → comp a b = false → comp b c = false → comp a c = false.
Proof.
  destruct Hswo as (Hirr & Htr & Hinc). intros Ha Hb Hc Hab Hbc.
  destruct (comp a c) eqn:Hac; [|done].
  destruct (comp b a) eqn:Hba.
  { rewrite <- Hbc. symmetry. by apply (Htr b a c). }
  destruct (comp c b) eqn:Hcb.
  { rewrite <- Hab. symmetry. by apply (Htr a c b). }
  destruct (Hinc a b c) as [Hac' _]; try done. congruence.
Qed.

Lemma place_rev_sorted val r :
  val ∈ U → r ⊆ U →
  StronglySorted (λ a b, comp a b = false) r →
  StronglySorted (λ a b, comp a b = false) (place_rev comp val r).
Proof.
  intros Hval. induction r as [|y r IH]; intros Hsub Hs; [repeat constructor|].
  apply StronglySorted_cons in Hs as [Hy Hs]. rewrite Forall_forall in Hy.
  assert (HyU : y ∈ U) by (apply Hsub; left).
  assert (HrU : r ⊆ U) by (intros z Hz; apply Hsub; by right).
  cbn. destruct (comp val y) eqn:Hvy.
  - apply StronglySorted_cons. split; [|by apply IH].
    apply Forall_forall. intros z Hz. rewrite place_rev_perm in Hz.
    apply elem_of_cons in Hz as [->|Hz]; [by apply comp_asym|by apply Hy].
  - apply StronglySorted_cons. split; [|by apply StronglySorted_cons; rewrite Forall_forall].
    apply Forall_forall. intros z [->|Hz]%elem_of_cons; [done|].
    apply (comp_not_lt_trans val y z); auto.
Qed.

Lemma insertion_step_sorted sorted val :
  val ∈ U → sorted ⊆ U →
  StronglySorted (λ a b, comp b a = false) sorted →
  StronglySorted (λ a b, comp b a = false) (insertion_step comp sorted val).
Proof.
  intros Hval Hsub Hs. unfold insertion_step.
  destruct sorted as [|first rest]; [repeat constructor|].
  assert (HfU : first ∈ U) by (apply Hsub; left).
  destruct (comp val first) eqn:Hvf.
  - apply StronglySorted_cons. split; [|done].
    apply StronglySorted_cons in Hs as [Hf Hs]. rewrite Forall_forall in Hf.
    apply Forall_forall. intros z [->|Hz]%elem_of_cons; [by apply comp_asym|].
    assert (HzU : z ∈ U) by (apply Hsub; by right).
    destruct (comp z val) eqn:Hzv; [|done].
    destruct Hswo as (_ & Htr & _). rewrite <- (Hf z Hz). symmetry. by apply (Htr z val first).
  - apply (StronglySorted_reverse (λ a b, comp a b = false)).
    apply place_rev_sorted; [done| |].
    + intros z Hz. apply Hsub. by rewrite elem_of_reverse in Hz.
    + by apply (StronglySorted_reverse (λ a b, comp b a = false)).
Qed.

Lemma foldl_insertion_step_sorted l acc :
  l ⊆ U → acc ⊆ U →
  StronglySorted (λ a b, comp b a = false) acc →
  StronglySorted (λ a b, comp b a = false) (foldl (insertion_step comp) acc l).
Proof.
  revert acc. induction l as [|x l IH]; intros acc Hl Hacc Hs; [done|]. cbn.
  assert (HxU : x ∈ U) by (apply Hl; left).
  apply IH.
  - intros z Hz. apply Hl. by right.
  - intros z Hz. rewrite insertion_step_perm in Hz.
    apply elem_of_cons in Hz as [->|Hz]; auto.
  - by apply insertion_step_sorted.
Qed.

End SortFacts.

Lemma insertion_sort_contract {A} : sort_contract (@insertion_sort A).
Proof.
  intros comp l Hswo. split; [apply insertion_sort_perm|].
  intros i j a b Ha Hb Hij.
  assert (Hs : StronglySorted (λ a b, comp b a = false) (insertion_sort comp l)).
  { unfold insertion_sort.
    apply (foldl_insertion_step_sorted comp l Hswo); [done| |constructor].
    intros z Hz. by apply elem_of_nil in Hz. }
  exact (StronglySorted_lookup (λ a b, comp b a = false) _ _ _ _ _ Hs Ha Hb Hij).
Qed.

Lemma first_labels_contract : knn_contract first_labels.
Proof.
  intros hn query O Hnd. unfold first_labels. split.
  - rewrite reverse_Permutation. eapply sublist_NoDup; [exact Hnd|]. apply sublist_take.
  - intros x Hx. rewrite elem_of_reverse in Hx. by eapply subseteq_take.
Qed.

(** ** The index under [insert] *)

Lemma BPlusTree_new_inv {K V} `{KeyOps K} (ord : Z) :
  (3 ≤ ord)%Z →
  ∃ t : BPlusTree K V, BPlusTree_new ord = Done t
    ∧ tree_inv (λ _, 0%nat) 0 [0%nat] t ∧ pairs_of (heap t) [0%nat] = [].
Proof.
  intros Hord. unfold BPlusTree_new. destruct (Z.ltb_spec ord 3); [lia|].
  eexists. split; [reflexivity|]. split; [split|reflexivity]; cbn [heap root order].
  - done.
  - exists 0%nat. split; [done|]. by eexists.
  - intros [|a] leaf cs nk nv; [|by destruct a]. intros [= <- <- <- <-]. split; [lia|done].
  - split; [apply NoDup_singleton|]. split.
    + intros [|a] Ha; [by left|]. destruct a; by destruct Ha.
    + split; [|done]. by eexists _, _.
Qed.

Lemma VectorIndex_new_inv (order : Z) :
  (3 ≤ order)%Z → ∃ ix, VectorIndex_new order = Done ix ∧ index_inv ix ∧ dataVectors ix = [].
Proof.
  intros Hord. destruct (BPlusTree_new_inv (K:=spec_float) (V:=Z) order Hord)
    as (t & Hnew & Hinv & Hpairs).
  unfold VectorIndex_new. rewrite Hnew. cbn.
  eexists. split; [reflexivity|]. split; [|done]. split; cbn.
  - exists (λ _, 0%nat), 0%nat, [0%nat]. split; [done|]. split; [lia|]. split; [simpl; lia|].
    rewrite Hpairs. split; [constructor|]. by intros k id ?%elem_of_nil.
  - done.
  - lia.
  - by intros vec ?%elem_of_nil.
  - done.
Qed.

Lemma VectorIndex_insert_spec gas vec s ix :
  index_inv ix → vec ≠ [] →
  (Z.of_nat (length vec) < 2147483648)%Z →
  (dataVectors ix ≠ [] → Z.of_nat (length vec) = dimension ix) →
  (Z.of_nat (length (dataVectors ix)) < maxElements)%Z →
  (length (dataVectors ix) + 2 < gas)%nat →
  ∃ ix', VectorIndex_insert gas vec s ix = Done ix' ∧ index_inv ix'
    ∧ dataVectors ix' = dataVectors ix ++ [vec] ∧ sValues ix' = sValues ix ++ [s]
    ∧ (dataVectors ix ≠ [] → dimension ix' = dimension ix).
Proof.
  intros [(lvl & H0 & chain & Hinv & HH & Hclen & Hnd & Hpairs) Hsizes Hsmall Hdim Hhnsw]
    Hvec Hveclen Hmatch HM Hgas.
  unfold maxElements in HM.
  set (M := length (dataVectors ix)) in *.
  destruct (insert_spec gas lvl H0 chain (tree ix) s (Z.of_nat M) Hinv ltac:(lia))
    as (t' & lvl' & H' & chain' & k' & Hins & Hinv' & HH' & Hclen' & Hk' & Hperm).
  assert (Hfront : ∃ dim hn,
    (if bool_decide (dataVectors ix = [])
     then Done (int32 (Z.of_nat (length vec)), Some (mkHnsw [] hnswEfSearch maxElements))
     else if bool_decide (int32 (Z.of_nat (length vec)) = dimension ix)
          then Done (dimension ix, hnswIndex ix)
          else Throw InvalidArgument) = Done (dim, Some hn)
    ∧ dim = Z.of_nat (length vec)
    ∧ (points hn).*2 = Z.of_nat <$> seq 0 M
    ∧ max_elements hn = maxElements).
  { destruct (decide (dataVectors ix = [])) as [Hempty|Hne].
    - rewrite bool_decide_eq_true_2 by done. eexists _, _. split; [done|].
      split; [apply int32_id; lia|]. unfold M. by rewrite Hempty.
    - rewrite bool_decide_eq_false_2 by done.
      rewrite bool_decide_eq_true_2 by (rewrite int32_id by lia; auto).
      destruct (Hhnsw Hne) as (hn & -> & Hlabels & Hmax). eexists _, hn. split; [done|].
      split; [by rewrite Hmatch|done]. }
  destruct Hfront as (dim & hn & Hfront & -> & Hlabels & Hmax).
  assert (Hpoints : length (points hn) = M).
  { rewrite <- (length_fmap snd), Hlabels, length_fmap. apply length_seq. }
  unfold VectorIndex_insert. rewrite bool_decide_eq_false_2 by done.
  rewrite Hfront. cbn [mbind outcome_bind obind]. fold M. rewrite (int32_id (Z.of_nat M)) by lia.
  rewrite Hins. cbn [mbind outcome_bind obind].
  unfold addPoint. rewrite Hmax, Hpoints. unfold maxElements at 1.
  destruct (Z.leb_spec 100000 (Z.of_nat M)); [lia|]. cbn [mbind outcome_bind obind].
  eexists. split; [reflexivity|]. split; [|split; [done|split; [done|]]].
  2: { cbn. intros Hne. by rewrite Hmatch. }
  split; cbn [tree dataVectors sValues dimension hnswIndex].
  - exists lvl', H', chain'. rewrite length_app. cbn [length]. fold M.
    split; [done|]. split; [lia|]. split; [lia|].
    assert (Hold : ∀ k id, (k, id) ∈ pairs_of (heap (tree ix)) chain → (0 ≤ id < Z.of_nat M)%Z).
    { intros k id Hin. destruct (Hpairs k id Hin) as (Hpos & s0 & Hs0 & _).
      apply lookup_lt_Some in Hs0. rewrite Hsizes in Hs0. fold M in Hs0. lia. }
    split.
    + rewrite Hperm. cbn. apply NoDup_cons. split; [|done].
      intros ([k id] & Heq & Hin)%list_elem_of_fmap. cbn in Heq. subst id.
      specialize (Hold _ _ Hin). lia.
    + intros k id Hin. rewrite Hperm in Hin. apply elem_of_cons in Hin as [[= -> ->]|Hin].
      * split; [lia|]. exists s. split.
        -- rewrite Nat2Z.id. apply list_lookup_middle. by rewrite Hsizes.
        -- unfold key_of. destruct Hk' as [->|Hk']; [by left|by right].
      * destruct (Hpairs k id Hin) as (Hpos & s0 & Hs0 & Hkey). split; [done|].
        exists s0. split; [|done]. by apply lookup_app_l_Some.
  - rewrite !length_app. cbn [length]. lia.
  - rewrite length_app. cbn [length]. fold M. lia.
  - intros v [Hv| ->%list_elem_of_singleton]%elem_of_app; [|done].
    assert (Hne : dataVectors ix ≠ []) by (intros Heq; rewrite Heq in Hv; by apply elem_of_nil in Hv).
    rewrite Hmatch by done. by apply Hdim.
  - intros _. eexists. split; [done|]. cbn [points max_elements]. split; [|done].
    rewrite fmap_app, Hlabels. cbn.
    rewrite length_app. cbn. rewrite Nat.add_1_r, seq_S, fmap_app. done.
Qed.

Lemma inserts_spec gas (D : nat) records ix :
  index_inv ix →
  (dataVectors ix ≠ [] → dimension ix = Z.of_nat D) →
  Forall (λ r : list spec_float * spec_float, r.1 ≠ [] ∧ length r.1 = D) records →
  (Z.of_nat D < 2147483648)%Z →
  (Z.of_nat (length (dataVectors ix) + length records) ≤ maxElements)%Z →
  (length (dataVectors ix) + length records + 1 < gas)%nat →
  ∃ ix', foldl (λ acc r, ix ← acc; VectorIndex_insert gas r.1 r.2 ix) (Done ix) records = Done ix'
    ∧ index_inv ix'
    ∧ dataVectors ix' = dataVectors ix ++ records.*1
    ∧ sValues ix' = sValues ix ++ records.*2.
Proof.
  intros Hinv Hdim Hrec HD. revert ix Hinv Hdim.
  induction Hrec as [|[vec s] records [Hvec Hlen] Hrec IH]; intros ix Hinv Hdim HM Hgas.
  - exists ix. cbn. by rewrite !app_nil_r.
  - cbn [length] in HM, Hgas. cbn [fst snd] in Hvec, Hlen.
    destruct (VectorIndex_insert_spec gas vec s ix Hinv Hvec) as (ix1 & Hins & Hinv1 & Hdv & Hsv & _).
    { lia. } { intros Hne. rewrite Hdim by done. by rewrite Hlen. } { lia. } { lia. }
    cbn [foldl mbind outcome_bind obind fst snd]. rewrite Hins.
    destruct (IH ix1 Hinv1) as (ix' & Hfold & Hinv' & Hdv' & Hsv').
    { intros _. rewrite <- (ix_dim _ Hinv1 vec), Hlen; [done|].
      rewrite Hdv. apply elem_of_app. right. by apply list_elem_of_singleton. }
    { rewrite Hdv, length_app. cbn [length]. lia. }
    { rewrite Hdv, length_app. cbn [length]. lia. }
    exists ix'. split; [done|]. split; [done|].
    rewrite Hdv', Hsv', Hdv, Hsv, <- !app_assoc. done.
Qed.

Lemma index_after_spec gas (D : nat) (ord : Z) records :
  (3 ≤ ord)%Z →
  Forall (λ r : list spec_float * spec_float, r.1 ≠ [] ∧ length r.1 = D) records →
  (Z.of_nat D < 2147483648)%Z →
  (Z.of_nat (length records) ≤ maxElements)%Z →
  (length records + 1 < gas)%nat →
  ∃ ix, index_after gas ord records = Done ix
    ∧ index_inv ix
    ∧ dataVectors ix = records.*1
    ∧ sValues ix = records.*2.
Proof.
  intros Hord Hrec HD HM Hgas.
  destruct (VectorIndex_new_inv ord Hord) as (ix0 & Hnew & Hinv0 & Hdv0).
  unfold index_after. rewrite Hnew. cbn [mbind outcome_bind obind].
  destruct (inserts_spec gas D records ix0 Hinv0) as (ix & Hfold & Hinv & Hdv & Hsv);
    [done|done|done|by rewrite Hdv0|by rewrite Hdv0|].
  exists ix. split; [done|]. split; [done|]. rewrite Hdv, Hsv, Hdv0.
  pose proof (ix_sizes _ Hinv0) as Hsz. rewrite Hdv0 in Hsz.
  by destruct (sValues ix0).
Qed.

(** ** The chooser returns *)

Lemma computeRequiredO_BinarySearch_loop_Done pow fuel M S k alpha left right best :
  (0 ≤ left)%Z → (right ≤ M)%Z → (M < 1073741824)%Z →
  (0 < fuel)%nat → (right + 1 - left < Z.of_nat fuel)%Z →
  ∃ r, computeRequiredO_BinarySearch_loop pow fuel M S k alpha left right best = Done r.
Proof.
  intros Hl Hr HM. revert left right best Hl Hr.
  induction fuel as [|fuel IH]; intros left right best Hl Hr Hpos Hfuel; [lia|].
  cbn [computeRequiredO_BinarySearch_loop]. destruct (Z.leb_spec left right) as [Hle|Hgt].
  - rewrite (int32_id (left + right)) by lia.
    assert (Hmid : (left ≤ (left + right) ÷ 2 ≤ right)%Z).
    { rewrite Z.quot_div_nonneg by lia. split.
      - apply Z.div_le_lower_bound; lia.
      - apply Z.div_le_upper_bound; lia. }
    set (mid := ((left + right) ÷ 2)%Z) in *.
    destruct (enough pow M S k alpha mid).
    + rewrite int32_id by lia. apply IH; lia.
    + rewrite int32_id by lia. apply IH; lia.
  - by eexists.
Qed.

Lemma computeRequiredO_Enhanced_Done pow gas M S k alpha :
  (M < 1073741824)%Z → (0 < gas)%nat → (M < Z.of_nat gas)%Z →
  ∃ O, computeRequiredO_Enhanced pow gas M S k alpha = Done O.
Proof.
  intros HM Hpos Hgas. unfold computeRequiredO_Enhanced, computeRequiredO_BinarySearch.
  destruct (Z.leb_spec k 0); [by eexists|]. destruct (Z.leb_spec S 0); [by eexists|].
  destruct (Z.leb_spec M S); [by eexists|].
  destruct (f64_leb alpha (f64_of_Z 0)); [by eexists|].
  destruct (computeRequiredO_BinarySearch_loop_Done pow gas M S k alpha k M M) as [r ->];
    [lia..|]. by eexists.
Qed.

(** ** Ranking the candidates *)

Lemma at_int_Done {A} (l : list A) idx :
  (0 ≤ idx < Z.of_nat (length l))%Z →
  ∃ x, at_int l idx = Done x ∧ l !! Z.to_nat idx = Some x.
Proof.
  intros Hidx. unfold at_int. destruct (Z.ltb_spec idx 0); [lia|].
  apply at_lt. lia.
Qed.

Lemma euclideanDistSquared_loop_Done a b i dist :
  (i + length a ≤ length b)%nat → ∃ d, euclideanDistSquared_loop a b i dist = Done d.
Proof.
  revert i dist. induction a as [|ai a IH]; intros i dist Hlen; [by eexists|].
  cbn [length] in Hlen. cbn [euclideanDistSquared_loop].
  destruct (at_lt b i) as (bi & -> & _); [lia|]. cbn [mbind outcome_bind obind].
  apply IH. lia.
Qed.

Lemma euclideanDistSquared_Done a b :
  (length a ≤ length b)%nat → ∃ d, euclideanDistSquared a b = Done d.
Proof. intros Hlen. by apply euclideanDistSquared_loop_Done. Qed.

(** What [rank_candidates] appends: one entry per candidate kept, in the
    order of the candidates, each with the distance the code computes for
    it. *)
Lemma rank_candidates_spec filtered ix v Smin Smax candidates distIndex :
  length (sValues ix) = length (dataVectors ix) →
  (∀ vec, vec ∈ dataVectors ix → (length v ≤ length vec)%nat) →
  (∀ id, id ∈ candidates → (0 ≤ id < Z.of_nat (length (dataVectors ix)))%Z) →
  ∃ di, rank_candidates filtered ix v Smin Smax candidates distIndex = Done (distIndex ++ di)
    ∧ di.*2 `sublist_of` candidates
    ∧ (filtered = true → ∀ id, id ∈ di.*2 →
         ∃ s, sValues ix !! Z.to_nat id = Some s ∧ SFleb Smin s = true ∧ SFleb s Smax = true)
    ∧ (∀ p, p ∈ di →
         (vec ← at_int (dataVectors ix) p.2; euclideanDistSquared v vec) = Done p.1).
Proof.
  intros Hsz Hlen. revert distIndex.
  induction candidates as [|idx rest IH]; intros distIndex Hids.
  - exists []. cbn. rewrite app_nil_r. split; [done|]. split; [done|].
    split; [by intros _ id ?%elem_of_nil|by intros p ?%elem_of_nil].
  - assert (Hidx : (0 ≤ idx < Z.of_nat (length (dataVectors ix)))%Z) by (apply Hids; left).
    assert (Hrest : ∀ id, id ∈ rest → (0 ≤ id < Z.of_nat (length (dataVectors ix)))%Z).
    { intros id Hid. apply Hids. by right. }
    destruct (at_int_Done (dataVectors ix) idx Hidx) as (vec & Hvec & Hvl).
    destruct (euclideanDistSquared_Done v vec) as (d & Hd).
    { apply Hlen. by eapply list_elem_of_lookup_2. }
    destruct (at_int_Done (sValues ix) idx) as (sVal & HsVal & Hsl); [by rewrite Hsz|].
    assert (Hkeep : ∀ acc,
      ∃ di, (vec ← at_int (dataVectors ix) idx;
             dist ← euclideanDistSquared v vec;
             rank_candidates filtered ix v Smin Smax rest (acc ++ [(dist, idx)]))
              = Done (acc ++ (d, idx) :: di)
        ∧ di.*2 `sublist_of` rest
        ∧ (filtered = true → ∀ id, id ∈ di.*2 →
             ∃ s, sValues ix !! Z.to_nat id = Some s ∧ SFleb Smin s = true ∧ SFleb s Smax = true)
        ∧ (∀ p, p ∈ di →
             (vec ← at_int (dataVectors ix) p.2; euclideanDistSquared v vec) = Done p.1)).
    { intros acc. rewrite Hvec. cbn [mbind outcome_bind obind]. rewrite Hd.
      cbn [mbind outcome_bind obind].
      destruct (IH (acc ++ [(d, idx)]) Hrest) as (di & Hrun & Hsub & Hfil & Hdist).
      exists di. rewrite Hrun, <- app_assoc. done. }
    assert (Hhere : (vec ← at_int (dataVectors ix) (d, idx).2; euclideanDistSquared v vec)
                    = Done (d, idx).1).
    { cbn [fst snd]. rewrite Hvec. cbn [mbind outcome_bind obind]. done. }
    cbn [rank_candidates]. destruct filtered.
    + rewrite HsVal. cbn [mbind outcome_bind obind].
      destruct (SFleb Smin sVal && SFleb sVal Smax) eqn:Hin.
      * destruct (Hkeep distIndex) as (di & Hrun & Hsub & Hfil & Hdist).
        exists ((d, idx) :: di). split; [done|]. split; [by apply sublist_skip|].
        split.
        -- intros _ id [->|Hid]%elem_of_cons; [|by apply Hfil].
           apply andb_prop in Hin as [??]. by exists sVal.
        -- intros p [->|Hp]%elem_of_cons; [done|by apply Hdist].
      * destruct (IH distIndex Hrest) as (di & Hrun & Hsub & Hfil & Hdist).
        exists di. split; [done|]. split; [by apply sublist_cons|]. done.
    + cbn [mbind outcome_bind obind].
      destruct (Hkeep distIndex) as (di & Hrun & Hsub & Hfil & Hdist).
      exists ((d, idx) :: di). split; [done|]. split; [by apply sublist_skip|].
      split; [done|]. intros p [->|Hp]%elem_of_cons; [done|by apply Hdist].
Qed.

(** ** The tail both planners share: sort, then the first [k] ids *)

Lemma top_k_take k (l : list (spec_float * Z)) : top_k k l = take (Z.to_nat k) l.*2.
Proof. reflexivity. Qed.

Lemma at_int_lookup {A} (l : list A) idx x : at_int l idx = Done x → l !! Z.to_nat idx = Some x.
Proof.
  unfold at_int, at_. destruct (idx <? 0)%Z; [done|].
  destruct (l !! Z.to_nat idx); [|done]. by intros [= ->].
Qed.

Lemma distance_not_nan ix v (p : spec_float * Z) :
  distances_are_numbers v (dataVectors ix) →
  (vec ← at_int (dataVectors ix) p.2; euclideanDistSquared v vec) = Done p.1 →
  not_nan p.1.
Proof.
  intros Hnum Hp. destruct (at_int (dataVectors ix) p.2) as [vec| | |] eqn:Hvec; try done.
  cbn [mbind outcome_bind obind] in Hp. intros Hnan. rewrite Hnan in Hp.
  apply (Hnum vec); [|done]. eapply list_elem_of_lookup_2. by apply at_int_lookup.
Qed.

Lemma ranked_result std_sort ix v k Smin Smax candidates di :
  sort_contract std_sort →
  distances_are_numbers v (dataVectors ix) →
  NoDup candidates →
  di.*2 `sublist_of` candidates →
  (∀ id, id ∈ candidates → (0 ≤ id < Z.of_nat (length (dataVectors ix)))%Z) →
  (∀ id, id ∈ di.*2 →
     ∃ s, sValues ix !! Z.to_nat id = Some s ∧ SFleb Smin s = true ∧ SFleb s Smax = true) →
  (∀ p, p ∈ di → (vec ← at_int (dataVectors ix) p.2; euclideanDistSquared v vec) = Done p.1) →
  well_formed_result ix k Smin Smax (top_k k (std_sort by_distance di))
  ∧ ascending_distance ix v (top_k k (std_sort by_distance di)).
Proof.
  intros Hsort Hnum Hnd Hsub Hids Hfil Hdist.
  destruct (Hsort by_distance di) as [Hperm Hord].
  { apply by_distance_strict_weak. intros p Hp. eapply distance_not_nan; [done|]. by apply Hdist. }
  rewrite top_k_take. set (sorted := std_sort by_distance di) in *.
  assert (Hin : ∀ id, id ∈ take (Z.to_nat k) sorted.*2 → id ∈ di.*2).
  { intros id Hid. apply (subseteq_take (Z.to_nat k)) in Hid. by rewrite Hperm in Hid. }
  split; [split; [|split]|].
  - eapply sublist_NoDup; [|apply sublist_take]. rewrite Hperm.
    eapply sublist_NoDup; [exact Hnd|done].
  - rewrite length_take. lia.
  - intros id Hid. apply Hin in Hid. split; [|by apply Hfil].
    apply Hids. eapply sublist_subseteq; [exact Hsub|done].
  - intros i j a b da db Hi Hj Hij Hda Hdb.
    apply lookup_take_Some in Hi as [Hi _], Hj as [Hj _].
    apply list_lookup_fmap_Some in Hi as (pa & -> & Hpa), Hj as (pb & -> & Hpb).
    assert (Ha : pa ∈ di) by (rewrite <- Hperm; by eapply list_elem_of_lookup_2).
    assert (Hb : pb ∈ di) by (rewrite <- Hperm; by eapply list_elem_of_lookup_2).
    rewrite (Hdist _ Ha) in Hda. rewrite (Hdist _ Hb) in Hdb.
    injection Hda as <-. injection Hdb as <-.
    apply (Hord i j pa pb Hpa Hpb Hij).
Qed.

(** ** The two queries on an index built by [insert] *)

Lemma empty_result ix v k Smin Smax :
  well_formed_result ix k Smin Smax [] ∧ ascending_distance ix v [].
Proof.
  split; [split; [constructor|split; [simpl; lia|by intros id ?%elem_of_nil]]|].
  by intros i j a b da db ?.
Qed.

Section QueryFacts.
Context (searchKnn : Hnsw → list spec_float → Z → list Z).
Context (std_sort : (spec_float * Z → spec_float * Z → bool) →
                    list (spec_float * Z) → list (spec_float * Z)).
Context (gas : nat) (ix : VectorIndex) (v : list spec_float) (k : Z) (Smin Smax : spec_float).
Context (Hsort : sort_contract std_sort) (Hknn : knn_contract searchKnn).
Context (Hinv : index_inv ix).
Context (Hv : int32 (Z.of_nat (length v)) = dimension ix).
Context (Hvlen : (Z.of_nat (length v) < 2147483648)%Z).
Context (Hnum : distances_are_numbers v (dataVectors ix)).

Lemma query_vector_fits vec : vec ∈ dataVectors ix → (length v ≤ length vec)%nat.
Proof.
  intros Hvec. pose proof (ix_dim _ Hinv vec Hvec) as Hd.
  rewrite int32_id in Hv by lia. lia.
Qed.

(** The scan plan. *)
Lemma scan_plan_spec candidates :
  (∃ lvl H0 chain ps, candidates = ps.*2
     ∧ tree_inv lvl H0 chain (tree ix)
     ∧ ps `sublist_of` pairs_of (heap (tree ix)) chain
     ∧ Forall (in_range Smin Smax) ps
     ∧ NoDup (pairs_of (heap (tree ix)) chain).*2
     ∧ ∀ k id, (k, id) ∈ pairs_of (heap (tree ix)) chain →
         (0 ≤ id)%Z ∧ ∃ s, sValues ix !! Z.to_nat id = Some s ∧ key_of k s) →
  ∃ di, rank_candidates false ix v Smin Smax candidates [] = Done di
    ∧ well_formed_result ix k Smin Smax (top_k k (std_sort by_distance di))
    ∧ ascending_distance ix v (top_k k (std_sort by_distance di)).
Proof.
  intros (lvl & H0 & chain & ps & -> & Htree & Hsub & Hrange & Hnd & Hpairs).
  assert (Hscalar : ∀ id, id ∈ ps.*2 →
    ∃ s, sValues ix !! Z.to_nat id = Some s ∧ SFleb Smin s = true ∧ SFleb s Smax = true).
  { intros id ([key id'] & -> & Hin)%list_elem_of_fmap.
    destruct (Hpairs key id') as (_ & s & Hs & Hkey).
    { eapply sublist_subseteq; [exact Hsub|done]. }
    rewrite Forall_forall in Hrange. destruct (Hrange _ Hin) as [Hlo Hhi].
    exists s. split; [done|]. by eapply SFleb_key_of. }
  assert (Hids : ∀ id, id ∈ ps.*2 → (0 ≤ id < Z.of_nat (length (dataVectors ix)))%Z).
  { intros id Hid. destruct (Hscalar id Hid) as (s & Hs & _).
    apply list_elem_of_fmap in Hid as ([key id'] & -> & Hin).
    destruct (Hpairs key id') as (Hpos & _).
    { eapply sublist_subseteq; [exact Hsub|done]. }
    apply lookup_lt_Some in Hs. rewrite (ix_sizes _ Hinv) in Hs. cbn [snd] in *. lia. }
  destruct (rank_candidates_spec false ix v Smin Smax ps.*2 [] (ix_sizes _ Hinv)
              query_vector_fits Hids) as (di & Hrun & Hdsub & _ & Hdist).
  exists di. split; [done|].
  apply (ranked_result std_sort ix v k Smin Smax ps.*2 di); try done.
  - eapply sublist_NoDup; [exact Hnd|]. by apply fmap_sublist.
  - intros id Hid. apply Hscalar. eapply sublist_subseteq; [exact Hdsub|done].
Qed.

(** The graph plans. *)
Lemma filtered_plan_spec candidates :
  NoDup candidates →
  (∀ id, id ∈ candidates → (0 ≤ id < Z.of_nat (length (dataVectors ix)))%Z) →
  ∃ di, rank_candidates true ix v Smin Smax candidates [] = Done di
    ∧ well_formed_result ix k Smin Smax (top_k k (std_sort by_distance di))
    ∧ ascending_distance ix v (top_k k (std_sort by_distance di)).
Proof.
  intros Hnd Hids.
  destruct (rank_candidates_spec true ix v Smin Smax candidates [] (ix_sizes _ Hinv)
              query_vector_fits Hids) as (di & Hrun & Hdsub & Hfil & Hdist).
  exists di. split; [done|].
  apply (ranked_result std_sort ix v k Smin Smax candidates di); try done. by apply Hfil.
Qed.

Lemma knn_candidates hn O :
  (points hn).*2 = Z.of_nat <$> seq 0 (length (dataVectors ix)) →
  NoDup (reverse (searchKnn hn v O))
  ∧ ∀ id, id ∈ reverse (searchKnn hn v O) → (0 ≤ id < Z.of_nat (length (dataVectors ix)))%Z.
Proof.
  intros Hlabels. destruct (Hknn hn v O) as [Hnd Hsub].
  { rewrite Hlabels. apply (NoDup_fmap_2 _). apply NoDup_seq. }
  split; [by rewrite reverse_Permutation|].
  intros id Hid. rewrite elem_of_reverse in Hid. apply Hsub in Hid.
  rewrite Hlabels in Hid. apply list_elem_of_fmap in Hid as (n & -> & Hn).
  apply elem_of_seq in Hn. lia.
Qed.

End QueryFacts.

Section QueryOutcomes.
Context (searchKnn : Hnsw → list spec_float → Z → list Z).
Context (std_sort : (spec_float * Z → spec_float * Z → bool) →
                    list (spec_float * Z) → list (spec_float * Z)).
Context (pow : float → Z → float).
Context (gas : nat) (ix : VectorIndex) (v : list spec_float) (k : Z) (Smin Smax : spec_float).
Context (Hsort : sort_contract std_sort) (Hknn : knn_contract searchKnn).
Context (Hinv : index_inv ix).
Context (Hvlen : (Z.of_nat (length v) < 2147483648)%Z).
Context (Hnum : distances_are_numbers v (dataVectors ix)).
Context (Hgas : (length (dataVectors ix) + 1 < gas)%nat).

Lemma VectorIndex_query_spec O :
  match VectorIndex_query searchKnn std_sort gas v k Smin Smax O ix with
  | Done ids => well_formed_result ix k Smin Smax ids ∧ ascending_distance ix v ids
  | Throw e => e = InvalidArgument ∧ int32 (Z.of_nat (length v)) ≠ dimension ix
  | _ => False
  end.
Proof.
  unfold VectorIndex_query. destruct (hnswIndex ix) as [hn|] eqn:Hhn; [|apply empty_result].
  case_bool_decide as Hne; [apply empty_result|].
  case_bool_decide as Hv; cbn [negb]; [|done].
  destruct (ix_tree _ Hinv) as (lvl & H0 & chain & Htree & HH & Hclen & Hnd & Hpairs).
  destruct (countInRange_Done gas lvl H0 chain (tree ix) Smin Smax Htree) as [count Hcount];
    [lia|].
  rewrite Hcount. cbn [mbind outcome_bind obind].
  destruct (count <=? 0)%Z; [apply empty_result|].
  destruct (count <? O)%Z.
  - destruct (rangeQuery_spec gas lvl H0 chain (tree ix) Smin Smax Htree)
      as (ps & Hrq & Hsub & Hrange); [lia|lia|].
    rewrite Hrq. cbn [mbind outcome_bind obind].
    destruct (scan_plan_spec std_sort ix v k Smin Smax Hsort Hinv Hv Hvlen Hnum ps.*2)
      as (di & Hrun & Hwf).
    { by exists lvl, H0, chain, ps. }
    rewrite Hrun. exact Hwf.
  - destruct (ix_hnsw _ Hinv Hne) as (hn' & Hhn' & Hlabels & _).
    rewrite Hhn in Hhn'. injection Hhn' as <-.
    destruct (knn_candidates searchKnn ix v Hknn hn O Hlabels) as [Hcnd Hcids].
    destruct (filtered_plan_spec std_sort ix v k Smin Smax Hsort Hinv Hv Hvlen Hnum _ Hcnd Hcids)
      as (di & Hrun & Hwf).
    rewrite Hrun. exact Hwf.
Qed.

Lemma ProbabilisticVectorIndex_query_spec alpha :
  (Z.of_nat (length (dataVectors ix)) < 1073741824)%Z →
  match ProbabilisticVectorIndex_query searchKnn std_sort pow gas v k Smin Smax alpha ix with
  | Done r => well_formed_result ix k Smin Smax r.1 ∧ ascending_distance ix v r.1
  | Throw InvalidArgument => int32 (Z.of_nat (length v)) ≠ dimension ix
  | Throw LengthError => (k < 0)%Z
  | _ => False
  end.
Proof.
  intros HM.
  unfold ProbabilisticVectorIndex_query.
  destruct (hnswIndex ix) as [hn|] eqn:Hhn; [|apply empty_result].
  case_bool_decide as Hne; [apply empty_result|].
  case_bool_decide as Hv; cbn [negb]; [|done].
  destruct (ix_tree _ Hinv) as (lvl & H0 & chain & Htree & HH & Hclen & Hnd & Hpairs).
  destruct (countInRange_Done gas lvl H0 chain (tree ix) Smin Smax Htree) as [count Hcount];
    [lia|].
  rewrite Hcount. cbn [mbind outcome_bind obind].
  destruct (count <=? 0)%Z; [apply empty_result|].
  rewrite (int32_id (Z.of_nat (length (dataVectors ix)))) by lia.
  destruct (computeRequiredO_Enhanced_Done pow gas (Z.of_nat (length (dataVectors ix)))
              count k alpha) as [O HO]; [lia..|].
  rewrite HO. cbn [mbind outcome_bind obind].
  destruct (ix_hnsw _ Hinv Hne) as (hn' & Hhn' & Hlabels & _).
  rewrite Hhn in Hhn'. injection Hhn' as <-.
  set (cands := if (O <=? 0)%Z then [] else reverse (searchKnn _ v O)).
  assert (Hc : NoDup cands
               ∧ ∀ id, id ∈ cands → (0 ≤ id < Z.of_nat (length (dataVectors ix)))%Z).
  { unfold cands. destruct (O <=? 0)%Z.
    - split; [constructor|by intros id ?%elem_of_nil].
    - by apply knn_candidates. }
  destruct Hc as [Hcnd Hcids].
  destruct (filtered_plan_spec std_sort ix v k Smin Smax Hsort Hinv Hv Hvlen Hnum _ Hcnd Hcids)
    as (di & Hrun & Hwf).
  rewrite Hrun. cbn [mbind outcome_bind obind].
  destruct (Z.ltb_spec k 0); [done|]. exact Hwf.
Qed.

End QueryOutcomes.

(** ** The results of the planners *)

Lemma index_dimension ix (D : nat) records :
  index_inv ix → dataVectors ix = records.*1 →
  Forall (λ r : list spec_float * spec_float, r.1 ≠ [] ∧ length r.1 = D) records →
  records ≠ [] → dimension ix = Z.of_nat D.
Proof.
  intros Hinv Hdv Hrec Hne. destruct records as [|[vec s] records]; [done|].
  apply Forall_cons in Hrec as [[_ Hlen] _]. cbn [fst] in Hlen.
  rewrite <- (ix_dim _ Hinv vec), Hlen; [done|]. rewrite Hdv. by left.
Qed.

(** C10: on an index built by [insert]s, each of a non-empty vector of the
    dimension of the others, either [query] returns (or raises for a query
    vector of another dimension; the probabilistic one also for a negative
    [k]), and the ids it returns are pairwise distinct, at most [k], valid
    record indices, and each has its stored scalar in [[Smin, Smax]]. *)
Theorem query_results_are_well_formed searchKnn std_sort pow gas ord (D : nat)
    records v k Smin Smax O alpha :
  sort_contract std_sort → knn_contract searchKnn →
  (3 ≤ ord)%Z →
  Forall (λ r : list spec_float * spec_float, r.1 ≠ [] ∧ length r.1 = D) records →
  (Z.of_nat D < 2147483648)%Z →
  (Z.of_nat (length records) ≤ maxElements)%Z →
  (length records + 1 < gas)%nat →
  (Z.of_nat (length v) < 2147483648)%Z →
  distances_are_numbers v records.*1 →
  ∃ ix, index_after gas ord records = Done ix
    ∧ dataVectors ix = records.*1 ∧ sValues ix = records.*2
    ∧ (records ≠ [] → dimension ix = Z.of_nat D)
    ∧ match VectorIndex_query searchKnn std_sort gas v k Smin Smax O ix with
      | Done ids => well_formed_result ix k Smin Smax ids
      | Throw e => e = InvalidArgument ∧ Z.of_nat (length v) ≠ dimension ix
      | _ => False
      end
    ∧ match ProbabilisticVectorIndex_query searchKnn std_sort pow gas v k Smin Smax alpha ix with
      | Done r => well_formed_result ix k Smin Smax r.1
      | Throw InvalidArgument => Z.of_nat (length v) ≠ dimension ix
      | Throw LengthError => (k < 0)%Z
      | _ => False
      end.
Proof.
  intros Hsort Hknn Hord Hrec HD HM Hgas Hvlen Hnum.
  destruct (index_after_spec gas D ord records Hord Hrec HD HM Hgas)
    as (ix & Hix & Hinv & Hdv & Hsv).
  unfold maxElements in HM.
  assert (HMix : length (dataVectors ix) = length records) by (by rewrite Hdv, length_fmap).
  exists ix. split; [done|]. split; [done|]. split; [done|].
  split; [by eapply index_dimension|]. rewrite <- Hdv in Hnum. split.
  - pose proof (VectorIndex_query_spec searchKnn std_sort gas ix v k Smin Smax
                  Hsort Hknn Hinv Hvlen Hnum ltac:(lia) O) as Hq.
    destruct (VectorIndex_query searchKnn std_sort gas v k Smin Smax O ix); try done.
    + by destruct Hq.
    + by rewrite int32_id in Hq by lia.
  - pose proof (ProbabilisticVectorIndex_query_spec searchKnn std_sort pow gas ix v k Smin Smax
                  Hsort Hknn Hinv Hvlen Hnum ltac:(lia) alpha ltac:(lia)) as Hq.
    destruct (ProbabilisticVectorIndex_query searchKnn std_sort pow gas v k Smin Smax alpha ix)
      as [r| |[]|]; try done.
    + by destruct Hq.
    + by rewrite int32_id in Hq by lia.
Qed.

Lemma query_results_are_well_formed_witness :
  ∃ ix, index_after fuel50 4 records_five = Done ix
    ∧ dataVectors ix = records_five.*1 ∧ sValues ix = records_five.*2
    ∧ (records_five ≠ [] → dimension ix = Z.of_nat 2)
    ∧ match VectorIndex_query first_labels insertion_sort fuel50 query_five 3
              (f32_of_Z 2) (f32_of_Z 4) 1000 ix with
      | Done ids => well_formed_result ix 3 (f32_of_Z 2) (f32_of_Z 4) ids
      | Throw e => e = InvalidArgument ∧ Z.of_nat (length query_five) ≠ dimension ix
      | _ => False
      end
    ∧ match ProbabilisticVectorIndex_query first_labels insertion_sort pow_int fuel50
              query_five 3 (f32_of_Z 2) (f32_of_Z 4) alpha_default ix with
      | Done r => well_formed_result ix 3 (f32_of_Z 2) (f32_of_Z 4) r.1
      | Throw InvalidArgument => Z.of_nat (length query_five) ≠ dimension ix
      | Throw LengthError => (3 < 0)%Z
      | _ => False
      end.
Proof.
  apply (query_results_are_well_formed first_labels insertion_sort pow_int fuel50 4 2
           records_five query_five 3 (f32_of_Z 2) (f32_of_Z 4) 1000 alpha_default).
  - apply insertion_sort_contract.
  - apply first_labels_contract.
  - lia.
  - repeat constructor; done.
  - lia.
  - unfold maxElements. simpl. lia.
  - unfold fuel50. simpl. lia.
  - simpl. lia.
  - intros vec Hvec.
    repeat (apply elem_of_cons in Hvec as [->|Hvec]); [vm_compute; congruence..|].
    by apply elem_of_nil in Hvec.
Defined.

(** C8, amended: the ids either [query] returns are in ascending order of
    their squared distance to the query vector: none is strictly closer
    than one returned before it.  Ids at the same distance come in the
    order [std::sort] leaves them in. *)
Theorem query_results_ascend_by_distance searchKnn std_sort pow gas ord (D : nat)
    records v k Smin Smax O alpha :
  sort_contract std_sort → knn_contract searchKnn →
  (3 ≤ ord)%Z →
  Forall (λ r : list spec_float * spec_float, r.1 ≠ [] ∧ length r.1 = D) records →
  (Z.of_nat D < 2147483648)%Z →
  (Z.of_nat (length records) ≤ maxElements)%Z →
  (length records + 1 < gas)%nat →
  (Z.of_nat (length v) < 2147483648)%Z →
  distances_are_numbers v records.*1 →
  ∃ ix, index_after gas ord records = Done ix
    ∧ dataVectors ix = records.*1
    ∧ match VectorIndex_query searchKnn std_sort gas v k Smin Smax O ix with
      | Done ids => ascending_distance ix v ids
      | Throw e => e = InvalidArgument ∧ Z.of_nat (length v) ≠ dimension ix
      | _ => False
      end
    ∧ match ProbabilisticVectorIndex_query searchKnn std_sort pow gas v k Smin Smax alpha ix with
      | Done r => ascending_distance ix v r.1
      | Throw InvalidArgument => Z.of_nat (length v) ≠ dimension ix
      | Throw LengthError => (k < 0)%Z
      | _ => False
      end.
Proof.
  intros Hsort Hknn Hord Hrec HD HM Hgas Hvlen Hnum.
  destruct (index_after_spec gas D ord records Hord Hrec HD HM Hgas)
    as (ix & Hix & Hinv & Hdv & Hsv).
  unfold maxElements in HM.
  assert (HMix : length (dataVectors ix) = length records) by (by rewrite Hdv, length_fmap).
  exists ix. split; [done|]. split; [done|]. rewrite <- Hdv in Hnum. split.
  - pose proof (VectorIndex_query_spec searchKnn std_sort gas ix v k Smin Smax
                  Hsort Hknn Hinv Hvlen Hnum ltac:(lia) O) as Hq.
    destruct (VectorIndex_query searchKnn std_sort gas v k Smin Smax O ix); try done.
    + by destruct Hq.
    + by rewrite int32_id in Hq by lia.
  - pose proof (ProbabilisticVectorIndex_query_spec searchKnn std_sort pow gas ix v k Smin Smax
                  Hsort Hknn Hinv Hvlen Hnum ltac:(lia) alpha ltac:(lia)) as Hq.
    destruct (ProbabilisticVectorIndex_query searchKnn std_sort pow gas v k Smin Smax alpha ix)
      as [r| |[]|]; try done.
    + by destruct Hq.
    + by rewrite int32_id in Hq by lia.
Qed.

Lemma query_results_ascend_by_distance_witness :
  ∃ ix, index_after fuel50 4 records_tie = Done ix
    ∧ dataVectors ix = records_tie.*1
    ∧ match VectorIndex_query first_labels insertion_sort fuel50 query_tie 2
              (f32_of_Z 0) (f32_of_Z 3) 1000 ix with
      | Done ids => ascending_distance ix query_tie ids
      | Throw e => e = InvalidArgument ∧ Z.of_nat (length query_tie) ≠ dimension ix
      | _ => False
      end
    ∧ match ProbabilisticVectorIndex_query first_labels insertion_sort pow_int fuel50
              query_tie 2 (f32_of_Z 0) (f32_of_Z 3) alpha_default ix with
      | Done r => ascending_distance ix query_tie r.1
      | Throw InvalidArgument => Z.of_nat (length query_tie) ≠ dimension ix
      | Throw LengthError => (2 < 0)%Z
      | _ => False
      end.
Proof.
  apply (query_results_ascend_by_distance first_labels insertion_sort pow_int fuel50 4 1
           records_tie query_tie 2 (f32_of_Z 0) (f32_of_Z 3) 1000 alpha_default).
  - apply insertion_sort_contract.
  - apply first_labels_contract.
  - lia.
  - repeat constructor; done.
  - lia.
  - unfold maxElements. simpl. lia.
  - unfold fuel50. simpl. lia.
  - simpl. lia.
  - intros vec Hvec.
    repeat (apply elem_of_cons in Hvec as [->|Hvec]); [vm_compute; congruence..|].
    by apply elem_of_nil in Hvec.
Defined.

(** C8 as stated fails: records 0 and 1 hold the same vector, so they are
    at the same distance from any query; record 1 has the smaller scalar,
    the range query lists it first, and the scan plan returns it first.
    The graph plan, on the same index and query, returns them the other
    way round. *)
Lemma ties_are_not_broken_by_id :
  (ix ← index_after fuel50 4 records_tie;
   VectorIndex_query first_labels insertion_sort fuel50 query_tie 2
     (f32_of_Z 0) (f32_of_Z 3) 1000 ix) = Done [1; 0]%Z
  ∧ (ix ← index_after fuel50 4 records_tie;
     VectorIndex_query first_labels insertion_sort fuel50 query_tie 2
       (f32_of_Z 0) (f32_of_Z 3) 2 ix) = Done [0; 1]%Z
  ∧ (ix ← index_after fuel50 4 records_tie;
     vec ← at_int (dataVectors ix) 0; euclideanDistSquared query_tie vec) = Done (f32_of_Z 1)
  ∧ (ix ← index_after fuel50 4 records_tie;
     vec ← at_int (dataVectors ix) 1; euclideanDistSquared query_tie vec) = Done (f32_of_Z 1).
Proof. split; [|split; [|split]]; vm_compute; reflexivity. Qed.

(** ** A tree fresh from its constructor *)

Section FreshTree.
Context {K V : Type} `{KeyOps K}.


End FreshTree.


(** ** Runs of [insert] *)

Section InsertRuns.
Context {K V : Type} `{KeyOps K}.
Context (gas : nat).

Lemma run_inserts_spec (pairs : list (K * V)) : ∀ lvl H0 chain (t : BPlusTree K V),
  tree_inv lvl H0 chain t → (H0 + length pairs + 1 < gas)%nat →
  ∃ t' lvl' H' chain' kept,
    run_ops gas (inserts pairs) t = Done (tt, t')
    ∧ tree_inv lvl' H' chain' t'
    ∧ (H' ≤ H0 + length pairs)%nat
    ∧ (length chain' ≤ length chain + length pairs)%nat
    ∧ same_up_to_keq kept pairs
    ∧ pairs_of (heap t') chain' ≡ₚ pairs_of (heap t) chain ++ kept.
Proof.
  induction pairs as [|[key value] pairs IH]; intros lvl H0 chain t Hinv Hgas.
  - exists t, lvl, H0, chain, []. cbn. rewrite app_nil_r.
    split; [done|]. split; [done|]. split; [lia|]. split; [lia|]. split; [constructor|done].
  - cbn [length] in Hgas.
    destruct (insert_spec gas lvl H0 chain t key value Hinv ltac:(lia))
      as (t1 & lvl1 & H1 & chain1 & k' & Hins & Hinv1 & HH1 & Hlen1 & Hk' & Hperm1).
    destruct (IH lvl1 H1 chain1 t1 Hinv1 ltac:(lia))
      as (t' & lvl' & H' & chain' & kept & Hrun & Hinv' & HH' & Hlen' & Hkept & Hperm').
    exists t', lvl', H', chain', ((k', value) :: kept).
    split.
    { cbn [inserts fmap list_fmap run_ops run_op fst snd].
      rewrite (run_bind _ _ _ _ _ Hins). exact Hrun. }
    split; [done|]. cbn [length]. split; [lia|]. split; [lia|]. split.
    + constructor; [|done]. cbn. split; [done|]. destruct Hk' as [->|Hk']; [by left|by right].
    + rewrite Hperm', Hperm1. by rewrite <- Permutation_middle.
Qed.

(** Any run of [insert]s on a fresh tree of order at least 3 returns
    without a fault and leaves a well-shaped tree whose leaves hold the
    inserted pairs, each once, under the key given or one equal to it. *)
Theorem inserts_build_a_tree (ord : Z) (pairs : list (K * V)) :
  (3 ≤ ord)%Z → (length pairs + 1 < gas)%nat →
  ∃ t lvl H0 chain kept,
    tree_after gas ord (inserts pairs) = Done t
    ∧ tree_inv lvl H0 chain t
    ∧ (H0 ≤ length pairs)%nat ∧ (length chain ≤ S (length pairs))%nat
    ∧ same_up_to_keq kept pairs
    ∧ pairs_of (heap t) chain ≡ₚ kept.
Proof.
  intros Hord Hgas.
  destruct (BPlusTree_new_inv (K:=K) (V:=V) ord Hord) as (t0 & Hnew & Hinv0 & Hpairs0).
  destruct (run_inserts_spec pairs _ _ _ t0 Hinv0 ltac:(lia))
    as (t & lvl & H0 & chain & kept & Hrun & Hinv & HH & Hlen & Hkept & Hperm).
  exists t, lvl, H0, chain, kept. unfold tree_after. rewrite Hnew.
  cbn [mbind outcome_bind obind]. rewrite Hrun. split; [done|]. split; [done|].
  split; [lia|]. split; [cbn in Hlen; lia|]. split; [done|]. by rewrite Hperm, Hpairs0.
Qed.

Lemma same_up_to_keq_values (kept pairs : list (K * V)) :
  same_up_to_keq kept pairs → kept.*2 = pairs.*2.
Proof. induction 1 as [|p q kept pairs [Hv _] _ IH]; [done|]. cbn. by rewrite Hv, IH. Qed.

Lemma same_up_to_keq_elem (kept pairs : list (K * V)) k v :
  same_up_to_keq kept pairs → (k, v) ∈ kept →
  ∃ k0, (k0, v) ∈ pairs ∧ (k = k0 ∨ keq k k0 = true).
Proof.
  induction 1 as [|[k1 v1] [k2 v2] kept pairs [Hv Hk] _ IH]; [by intros ?%elem_of_nil|].
  cbn in Hv, Hk. subst v2. intros [[= -> ->]|Hin]%elem_of_cons.
  - exists k2. split; [by left|done].
  - destruct (IH Hin) as (k0 & Hin0 & Hk0). exists k0. split; [by right|done].
Qed.

(** After any run of [insert]s, [rangeQuery(Smin, Smax)] returns without
    a fault, returns no value more often than it was inserted, and every
    value it returns was inserted under a key that lies in [[Smin, Smax]]
    or is equal to one that does. *)
Theorem rangeQuery_after_inserts_is_sound (ord : Z) (pairs : list (K * V)) Smin Smax :
  (3 ≤ ord)%Z → (length pairs + 1 < gas)%nat →
  ∃ t vs,
    tree_after gas ord (inserts pairs) = Done t
    ∧ rangeQuery gas Smin Smax t = Done vs
    ∧ vs ⊆+ pairs.*2
    ∧ ∀ v, v ∈ vs →
        ∃ k k0, (k0, v) ∈ pairs ∧ (k = k0 ∨ keq k k0 = true)
                ∧ kle Smin k = true ∧ kle k Smax = true.
Proof.
  intros Hord Hgas.
  destruct (BPlusTree_new_inv (K:=K) (V:=V) ord Hord) as (t0 & Hnew & Hinv0 & Hpairs0).
  destruct (run_inserts_spec pairs _ _ _ t0 Hinv0 ltac:(lia))
    as (t & lvl & H0 & chain & kept & Hrun & Hinv & HH & Hlen & Hkept & Hperm).
  rewrite Hpairs0 in Hperm. cbn in Hperm, Hlen, HH.
  destruct (rangeQuery_spec gas lvl H0 chain t Smin Smax Hinv)
    as (ps & Hrq & Hsub & Hrange); [lia|lia|].
  exists t, ps.*2. unfold tree_after. rewrite Hnew.
  cbn [mbind outcome_bind obind]. rewrite Hrun. split; [done|]. split; [done|]. split.
  - rewrite <- (same_up_to_keq_values kept pairs Hkept), <- Hperm.
    apply sublist_submseteq. by apply fmap_sublist.
  - intros v ([k v'] & -> & Hin)%list_elem_of_fmap. cbn [snd].
    assert (Hk : (k, v') ∈ kept).
    { rewrite <- Hperm. eapply sublist_subseteq; [exact Hsub|done]. }
    destruct (same_up_to_keq_elem _ _ _ _ Hkept Hk) as (k0 & Hin0 & Hk0).
    rewrite Forall_forall in Hrange. destruct (Hrange _ Hin) as [Hlo Hhi].
    exists k, k0. done.
Qed.

End InsertRuns.

Lemma inserts_build_a_tree_witness :
  ∃ t lvl H0 chain kept,
    tree_after fuel50 3 (inserts pairs_small) = Done t
    ∧ tree_inv lvl H0 chain t
    ∧ (H0 ≤ length pairs_small)%nat ∧ (length chain ≤ S (length pairs_small))%nat
    ∧ same_up_to_keq kept pairs_small
    ∧ pairs_of (heap t) chain ≡ₚ kept.
Proof. apply inserts_build_a_tree; [lia|unfold fuel50; simpl; lia]. Defined.

Lemma rangeQuery_after_inserts_is_sound_witness :
  ∃ t vs,
    tree_after fuel50 3 (inserts pairs_small) = Done t
    ∧ rangeQuery fuel50 2%Z 4%Z t = Done vs
    ∧ vs ⊆+ pairs_small.*2
    ∧ ∀ v, v ∈ vs →
        ∃ k k0, (k0, v) ∈ pairs_small ∧ (k = k0 ∨ keq k k0 = true)
                ∧ kle 2%Z k = true ∧ kle k 4%Z = true.
Proof. apply rangeQuery_after_inserts_is_sound; [lia|unfold fuel50; simpl; lia]. Defined.

(** ** Keys that are not there *)

Section Missing.
Context {K V : Type} `{KeyOps K}.

Lemma descend_path_descend (h : list (option (Node K V))) key fuel : ∀ a path leaf,
  descend fuel h a key = Done leaf →
  ∃ path', descend_path fuel h a key path = Done (path', leaf).
Proof.
  induction fuel as [|fuel IH]; intros a path leaf; [done|].
  cbn [descend descend_path]. destruct (load h a) as [n| | |]; [|done..].
  cbn [mbind outcome_bind obind]. destruct (isLeaf n).
  - intros [= ->]. by eexists.
  - destruct (at_ (children n) (upper_bound (keys n) key)) as [c| | |]; [|done..].
    cbn [mbind outcome_bind obind]. apply IH.
Qed.

(** When [searchAll(key)] returns null, [remove(key)] changes nothing:
    no node, not the root, no counter. *)
Theorem remove_of_a_missing_key (gas : nat) (key : K) (t : BPlusTree K V) :
  searchAll gas key t = Done None → remove gas key t = Done (tt, t).
Proof.
  unfold searchAll, remove. intros Hsearch.
  rewrite (run_bind get_root _ t (root t) t) by reflexivity.
  destruct (root t) as [r|] eqn:Hroot; [|reflexivity].
  destruct (descend gas (heap t) r key) as [leaf| | |] eqn:Hdesc; [|done..].
  cbn [mbind outcome_bind obind] in Hsearch.
  destruct (descend_path_descend _ _ _ _ [] _ Hdesc) as (path & Hpath).
  rewrite (run_sread _ _ _ (path, leaf)) by done.
  destruct (load (heap t) leaf) as [n| | |] eqn:Hn; [|done..].
  cbn [mbind outcome_bind obind] in Hsearch.
  unfold get_node. rewrite (run_sread _ _ _ n) by done.
  destruct (found_at (keys n) (lower_bound (keys n) key) key); [|reflexivity].
  by destruct (at_ (values n) (lower_bound (keys n) key)).
Qed.

(** [search(key)] is the first of the values [searchAll(key)] points to,
    and the value-initialised value when that is null or empty. *)
Theorem search_is_first_of_searchAll (d : V) (gas : nat) (key : K) (t : BPlusTree K V) :
  search d gas key t
  = (r ← searchAll gas key t;
     Done (match r with Some (v :: _) => v | _ => d end)).
Proof.
  unfold search, searchAll. destruct (root t) as [r|]; [|done].
  destruct (descend gas (heap t) r key) as [leaf| | |]; [|done..].
  cbn [mbind outcome_bind obind].
  destruct (load (heap t) leaf) as [n| | |]; [|done..].
  cbn [mbind outcome_bind obind].
  destruct (found_at (keys n) (lower_bound (keys n) key) key); [|done].
  by destruct (at_ (values n) (lower_bound (keys n) key)).
Qed.

End Missing.

Lemma remove_of_a_missing_key_witness :
  ∃ t, tree_after fuel50 3 (inserts pairs_small) = Done t
       ∧ remove fuel50 7%Z t = Done (tt, t).
Proof.
  eexists. split; [vm_compute; reflexivity|].
  apply remove_of_a_missing_key. vm_compute. reflexivity.
Defined.

(** ** The chooser, whatever the test does *)

Section ChooserSound.
Context (pow : float → Z → float) (M S k : Z) (alpha : float).
Context (Hk : (0 < k)%Z) (HM : (M < 1073741824)%Z).

Lemma computeRequiredO_BinarySearch_loop_sound fuel : ∀ left right best,
  (k ≤ left)%Z → (right ≤ M)%Z →
  (0 < fuel)%nat → (right + 1 - left < Z.of_nat fuel)%Z →
  (best = M ∨ (k ≤ best < M)%Z ∧ enough pow M S k alpha best = true) →
  ∃ r, computeRequiredO_BinarySearch_loop pow fuel M S k alpha left right best = Done r
       ∧ (r = M ∨ (k ≤ r < M)%Z ∧ enough pow M S k alpha r = true).
Proof.
  induction fuel as [|fuel IH]; intros left right best Hl Hr Hpos Hfuel Hbest; [lia|].
  cbn [computeRequiredO_BinarySearch_loop]. destruct (Z.leb_spec left right) as [Hle|Hgt].
  - rewrite (int32_id (left + right)) by lia.
    assert (Hmid : (left ≤ (left + right) ÷ 2 ≤ right)%Z).
    { rewrite Z.quot_div_nonneg by lia. split.
      - apply Z.div_le_lower_bound; lia.
      - apply Z.div_le_upper_bound; lia. }
    set (mid := ((left + right) ÷ 2)%Z) in *.
    destruct (enough pow M S k alpha mid) eqn:Hen.
    + rewrite int32_id by lia. apply IH; [lia..|].
      destruct (decide (mid = M)) as [->|]; [by left|right]. split; [lia|done].
    + rewrite int32_id by lia. apply IH; [lia..|done].
  - by exists best.
Qed.

End ChooserSound.

(** For [k > 0], [0 < S < M] and [alpha > 0], the binary search returns [M]
    or an [O] in [[k, M)] that passes the test
    [binomialCDFLessThan(O, k, S/M) <= alpha], whether or not the test is
    monotone; the chooser of the planner returns that plus 100. *)
Theorem binary_search_result_passes_the_test pow gas M S k alpha :
  (0 < k)%Z → (0 < S < M)%Z → (M < 1073741824)%Z →
  f64_leb alpha (f64_of_Z 0) = false →
  (M < Z.of_nat gas)%Z →
  ∃ r, computeRequiredO_BinarySearch pow gas M S k alpha = Done r
       ∧ (r = M ∨ (k ≤ r < M)%Z ∧ enough pow M S k alpha r = true)
       ∧ computeRequiredO_Enhanced pow gas M S k alpha = Done (r + 100)%Z.
Proof.
  intros Hk HS HM Halpha Hgas.
  unfold computeRequiredO_Enhanced, computeRequiredO_BinarySearch.
  destruct (Z.leb_spec k 0); [lia|]. destruct (Z.leb_spec S 0); [lia|].
  destruct (Z.leb_spec M S); [lia|]. rewrite Halpha.
  destruct (computeRequiredO_BinarySearch_loop_sound pow M S k alpha Hk HM gas k M M)
    as (r & Hr & Hsound); [lia..|by left|].
  exists r. rewrite Hr. split; [done|]. split; [done|].
  cbn [mbind outcome_bind obind]. rewrite int32_id; [done|].
  destruct Hsound as [->|[? _]]; lia.
Qed.

Lemma binary_search_result_passes_the_test_witness :
  ∃ r, computeRequiredO_BinarySearch pow_int fuel50 10 5 2 alpha_default = Done r
       ∧ (r = 10%Z ∨ (2 ≤ r < 10)%Z ∧ enough pow_int 10 5 2 alpha_default r = true)
       ∧ computeRequiredO_Enhanced pow_int fuel50 10 5 2 alpha_default = Done (r + 100)%Z.
Proof.
  apply binary_search_result_passes_the_test.
  - lia.
  - lia.
  - lia.
  - vm_compute. reflexivity.
  - unfold fuel50. lia.
Defined.

(** For [k > 0], [0 < S < M] and [alpha > 0], the linear scan returns the
    smallest [O] in [[k, M]] that passes the test, or [M] when none does,
    whether or not the test is monotone. *)
Theorem linear_scan_finds_the_smallest pow gas M S k alpha :
  (0 < k)%Z → (0 < S < M)%Z → (M < 1073741824)%Z →
  f64_leb alpha (f64_of_Z 0) = false →
  (M < Z.of_nat gas)%Z →
  ∃ r, computeRequiredO_Linear pow gas M S k alpha = Done r
       ∧ smallest_enough pow M S k alpha r.
Proof.
  intros Hk HS HM Halpha Hgas. unfold computeRequiredO_Linear.
  destruct (Z.leb_spec k 0); [lia|]. destruct (Z.leb_spec S 0); [lia|].
  destruct (Z.leb_spec M S); [lia|]. rewrite Halpha.
  destruct (Z.le_gt_cases k (M + 1)) as [HkM|HkM].
  - apply computeRequiredO_Linear_loop_spec; try lia; try done.
  - destruct gas as [|gas]; [lia|]. cbn [computeRequiredO_Linear_loop].
    destruct (Z.leb_spec k M); [lia|].
    exists M. split; [done|]. right. split; [done|]. intros; lia.
Qed.

Lemma linear_scan_finds_the_smallest_witness :
  ∃ r, computeRequiredO_Linear pow_int fuel50 10 5 2 alpha_default = Done r
       ∧ smallest_enough pow_int 10 5 2 alpha_default r.
Proof.
  apply linear_scan_finds_the_smallest.
  - lia.
  - lia.
  - lia.
  - vm_compute. reflexivity.
  - unfold fuel50. lia.
Defined.

(** [binomialCoefficient(n, k)] and [binomialCoefficient(n, n - k)] are the
    same double for [0 <= k <= n]: both run the loop with the smaller of
    [k] and [n - k]. *)
Theorem binomialCoefficient_is_symmetric n k :
  (0 ≤ k ≤ n)%Z → (n < 2147483648)%Z →
  binomialCoefficient n (n - k) = binomialCoefficient n k.
Proof.
  intros Hk Hn. unfold binomialCoefficient.
  rewrite (int32_id (n - k)) by lia. replace (n - (n - k))%Z with k by lia.
  rewrite (int32_id k) by lia.
  destruct (Z.ltb_spec n (n - k)); [lia|]. destruct (Z.ltb_spec n k); [lia|].
  destruct (Z.eqb_spec (n - k) 0), (Z.eqb_spec (n - k) n), (Z.eqb_spec k 0), (Z.eqb_spec k n);
    cbn [orb]; try done; try lia.
  destruct (Z.ltb_spec (n - k) k), (Z.ltb_spec k (n - k)); try done; try lia.
  by replace (n - k)%Z with k by lia.
Qed.

Lemma binomialCoefficient_is_symmetric_witness :
  binomialCoefficient 10 (10 - 3) = binomialCoefficient 10 3.
Proof. apply binomialCoefficient_is_symmetric; lia. Defined.

(** ** What the planners reject *)

(** [insert] rejects an empty vector on any index; once a record was
    inserted, it rejects every vector whose length is not that of the
    first. *)
Theorem insert_checks_the_vector gas ord (D : nat) records vec s :
  (3 ≤ ord)%Z →
  Forall (λ r : list spec_float * spec_float, r.1 ≠ [] ∧ length r.1 = D) records →
  (Z.of_nat D < 2147483648)%Z →
  (Z.of_nat (length records) ≤ maxElements)%Z →
  (length records + 1 < gas)%nat →
  (Z.of_nat (length vec) < 2147483648)%Z →
  ∃ ix, index_after gas ord records = Done ix
    ∧ VectorIndex_insert gas [] s ix = Throw InvalidArgument
    ∧ (records ≠ [] → length vec ≠ D →
       VectorIndex_insert gas vec s ix = Throw InvalidArgument).
Proof.
  intros Hord Hrec HD HM Hgas Hvlen.
  destruct (index_after_spec gas D ord records Hord Hrec HD HM Hgas)
    as (ix & Hix & Hinv & Hdv & Hsv).
  exists ix. split; [done|]. split; [done|]. intros Hne Hlen.
  pose proof (index_dimension ix D records Hinv Hdv Hrec Hne) as Hdim.
  unfold VectorIndex_insert. destruct (decide (vec = [])) as [->|Hvec].
  { by rewrite bool_decide_eq_true_2. }
  rewrite bool_decide_eq_false_2 by done.
  rewrite bool_decide_eq_false_2 by (rewrite Hdv; by destruct records).
  rewrite bool_decide_eq_false_2; [done|]. rewrite int32_id, Hdim by lia. lia.
Qed.

Lemma insert_checks_the_vector_witness :
  ∃ ix, index_after fuel50 4 records_five = Done ix
    ∧ VectorIndex_insert fuel50 [] (f32_of_Z 1) ix = Throw InvalidArgument
    ∧ (records_five ≠ [] → length [f32_of_Z 1] ≠ 2%nat →
       VectorIndex_insert fuel50 [f32_of_Z 1] (f32_of_Z 1) ix = Throw InvalidArgument).
Proof.
  apply (insert_checks_the_vector fuel50 4 2 records_five [f32_of_Z 1] (f32_of_Z 1)).
  - lia.
  - repeat constructor; done.
  - lia.
  - unfold maxElements. simpl. lia.
  - unfold fuel50. simpl. lia.
  - simpl. lia.
Defined.

(** On an index that holds a record, either [query] rejects a query
    vector whose length is not the dimension of the index, whatever the
    other arguments. *)
Theorem query_checks_the_vector searchKnn std_sort pow gas ord (D : nat)
    records v k Smin Smax O alpha :
  (3 ≤ ord)%Z →
  Forall (λ r : list spec_float * spec_float, r.1 ≠ [] ∧ length r.1 = D) records →
  (Z.of_nat D < 2147483648)%Z →
  (Z.of_nat (length records) ≤ maxElements)%Z →
  (length records + 1 < gas)%nat →
  (Z.of_nat (length v) < 2147483648)%Z →
  records ≠ [] → length v ≠ D →
  ∃ ix, index_after gas ord records = Done ix
    ∧ VectorIndex_query searchKnn std_sort gas v k Smin Smax O ix = Throw InvalidArgument
    ∧ ProbabilisticVectorIndex_query searchKnn std_sort pow gas v k Smin Smax alpha ix
      = Throw InvalidArgument.
Proof.
  intros Hord Hrec HD HM Hgas Hvlen Hne Hlen.
  destruct (index_after_spec gas D ord records Hord Hrec HD HM Hgas)
    as (ix & Hix & Hinv & Hdv & Hsv).
  exists ix. split; [done|].
  pose proof (index_dimension ix D records Hinv Hdv Hrec Hne) as Hdim.
  assert (Hdne : dataVectors ix ≠ []) by (rewrite Hdv; by destruct records).
  destruct (ix_hnsw _ Hinv Hdne) as (hn & Hhn & _).
  unfold VectorIndex_query, ProbabilisticVectorIndex_query. rewrite Hhn.
  rewrite bool_decide_eq_false_2 by done.
  rewrite bool_decide_eq_false_2; [done|]. rewrite int32_id, Hdim by lia. lia.
Qed.

Lemma query_checks_the_vector_witness :
  ∃ ix, index_after fuel50 4 records_five = Done ix
    ∧ VectorIndex_query first_labels insertion_sort fuel50 [f32_of_Z 1] 3
        (f32_of_Z 2) (f32_of_Z 4) 1000 ix = Throw InvalidArgument
    ∧ ProbabilisticVectorIndex_query first_labels insertion_sort pow_int fuel50 [f32_of_Z 1] 3
        (f32_of_Z 2) (f32_of_Z 4) alpha_default ix = Throw InvalidArgument.
Proof.
  apply (query_checks_the_vector first_labels insertion_sort pow_int fuel50 4 2 records_five).
  - lia.
  - repeat constructor; done.
  - lia.
  - unfold maxElements. simpl. lia.
  - unfold fuel50. simpl. lia.
  - simpl. lia.
  - done.
  - simpl. lia.
Defined.




Section NaiveFacts.
Context (std_sort : (spec_float * Z → spec_float * Z → bool) →
                    list (spec_float * Z) → list (spec_float * Z)).
Context (Hsort : sort_contract std_sort).


End NaiveFacts.


Lemma KeyValueFinder_search_app key f g :
  KeyValueFinder_search key (f ++ g)
  = match KeyValueFinder_search key f with
    | Done x => Done x
    | _ => KeyValueFinder_search key g
    end.
Proof.
  induction f as [|[k x] f IH]; cbn [app KeyValueFinder_search fst snd].
  - by destruct (KeyValueFinder_search key g).
  - by destruct (String.eqb k key).
Qed.

Lemma KeyValueFinder_search_outcome key f :
  (∃ x, KeyValueFinder_search key f = Done x ∧ (key, x) ∈ f)
  ∨ (KeyValueFinder_search key f = Throw RuntimeError ∧ key ∉ f.*1).
Proof.
  induction f as [|[k x] f IH]; cbn [KeyValueFinder_search fst snd].
  - right. split; [done|]. by intros ?%elem_of_nil.
  - destruct (String.eqb_spec k key) as [->|Hne].
    + left. exists x. split; [done|]. by left.
    + destruct IH as [(y & -> & Hin)|[-> Hnot]].
      * left. exists y. split; [done|]. by right.
      * right. split; [done|]. cbn. intros [?|?]%elem_of_cons; [congruence|done].
Qed.

(** [search] after [insert]: a key that was there keeps the value
    [search] found for it (the pair inserted first wins, an insert never
    overwrites); a key that was not there is found with the value just
    inserted; and [search] throws exactly for the keys never inserted. *)
Theorem KeyValueFinder_search_after_insert (f : KeyValueFinder) key value key' :
  (∀ x, KeyValueFinder_search key' f = Done x →
        KeyValueFinder_search key' (KeyValueFinder_insert key value f) = Done x)
  ∧ (key ∉ f.*1 →
     KeyValueFinder_search key (KeyValueFinder_insert key value f) = Done value)
  ∧ (KeyValueFinder_search key' f = Throw RuntimeError ↔ key' ∉ f.*1).
Proof.
  unfold KeyValueFinder_insert. split; [|split].
  - intros x Hx. by rewrite KeyValueFinder_search_app, Hx.
  - intros Hnot. rewrite KeyValueFinder_search_app.
    destruct (KeyValueFinder_search_outcome key f) as [(x & _ & Hin)|[-> _]].
    + exfalso. apply Hnot. apply list_elem_of_fmap. by exists (key, x).
    + cbn. by rewrite String.eqb_refl.
  - destruct (KeyValueFinder_search_outcome key' f) as [(x & Hx & Hin)|[Hx Hnot]].
    + rewrite Hx. split; [done|]. intros Hnot. exfalso. apply Hnot.
      apply list_elem_of_fmap. by exists (key', x).
    + by rewrite Hx.
Qed.

(** ** Bisection on ascending keys *)

Lemma ascending_nil : ascending [].
Proof. by intros i j a b ?. Qed.

Lemma ascending_app_inv l1 l2 : ascending (l1 ++ l2) → ascending l1 ∧ ascending l2.
Proof.
  intros Hasc. split.
  - intros i j a b Hi Hj Hij. apply (Hasc i j); [by apply lookup_app_l_Some..|done].
  - intros i j a b Hi Hj Hij. apply (Hasc (length l1 + i)%nat (length l1 + j)%nat).
    + by rewrite lookup_app_r, Nat.add_comm, Nat.add_sub by lia.
    + by rewrite lookup_app_r, Nat.add_comm, Nat.add_sub by lia.
    + lia.
Qed.

Lemma ascending_take n ks : ascending ks → ascending (take n ks).
Proof. intros Hasc. rewrite <- (take_drop n ks) in Hasc. by apply ascending_app_inv in Hasc as [? _]. Qed.

Lemma ascending_drop n ks : ascending ks → ascending (drop n ks).
Proof. intros Hasc. rewrite <- (take_drop n ks) in Hasc. by apply ascending_app_inv in Hasc as [_ ?]. Qed.

Lemma upper_bound_loop_spec (ks : list Z) x fuel : ∀ first len,
  ascending ks → (first + len ≤ length ks)%nat → (len ≤ fuel)%nat →
  (∀ j a, ks !! j = Some a → (j < first)%nat → (a ≤ x)%Z) →
  (∀ j a, ks !! j = Some a → (first + len ≤ j)%nat → (x < a)%Z) →
  (∀ j a, ks !! j = Some a → (j < upper_bound_loop fuel ks x first len)%nat → (a ≤ x)%Z)
  ∧ (∀ j a, ks !! j = Some a → (upper_bound_loop fuel ks x first len ≤ j)%nat → (x < a)%Z).
Proof.
  induction fuel as [|fuel IH]; intros first len Hasc Hlen Hfuel Hlow Hhigh;
    cbn [upper_bound_loop].
  { split; [done|]. intros j a Hj Hle. apply (Hhigh j a Hj). lia. }
  destruct (Nat.eqb_spec len 0) as [->|Hne].
  { split; [done|]. intros j a Hj Hle. apply (Hhigh j a Hj). lia. }
  assert (Hhalf : (len / 2 < len)%nat) by (apply Nat.div_lt; lia).
  destruct (lookup_lt_is_Some_2 ks (first + len / 2)%nat) as [y Hy]; [lia|].
  rewrite Hy. cbn [klt int_keys]. destruct (Z.ltb_spec x y) as [Hxy|Hxy].
  - apply IH; [done|lia|lia|done|]. intros j a Hj Hle.
    destruct (decide (j = first + len / 2)%nat) as [->|Hnj]; [congruence|].
    assert (y < a)%Z; [|lia]. apply (Hasc (first + len / 2)%nat j); [done|done|lia].
  - apply IH; [done|lia|lia| |].
    + intros j a Hj Hlt.
      destruct (decide (j = first + len / 2)%nat) as [->|Hnj]; [by simplify_eq|].
      assert (a < y)%Z; [|lia]. apply (Hasc j (first + len / 2)%nat); [done|done|lia].
    + intros j a Hj Hle. apply (Hhigh j a Hj). lia.
Qed.

Lemma upper_bound_spec (ks : list Z) x :
  ascending ks →
  (∀ j a, ks !! j = Some a → (j < upper_bound ks x)%nat → (a ≤ x)%Z)
  ∧ (∀ j a, ks !! j = Some a → (upper_bound ks x ≤ j)%nat → (x < a)%Z).
Proof.
  intros Hasc. apply upper_bound_loop_spec; [done|lia|lia|intros; lia|].
  intros j a Hj%lookup_lt_Some Hle. lia.
Qed.

Lemma upper_bound_unique (ks : list Z) x i :
  ascending ks → (i ≤ length ks)%nat →
  (∀ j a, ks !! j = Some a → (j < i)%nat → (a ≤ x)%Z) →
  (∀ j a, ks !! j = Some a → (i ≤ j)%nat → (x < a)%Z) →
  upper_bound ks x = i.
Proof.
  intros Hasc Hi Hlow Hhigh. destruct (upper_bound_spec ks x Hasc) as [Hlow' Hhigh'].
  pose proof (upper_bound_le ks x) as Hle.
  destruct (Nat.lt_trichotomy (upper_bound ks x) i) as [Hlt|[->|Hgt]]; [|done|].
  - destruct (lookup_lt_is_Some_2 ks (upper_bound ks x)) as [a Ha]; [lia|].
    pose proof (Hlow _ _ Ha Hlt). pose proof (Hhigh' _ _ Ha ltac:(lia)). lia.
  - destruct (lookup_lt_is_Some_2 ks i) as [a Ha]; [lia|].
    pose proof (Hlow' _ _ Ha Hgt). pose proof (Hhigh _ _ Ha ltac:(lia)). lia.
Qed.

Lemma lower_bound_loop_spec (ks : list Z) x fuel : ∀ first len,
  ascending ks → (first + len ≤ length ks)%nat → (len ≤ fuel)%nat →
  (∀ j a, ks !! j = Some a → (j < first)%nat → (a < x)%Z) →
  (∀ j a, ks !! j = Some a → (first + len ≤ j)%nat → (x ≤ a)%Z) →
  (∀ j a, ks !! j = Some a → (j < lower_bound_loop fuel ks x first len)%nat → (a < x)%Z)
  ∧ (∀ j a, ks !! j = Some a → (lower_bound_loop fuel ks x first len ≤ j)%nat → (x ≤ a)%Z).
Proof.
  induction fuel as [|fuel IH]; intros first len Hasc Hlen Hfuel Hlow Hhigh;
    cbn [lower_bound_loop].
  { split; [done|]. intros j a Hj Hle. apply (Hhigh j a Hj). lia. }
  destruct (Nat.eqb_spec len 0) as [->|Hne].
  { split; [done|]. intros j a Hj Hle. apply (Hhigh j a Hj). lia. }
  assert (Hhalf : (len / 2 < len)%nat) by (apply Nat.div_lt; lia).
  destruct (lookup_lt_is_Some_2 ks (first + len / 2)%nat) as [y Hy]; [lia|].
  rewrite Hy. cbn [klt int_keys]. destruct (Z.ltb_spec y x) as [Hxy|Hxy].
  - apply IH; [done|lia|lia| |].
    + intros j a Hj Hlt.
      destruct (decide (j = first + len / 2)%nat) as [->|Hnj]; [by simplify_eq|].
      assert (a < y)%Z; [|lia]. apply (Hasc j (first + len / 2)%nat); [done|done|lia].
    + intros j a Hj Hle. apply (Hhigh j a Hj). lia.
  - apply IH; [done|lia|lia|done|]. intros j a Hj Hle.
    destruct (decide (j = first + len / 2)%nat) as [->|Hnj]; [by simplify_eq|].
    assert (y < a)%Z; [|lia]. apply (Hasc (first + len / 2)%nat j); [done|done|lia].
Qed.

Lemma lower_bound_spec (ks : list Z) x :
  ascending ks →
  (∀ j a, ks !! j = Some a → (j < lower_bound ks x)%nat → (a < x)%Z)
  ∧ (∀ j a, ks !! j = Some a → (lower_bound ks x ≤ j)%nat → (x ≤ a)%Z).
Proof.
  intros Hasc. apply lower_bound_loop_spec; [done|lia|lia|intros; lia|].
  intros j a Hj%lookup_lt_Some Hle. lia.
Qed.

(** [found_at] after [lower_bound] tells whether the key is there. *)
Lemma found_at_lower_bound (ks : list Z) x :
  ascending ks →
  if found_at ks (lower_bound ks x) x
  then ks !! lower_bound ks x = Some x
  else x ∉ ks.
Proof.
  intros Hasc. destruct (lower_bound_spec ks x Hasc) as [Hlow Hhigh].
  unfold found_at. destruct (ks !! lower_bound ks x) as [k|] eqn:Hk.
  - cbn [keq int_keys]. destruct (Z.eqb_spec k x) as [->|Hne]; [done|].
    intros (j & Hj)%list_elem_of_lookup_1.
    destruct (decide (j < lower_bound ks x)%nat) as [Hlt|Hge].
    + pose proof (Hlow _ _ Hj Hlt). lia.
    + destruct (decide (j = lower_bound ks x)) as [->|]; [congruence|].
      pose proof (Hasc (lower_bound ks x) j k x Hk Hj ltac:(lia)).
      pose proof (Hhigh _ _ Hk ltac:(lia)). lia.
  - intros (j & Hj)%list_elem_of_lookup_1.
    apply lookup_ge_None in Hk. pose proof (lookup_lt_Some _ _ _ Hj).
    pose proof (Hlow _ _ Hj ltac:(lia)). lia.
Qed.

(** ** Inserting into a vector, inserting into the sorted entries *)

Lemma lookup_insert_at {A} (l : list A) i x j :
  (i ≤ length l)%nat →
  insert_at i x l !! j
  = if decide (j < i)%nat then l !! j
    else if decide (j = i) then Some x else l !! (j - 1)%nat.
Proof.
  intros Hi. unfold insert_at. destruct (decide (j < i)%nat) as [Hlt|Hge].
  - rewrite lookup_app_l by (rewrite length_take; lia). by rewrite lookup_take_lt.
  - rewrite lookup_app_r by (rewrite length_take; lia). rewrite length_take, Nat.min_l by lia.
    destruct (decide (j = i)) as [->|Hne]; [by rewrite Nat.sub_diag|].
    rewrite lookup_cons_ne_0 by lia. rewrite lookup_drop. f_equal. lia.
Qed.

Lemma ascending_insert_at (ks : list Z) i x :
  ascending ks → (i ≤ length ks)%nat →
  (∀ j a, ks !! j = Some a → (j < i)%nat → (a < x)%Z) →
  (∀ j a, ks !! j = Some a → (i ≤ j)%nat → (x < a)%Z) →
  ascending (insert_at i x ks).
Proof.
  intros Hasc Hi Hlow Hhigh j1 j2 a b. rewrite !lookup_insert_at by done.
  intros H1 H2 Hlt. repeat case_decide; simplify_eq; try lia.
  - by apply (Hasc j1 j2).
  - by apply (Hlow j1).
  - apply (Hasc j1 (j2 - 1)%nat); [done|done|lia].
  - apply (Hhigh (j2 - 1)%nat); [done|lia].
  - apply (Hasc (j1 - 1)%nat (j2 - 1)%nat); [done|done|lia].
Qed.

Section Entries.
Context {V : Type}.
Implicit Types (m : list (Z * list V)) (vs : list (list V)).

Lemma ins_entry_app_l key (value : V) m1 m2 :
  (∀ e, e ∈ m1 → (e.1 < key)%Z) →
  ins_entry key value (m1 ++ m2) = m1 ++ ins_entry key value m2.
Proof.
  induction m1 as [|[k vals] m1 IH]; intros Hlt; [done|]. cbn.
  pose proof (Hlt (k, vals) ltac:(by left)) as Hk. cbn in Hk.
  destruct (Z.ltb_spec key k); [lia|]. destruct (Z.eqb_spec key k); [lia|].
  rewrite IH; [done|]. intros e He. apply Hlt. by right.
Qed.

Lemma ins_entry_before key (value : V) m :
  (∀ e, e ∈ m → (key < e.1)%Z) → ins_entry key value m = (key, [value]) :: m.
Proof.
  destruct m as [|[k vals] m]; intros Hgt; [done|]. cbn.
  pose proof (Hgt (k, vals) ltac:(by left)) as Hk. cbn in Hk.
  by destruct (Z.ltb_spec key k); [|lia].
Qed.

Lemma ins_entry_here key (value : V) vals m :
  ins_entry key value ((key, vals) :: m) = (key, vals ++ [value]) :: m.
Proof. cbn. destruct (Z.ltb_spec key key); [lia|]. by rewrite Z.eqb_refl. Qed.

Lemma zip_take_drop (ks : list Z) vs i :
  zip ks vs = zip (take i ks) (take i vs) ++ zip (drop i ks) (drop i vs).
Proof.
  revert ks vs. induction i as [|i IH]; intros ks vs; [done|].
  destruct ks as [|k ks]; [done|]. destruct vs as [|v vs]; [cbn; by destruct (drop i ks)|].
  cbn. by rewrite (IH ks vs) at 1.
Qed.

Lemma zip_key_lookup (ks : list Z) vs e :
  e ∈ zip ks vs → ∃ j, ks !! j = Some e.1.
Proof.
  intros (j & Hj)%list_elem_of_lookup_1. exists j.
  apply lookup_zip_with_Some in Hj as (k & v & -> & Hk & _). done.
Qed.

(** A key that is not in the leaf goes in at [lower_bound]. *)
Lemma ins_entry_leaf_new (ks : list Z) vs key (value : V) m2 :
  ascending ks → length vs = length ks → key ∉ ks →
  (∀ e, e ∈ m2 → (key < e.1)%Z) →
  ins_entry key value (zip ks vs ++ m2)
  = zip (insert_at (lower_bound ks key) key ks) (insert_at (lower_bound ks key) [value] vs) ++ m2.
Proof.
  intros Hasc Hlen Hnot Hgt. destruct (lower_bound_spec ks key Hasc) as [Hlow Hhigh].
  pose proof (lower_bound_le ks key) as Hle.
  set (i := lower_bound ks key) in *.
  rewrite (zip_take_drop ks vs i), <- app_assoc, ins_entry_app_l.
  2: { intros e (j & Hj)%zip_key_lookup. apply lookup_take_Some in Hj as [Hj Hji].
       by apply (Hlow j). }
  rewrite ins_entry_before.
  2: { intros e [(j & Hj)%zip_key_lookup|He]%elem_of_app; [|by apply Hgt].
       rewrite lookup_drop in Hj. pose proof (Hhigh _ _ Hj ltac:(lia)).
       assert (e.1 ≠ key); [|lia]. intros Heq. apply Hnot. rewrite <- Heq.
       by eapply list_elem_of_lookup_2. }
  unfold insert_at. rewrite zip_with_app by (rewrite !length_take; lia).
  by rewrite <- app_assoc.
Qed.

(** A key that is in the leaf gets one more value. *)
Lemma ins_entry_leaf_found (ks : list Z) vs key (value : V) vals m2 :
  ascending ks → length vs = length ks →
  ks !! lower_bound ks key = Some key → vs !! lower_bound ks key = Some vals →
  ins_entry key value (zip ks vs ++ m2)
  = zip ks (<[lower_bound ks key := vals ++ [value]]> vs) ++ m2.
Proof.
  intros Hasc Hlen Hk Hv. destruct (lower_bound_spec ks key Hasc) as [Hlow Hhigh].
  set (i := lower_bound ks key) in *.
  assert (Hi : (i < length ks)%nat) by by eapply lookup_lt_Some.
  rewrite (zip_take_drop ks vs i), <- app_assoc, ins_entry_app_l.
  2: { intros e (j & Hj)%zip_key_lookup. apply lookup_take_Some in Hj as [Hj Hji].
       by apply (Hlow j). }
  rewrite (drop_S ks key i Hk), (drop_S vs vals i Hv). cbn [zip zip_with app].
  rewrite ins_entry_here.
  rewrite <- (take_drop_middle ks i key Hk) at 3.
  rewrite (insert_take_drop vs) by lia.
  rewrite zip_with_app by (rewrite !length_take; lia). by rewrite <- app_assoc.
Qed.

End Entries.

(** ** Separators *)

Lemma separators_length lo ks hi : length (separators lo ks hi) = S (S (length ks)).
Proof. unfold separators. cbn. rewrite length_app, length_fmap. cbn. lia. Qed.

Lemma separators_0 lo ks hi : separators lo ks hi !! 0%nat = Some lo.
Proof. done. Qed.

Lemma separators_S lo ks hi i k :
  ks !! i = Some k → separators lo ks hi !! S i = Some (Some k).
Proof.
  intros Hk. change (((Some <$> ks) ++ [hi]) !! i = Some (Some k)).
  rewrite lookup_app_l by (rewrite length_fmap; by eapply lookup_lt_Some).
  by rewrite list_lookup_fmap, Hk.
Qed.

Lemma separators_last lo ks hi : separators lo ks hi !! S (length ks) = Some hi.
Proof.
  change (((Some <$> ks) ++ [hi]) !! length ks = Some hi).
  rewrite lookup_app_r by (rewrite length_fmap; lia).
  by rewrite length_fmap, Nat.sub_diag.
Qed.

Lemma separators_insert_at lo ks hi j k :
  (j ≤ length ks)%nat →
  separators lo (insert_at j k ks) hi = insert_at (S j) (Some k) (separators lo ks hi).
Proof.
  intros Hj. unfold separators, insert_at. cbn. f_equal.
  rewrite fmap_app, fmap_cons, fmap_take, fmap_drop, <- app_assoc. cbn.
  rewrite take_app_le by (rewrite length_fmap; lia).
  rewrite drop_app_le by (rewrite length_fmap; lia). done.
Qed.

Lemma separators_take lo ks hi mid up i :
  ks !! mid = Some up → (i ≤ S mid)%nat →
  separators lo (take mid ks) (Some up) !! i = separators lo ks hi !! i.
Proof.
  intros Hup Hi. pose proof (lookup_lt_Some _ _ _ Hup) as Hmid.
  destruct i as [|i]; [done|].
  destruct (decide (i = mid)) as [->|Hne].
  - rewrite (separators_S lo ks hi mid up Hup).
    pose proof (separators_last lo (take mid ks) (Some up)) as Hlast.
    by rewrite length_take, Nat.min_l in Hlast by lia.
  - destruct (lookup_lt_is_Some_2 ks i) as [k Hk]; [lia|].
    rewrite (separators_S lo ks hi i k Hk). apply separators_S.
    rewrite lookup_take_lt by lia. done.
Qed.

Lemma separators_drop lo ks hi mid up i :
  ks !! mid = Some up →
  separators (Some up) (drop (S mid) ks) hi !! i = separators lo ks hi !! (S mid + i)%nat.
Proof.
  intros Hup. pose proof (lookup_lt_Some _ _ _ Hup) as Hmid.
  destruct i as [|i].
  - rewrite Nat.add_0_r. by rewrite (separators_S lo ks hi mid up Hup).
  - replace (S mid + S i)%nat with (S (S mid + i)) by lia.
    destruct (ks !! (S mid + i)%nat) as [k|] eqn:Hk.
    + rewrite (separators_S lo ks hi _ k Hk). apply separators_S. by rewrite lookup_drop.
    + apply lookup_ge_None in Hk.
      destruct (decide (S mid + i = length ks)%nat) as [Heq|Hne].
      * rewrite Heq, separators_last.
        pose proof (separators_last (Some up) (drop (S mid) ks) hi) as Hlast.
        rewrite length_drop in Hlast. by replace (length ks - S mid)%nat with i in Hlast by lia.
      * rewrite !lookup_ge_None_2; [done|rewrite separators_length; lia|].
        rewrite separators_length, length_drop. lia.
Qed.

(** ** The order invariant and the store *)

Section OrderedFacts.
Context {V : Type}.
Implicit Types (h : list (option (Node Z V))) (n : Node Z V) (t : BPlusTree Z V).
Implicit Types (lo hi hiP : nat → option Z) (par : nat → option nat).

Lemma node_ok_bound lo hi hiP par b b' a n :
  (b ≤ b')%nat → node_ok lo hi hiP par b a n → node_ok lo hi hiP par b' a n.
Proof.
  intros Hb (Hasc & Hin & Hsh). split; [done|]. split; [done|].
  destruct (isLeaf n); [done|]. destruct Hsh as [Hlen Hcs]. split; [done|].
  intros i c Hc. destruct (Hcs i c Hc) as (? & ? & ? & ?). split; [lia|done].
Qed.

Lemma ordered_update lo hi hiP par h a n :
  ordered lo hi hiP par h → node_ok lo hi hiP par (length h) a n →
  ordered lo hi hiP par (<[a := Some n]> h).
Proof.
  intros Hord Hn b m Hb. rewrite length_insert. destruct (decide (a = b)) as [<-|Hne].
  - apply list_lookup_insert_Some in Hb as [(_ & [= <-] & _)|[? _]]; [done|done].
  - rewrite list_lookup_insert_ne in Hb by done. by apply Hord.
Qed.

Lemma ordered_alloc lo hi hiP par h n :
  ordered lo hi hiP par h → node_ok lo hi hiP par (S (length h)) (length h) n →
  ordered lo hi hiP par (h ++ [Some n]).
Proof.
  intros Hord Hn b m Hb. rewrite length_app. cbn [length]. rewrite Nat.add_1_r.
  apply lookup_app_Some in Hb as [Hb|[Hge Hb]].
  - eapply node_ok_bound; [|by apply Hord]. lia.
  - apply list_lookup_singleton_Some in Hb as [Hb [= <-]].
    by replace b with (length h) by lia.
Qed.

(** The invariant looks at the bounds of live nodes and of their children
    only. *)
Lemma node_ok_ghost lo hi hiP par lo' hi' hiP' par' b a n :
  node_ok lo hi hiP par b a n →
  lo' a = lo a → hi' a = hi a →
  (isLeaf n = false → ∀ c, c ∈ children n →
     lo' c = lo c ∧ hiP' c = hiP c ∧ par' c = par c) →
  node_ok lo' hi' hiP' par' b a n.
Proof.
  intros (Hasc & Hin & Hsh) Hlo Hhi Hcs. split; [done|]. split.
  - rewrite Hlo, Hhi. done.
  - destruct (isLeaf n); [done|]. destruct Hsh as [Hlen Hch]. split; [done|].
    intros i c Hc. rewrite Hlo, Hhi.
    destruct (Hcs eq_refl c) as (-> & -> & ->); [by eapply list_elem_of_lookup_2|].
    by apply Hch.
Qed.

Lemma node_ok_erase_size lo hi hiP par b a n :
  node_ok lo hi hiP par b a (erase_size n) ↔ node_ok lo hi hiP par b a n.
Proof. done. Qed.

Lemma same_nodes_length h h' : same_nodes h h' → length h' = length h.
Proof.
  intros Hsame. apply Nat.le_antisymm.
  - destruct (decide (length h' ≤ length h)%nat); [done|].
    specialize (Hsame (length h)). rewrite (lookup_ge_None_2 h) in Hsame by lia.
    destruct (lookup_lt_is_Some_2 h' (length h)) as [x Hx]; [lia|]. by rewrite Hx in Hsame.
  - destruct (decide (length h ≤ length h')%nat); [done|].
    specialize (Hsame (length h')). rewrite (lookup_ge_None_2 h') in Hsame by lia.
    destruct (lookup_lt_is_Some_2 h (length h')) as [x Hx]; [lia|]. by rewrite Hx in Hsame.
Qed.

Lemma ordered_same_nodes lo hi hiP par h h' :
  same_nodes h h' → ordered lo hi hiP par h → ordered lo hi hiP par h'.
Proof.
  intros Hsame Hord a n' Hn'. rewrite (same_nodes_length _ _ Hsame).
  specialize (Hsame a). rewrite Hn' in Hsame. cbn in Hsame.
  destruct (h !! a) as [[n|]|] eqn:Hn; try done. cbn in Hsame.
  assert (Heq : erase_size n' = erase_size n) by congruence.
  change (node_ok lo hi hiP par (length h) a (erase_size n')). rewrite Heq. exact (Hord a n Hn).
Qed.

Lemma same_nodes_skel h h' a : same_nodes h h' → skel h' a = skel h a.
Proof.
  intros Hsame. specialize (Hsame a). unfold skel.
  destruct (h' !! a) as [[n'|]|], (h !! a) as [[n|]|]; try done.
  cbn in Hsame. assert (Heq : erase_size n' = erase_size n) by congruence.
  destruct n, n'. injection Heq as -> -> -> -> ->. done.
Qed.

Lemma same_nodes_leaf_view h h' a : same_nodes h h' → leaf_view h' a = leaf_view h a.
Proof.
  intros Hsame. specialize (Hsame a). unfold leaf_view.
  destruct (h' !! a) as [[n'|]|], (h !! a) as [[n|]|]; try done.
  cbn in Hsame. assert (Heq : erase_size n' = erase_size n) by congruence.
  destruct n, n'. injection Heq as -> -> -> -> ->. done.
Qed.

Lemma same_nodes_refl h : same_nodes h h.
Proof. done. Qed.

Lemma same_nodes_trans h1 h2 h3 : same_nodes h1 h2 → same_nodes h2 h3 → same_nodes h1 h3.
Proof. intros H12 H23 a. by rewrite H23, H12. Qed.

Lemma same_nodes_put_size h a n z :
  h !! a = Some (Some n) → same_nodes h (<[a := Some (with_size z n)]> h).
Proof.
  intros Hn b. destruct (decide (a = b)) as [<-|Hne].
  - rewrite list_lookup_insert_eq by by eapply lookup_lt_Some. by rewrite Hn.
  - by rewrite list_lookup_insert_ne.
Qed.

Lemma load_inv h a n : load h a = Done n → h !! a = Some (Some n).
Proof. unfold load. destruct (h !! a) as [[m|]|]; [|done..]. by intros [= ->]. Qed.

(** Recomputing counters touches nothing but counters. *)
Lemma updateSubtreeSize_same_nodes node t t' :
  updateSubtreeSize node t = Done (tt, t') →
  same_nodes (heap t) (heap t') ∧ root t' = root t ∧ order t' = order t.
Proof.
  unfold updateSubtreeSize. destruct node as [a|]; [|by intros [= <-]].
  unfold get_node, sread, mbind, St_bind, sbind, obind.
  destruct (load (heap t) a) as [n| | |] eqn:Hn; [|done..]. apply load_inv in Hn.
  destruct (isLeaf n).
  - unfold put_node. intros [= <-]. cbn. split; [|done]. by apply same_nodes_put_size.
  - destruct (sum_child_sizes (heap t) (children n) 0) as [z| | |]; [|done..].
    unfold put_node. intros [= <-]. cbn. split; [|done]. by apply same_nodes_put_size.
Qed.

Lemma updateSubtreeSizesUpwards_loop_same_nodes gas fuel : ∀ node t t',
  updateSubtreeSizesUpwards_loop gas fuel node t = Done (tt, t') →
  same_nodes (heap t) (heap t') ∧ root t' = root t ∧ order t' = order t.
Proof.
  induction fuel as [|fuel IH]; intros node t t'; [done|].
  cbn [updateSubtreeSizesUpwards_loop]. destruct node as [a|]; [|by intros [= <-]].
  unfold mbind at 1, St_bind, sbind.
  destruct (updateSubtreeSize (Some a) t) as [[[] t1]| | |] eqn:Hupd; [|done..].
  apply updateSubtreeSize_same_nodes in Hupd as (Hs1 & Hr1 & Ho1).
  unfold mbind at 1, St_bind, sbind, sread, obind.
  destruct (findParent gas (heap t1) (root t1) (Some a)) as [p| | |]; [|done..].
  intros Hrest. apply IH in Hrest as (Hs2 & Hr2 & Ho2).
  split; [by eapply same_nodes_trans|]. split; congruence.
Qed.

Lemma updateSubtreeSizesUpwards_same_nodes gas node t t' :
  updateSubtreeSizesUpwards gas node t = Done (tt, t') →
  same_nodes (heap t) (heap t') ∧ root t' = root t ∧ order t' = order t.
Proof. apply updateSubtreeSizesUpwards_loop_same_nodes. Qed.

(** ** A node and its children's bounds *)

(** The child the descent takes covers the key. *)
Lemma child_covers_key (ks : list Z) (lo hi : option Z) key l u :
  ascending ks → above lo key → below key hi →
  separators lo ks hi !! upper_bound ks key = Some l →
  separators lo ks hi !! S (upper_bound ks key) = Some u →
  above l key ∧ below key u.
Proof.
  intros Hasc Hlo Hhi Hl Hu. destruct (upper_bound_spec ks key Hasc) as [Hlow Hhigh].
  pose proof (upper_bound_le ks key) as Hle. set (i := upper_bound ks key) in *. split.
  - destruct i as [|i]; [by injection Hl as <-|].
    destruct (lookup_lt_is_Some_2 ks i) as [k Hk]; [lia|].
    rewrite (separators_S _ _ _ _ _ Hk) in Hl. injection Hl as <-. cbn.
    apply (Hlow i); [done|lia].
  - destruct (ks !! i) as [k|] eqn:Hk.
    + rewrite (separators_S _ _ _ _ _ Hk) in Hu. injection Hu as <-. cbn.
      by apply (Hhigh i).
    + apply lookup_ge_None in Hk. replace i with (length ks) in Hu by lia.
      rewrite separators_last in Hu. by injection Hu as <-.
Qed.

(** The position of a child is where [upper_bound] puts a key that the
    child covers. *)
Lemma upper_bound_at_child (ks : list Z) (lo hi : option Z) key j l u :
  ascending ks → (j ≤ length ks)%nat →
  separators lo ks hi !! j = Some l → separators lo ks hi !! S j = Some u →
  above l key → below key u →
  upper_bound ks key = j
  ∧ (∀ i a, ks !! i = Some a → (i < j)%nat → ∃ l0, l = Some l0 ∧ (a ≤ l0)%Z)
  ∧ (∀ i a, ks !! i = Some a → (j ≤ i)%nat → (key < a)%Z).
Proof.
  intros Hasc Hj Hl Hu Hlk Hku.
  assert (Hlow : ∀ i a, ks !! i = Some a → (i < j)%nat →
            (∃ l0, l = Some l0 ∧ (a ≤ l0)%Z) ∧ (a ≤ key)%Z).
  { intros i a Hi Hij. destruct j as [|j]; [lia|].
    destruct (lookup_lt_is_Some_2 ks j) as [k Hk]; [lia|].
    rewrite (separators_S _ _ _ _ _ Hk) in Hl. injection Hl as <-. cbn in Hlk.
    destruct (decide (i = j)) as [->|].
    - simplify_eq. split; [|lia]. exists a. split; [done|lia].
    - pose proof (Hasc i j a k Hi Hk ltac:(lia)). split; [|lia]. exists k. split; [done|lia]. }
  assert (Hhigh : ∀ i a, ks !! i = Some a → (j ≤ i)%nat → (key < a)%Z).
  { intros i a Hi Hij. destruct (lookup_lt_is_Some_2 ks j) as [k Hk].
    { apply lookup_lt_Some in Hi. lia. }
    rewrite (separators_S _ _ _ _ _ Hk) in Hu. injection Hu as <-. cbn in Hku.
    destruct (decide (i = j)) as [->|]; [simplify_eq; lia|].
    pose proof (Hasc j i k a Hk Hi ltac:(lia)). lia. }
  split; [|split].
  - apply upper_bound_unique; [done|done| |done]. intros i a Hi Hij. by apply (Hlow i).
  - intros i a Hi Hij. by apply (Hlow i).
  - done.
Qed.

End OrderedFacts.

(** ** The leaf chain in key order *)

Section ChainOrder.
Context {V : Type}.
Implicit Types (h : list (option (Node Z V))) (n : Node Z V) (t : BPlusTree Z V).
Implicit Types (lo hi hiP : nat → option Z) (par : nat → option nat).

Lemma chain_seg_ext lo hi lo' hi' from chain to :
  (∀ a, a ∈ chain → lo' a = lo a ∧ hi' a = hi a) →
  chain_seg lo hi from chain to → chain_seg lo' hi' from chain to.
Proof.
  revert from. induction chain as [|a rest IH]; intros from Heq; [done|].
  intros (Hlo & Hpr & Hsome & Hrest). destruct (Heq a) as [Hla Hha]; [by left|].
  cbn [chain_seg]. rewrite Hla, Hha.
  split; [done|]. split; [done|]. split; [done|]. apply IH; [|done].
  intros b Hb. apply Heq. by right.
Qed.

Lemma chain_seg_app lo hi from l1 l2 to :
  chain_seg lo hi from (l1 ++ l2) to →
  ∃ mid, chain_seg lo hi from l1 mid ∧ chain_seg lo hi mid l2 to
         ∧ (l1 ≠ [] → l2 ≠ [] → is_Some mid).
Proof.
  revert from. induction l1 as [|a l1 IH]; intros from.
  - intros Hseg. exists from. done.
  - intros (Hlo & Hpr & Hsome & Hrest). destruct (IH _ Hrest) as (mid & H1 & H2 & Hmid).
    exists mid. split; [|split; [done|]].
    + split; [done|]. split; [done|]. split; [|done].
      intros Hne. apply Hsome. by destruct l1.
    + intros _ Hl2. destruct l1 as [|b l1]; [|by apply Hmid].
      cbn in H1. rewrite <- H1. apply Hsome. by destruct l2.
Qed.

(** Every leaf of a segment that ends at a bound ends at or below it. *)
Lemma chain_seg_his lo hi from chain to u0 :
  chain_seg lo hi from chain to → to = Some u0 →
  ∀ a, a ∈ chain → ∃ u, hi a = Some u ∧ (u ≤ u0)%Z.
Proof.
  revert from. induction chain as [|a rest IH]; intros from; [by intros _ _ b ?%elem_of_nil|].
  intros (Hlo & Hpr & Hsome & Hrest) Hto b [->|Hb]%elem_of_cons.
  - destruct rest as [|c rest].
    + cbn in Hrest. exists u0. split; [congruence|lia].
    + destruct Hsome as [u Hu]; [done|]. exists u. split; [done|].
      pose proof Hrest as (Hloc & Hprc & _). destruct (IH _ Hrest Hto c) as (uc & Huc & Hle); [by left|].
      rewrite Hloc, Hu, Huc in Hprc. cbn in Hprc. lia.
  - by apply (IH _ Hrest Hto).
Qed.

(** Every leaf of a segment that starts at a bound starts at or above it. *)
Lemma chain_seg_los lo hi from chain to f0 :
  chain_seg lo hi from chain to → from = Some f0 →
  ∀ a, a ∈ chain → ∃ l, lo a = Some l ∧ (f0 ≤ l)%Z.
Proof.
  revert from f0. induction chain as [|a rest IH]; intros from f0;
    [by intros _ _ b ?%elem_of_nil|].
  intros (Hlo & Hpr & Hsome & Hrest) Hfrom b [->|Hb]%elem_of_cons.
  - exists f0. split; [congruence|lia].
  - assert (Hne : rest ≠ []) by (intros ->; by apply elem_of_nil in Hb).
    destruct (Hsome Hne) as [u Hu].
    destruct (IH _ u Hrest Hu b Hb) as (l & Hl & Hle). exists l. split; [done|].
    rewrite Hlo, Hfrom, Hu in Hpr. cbn in Hpr. lia.
Qed.

(** The leaf [x] hands the keys from [key] on to the fresh leaf [y]. *)
Lemma chain_seg_insert_after lo hi lo' hi' from chain to x y key :
  NoDup chain → y ∉ chain → x ≠ y →
  (∀ a, a ≠ x → a ≠ y → lo' a = lo a ∧ hi' a = hi a) →
  lo' x = lo x → hi' x = Some key → lo' y = Some key → hi' y = hi x →
  (x ∈ chain → proper (lo x) (Some key) ∧ proper (Some key) (hi x)) →
  chain_seg lo hi from chain to →
  chain_seg lo' hi' from (insert_after x y chain) to.
Proof.
  intros Hnd Hy Hxy Hother Hlx Hhx Hly Hhy Hpr. revert from Hnd Hy Hpr.
  induction chain as [|a rest IH]; intros from Hnd Hy Hpr; [done|].
  apply NoDup_cons in Hnd as [Ha Hnd]. apply not_elem_of_cons in Hy as [Hya Hy].
  intros (Hlo & Hpra & Hsome & Hrest). cbn [insert_after].
  destruct (decide (a = x)) as [->|Hne].
  - destruct Hpr as [Hp1 Hp2]; [by left|].
    split; [congruence|]. split; [rewrite Hlx, Hhx; exact Hp1|]. split; [by rewrite Hhx|].
    rewrite Hhx. split; [done|]. split; [rewrite Hly, Hhy; exact Hp2|].
    split; [rewrite Hhy; exact Hsome|].
    rewrite Hhy. apply (chain_seg_ext lo hi); [|done].
    intros b Hb. apply Hother; intros ->; done.
  - destruct (Hother a Hne (not_eq_sym Hya)) as [Hla Hha].
    split; [congruence|]. split; [rewrite Hla, Hha; exact Hpra|]. split.
    + intros Hne'. rewrite Hha. apply Hsome. intros ->. by apply Hne'.
    + rewrite Hha. apply IH; [done|done| |done]. intros Hx. apply Hpr. by right.
Qed.

Lemma entries_ext h h' chain :
  (∀ a, leaf_view h' a = leaf_view h a) → entries h' chain = entries h chain.
Proof.
  intros Heq. unfold entries. induction chain as [|a rest IH]; [done|].
  cbn. unfold entries_at at 1 3. by rewrite Heq, IH.
Qed.

Lemma entries_agree h h' chain :
  (∀ a, a ∈ chain → leaf_view h' a = leaf_view h a) → entries h' chain = entries h chain.
Proof.
  intros Heq. unfold entries. induction chain as [|a rest IH]; [done|].
  cbn. unfold entries_at at 1 3. rewrite Heq by left. f_equal. apply IH.
  intros b Hb. apply Heq. by right.
Qed.

Lemma entries_app h l1 l2 : entries h (l1 ++ l2) = entries h l1 ++ entries h l2.
Proof. unfold entries. apply bind_app. Qed.

Lemma entries_cons h a rest : entries h (a :: rest) = entries_at h a ++ entries h rest.
Proof. done. Qed.

Lemma entries_split h h' chain leaf y :
  NoDup chain → y ∉ chain →
  (∀ a, a ≠ leaf → a ≠ y → leaf_view h' a = leaf_view h a) →
  entries_at h' leaf ++ entries_at h' y = entries_at h leaf →
  entries h' (insert_after leaf y chain) = entries h chain.
Proof.
  intros Hnd Hy Hother Hleaf. induction chain as [|a rest IH]; [done|].
  apply NoDup_cons in Hnd as [Ha Hnd]. apply not_elem_of_cons in Hy as [Hya Hy].
  cbn [insert_after]. destruct (decide (a = leaf)) as [->|Hne].
  - rewrite !entries_cons, app_assoc, Hleaf. f_equal. apply entries_agree.
    intros b Hb. apply Hother; intros ->; done.
  - rewrite !entries_cons, IH by done. f_equal. unfold entries_at.
    by rewrite Hother by done.
Qed.

(** The keys of a leaf lie within its bounds. *)
Lemma entries_at_bounds lo hi hiP par h a e :
  ordered lo hi hiP par h → e ∈ entries_at h a → above (lo a) e.1 ∧ below e.1 (hi a).
Proof.
  intros Hord. unfold entries_at. destruct (leaf_view h a) as [[[ks vs] nx]|] eqn:Hview;
    [|by intros ?%elem_of_nil].
  destruct (leaf_view_Some _ _ _ _ _ Hview) as (n & Hn & Hleaf & <- & <- & _).
  intros (j & Hj)%zip_key_lookup. destruct (Hord a n Hn) as (_ & Hin & _).
  rewrite Hleaf in Hin. apply Hin. by eapply list_elem_of_lookup_2.
Qed.

(** The entries before a bound are below it, those after it are at or
    above it. *)
Lemma entries_below lo hi hiP par h from chain to u0 e :
  ordered lo hi hiP par h → chain_seg lo hi from chain to → to = Some u0 →
  e ∈ entries h chain → (e.1 < u0)%Z.
Proof.
  intros Hord Hseg Hto (a & He & Ha)%list_elem_of_bind.
  destruct (chain_seg_his _ _ _ _ _ _ Hseg Hto a Ha) as (u & Hu & Hle).
  destruct (entries_at_bounds _ _ _ _ _ _ _ Hord He) as [_ Hb]. rewrite Hu in Hb. cbn in Hb. lia.
Qed.

Lemma entries_above lo hi hiP par h from chain to f0 e :
  ordered lo hi hiP par h → chain_seg lo hi from chain to → from = Some f0 →
  e ∈ entries h chain → (f0 ≤ e.1)%Z.
Proof.
  intros Hord Hseg Hfrom (a & He & Ha)%list_elem_of_bind.
  destruct (chain_seg_los _ _ _ _ _ _ Hseg Hfrom a Ha) as (l & Hl & Hle).
  destruct (entries_at_bounds _ _ _ _ _ _ _ Hord He) as [Hb _]. rewrite Hl in Hb. cbn in Hb. lia.
Qed.

End ChainOrder.

(** ** Counters *)

Section CounterFacts.
Context {V : Type}.
Context (gas : nat).
Implicit Types (h : list (option (Node Z V))) (n : Node Z V) (t : BPlusTree Z V).

Lemma sum_child_sizes_agree h h' cs : ∀ count,
  (∀ c, c ∈ cs → size_at h' c = size_at h c) →
  sum_child_sizes h' cs count = sum_child_sizes h cs count.
Proof.
  induction cs as [|c cs IH]; intros count Heq; [done|]. cbn [sum_child_sizes].
  pose proof (Heq c ltac:(by left)) as Hc. unfold size_at in Hc. unfold load.
  destruct (h' !! c) as [[n'|]|], (h !! c) as [[n|]|]; try done.
  injection Hc as Hc. cbn [mbind outcome_bind obind]. rewrite Hc. apply IH.
  intros c' Hc'. apply Heq. by right.
Qed.

Lemma size_ok_agree h h' n :
  (isLeaf n = false → ∀ c, c ∈ children n → size_at h' c = size_at h c) →
  size_ok h n → size_ok h' n.
Proof.
  unfold size_ok. destruct (isLeaf n); [done|]. intros Heq <-.
  by apply sum_child_sizes_agree, Heq.
Qed.

Lemma size_at_insert_ne h a b m : a ≠ b → size_at (<[a := m]> h) b = size_at h b.
Proof. intros Hne. unfold size_at. by rewrite list_lookup_insert_ne. Qed.

Lemma size_at_insert_same h a n n' :
  h !! a = Some (Some n) → subtree_size n' = subtree_size n →
  ∀ b, size_at (<[a := Some n']> h) b = size_at h b.
Proof.
  intros Hn Hsz b. unfold size_at. destruct (decide (a = b)) as [<-|Hne].
  - rewrite list_lookup_insert_eq by by eapply lookup_lt_Some. by rewrite Hn, Hsz.
  - by rewrite list_lookup_insert_ne.
Qed.

Lemma size_at_alloc_old h n b : (b < length h)%nat → size_at (h ++ [Some n]) b = size_at h b.
Proof. intros Hb. unfold size_at. by rewrite lookup_app_l. Qed.

(** What [updateSubtreeSize] stores. *)
Lemma updateSubtreeSize_inv a t t' :
  updateSubtreeSize (Some a) t = Done (tt, t') →
  ∃ n z, heap t !! a = Some (Some n)
    ∧ t' = mkTree (<[a := Some (with_size z n)]> (heap t)) (root t) (order t)
    ∧ if isLeaf n then z = sum_value_sizes (values n)
      else sum_child_sizes (heap t) (children n) 0 = Done z.
Proof.
  unfold updateSubtreeSize, get_node, sread, mbind, St_bind, sbind, obind.
  destruct (load (heap t) a) as [n| | |] eqn:Hn; [|done..]. apply load_inv in Hn.
  destruct (isLeaf n) eqn:Hleaf.
  - unfold put_node. intros [= <-]. exists n, (sum_value_sizes (values n)).
    by rewrite Hleaf.
  - destruct (sum_child_sizes (heap t) (children n) 0) as [z| | |] eqn:Hz; [|done..].
    unfold put_node. intros [= <-]. exists n, z. by rewrite Hleaf.
Qed.

Lemma sized_but_mono (bad bad' : addr → Prop) h :
  (∀ a, bad a → bad' a) → sized_but bad h → sized_but bad' h.
Proof. intros Hsub Hs a n Hn Hnot. apply (Hs a n Hn). intros Hbad. by apply Hnot, Hsub. Qed.

(** After [updateSubtreeSize(a)] the counter of [a] is right, and so is
    every counter that was right, but that of the parent of [a]. *)
Lemma updateSubtreeSize_sized par (bad : addr → Prop) a t t' :
  (∀ p m, heap t !! p = Some (Some m) → isLeaf m = false → a ∈ children m → par a = Some p) →
  (∀ n, heap t !! a = Some (Some n) → isLeaf n = false → a ∉ children n) →
  sized_but bad (heap t) →
  updateSubtreeSize (Some a) t = Done (tt, t') →
  sized_but (λ b, (bad b ∧ b ≠ a) ∨ par a = Some b) (heap t').
Proof.
  intros Hpar Hown Hsized Hupd b m Hb Hne.
  apply updateSubtreeSize_inv in Hupd as (n & z & Hn & Heq & Hz). subst t'.
  cbn [heap] in *. pose proof (lookup_lt_Some _ _ _ Hn) as Hlt.
  destruct (decide (a = b)) as [<-|Hab].
  - rewrite list_lookup_insert_eq in Hb by done. injection Hb as <-.
    unfold size_ok. cbn [isLeaf subtree_size values children with_size].
    destruct (isLeaf n) eqn:Hleaf; [done|]. rewrite <- Hz.
    apply sum_child_sizes_agree. intros c Hc. apply size_at_insert_ne. intros ->.
    by apply (Hown n).
  - rewrite list_lookup_insert_ne in Hb by done.
    apply (size_ok_agree (heap t)).
    + intros Hleaf c Hc. apply size_at_insert_ne. intros ->.
      apply Hne. right. by eapply Hpar.
    + apply (Hsized b m Hb). intros Hbad. apply Hne. left. split; [done|congruence].
Qed.

(** With parent links everywhere, every live node is below the root. *)
Lemma reach_root lvl H0 par h r :
  shaped lvl H0 h → linked_up par h (Some r) None → is_Some (skel h r) →
  ∀ k a, is_Some (skel h a) → (H0 - lvl a ≤ k)%nat → reach h r a.
Proof.
  intros Hsh Hup Hr. induction k as [|k IH]; intros a Ha Hk.
  - destruct (decide (a = r)) as [->|Hne]; [constructor|].
    destruct (skel_live _ _ Ha) as [n Hn].
    destruct (Hup a n Hn ltac:(congruence) ltac:(done)) as (p & m & _ & Hp & Hleaf & Hin).
    pose proof (skel_lookup _ _ _ Hp) as Hskel. rewrite Hleaf in Hskel.
    destruct (Hsh _ _ _ _ _ Hskel) as [Hb [_ Hcs]]. destruct (Hcs a Hin) as [_ Hl]. lia.
  - destruct (decide (a = r)) as [->|Hne]; [constructor|].
    destruct (skel_live _ _ Ha) as [n Hn].
    destruct (Hup a n Hn ltac:(congruence) ltac:(done)) as (p & m & _ & Hp & Hleaf & Hin).
    pose proof (skel_lookup _ _ _ Hp) as Hskel. rewrite Hleaf in Hskel.
    destruct (Hsh _ _ _ _ _ Hskel) as [Hb [_ Hcs]]. destruct (Hcs a Hin) as [_ Hl].
    eapply reach_trans; [apply (IH p); [by eexists|lia]|].
    eapply reach_step; [exact Hskel|exact Hin|constructor].
Qed.

End CounterFacts.

(** ** Reading a run backwards *)

Lemma bind_Done {S A B} (m : St S A) (k : A → St S B) s r :
  (m ≫= k) s = Done r → ∃ a s', m s = Done (a, s') ∧ k a s' = Done r.
Proof.
  unfold mbind, St_bind, sbind. destruct (m s) as [[a s']| | |]; [eauto|done..].
Qed.

Lemma obind_Done {A B} (x : outcome A) (k : A → outcome B) r :
  (x ≫= k) = Done r → ∃ a, x = Done a ∧ k a = Done r.
Proof. unfold mbind, outcome_bind, obind. destruct x; [eauto|done..]. Qed.

Lemma sread_Done {S A} (f : S → outcome A) s a s' :
  sread f s = Done (a, s') → f s = Done a ∧ s' = s.
Proof. unfold sread, obind. destruct (f s); [|done..]. by intros [= -> ->]. Qed.

Lemma sfail_Done {S A} (o : outcome A) (s : S) a s' :
  sfail o s = Done (a, s') → o = Done a ∧ s' = s.
Proof. apply sread_Done. Qed.

Lemma at_inv {A} (l : list A) i x : at_ l i = Done x → l !! i = Some x.
Proof. unfold at_. destruct (l !! i); [|done]. by intros [= ->]. Qed.

Ltac step H a s H1 := apply bind_Done in H as (a & s & H1 & H).

Section Backwards.
Context {V : Type}.
Implicit Types (h : list (option (Node Z V))) (n : Node Z V) (t : BPlusTree Z V).

Lemma get_node_inv a t n t' :
  get_node a t = Done (n, t') → heap t !! a = Some (Some n) ∧ t' = t.
Proof. unfold get_node. intros [Hl ->]%sread_Done. split; [by apply load_inv|done]. Qed.

Lemma get_ptr_inv p t c n t' :
  get_ptr p t = Done ((c, n), t') → p = Some c ∧ heap t !! c = Some (Some n) ∧ t' = t.
Proof.
  unfold get_ptr. intros [Hl ->]%sread_Done. apply obind_Done in Hl as (m & Hm & Heq).
  destruct p as [a|]; [|done]. cbn in *. injection Heq as <- <-.
  split; [done|]. split; [by apply load_inv|done].
Qed.

Lemma put_node_inv a n t u t' :
  put_node a n t = Done (u, t') → t' = mkTree (<[a := Some n]> (heap t)) (root t) (order t).
Proof. by intros [= <-]. Qed.

Lemma new_Node_inv leaf t a t' :
  new_Node leaf t = Done (a, t') →
  a = length (heap t)
  ∧ t' = mkTree (heap t ++ [Some (mkNode leaf [] [] [] None 0)]) (root t) (order t).
Proof. by intros [= <- <-]. Qed.

Lemma set_root_inv p t u t' :
  set_root p t = Done (u, t') → t' = mkTree (heap t) p (order t).
Proof. by intros [= <-]. Qed.

Lemma get_root_inv t r t' : get_root t = Done (r, t') → r = root t ∧ t' = t.
Proof. by intros [= <- <-]. Qed.

Lemma get_order_inv t o t' : get_order t = Done (o, t') → o = order t ∧ t' = t.
Proof. by intros [= <- <-]. Qed.

(** What [findParent] finds has the child among its children. *)
Lemma findParent_Some fuel h : ∀ cur x p,
  findParent fuel h cur (Some x) = Done (Some p) →
  ∃ n, h !! p = Some (Some n) ∧ isLeaf n = false ∧ x ∈ children n.
Proof.
  induction fuel as [|fuel IH]; intros cur x p; [done|]. cbn [findParent].
  destruct cur as [c|]; [|done]. intros (n & Hn%load_inv & Hrest)%obind_Done.
  destruct (isLeaf n) eqn:Hleaf; [done|].
  assert (Hsub : ∀ ci, ci ∈ children n → ci ∈ children n) by done.
  revert Hsub Hrest. generalize (children n) at 1 3. intros cs.
  induction cs as [|ci cs IHcs]; intros Hsub; [done|]. cbn [findParent_children].
  unfold ptr_eqb. case_bool_decide as Heq.
  - intros [= <-]. injection Heq as ->. exists n. split; [done|]. split; [done|].
    apply Hsub. by left.
  - intros (q & Hq & Hrest)%obind_Done. destruct q as [q|].
    + injection Hrest as ->. by eapply IH.
    + apply IHcs; [|done]. intros cj Hcj. apply Hsub. by right.
Qed.

(** ** Ghost bounds *)

Lemma ordered_ghost lo hi hiP par lo' hi' hiP' par' h :
  ordered lo hi hiP par h →
  (∀ a n, h !! a = Some (Some n) →
     lo' a = lo a ∧ hi' a = hi a
     ∧ (isLeaf n = false → ∀ c, c ∈ children n →
          lo' c = lo c ∧ hiP' c = hiP c ∧ par' c = par c)) →
  ordered lo' hi' hiP' par' h.
Proof.
  intros Hord Hg a n Hn. destruct (Hg a n Hn) as (Hlo & Hhi & Hcs).
  by eapply node_ok_ghost; [apply Hord| | |].
Qed.

Lemma set_at_eq {A} (f : addr → A) a v : set_at f a v a = v.
Proof. unfold set_at. by rewrite decide_True. Qed.

Lemma set_at_ne {A} (f : addr → A) a v z : z ≠ a → set_at f a v z = f z.
Proof. intros. unfold set_at. by rewrite decide_False. Qed.

Lemma pend_ne hi x y z : z ≠ x → pend hi x y z = hi z.
Proof. intros. unfold pend. by rewrite decide_False. Qed.

Lemma pend_eq hi x y : pend hi x y x = hi y.
Proof. unfold pend. by rewrite decide_True. Qed.

(** A child of a live internal node. *)
Lemma ordered_child lo hi hiP par h a n c :
  ordered lo hi hiP par h → h !! a = Some (Some n) → isLeaf n = false → c ∈ children n →
  (c < length h)%nat ∧ par c = Some a.
Proof.
  intros Hord Hn Hleaf (i & Hi)%list_elem_of_lookup_1.
  destruct (Hord a n Hn) as (_ & _ & Hsh). rewrite Hleaf in Hsh. destruct Hsh as [_ Hcs].
  destruct (Hcs i c Hi) as (? & _ & _ & ?). done.
Qed.

Lemma same_nodes_chained h h' chain : same_nodes h h' → chained h chain → chained h' chain.
Proof. intros Hsame. apply chained_ext. intros a. by apply same_nodes_leaf_view. Qed.

Lemma same_nodes_lookup h h' a n' :
  same_nodes h h' → h' !! a = Some (Some n') →
  ∃ n, h !! a = Some (Some n) ∧ isLeaf n' = isLeaf n ∧ children n' = children n.
Proof.
  intros Hsame Hn'. specialize (Hsame a). rewrite Hn' in Hsame.
  destruct (h !! a) as [[n|]|]; try done. cbn in Hsame.
  assert (Heq : erase_size n' = erase_size n) by congruence.
  exists n. split; [done|]. destruct n, n'. by injection Heq as -> -> -> -> ->.
Qed.

Lemma sorted_inv_same_nodes lo hi par chain t t' :
  same_nodes (heap t) (heap t') → root t' = root t →
  sorted_inv lo hi par chain t → sorted_inv lo hi par chain t'.
Proof.
  intros Hsame Hroot [Hord (r & Hr & Hrlive & Hrest) Hch Hseg]. split.
  - by eapply ordered_same_nodes.
  - exists r. split; [congruence|]. split; [|done]. by rewrite (same_nodes_skel _ _ _ Hsame).
  - by eapply same_nodes_chained.
  - done.
Qed.

Lemma pending_same_nodes lo hi par chain x y key t t' :
  same_nodes (heap t) (heap t') → root t' = root t →
  pending lo hi par chain x y key t → pending lo hi par chain x y key t'.
Proof.
  intros Hsame Hroot [Hord (r & Hr & Hrlive & Hrest) Hch Hseg Hx Hy Hne Hhix Hloy Hlox Hhiy
    Hpar Hfresh].
  split; try done.
  - by eapply ordered_same_nodes.
  - exists r. split; [congruence|]. split; [|done]. by rewrite (same_nodes_skel _ _ _ Hsame).
  - by eapply same_nodes_chained.
  - by rewrite (same_nodes_length _ _ Hsame).
  - by rewrite (same_nodes_length _ _ Hsame).
  - intros a n' Hn' Hleaf.
    destruct (same_nodes_lookup _ _ _ _ Hsame Hn') as (n & Hn & Hl & ->).
    apply (Hfresh a n Hn). congruence.
Qed.

End Backwards.

(** ** [updateSubtreeSizesUpwards] sets the counters right *)

Section UpwardsSized.
Context {V : Type}.
Context (gas : nat).
Implicit Types (h : list (option (Node Z V))) (n : Node Z V) (t : BPlusTree Z V).

Lemma same_nodes_sym h h' : same_nodes h h' → same_nodes h' h.
Proof. intros Hs a. by rewrite Hs. Qed.

Lemma same_nodes_shaped lvl H0 h h' : same_nodes h h' → shaped lvl H0 h → shaped lvl H0 h'.
Proof. intros Hs. apply shaped_ext. intros a. by apply same_nodes_skel. Qed.

Lemma linked_up_same_nodes par h h' rt skip :
  same_nodes h h' → linked_up par h rt skip → linked_up par h' rt skip.
Proof.
  intros Hs Hup a n' Hn' Hrt Hskip.
  destruct (same_nodes_lookup _ _ _ _ Hs Hn') as (n & Hn & _ & _).
  destruct (Hup a n Hn Hrt Hskip) as (p & m & Hp & Hm & Hleaf & Hin).
  destruct (same_nodes_lookup _ _ _ _ (same_nodes_sym _ _ Hs) Hm) as (m' & Hm' & Hl' & Hc').
  exists p, m'. split; [done|]. split; [done|]. split; [congruence|]. by rewrite <- Hc'.
Qed.

Lemma shaped_not_own_child lvl H0 h a n :
  shaped lvl H0 h → h !! a = Some (Some n) → isLeaf n = false → a ∉ children n.
Proof.
  intros Hsh Hn Hleaf Hin. pose proof (skel_lookup _ _ _ Hn) as Hskel. rewrite Hleaf in Hskel.
  destruct (Hsh _ _ _ _ _ Hskel) as [_ [_ Hcs]]. destruct (Hcs a Hin) as [_ Hl]. lia.
Qed.

Lemma upwards_sized lvl H0 lo hi par r fuel : ∀ c t t',
  shaped lvl H0 (heap t) → (H0 < gas)%nat →
  ordered lo hi hi par (heap t) →
  root t = Some r → is_Some (skel (heap t) r) → par r = None →
  linked_up par (heap t) (Some r) None →
  sized_but (λ b, b = c) (heap t) →
  updateSubtreeSizesUpwards_loop gas fuel (Some c) t = Done (tt, t') →
  sized_but (λ _, False) (heap t').
Proof.
  induction fuel as [|fuel IH]; intros c t t' Hsh Hgas Hord Hroot Hrlive Hparr Hup Hsized Hrun;
    [done|].
  cbn [updateSubtreeSizesUpwards_loop] in Hrun.
  step Hrun u1 t1 H1. destruct u1.
  pose proof (updateSubtreeSize_same_nodes _ _ _ H1) as (Hs1 & Hr1 & Ho1).
  pose proof (updateSubtreeSize_inv _ _ _ H1) as (n & z & Hn & _ & _).
  assert (Hsized1 : sized_but (λ b, par c = Some b) (heap t1)).
  { eapply sized_but_mono; [|eapply (updateSubtreeSize_sized par); [| |exact Hsized|exact H1]].
    - intros b [[-> ?]|?]; done.
    - intros p m Hp Hleaf Hin. by destruct (ordered_child _ _ _ _ _ _ _ _ Hord Hp Hleaf Hin).
    - intros m Hm Hleaf. by eapply shaped_not_own_child. }
  pose proof (same_nodes_shaped _ _ _ _ Hs1 Hsh) as Hsh1.
  pose proof (ordered_same_nodes _ _ _ _ _ _ Hs1 Hord) as Hord1.
  pose proof (linked_up_same_nodes _ _ _ _ _ Hs1 Hup) as Hup1.
  assert (Hrlive1 : is_Some (skel (heap t1) r)) by by rewrite (same_nodes_skel _ _ _ Hs1).
  step Hrun parent t2 H2. apply sread_Done in H2 as [Hfp ->]. rewrite Hr1, Hroot in Hfp.
  destruct parent as [p|].
  - destruct (findParent_Some _ _ _ _ _ Hfp) as (m & Hm & Hleaf & Hin).
    destruct (ordered_child _ _ _ _ _ _ _ _ Hord1 Hm Hleaf Hin) as [_ Hpc].
    apply (IH p t1 t'); try done; [congruence|].
    eapply sized_but_mono; [|exact Hsized1]. intros b Hb. congruence.
  - assert (Hdone : sized_but (λ _, False) (heap t1)).
    { destruct (decide (c = r)) as [->|Hne].
      - eapply sized_but_mono; [|exact Hsized1]. intros b Hb. congruence.
      - exfalso.
        destruct (same_nodes_lookup _ _ _ _ (same_nodes_sym _ _ Hs1) Hn) as (n1 & Hn1 & _ & _).
        destruct (Hup1 c n1 Hn1 ltac:(congruence) ltac:(done)) as (p & m & _ & Hm & Hleaf & Hin).
        assert (Hrb : (lvl r ≤ H0)%nat).
        { destruct Hrlive1 as [[[[??]?]?] Hr]. by destruct (Hsh1 _ _ _ _ _ Hr). }
        destruct (findParent_spec lvl H0 (heap t1) gas r c Hsh1 Hrlive1 ltac:(lia))
          as (res & Hres & Hfound).
        rewrite Hfp in Hres. injection Hres as <-. cbn in Hfound.
        pose proof (skel_lookup _ _ _ Hm) as Hskel. rewrite Hleaf in Hskel.
        apply (Hfound p _ _ _ (reach_root lvl H0 par (heap t1) r Hsh1 Hup1 Hrlive1 H0 p
                                 ltac:(by eexists) ltac:(lia)) Hskel Hin). }
    destruct fuel as [|fuel]; [done|]. cbn in Hrun. by injection Hrun as <-.
Qed.

End UpwardsSized.

Section Uniform.
Context {V : Type}.
Implicit Types (h : list (option (Node Z V))) (n : Node Z V) (t : BPlusTree Z V).

Lemma leafness_insert h a b n :
  (a < length h)%nat →
  leafness (<[a := Some n]> h) b = if decide (a = b) then Some (isLeaf n) else leafness h b.
Proof.
  intros Ha. unfold leafness. destruct (decide (a = b)) as [<-|Hne].
  - by rewrite list_lookup_insert_eq.
  - by rewrite list_lookup_insert_ne.
Qed.

Lemma leafness_alloc h b n : (b < length h)%nat → leafness (h ++ [Some n]) b = leafness h b.
Proof. intros Hb. unfold leafness. by rewrite lookup_app_l. Qed.

Lemma leafness_skel h a : leafness h a = (λ s, s.1.1.1) <$> skel h a.
Proof. unfold leafness, skel. by destruct (h !! a) as [[n|]|]. Qed.

Lemma leafness_same_nodes h h' a : same_nodes h h' → leafness h' a = leafness h a.
Proof. intros Hs. by rewrite !leafness_skel, (same_nodes_skel _ _ _ Hs). Qed.

Lemma uniform_same_nodes h h' : same_nodes h h' → uniform h → uniform h'.
Proof.
  intros Hs Hu p pn' c1 c2 Hp Hl H1 H2.
  destruct (same_nodes_lookup _ _ _ _ Hs Hp) as (pn & Hpn & Hleaf & Hcs).
  rewrite !(leafness_same_nodes _ _ _ Hs). rewrite Hcs in H1, H2.
  apply (Hu p pn); [done|congruence|done|done].
Qed.

(** A leaf is refilled. *)
Lemma uniform_refill h a n n' :
  h !! a = Some (Some n) → isLeaf n = true → isLeaf n' = true →
  uniform h → uniform (<[a := Some n']> h).
Proof.
  intros Hn Hl Hl' Hu p pn c1 c2 Hp Hpl H1 H2.
  pose proof (lookup_lt_Some _ _ _ Hn) as Hlt.
  assert (Hsame : ∀ c, leafness (<[a := Some n']> h) c = leafness h c).
  { intros c. rewrite leafness_insert by done. destruct (decide (a = c)) as [<-|]; [|done].
    unfold leafness. rewrite Hn. congruence. }
  rewrite !Hsame. destruct (decide (p = a)) as [->|Hne].
  - rewrite list_lookup_insert_eq in Hp by done. congruence.
  - rewrite list_lookup_insert_ne in Hp by done. by eapply Hu.
Qed.

(** An internal node keeps some of its children and may take in [y],
    which is of the kind of its child [x]. *)
Lemma uniform_adopt h a n n' x y :
  h !! a = Some (Some n) → isLeaf n = false → isLeaf n' = false →
  x ∈ children n → leafness h y = leafness h x →
  (∀ c, c ∈ children n' → c = y ∨ c ∈ children n) →
  uniform h → uniform (<[a := Some n']> h).
Proof.
  intros Hn Hl Hl' Hx Hy Hcs Hu p pn c1 c2 Hp Hpl H1 H2.
  pose proof (lookup_lt_Some _ _ _ Hn) as Hlt.
  assert (Hsame : ∀ c, leafness (<[a := Some n']> h) c = leafness h c).
  { intros c. rewrite leafness_insert by done. destruct (decide (a = c)) as [<-|]; [|done].
    unfold leafness. rewrite Hn. congruence. }
  rewrite !Hsame. destruct (decide (p = a)) as [->|Hne].
  - rewrite list_lookup_insert_eq in Hp by done. injection Hp as <-.
    assert (Hk : ∀ c, c ∈ children n' → leafness h c = leafness h x).
    { intros c [->|Hc]%Hcs; [done|]. by apply (Hu a n). }
    by rewrite (Hk c1), (Hk c2).
  - rewrite list_lookup_insert_ne in Hp by done. by eapply Hu.
Qed.

(** An internal node keeps some of its children. *)
Lemma uniform_keep h a n n' :
  h !! a = Some (Some n) → isLeaf n = false → isLeaf n' = false →
  (∀ c, c ∈ children n' → c ∈ children n) →
  uniform h → uniform (<[a := Some n']> h).
Proof.
  intros Hn Hl Hl' Hcs Hu.
  destruct (children n') as [|x cs] eqn:Hcn.
  - intros p pn c1 c2 Hp Hpl H1 H2.
    pose proof (lookup_lt_Some _ _ _ Hn) as Hlt.
    assert (Hsame : ∀ c, leafness (<[a := Some n']> h) c = leafness h c).
    { intros c. rewrite leafness_insert by done. destruct (decide (a = c)) as [<-|]; [|done].
      unfold leafness. rewrite Hn. congruence. }
    rewrite !Hsame. destruct (decide (p = a)) as [->|Hne].
    + rewrite list_lookup_insert_eq in Hp by done. injection Hp as <-.
      rewrite Hcn in H1. by apply elem_of_nil in H1.
    + rewrite list_lookup_insert_ne in Hp by done. by eapply Hu.
  - apply (uniform_adopt h a n n' x x); try done.
    + apply Hcs. by left.
    + intros c Hc. right. apply Hcs. by rewrite Hcn in Hc.
Qed.

(** A fresh node whose children are old and of one kind. *)
Lemma uniform_alloc h n :
  uniform h →
  (∀ p pn c, h !! p = Some (Some pn) → isLeaf pn = false → c ∈ children pn →
     (c < length h)%nat) →
  (isLeaf n = false → ∀ c1 c2, c1 ∈ children n → c2 ∈ children n →
     (c1 < length h)%nat ∧ leafness h c1 = leafness h c2) →
  uniform (h ++ [Some n]).
Proof.
  intros Hu Hb Hn p pn c1 c2 Hp Hpl H1 H2.
  apply lookup_app_Some in Hp as [Hp|[Hge Hp]].
  - rewrite !leafness_alloc by by eapply Hb. by eapply Hu.
  - apply list_lookup_singleton_Some in Hp as [_ [= <-]].
    destruct (Hn Hpl c1 c2 H1 H2) as [Hlt1 Heq]. destruct (Hn Hpl c2 c1 H2 H1) as [Hlt2 _].
    by rewrite !leafness_alloc.
Qed.

(** A cell that is no one's child is freed. *)
Lemma uniform_release h y :
  uniform h →
  (∀ p pn, h !! p = Some (Some pn) → p ≠ y → isLeaf pn = false → y ∉ children pn) →
  uniform (<[y := None]> h).
Proof.
  intros Hu Hfree p pn c1 c2 Hp Hpl H1 H2.
  assert (Hpy : p ≠ y).
  { intros ->. destruct (decide (y < length h)%nat).
    - by rewrite list_lookup_insert_eq in Hp.
    - rewrite list_insert_ge in Hp by lia. apply lookup_lt_Some in Hp. lia. }
  rewrite list_lookup_insert_ne in Hp by done.
  assert (Hsame : ∀ c, c ∈ children pn → leafness (<[y := None]> h) c = leafness h c).
  { intros c Hc. unfold leafness. rewrite list_lookup_insert_ne; [done|].
    intros <-. by eapply Hfree. }
  rewrite !Hsame by done. by eapply Hu.
Qed.

End Uniform.

(** ** A new root *)

Section NewRootOrder.
Context {V : Type}.
Context (gas : nat).
Implicit Types (h : list (option (Node Z V))) (n : Node Z V) (t : BPlusTree Z V).

Lemma new_root_ord lo hi par chain t x y key t' :
  pending lo hi par chain x y key t → root t = Some x →
  (newRoot ← new_Node false;
   put_node newRoot (mkNode false [key] [x; y] [] None 0);;
   updateSubtreeSize (Some newRoot);;
   set_root (Some newRoot);;
   updateSubtreeSizesUpwards gas (Some newRoot)) t = Done (tt, t') →
  ∃ lo' hi' par',
    sorted_inv lo' hi' par' chain t'
    ∧ (∀ a, leaf_view (heap t') a = leaf_view (heap t) a)
    ∧ order t' = order t
    ∧ (leveled gas t' → counted_but par (λ b, par x = Some b) (Some y) t →
       counted_but par' (λ _, False) None t')
    ∧ (uniform (heap t) → leafness (heap t) x = leafness (heap t) y → uniform (heap t')).
Proof.
  intros [Hord (r & Hr & Hrlive & Hlor & Hhir & Hparr) Hch Hseg Hx Hy Hne Hhix Hloy Hlox Hhiy
    Hpar Hfresh] Hroot Hrun.
  rewrite Hroot in Hr. injection Hr as <-. rewrite pend_eq in Hhir.
  rewrite Hparr in Hpar.
  set (nr := length (heap t)) in *.
  set (N := mkNode (V:=V) false [key] [x; y] [] None 0).
  step Hrun a1 t1 H1. apply new_Node_inv in H1 as [-> ->].
  step Hrun u2 t2 H2. apply put_node_inv in H2. cbn [heap root order] in H2.
  rewrite insert_fresh in H2. fold nr N in H2.
  step Hrun u3 t3 H3. destruct u3.
  pose proof (updateSubtreeSize_same_nodes _ _ _ H3) as (Hs3 & Hr3 & Ho3).
  step Hrun u4 t4 H4. apply set_root_inv in H4.
  pose proof (updateSubtreeSizesUpwards_same_nodes _ _ _ _ Hrun) as (Hs5 & Hr5 & Ho5).
  subst t2 t4. cbn [heap root order] in *.
  assert (Hsame : same_nodes (heap t ++ [Some N]) (heap t')) by by eapply same_nodes_trans.
  set (lo' := set_at lo nr None). set (hi' := set_at hi nr None).
  set (par' := set_at (set_at (set_at par nr None) x (Some nr)) y (Some nr)).
  assert (Hlv : ∀ a, leaf_view (heap t') a = leaf_view (heap t) a).
  { intros a. rewrite (same_nodes_leaf_view _ _ _ Hsame), leaf_view_alloc.
    destruct (decide (a = length (heap t))) as [->|]; [|done]. cbn. by rewrite leaf_view_fresh. }
  assert (Hord2 : ordered lo' hi' hi' par' (heap t ++ [Some N])).
  { apply ordered_alloc.
    + apply (ordered_ghost lo hi (pend hi x y) par); [done|]. intros a n Hn.
      assert (a < nr)%nat by by eapply lookup_lt_Some.
      unfold lo', hi'. rewrite !set_at_ne by lia. split; [done|]. split; [done|].
      intros Hleaf c Hc. destruct (ordered_child _ _ _ _ _ _ _ _ Hord Hn Hleaf Hc) as [Hlt Hpc].
      assert (c ≠ x) by (intros ->; congruence).
      assert (c ≠ y) by (intros ->; congruence).
      unfold par'. rewrite !set_at_ne by (done || lia). by rewrite pend_ne.
    + fold nr. split; [|split].
      * intros i j a b Hi Hj Hij. apply lookup_lt_Some in Hj. cbn in Hj. lia.
      * intros k _. unfold lo', hi'. by rewrite !set_at_eq.
      * cbn [isLeaf N children keys]. split; [done|]. intros i c Hc.
        unfold lo', hi'. rewrite !set_at_eq.
        destruct i as [|[|i]]; [| |done]; injection Hc as <-.
        -- split; [lia|]. rewrite !set_at_ne by lia. cbn. rewrite Hlor, Hhix.
           split; [done|]. split; [done|]. unfold par'. by rewrite set_at_ne, set_at_eq.
        -- split; [lia|]. rewrite !set_at_ne by lia. cbn. rewrite Hloy, Hhir.
           split; [done|]. split; [done|]. unfold par'. by rewrite set_at_eq. }
  assert (Hparnr : par' nr = None).
  { unfold par'. rewrite !(set_at_ne _ _ _ nr) by lia. by rewrite set_at_eq. }
  assert (Hlive' : is_Some (skel (heap t') nr)).
  { rewrite (same_nodes_skel _ _ _ Hsame), skel_alloc, decide_True by done. by eexists. }
  exists lo', hi', par'. split; [|split; [done|split; [congruence|split]]]. 1: split.
  - by apply (ordered_same_nodes _ _ _ _ _ _ Hsame).
  - exists nr. split; [exact Hr5|]. split; [done|].
    unfold lo', hi'. by rewrite !set_at_eq.
  - by apply (chained_ext (heap t)).
  - apply (chain_seg_ext lo hi); [|done]. intros a Ha.
    assert (a < nr)%nat.
    { apply leaf_view_lt. destruct Hch as (_ & _ & Hl). by eapply linked_live. }
    unfold lo', hi'. by rewrite !set_at_ne by lia.
  - intros (lvl & H0 & Hsh' & HH0) [Hup Hsz]. rewrite Hroot in Hup.
    assert (Hup2 : linked_up par' (heap t ++ [Some N]) (Some nr) None).
    { intros a n Ha Hrt _. apply lookup_app_Some in Ha as [Ha|[Hge Ha]].
      2:{ apply list_lookup_singleton_Some in Ha as [Ha _].
          exfalso. apply Hrt. f_equal. fold nr in Hge. lia. }
      assert (Halt : (a < nr)%nat) by by eapply lookup_lt_Some.
      assert (HN : (heap t ++ [Some N]) !! nr = Some (Some N)).
      { by rewrite lookup_app_r, Nat.sub_diag by (unfold nr; lia). }
      destruct (decide (a = x)) as [->|Hax].
      { exists nr, N. unfold par'. rewrite set_at_ne, set_at_eq by done.
        split; [done|]. split; [done|]. split; [done|]. by left. }
      destruct (decide (a = y)) as [->|Hay].
      { exists nr, N. unfold par'. rewrite set_at_eq.
        split; [done|]. split; [done|]. split; [done|]. right. by left. }
      destruct (Hup a n Ha ltac:(congruence) ltac:(congruence)) as (p & m & Hp & Hm & Hl & Hin).
      exists p, m. unfold par'. rewrite !set_at_ne by (done || lia).
      split; [done|]. split; [by apply lookup_app_l_Some|done]. }
    assert (Hsz2 : sized_but (λ b, b = nr) (heap t ++ [Some N])).
    { intros a n Ha Hanr. apply lookup_app_Some in Ha as [Ha|[Hge Ha]].
      2:{ apply list_lookup_singleton_Some in Ha as [Ha _]. fold nr in Hge. lia. }
      apply (size_ok_agree (heap t)).
      - intros Hl c Hc. apply size_at_alloc_old.
        by destruct (ordered_child _ _ _ _ _ _ _ _ Hord Ha Hl Hc).
      - apply (Hsz a n Ha). by rewrite Hparr. }
    set (t2 := mkTree (heap t ++ [Some N]) (root t) (order t)) in *.
    assert (Hsz3 : sized_but (λ b, b = nr) (heap t3)).
    { eapply sized_but_mono;
        [|eapply (updateSubtreeSize_sized par' _ nr t2 t3); [| |exact Hsz2|exact H3]].
      - intros b [[-> ?]|Hb]; [done|congruence].
      - intros p m Hp Hl Hin. by destruct (ordered_child _ _ _ _ _ _ _ _ Hord2 Hp Hl Hin).
      - intros m Hm Hl Hin. cbn [heap t2] in Hm.
        rewrite lookup_app_r, Nat.sub_diag in Hm by (unfold nr; lia). injection Hm as <-.
        cbn in Hin. apply elem_of_cons in Hin as [?|[?|?%elem_of_nil]%elem_of_cons]; lia. }
    split.
    + rewrite Hr5. apply (linked_up_same_nodes _ _ _ _ _ Hsame Hup2).
    + apply (upwards_sized gas lvl H0 lo' hi' par' nr gas nr
               (mkTree (heap t3) (Some nr) (order t3)) t'); cbn [heap root order]; try done.
      * by apply (same_nodes_shaped _ _ _ _ (same_nodes_sym _ _ Hs5)).
      * by apply (ordered_same_nodes _ _ _ _ _ _ Hs3).
      * rewrite (same_nodes_skel _ _ _ Hs3), skel_alloc, decide_True by done. by eexists.
      * by apply (linked_up_same_nodes _ _ _ _ _ Hs3).
  - intros Huni Hkind. apply (uniform_same_nodes _ _ Hsame). apply uniform_alloc; [done| |].
    + intros p pn c Hp Hl Hc. by destruct (ordered_child _ _ _ _ _ _ _ _ Hord Hp Hl Hc).
    + intros _ c1 c2 H1 H2. cbn in H1, H2.
      apply elem_of_cons in H1 as [->|[->|?%elem_of_nil]%elem_of_cons]; [| |done];
        apply elem_of_cons in H2 as [->|[->|?%elem_of_nil]%elem_of_cons]; done.
Qed.

End NewRootOrder.

(** ** The parent takes the new child *)

Section ParentOrder.
Context {V : Type}.
Implicit Types (h : list (option (Node Z V))) (n : Node Z V) (t : BPlusTree Z V).

Lemma proper_above l k : proper l (Some k) → above l k.
Proof. destruct l; cbn; lia. Qed.

(** A key between two neighbouring separators of an internal node lies
    within the bounds of the node. *)
Lemma separator_bounds lo hi hiP par b c n j l u key :
  node_ok lo hi hiP par b c n → isLeaf n = false → (j ≤ length (keys n))%nat →
  separators (lo c) (keys n) (hi c) !! j = Some l →
  separators (lo c) (keys n) (hi c) !! S j = Some u →
  proper l (Some key) → below key u →
  proper (lo c) (Some key) ∧ below key (hi c).
Proof.
  intros (Hasc & Hin & _) Hleaf Hj Hl Hu Hlk Hku. rewrite Hleaf in Hin. split.
  - destruct j as [|j]; [rewrite separators_0 in Hl; by injection Hl as <-|].
    destruct (lookup_lt_is_Some_2 (keys n) j) as [k Hk]; [lia|].
    rewrite (separators_S _ _ _ _ _ Hk) in Hl. injection Hl as <-.
    destruct (Hin k) as [Hlo _]; [by eapply list_elem_of_lookup_2|].
    cbn in Hlk. destruct (lo c); cbn in *; lia.
  - destruct (keys n !! j) as [k|] eqn:Hk.
    + rewrite (separators_S _ _ _ _ _ Hk) in Hu. injection Hu as <-.
      destruct (Hin k) as [_ Hhi]; [by eapply list_elem_of_lookup_2|].
      cbn in Hku. destruct (hi c); cbn in *; lia.
    + apply lookup_ge_None in Hk. replace j with (length (keys n)) in Hu by lia.
      rewrite separators_last in Hu. by injection Hu as <-.
Qed.

Lemma parent_takes_child lo hi par h x y key c n j :
  ordered lo hi (pend hi x y) par h →
  h !! c = Some (Some n) → isLeaf n = false → children n !! j = Some x →
  hi x = Some key → lo y = Some key → proper (lo x) (Some key) → below key (hi y) →
  par y = Some c → (y < length h)%nat → x ≠ y →
  upper_bound (keys n) key = j
  ∧ ordered lo hi hi par
      (<[c := Some (with_children (insert_at (S j) y (children n))
                      (with_keys (insert_at j key (keys n)) n))]> h).
Proof.
  intros Hord Hn Hleaf Hj Hhix Hloy Hlox Hhiy Hpary Hy Hne.
  pose proof (Hord c n Hn) as Hok.
  destruct Hok as (Hasc & Hin & Hsh). rewrite Hleaf in Hin, Hsh. destruct Hsh as [Hlen Hcs].
  destruct (Hcs j x Hj) as (Hxlt & Hsj & HsSj & Hparx). rewrite pend_eq in HsSj.
  assert (Hjle : (j ≤ length (keys n))%nat). { apply lookup_lt_Some in Hj. lia. }
  pose proof (proper_above _ _ Hlox) as Habove.
  destruct (upper_bound_at_child (keys n) (lo c) (hi c) key j (lo x) (hi y)
              Hasc Hjle Hsj HsSj Habove Hhiy) as (Hub & Hlow & Hhigh).
  split; [done|].
  assert (Huniq : ∀ i, children n !! i = Some x → i = j).
  { intros i Hi. destruct (Hcs i x Hi) as (_ & Hsi & HsSi & _). rewrite pend_eq in HsSi.
    assert (i ≤ length (keys n))%nat by (apply lookup_lt_Some in Hi; lia).
    destruct (upper_bound_at_child (keys n) (lo c) (hi c) key i (lo x) (hi y))
      as (Hub' & _); try done. congruence. }
  assert (Hview : ∀ i z, children n !! i = Some z → i ≠ j →
            separators (lo c) (keys n) (hi c) !! S i = Some (hi z)).
  { intros i z Hz Hij. destruct (Hcs i z Hz) as (_ & _ & Hs & _).
    rewrite pend_ne in Hs; [done|]. intros ->. by apply Hij, Huniq. }
  intros a m Ha. rewrite length_insert. destruct (decide (a = c)) as [->|Hac].
  - rewrite list_lookup_insert_eq in Ha by (by eapply lookup_lt_Some). injection Ha as <-.
    split; [|split].
    + cbn [isLeaf keys children with_children with_keys]. apply ascending_insert_at; [done|done| |done].
      intros i a Hi Hij. destruct (Hlow i a Hi Hij) as (l0 & Hl0 & Hle).
      rewrite Hl0 in Hlox. cbn in Hlox. lia.
    + cbn [isLeaf keys children with_children with_keys]. rewrite Hleaf. intros k [->|Hk]%elem_of_insert_at; [|by apply Hin].
      by apply (separator_bounds lo hi (pend hi x y) par (length h) c n j (lo x) (hi y));
        [apply Hord|..].
    + cbn [isLeaf keys children with_children with_keys]. rewrite Hleaf. split. { rewrite !length_insert_at by lia. lia. }
      intros i z Hz. rewrite separators_insert_at by done.
      rewrite lookup_insert_at in Hz by lia.
      rewrite !lookup_insert_at by (rewrite separators_length; lia).
      destruct (decide (i < S j)%nat) as [Hlt|Hge].
      * destruct (Hcs i z Hz) as (Hz1 & Hz2 & _ & Hz4).
        split; [done|]. split; [done|]. split; [|done].
        destruct (decide (S i < S j)%nat); [apply (Hview i z); [done|lia]|].
        rewrite decide_True by lia. assert (i = j) as -> by lia.
        rewrite Hj in Hz. injection Hz as <-. by rewrite Hhix.
      * rewrite !(decide_False (P := (S i < S j)%nat)) by lia.
        rewrite !(decide_False (P := (S i = S j)%nat)) by lia.
        destruct (decide (i = S j)) as [->|Hne'].
        -- injection Hz as <-. split; [done|]. split; [by rewrite Hloy|]. split; [|done].
           by replace (S (S j) - 1)%nat with (S j) by lia.
        -- destruct (Hcs (i - 1)%nat z Hz) as (Hz1 & Hz2 & _ & Hz4).
           split; [done|]. split; [done|]. split; [|done].
           replace (S i - 1)%nat with (S (i - 1)) by lia. apply Hview; [done|lia].
  - rewrite list_lookup_insert_ne in Ha by done.
    eapply node_ok_ghost; [by apply Hord|done|done|].
    intros Hl z Hz. split; [done|]. split; [|done]. symmetry. apply pend_ne. intros ->.
    destruct (ordered_child _ _ _ _ _ _ _ _ Hord Ha Hl Hz) as [_ Hp]. congruence.
Qed.

End ParentOrder.

(** ** An internal node splits *)

Section InternalSplitOrder.
Context {V : Type}.
Implicit Types (h : list (option (Node Z V))) (n : Node Z V) (t : BPlusTree Z V).

(** The upper separators of a node are all different. *)
Lemma separators_S_inj (lo hi : option Z) (ks : list Z) i j :
  ascending ks → (∀ k, k ∈ ks → below k hi) →
  (i ≤ length ks)%nat → (j ≤ length ks)%nat →
  separators lo ks hi !! S i = separators lo ks hi !! S j → i = j.
Proof.
  intros Hasc Hhi Hi Hj Heq.
  destruct (ks !! i) as [a|] eqn:Ha, (ks !! j) as [b|] eqn:Hb.
  - rewrite (separators_S _ _ _ _ _ Ha), (separators_S _ _ _ _ _ Hb) in Heq.
    injection Heq as <-. destruct (Nat.lt_trichotomy i j) as [Hlt|[->|Hlt]]; [|done|].
    + pose proof (Hasc i j a a Ha Hb Hlt). lia.
    + pose proof (Hasc j i a a Hb Ha Hlt). lia.
  - apply lookup_ge_None in Hb. replace j with (length ks) in Heq by lia.
    rewrite (separators_S _ _ _ _ _ Ha), separators_last in Heq. injection Heq as <-.
    pose proof (Hhi a ltac:(by eapply list_elem_of_lookup_2)) as Hlt. cbn in Hlt. lia.
  - apply lookup_ge_None in Ha. replace i with (length ks) in Heq by lia.
    rewrite (separators_S _ _ _ _ _ Hb), separators_last in Heq. injection Heq as ->.
    pose proof (Hhi b ltac:(by eapply list_elem_of_lookup_2)) as Hlt. cbn in Hlt. lia.
  - apply lookup_ge_None in Ha, Hb. lia.
Qed.

(** No node is listed twice among the children of a node. *)
Lemma children_inj lo hi hiP par b c n i j z :
  node_ok lo hi hiP par b c n → isLeaf n = false →
  children n !! i = Some z → children n !! j = Some z → i = j.
Proof.
  intros (Hasc & Hin & Hsh) Hleaf Hi Hj. rewrite Hleaf in Hin, Hsh. destruct Hsh as [Hlen Hcs].
  destruct (Hcs i z Hi) as (_ & _ & Hsi & _). destruct (Hcs j z Hj) as (_ & _ & Hsj & _).
  apply (separators_S_inj (lo c) (hi c) (keys n)); [done|by intros k Hk; apply Hin| | |congruence].
  - apply lookup_lt_Some in Hi. lia.
  - apply lookup_lt_Some in Hj. lia.
Qed.

(** A node with a key is not its own child. *)
Lemma not_own_child lo hi par b c n :
  node_ok lo hi hi par b c n → isLeaf n = false → keys n ≠ [] → c ∉ children n.
Proof.
  intros Hok Hleaf Hne (i & Hi)%list_elem_of_lookup_1.
  pose proof Hok as (Hasc & Hin & Hsh). rewrite Hleaf in Hin, Hsh. destruct Hsh as [Hlen Hcs].
  destruct (Hcs i c Hi) as (_ & Hlo & Hhi & _).
  assert (Hile : (i ≤ length (keys n))%nat). { apply lookup_lt_Some in Hi. lia. }
  assert (i = length (keys n)) as ->.
  { apply (separators_S_inj (lo c) (hi c) (keys n)); [done|by intros k Hk; apply Hin|done|done|].
    by rewrite Hhi, separators_last. }
  destruct (keys n) as [|k0 ks0] eqn:Hks using rev_ind; [done|]. clear IHks0.
  rewrite length_app in Hlo. cbn [length] in Hlo. rewrite Nat.add_1_r in Hlo.
  rewrite (separators_S _ _ _ (length ks0) k0) in Hlo.
  2:{ by rewrite lookup_app_r, Nat.sub_diag by lia. }
  injection Hlo as Hlo. destruct (Hin k0) as [Hp _]; [apply elem_of_app; right; by left|].
  rewrite <- Hlo in Hp. cbn in Hp. lia.
Qed.

Lemma internal_split_pending lo hi par chain t c n mid upKey :
  sorted_inv lo hi par chain t →
  heap t !! c = Some (Some n) → isLeaf n = false → keys n !! mid = Some upKey →
  ∃ lo1 hi1 par1,
    pending lo1 hi1 par1 chain c (length (heap t)) upKey
      (mkTree
         (<[c := Some (with_children (take (S mid) (children n))
                         (with_keys (take mid (keys n)) n))]>
            (heap t ++ [Some (mkNode false (drop (S mid) (keys n))
                                (drop (S mid) (children n)) [] None 0)]))
         (root t) (order t))
    ∧ par1 c = par c
    ∧ (linked_up par (heap t) (root t) None →
       linked_up par1
         (<[c := Some (with_children (take (S mid) (children n))
                         (with_keys (take mid (keys n)) n))]>
            (heap t ++ [Some (mkNode false (drop (S mid) (keys n))
                                (drop (S mid) (children n)) [] None 0)]))
         (root t) (Some (length (heap t)))).
Proof.
  intros [Hord (r & Hr & Hrlive & Hlor & Hhir & Hparr) Hch Hseg] Hn Hleaf Hup.
  set (h := heap t) in *. set (c' := length h).
  set (nL := with_children (take (S mid) (children n)) (with_keys (take mid (keys n)) n)).
  set (nR := mkNode (V:=V) false (drop (S mid) (keys n)) (drop (S mid) (children n)) [] None 0).
  set (lo1 := set_at lo c' (Some upKey)).
  set (hi1 := set_at (set_at hi c (Some upKey)) c' (hi c)).
  set (par1 := λ z, if decide (z ∈ drop (S mid) (children n)) then Some c'
                    else if decide (z = c') then par c else par z).
  pose proof (Hord c n Hn) as Hok.
  pose proof Hok as (Hasc & Hin & Hsh). rewrite Hleaf in Hin, Hsh. destruct Hsh as [Hlen Hcs].
  assert (Hc : (c < c')%nat) by by eapply lookup_lt_Some.
  assert (Hmid : (mid < length (keys n))%nat) by by eapply lookup_lt_Some.
  assert (Hkne : keys n ≠ []) by (intros Hnil; rewrite Hnil in Hmid; cbn in Hmid; lia).
  assert (Hown : c ∉ children n) by by eapply not_own_child.
  assert (Hchild : ∀ z, z ∈ children n → (z < c')%nat ∧ par z = Some c).
  { intros z Hz. by eapply ordered_child. }
  assert (Hdrop : ∀ z, z ∈ drop (S mid) (children n) → z ∈ children n).
  { intros z Hz. exact (subseteq_drop _ _ z Hz). }
  assert (Hpar_other : ∀ z, z ∉ drop (S mid) (children n) → z ≠ c' → par1 z = par z).
  { intros z Hz Hzc. unfold par1. by rewrite decide_False, decide_False. }
  assert (Hlen4 : length (<[c := Some nL]> (h ++ [Some nR])) = S c').
  { rewrite length_insert, length_app. cbn. unfold c'. lia. }
  assert (Hlo_old : ∀ z, (z < c')%nat → lo1 z = lo z).
  { intros z Hz. unfold lo1. by rewrite set_at_ne by lia. }
  assert (Hhi_old : ∀ z, (z < c')%nat → z ≠ c → hi1 z = hi z).
  { intros z Hz Hzc. unfold hi1. by rewrite !set_at_ne by (done || lia). }
  assert (Hhic : hi1 c = Some upKey).
  { unfold hi1. by rewrite set_at_ne, set_at_eq by lia. }
  assert (Hhic' : hi1 c' = hi c). { unfold hi1. by rewrite set_at_eq. }
  assert (Hloc' : lo1 c' = Some upKey). { unfold lo1. by rewrite set_at_eq. }
  assert (Hview : leaf_view h c = None).
  { unfold leaf_view. by rewrite Hn, Hleaf. }
  assert (Hlv : ∀ a, leaf_view (<[c := Some nL]> (h ++ [Some nR])) a = leaf_view h a).
  { intros a. rewrite leaf_view_insert by (rewrite length_app; cbn; lia).
    destruct (decide (c = a)) as [<-|Hne]; [by cbn; rewrite Hleaf|].
    rewrite leaf_view_alloc. destruct (decide (a = length h)) as [->|]; [|done].
    cbn. by rewrite leaf_view_fresh. }
  assert (Hleafs : ∀ a, a ∈ chain → (a < c')%nat ∧ a ≠ c).
  { intros a Ha. destruct Hch as (_ & _ & Hl).
    pose proof (linked_live _ _ _ Hl Ha) as Hlive. split; [by apply leaf_view_lt|].
    intros ->. rewrite Hview in Hlive. by destruct Hlive. }
  assert (Hparc : par1 c = par c).
  { apply Hpar_other; [|lia]. intros Hzd%Hdrop. done. }
  exists lo1, hi1, par1. split; [split; cbn [heap root order]|split; [done|]].
  - (* every node is in order *)
    intros a m Ha. rewrite Hlen4. destruct (decide (a = c)) as [->|Hac].
    + rewrite list_lookup_insert_eq in Ha by (rewrite length_app; cbn; lia).
      injection Ha as <-.
      unfold node_ok. cbn [isLeaf keys children values nL with_children with_keys].
      rewrite (Hlo_old c Hc), Hhic, Hleaf. split; [by apply ascending_take|]. split.
      * intros k (i & Hi)%list_elem_of_lookup_1. apply lookup_take_Some in Hi as [Hi Him].
        split; [apply Hin; by eapply list_elem_of_lookup_2|].
        cbn. by apply (Hasc i mid).
      * split. { rewrite !length_take. lia. }
        intros i z Hz. apply lookup_take_Some in Hz as [Hz Him].
        destruct (Hcs i z Hz) as (Hz1 & Hz2 & Hz3 & Hz4).
        assert (Hzc : z ≠ c) by (intros ->; apply Hown; by eapply list_elem_of_lookup_2).
        split; [lia|]. rewrite !(separators_take _ _ (hi c) _ _ _ Hup) by lia.
        rewrite (Hlo_old z Hz1), pend_ne, (Hhi_old z Hz1 Hzc) by done.
        split; [done|]. split; [done|]. rewrite Hpar_other; [done| |lia].
        intros (i' & Hi')%list_elem_of_lookup_1. rewrite lookup_drop in Hi'.
        pose proof (children_inj _ _ _ _ _ _ _ _ _ _ Hok Hleaf Hz Hi'). lia.
    + destruct (decide (a = c')) as [->|Hac'].
      * rewrite list_lookup_insert_ne in Ha by lia.
        rewrite lookup_app_r, Nat.sub_diag in Ha by (unfold c'; lia). injection Ha as <-.
        unfold node_ok. cbn [isLeaf keys children values nR].
        rewrite Hloc', Hhic'.
        split; [by apply ascending_drop|]. split.
        -- intros k (i & Hi)%list_elem_of_lookup_1. rewrite lookup_drop in Hi.
           split; [|apply Hin; by eapply list_elem_of_lookup_2].
           cbn. apply (Hasc mid (S mid + i)%nat); [done|done|lia].
        -- split. { rewrite !length_drop. lia. }
           intros i z Hz. pose proof Hz as Hzd. rewrite lookup_drop in Hz.
           destruct (Hcs _ z Hz) as (Hz1 & Hz2 & Hz3 & Hz4).
           assert (Hzc : z ≠ c) by (intros ->; apply Hown; by eapply list_elem_of_lookup_2).
           split; [lia|]. rewrite !(separators_drop (lo c) _ _ _ _ _ Hup).
           rewrite (Hlo_old z Hz1), pend_ne, (Hhi_old z Hz1 Hzc) by done.
           split; [done|]. split; [by rewrite Nat.add_succ_r|].
           unfold par1. rewrite decide_True; [done|]. by eapply list_elem_of_lookup_2.
      * rewrite list_lookup_insert_ne in Ha by done.
        apply lookup_app_Some in Ha as [Ha|[Hge Ha]].
        2:{ apply list_lookup_singleton_Some in Ha as [Ha _]. unfold c' in Hac'. lia. }
        assert (Halt : (a < c')%nat) by by eapply lookup_lt_Some.
        eapply node_ok_bound; [|eapply node_ok_ghost; [by apply Hord| | |]].
        -- unfold c'. lia.
        -- by apply Hlo_old.
        -- by apply Hhi_old.
        -- intros Hl z Hz.
           destruct (ordered_child _ _ _ _ _ _ _ _ Hord Ha Hl Hz) as [Hzlt Hzp].
           split; [by apply Hlo_old|]. split.
           ++ destruct (decide (z = c)) as [->|Hzc]; [by rewrite pend_eq|].
              rewrite pend_ne by done. by apply Hhi_old.
           ++ apply Hpar_other; [|lia]. intros Hzd%Hdrop.
              destruct (Hchild z Hzd) as [_ Hzp']. congruence.
  - (* the root *)
    exists r. split; [done|]. split.
    { apply skel_insert_live; apply skel_alloc_live; [|done].
      by rewrite (skel_lookup _ _ _ Hn). }
    assert (Hrlt : (r < c')%nat) by by apply skel_lt.
    split; [by rewrite Hlo_old|]. split.
    + destruct (decide (r = c)) as [->|Hrc]; [by rewrite pend_eq, Hhic'|].
      rewrite pend_ne by done. by rewrite Hhi_old.
    + rewrite Hpar_other; [done| |lia]. intros Hzd%Hdrop.
      destruct (Hchild r Hzd) as [_ Hzp']. congruence.
  - by apply (chained_ext h).
  - apply (chain_seg_ext lo hi); [|done]. intros a Ha. destruct (Hleafs a Ha).
    split; [by apply Hlo_old|by apply Hhi_old].
  - cbn [heap]. rewrite Hlen4. lia.
  - cbn [heap]. rewrite Hlen4. unfold c'. lia.
  - unfold c' in Hc. lia.
  - done.
  - done.
  - rewrite (Hlo_old c Hc). apply Hin. by eapply list_elem_of_lookup_2.
  - rewrite Hhic'. apply Hin. by eapply list_elem_of_lookup_2.
  - unfold par1. rewrite decide_False.
    2:{ intros Hzd%Hdrop. destruct (Hchild _ Hzd). unfold c' in *. lia. }
    rewrite decide_True by done. rewrite decide_False.
    2:{ intros Hzd%Hdrop. done. }
    by rewrite decide_False by lia.
  - cbn [heap]. intros a m Ha Hl Hin'. destruct (decide (a = c)) as [->|Hac].
    + rewrite list_lookup_insert_eq in Ha by (rewrite length_app; cbn; lia).
      injection Ha as <-. cbn in Hin'.
      assert (length h ∈ children n).
      { exact (subseteq_take _ _ _ Hin'). }
      destruct (Hchild _ H). unfold c' in *. lia.
    + rewrite list_lookup_insert_ne in Ha by done.
      apply lookup_app_Some in Ha as [Ha|[Hge Ha]].
      * destruct (ordered_child _ _ _ _ _ _ _ _ Hord Ha Hl Hin'). lia.
      * apply list_lookup_singleton_Some in Ha as [_ [= <-]]. cbn in Hin'.
        destruct (Hchild _ (Hdrop _ Hin')). unfold c' in *. lia.
  - (* the parent links *)
    intros Hlup a m Ha Hrt Hskip.
    assert (HnL : (<[c := Some nL]> (h ++ [Some nR])) !! c = Some (Some nL)).
    { apply list_lookup_insert_eq. rewrite length_app. cbn. lia. }
    assert (HnR : (<[c := Some nL]> (h ++ [Some nR])) !! c' = Some (Some nR)).
    { rewrite list_lookup_insert_ne by lia. by rewrite lookup_app_r, Nat.sub_diag by (unfold c'; lia). }
    assert (Hold : ∀ p m0, h !! p = Some (Some m0) → p ≠ c →
              (<[c := Some nL]> (h ++ [Some nR])) !! p = Some (Some m0)).
    { intros p m0 Hp Hpc. rewrite list_lookup_insert_ne by done. by apply lookup_app_l_Some. }
    assert (Halive : ∃ m0, h !! a = Some (Some m0)).
    { destruct (decide (a = c)) as [->|Hac]; [by eexists|].
      rewrite list_lookup_insert_ne in Ha by done.
      apply lookup_app_Some in Ha as [Ha|[Hge Ha]]; [by eexists|].
      apply list_lookup_singleton_Some in Ha as [Ha _]. exfalso. apply Hskip. f_equal.
      unfold c' in *. lia. }
    destruct Halive as [m0 Hm0].
    destruct (Hlup a m0 Hm0 Hrt ltac:(done)) as (p & mp & Hp & Hmp & Hl & Hain).
    destruct (decide (a ∈ drop (S mid) (children n))) as [Hd|Hnd].
    { exists c', nR. unfold par1. rewrite decide_True by done. done. }
    assert (Halt : (a < c')%nat) by by eapply lookup_lt_Some.
    rewrite Hpar_other by (done || lia).
    destruct (decide (p = c)) as [->|Hpc].
    + exists c, nL. rewrite Hn in Hmp. injection Hmp as <-.
      split; [done|]. split; [done|]. split; [done|]. cbn.
      rewrite <- (take_drop (S mid) (children n)) in Hain.
      apply elem_of_app in Hain as [?|?]; done.
    + exists p, mp. split; [done|]. split; [by apply Hold|done].
Qed.

(** ** The parent links and the counters when the parent takes the child *)

Lemma elem_of_insert_at_2 {A} (l : list A) i x y : y ∈ l → y ∈ insert_at i x l.
Proof.
  intros Hy. unfold insert_at. rewrite <- (take_drop i l) in Hy.
  apply elem_of_app in Hy as [?|?]; apply elem_of_app; [by left|right; by right].
Qed.

Lemma elem_of_insert_at_new {A} (l : list A) i x : x ∈ insert_at i x l.
Proof. unfold insert_at. apply elem_of_app. right. by left. Qed.

Lemma linked_up_take_child par h rt y c n i j key :
  linked_up par h rt (Some y) → h !! c = Some (Some n) → isLeaf n = false →
  par y = Some c →
  linked_up par
    (<[c := Some (with_children (insert_at i y (children n))
                    (with_keys (insert_at j key (keys n)) n))]> h) rt None.
Proof.
  intros Hup Hn Hleaf Hpy a m Ha Hrt _.
  pose proof (lookup_lt_Some _ _ _ Hn) as Hclt.
  set (n1 := with_children (insert_at i y (children n)) (with_keys (insert_at j key (keys n)) n))
    in *.
  assert (Hn1 : (<[c := Some n1]> h) !! c = Some (Some n1)) by by apply list_lookup_insert_eq.
  destruct (decide (a = y)) as [->|Hay].
  { exists c, n1. split; [done|]. split; [done|]. split; [done|]. apply elem_of_insert_at_new. }
  assert (∃ m0, h !! a = Some (Some m0)) as [m0 Hm0].
  { destruct (decide (a = c)) as [->|Hac]; [by eexists|].
    rewrite list_lookup_insert_ne in Ha by done. by eexists. }
  destruct (Hup a m0 Hm0 Hrt ltac:(congruence)) as (p & mp & Hp & Hmp & Hl & Hin).
  destruct (decide (p = c)) as [->|Hpc].
  - exists c, n1. rewrite Hn in Hmp. injection Hmp as <-.
    split; [done|]. split; [done|]. split; [done|]. by apply elem_of_insert_at_2.
  - exists p, mp. split; [done|]. split; [by rewrite list_lookup_insert_ne|done].
Qed.

(** Replacing a node by one with the same counter leaves the other
    counters right. *)
Lemma sized_but_replace (bad : addr → Prop) h c n n' :
  h !! c = Some (Some n) → subtree_size n' = subtree_size n →
  sized_but bad h → sized_but (λ b, bad b ∨ b = c) (<[c := Some n']> h).
Proof.
  intros Hn Hsz Hs a m Ha Hbad.
  assert (a ≠ c) by (intros ->; apply Hbad; by right).
  rewrite list_lookup_insert_ne in Ha by done.
  apply (size_ok_agree h); [intros _ z _; by apply (size_at_insert_same h c n n')|].
  apply (Hs a m Ha). intros Hb. apply Hbad. by left.
Qed.

Lemma sized_but_alloc (bad : addr → Prop) lo hi hiP par h n :
  ordered lo hi hiP par h →
  sized_but bad h → sized_but (λ b, bad b ∨ b = length h) (h ++ [Some n]).
Proof.
  intros Hord Hs a m Ha Hbad. apply lookup_app_Some in Ha as [Ha|[Hge Ha]].
  - apply (size_ok_agree h).
    + intros Hl c Hc. apply size_at_alloc_old.
      by destruct (ordered_child _ _ _ _ _ _ _ _ Hord Ha Hl Hc).
    + apply (Hs a m Ha). intros Hb. apply Hbad. by left.
  - apply list_lookup_singleton_Some in Ha as [Ha _]. exfalso. apply Hbad. right. lia.
Qed.



End InternalSplitOrder.

(** ** [insertInternal] and [splitInternal] keep the order *)

Section InsertInternalOrder.
Context {V : Type}.
Context (gas : nat).
Implicit Types (h : list (option (Node Z V))) (n : Node Z V) (t : BPlusTree Z V).

Lemma split_tail_ord fuel : ∀ lo hi par chain t x y key t',
  pending lo hi par chain x y key t →
  (r ← get_root;
   if ptr_eqb (Some x) r then
     newRoot ← new_Node false;
     put_node newRoot (mkNode false [key] [x; y] [] None 0);;
     updateSubtreeSize (Some newRoot);;
     set_root (Some newRoot);;
     updateSubtreeSizesUpwards gas (Some newRoot)
   else
     parent ← sread (λ t, findParent gas (heap t) (root t) (Some x));
     insertInternal_loop gas fuel key parent y) t = Done (tt, t') →
  ∃ lo' hi' par',
    sorted_inv lo' hi' par' chain t'
    ∧ (∀ a, leaf_view (heap t') a = leaf_view (heap t) a)
    ∧ order t' = order t
    ∧ (leveled gas t' → counted_but par (λ b, par x = Some b) (Some y) t →
       counted_but par' (λ _, False) None t')
    ∧ (uniform (heap t) → leafness (heap t) x = leafness (heap t) y → uniform (heap t')).
Proof.
  induction fuel as [|fuel IH]; intros lo hi par chain t x y key t' Hpe Hrun.
  all: step Hrun r t0 H0; apply get_root_inv in H0 as [-> ->].
  all: unfold ptr_eqb in Hrun; case_bool_decide as Hroot.
  1, 3: by eapply new_root_ord.
  - step Hrun parent t1 H1. apply sread_Done in H1 as [Hfp ->]. done.
  - step Hrun parent t1 H1. apply sread_Done in H1 as [Hfp ->].
    cbn [insertInternal_loop] in Hrun.
    step Hrun cn t1 H1. destruct cn as [c n]. apply get_ptr_inv in H1 as (-> & Hn & ->).
    destruct (findParent_Some _ _ _ _ _ Hfp) as (n0 & Hn0 & Hleaf & Hxin).
    rewrite Hn in Hn0. injection Hn0 as <-.
    pose proof Hpe as [Hord (r & Hr & Hrlive & Hlor & Hhir & Hparr) Hch Hseg Hx Hy Hne Hhix Hloy
      Hlox Hhiy Hpar Hfresh].
    destruct (ordered_child _ _ _ _ _ _ _ _ Hord Hn Hleaf Hxin) as [_ Hparx].
    apply list_elem_of_lookup_1 in Hxin as [j Hj].
    destruct (parent_takes_child lo hi par (heap t) x y key c n j) as [Hub Hord1]; try done.
    { congruence. }
    rewrite Hub in Hrun.
    case_bool_decide as Hidx; [by apply sfail_Done in Hrun as [? ?]|].
    step Hrun u1 t1 H1. apply put_node_inv in H1.
    step Hrun ord t2 H2. apply get_order_inv in H2 as [-> ->].
    set (n1 := with_children (insert_at (S j) y (children n))
                 (with_keys (insert_at j key (keys n)) n)) in *.
    assert (Hclt : (c < length (heap t))%nat) by by eapply lookup_lt_Some.
    assert (Hview : leaf_view (heap t) c = None).
    { unfold leaf_view. by rewrite Hn, Hleaf. }
    assert (Hlv1 : ∀ a, leaf_view (heap t1) a = leaf_view (heap t) a).
    { intros a. subst t1. cbn [heap]. rewrite leaf_view_insert by done.
      destruct (decide (c = a)) as [<-|]; [|done]. cbn. by rewrite Hleaf. }
    assert (Hn1 : heap t1 !! c = Some (Some n1)).
    { subst t1. cbn [heap]. by rewrite list_lookup_insert_eq. }
    assert (Hr1 : root t1 = Some r) by by subst t1.
    assert (Hinv1 : sorted_inv lo hi par chain t1).
    { split.
      - by subst t1.
      - exists r. subst t1. cbn [heap root]. split; [done|]. split.
        { apply skel_insert_live; [by rewrite (skel_lookup _ _ _ Hn)|done]. }
        rewrite pend_ne in Hhir; [done|]. intros ->. apply Hroot. by rewrite Hr.
      - by apply (chained_ext (heap t)).
      - done. }
    assert (Ho1 : order t1 = order t) by by subst t1.
    assert (Hcnt1 : counted_but par (λ b, par x = Some b) (Some y) t →
              counted_but par (λ b, b = c) None t1).
    { intros [Hup Hsz]. subst t1. split; cbn [heap root].
      - apply linked_up_take_child; [done|done|done|congruence].
      - eapply sized_but_mono; [|apply (sized_but_replace _ _ c n n1 Hn eq_refl Hsz)].
        intros b [Hb| ->]; [congruence|done]. }
    assert (Huni1 : uniform (heap t) → leafness (heap t) x = leafness (heap t) y →
              uniform (heap t1)).
    { intros Huni Hkind. subst t1. cbn [heap].
      apply (uniform_adopt (heap t) c n n1 x y); try done.
      - by eapply list_elem_of_lookup_2.
      - intros z [->|Hz]%elem_of_insert_at; [by left|by right]. }
    rewrite Ho1 in Hrun.
    destruct (order t <=? Z.of_nat (S (length (keys n))))%Z.
    + unfold splitInternal_body in Hrun.
      step Hrun n1' t2 H2. apply get_node_inv in H2 as [Hn1' ->].
      rewrite Hn1 in Hn1'. injection Hn1' as <-.
      step Hrun c' t2 H2. apply new_Node_inv in H2 as [-> ->].
      step Hrun upKey t3 H3. apply sfail_Done in H3 as [Hup%at_inv ->].
      case_bool_decide as Hmid; [by apply sfail_Done in Hrun as [? ?]|].
      step Hrun u4 t4 H4. apply put_node_inv in H4. cbn [heap root order] in H4.
      rewrite insert_fresh in H4.
      step Hrun u5 t5 H5. apply put_node_inv in H5. subst t4. cbn [heap root order] in H5.
      step Hrun u6 t6 H6. destruct u6.
      pose proof (updateSubtreeSize_same_nodes _ _ _ H6) as (Hs6 & Hr6 & Ho6).
      step Hrun u7 t7 H7. destruct u7.
      pose proof (updateSubtreeSize_same_nodes _ _ _ H7) as (Hs7 & Hr7 & Ho7).
      destruct (internal_split_pending lo hi par chain t1 c n1 _ upKey Hinv1 Hn1 Hleaf Hup)
        as (lo1 & hi1 & par1 & Hpe1 & Hparc & Hlup1).
      rewrite <- H5 in Hpe1.
      assert (Hpe6 : pending lo1 hi1 par1 chain c (length (heap t1)) upKey t6).
      { by apply (pending_same_nodes _ _ _ _ _ _ _ t5). }
      assert (Hpe7 : pending lo1 hi1 par1 chain c (length (heap t1)) upKey t7).
      { by apply (pending_same_nodes _ _ _ _ _ _ _ t6). }
      destruct (IH _ _ _ _ _ _ _ _ _ Hpe7 Hrun)
        as (lo' & hi' & par' & Hinv' & Hlv' & Ho' & Hcnt' & Huni').
      exists lo', hi', par'. split; [done|]. split; [|split; [|split]].
      4:{ intros Huni Hkind. pose proof (Huni1 Huni Hkind) as Hu1.
          assert (Hs57 : same_nodes (heap t5) (heap t7)) by by eapply same_nodes_trans.
          assert (Hc1lt : (c < length (heap t1))%nat) by by eapply lookup_lt_Some.
          apply Huni'.
          - apply (uniform_same_nodes _ _ Hs57). subst t5. cbn [heap].
            apply (uniform_keep _ c n1); [by apply lookup_app_l_Some|done|done| |].
            { intros z Hz. cbn in Hz. by apply subseteq_take in Hz. }
            apply uniform_alloc; [done| |].
            + intros p pn z Hp Hl Hz. destruct Hinv1 as [Hord1' _ _ _].
              by destruct (ordered_child _ _ _ _ _ _ _ _ Hord1' Hp Hl Hz).
            + intros _ c1 c2 Hz1 Hz2. cbn in Hz1, Hz2.
              apply subseteq_drop in Hz1. apply subseteq_drop in Hz2. split.
              * destruct Hinv1 as [Hord1' _ _ _].
                by destruct (ordered_child _ _ _ _ _ _ _ _ Hord1' Hn1 Hleaf Hz1).
              * by apply (Hu1 c n1).
          - rewrite !(leafness_same_nodes _ _ _ Hs57). subst t5. cbn [heap].
            unfold leafness.
            rewrite list_lookup_insert_eq by (rewrite length_app; cbn; lia).
            rewrite list_lookup_insert_ne by lia.
            rewrite lookup_app_r, Nat.sub_diag by lia. cbn. by rewrite Hleaf. }
      * intros a. rewrite Hlv', (same_nodes_leaf_view _ _ _ Hs7),
          (same_nodes_leaf_view _ _ _ Hs6), <- Hlv1.
        destruct Hpe1 as [_ _ _ _ _ _ _ _ _ _ _ _ _]. subst t5. cbn [heap].
        rewrite leaf_view_insert by (rewrite length_app; apply lookup_lt_Some in Hn1; cbn; lia).
        destruct (decide (c = a)) as [<-|Hca].
        { cbn. rewrite Hleaf. unfold leaf_view. rewrite Hn1. cbn. by rewrite Hleaf. }
        rewrite leaf_view_alloc. destruct (decide (a = length (heap t1))) as [->|]; [|done].
        cbn. by rewrite leaf_view_fresh.
      * rewrite Ho', Ho7, Ho6, H5. done.
      * intros Hlev Hcnt. apply Hcnt'; [done|].
        destruct (Hcnt1 Hcnt) as [Hlu1 Hsz1].
        set (c' := length (heap t1)) in *.
        set (nL := with_children (take (S (length (keys n1) / 2)) (children n1))
                     (with_keys (take (length (keys n1) / 2) (keys n1)) n1)) in *.
        set (nR := mkNode (V:=V) false (drop (S (length (keys n1) / 2)) (keys n1))
                     (drop (S (length (keys n1) / 2)) (children n1)) [] None 0) in *.
        assert (Hc1lt : (c < c')%nat) by by eapply lookup_lt_Some.
        assert (Hkids : ∀ z, z ∈ children n1 → (z < c')%nat ∧ z ≠ c).
        { intros z Hz. destruct Hinv1 as [Hord1' _ _ _].
          destruct (ordered_child _ _ _ _ _ _ _ _ Hord1' Hn1 Hleaf Hz) as [Hzlt _].
          split; [done|]. intros ->.
          apply (not_own_child lo hi par (length (heap t1)) c n1); [by apply Hord1'|done| |done].
          intros Hnil. by rewrite Hnil in Hup. }
        split.
        { rewrite Hr7, Hr6, H5. cbn [root].
          apply (linked_up_same_nodes _ (heap t5)); [by eapply same_nodes_trans|].
          subst t5. cbn [heap]. apply Hlup1. exact Hlu1. }
        assert (Hsz5 : sized_but (λ b, b = c ∨ b = c') (heap t5)).
        { subst t5. cbn [heap].
          pose proof (sized_but_alloc (λ b, b = c) lo hi hi par (heap t1) nR
                        (so_ordered _ _ _ _ _ Hinv1) Hsz1) as Hsa.
          pose proof (sized_but_replace _ (heap t1 ++ [Some nR]) c n1 nL
                        (lookup_app_l_Some _ _ _ _ Hn1) eq_refl Hsa) as Hsr.
          eapply sized_but_mono; [|exact Hsr]. cbn. intros b [[->| ->]| ->]; auto. }
        assert (Hsz6 : sized_but (λ b, b = c' ∨ par1 c = Some b) (heap t6)).
        { eapply sized_but_mono;
            [|eapply (updateSubtreeSize_sized par1 _ c t5 t6); [| |exact Hsz5|exact H6]].
          - intros b [[[->| ->] ?]|?]; auto. done.
          - intros p m Hp Hl Hin.
            by destruct (ordered_child _ _ _ _ _ _ _ _ (pe_ordered _ _ _ _ _ _ _ _ Hpe1) Hp Hl Hin).
          - intros m Hm Hl Hin. subst t5. cbn [heap] in Hm.
            rewrite list_lookup_insert_eq in Hm by (rewrite length_app; cbn; lia).
            injection Hm as <-. cbn in Hin. apply subseteq_take in Hin.
            by destruct (Hkids _ Hin). }
        eapply sized_but_mono;
          [|eapply (updateSubtreeSize_sized par1 _ c' t6 t7); [| |exact Hsz6|exact H7]].
        -- intros b [[[->|?] ?]|Hb]; [done|done|].
           rewrite (pe_par _ _ _ _ _ _ _ _ Hpe1) in Hb. done.
        -- intros p m Hp Hl Hin.
           by destruct (ordered_child _ _ _ _ _ _ _ _ (pe_ordered _ _ _ _ _ _ _ _ Hpe6) Hp Hl Hin).
        -- intros m Hm Hl Hin.
           destruct (same_nodes_lookup _ _ _ _ Hs6 Hm) as (m5 & Hm5 & _ & Hcs).
           subst t5. cbn [heap] in Hm5. rewrite list_lookup_insert_ne in Hm5 by lia.
           rewrite lookup_app_r, Nat.sub_diag in Hm5 by (unfold c'; lia).
           injection Hm5 as <-. rewrite Hcs in Hin. cbn in Hin. apply subseteq_drop in Hin.
           destruct (Hkids _ Hin). lia.
    + pose proof (updateSubtreeSizesUpwards_same_nodes _ _ _ _ Hrun) as (Hs & Hr' & Ho).
      exists lo, hi, par. split; [by eapply sorted_inv_same_nodes|].
      split; [|split;[congruence|split]].
      3:{ intros Huni Hkind. apply (uniform_same_nodes _ _ Hs). by apply Huni1. }
      * intros a. by rewrite (same_nodes_leaf_view _ _ _ Hs).
      * intros (lvl & H0 & Hsh' & HH0) Hcnt. destruct (Hcnt1 Hcnt) as [Hlu1 Hsz1].
        rewrite Hr1 in Hlu1. split.
        { rewrite Hr', Hr1. by apply (linked_up_same_nodes _ _ _ _ _ Hs). }
        destruct Hinv1 as [Hord1' (r1 & Hr1' & Hrlive1 & _ & _ & Hparr1) _ _].
        rewrite Hr1 in Hr1'. injection Hr1' as <-.
        apply (upwards_sized gas lvl H0 lo hi par r gas c t1 t'); try done.
        by apply (same_nodes_shaped _ _ _ _ (same_nodes_sym _ _ Hs)).
Qed.

End InsertInternalOrder.

(** ** [splitLeaf] keeps the order *)

Section SplitLeafOrder.
Context {V : Type}.
Context (gas : nat).
Implicit Types (h : list (option (Node Z V))) (n : Node Z V) (t : BPlusTree Z V).

Lemma leaf_split_pending lo hi par chain t x l mid newKey :
  sorted_inv lo hi par chain t →
  heap t !! x = Some (Some l) → isLeaf l = true → (0 < mid)%nat →
  keys l !! mid = Some newKey →
  let y := length (heap t) in
  let h4 := <[x := Some (with_next (Some y) (with_values (take mid (values l))
                                              (with_keys (take mid (keys l)) l)))]>
              (heap t ++ [Some (mkNode true (drop mid (keys l)) [] (drop mid (values l))
                                  (next l) 0)]) in
  (∃ lo1 hi1 par1,
     pending lo1 hi1 par1 (insert_after x y chain) x y newKey (mkTree h4 (root t) (order t))
     ∧ (linked_up par (heap t) (root t) None → linked_up par1 h4 (root t) (Some y)))
  ∧ entries h4 (insert_after x y chain) = entries (heap t) chain.
Proof.
  intros [Hord (r & Hr & Hrlive & Hlor & Hhir & Hparr) Hch Hseg] Hl Hleaf Hmid0 Hup y h4.
  set (h := heap t) in *.
  set (nL := with_next (Some y) (with_values (take mid (values l))
                                   (with_keys (take mid (keys l)) l))) in *.
  set (nR := mkNode (V:=V) true (drop mid (keys l)) [] (drop mid (values l)) (next l) 0) in *.
  set (lo1 := set_at lo y (Some newKey)).
  set (hi1 := set_at (set_at hi x (Some newKey)) y (hi x)).
  set (par1 := set_at par y (par x)).
  pose proof (Hord x l Hl) as Hok.
  pose proof Hok as (Hasc & Hin & Hsh). rewrite Hleaf in Hin, Hsh.
  assert (Hx : (x < y)%nat) by by eapply lookup_lt_Some.
  assert (Hmid : (mid < length (keys l))%nat) by by eapply lookup_lt_Some.
  assert (Hlen4 : length h4 = S y).
  { unfold h4. rewrite length_insert, length_app. cbn. unfold y. lia. }
  assert (Hlo_old : ∀ z, (z < y)%nat → lo1 z = lo z).
  { intros z Hz. unfold lo1. by rewrite set_at_ne by lia. }
  assert (Hhi_old : ∀ z, (z < y)%nat → z ≠ x → hi1 z = hi z).
  { intros z Hz Hzc. unfold hi1. by rewrite !set_at_ne by (done || lia). }
  assert (Hpar_old : ∀ z, (z < y)%nat → par1 z = par z).
  { intros z Hz. unfold par1. by rewrite set_at_ne by lia. }
  assert (Hhix : hi1 x = Some newKey).
  { unfold hi1. by rewrite set_at_ne, set_at_eq by lia. }
  assert (Hhiy : hi1 y = hi x). { unfold hi1. by rewrite set_at_eq. }
  assert (Hloy : lo1 y = Some newKey). { unfold lo1. by rewrite set_at_eq. }
  assert (Hview : leaf_view h x = Some (keys l, values l, next l)) by by apply leaf_view_lookup.
  assert (Hviewx : leaf_view h4 x
                   = Some (take mid (keys l), take mid (values l), Some y)).
  { unfold h4. rewrite leaf_view_insert by (rewrite length_app; cbn; lia).
    rewrite decide_True by done. cbn. by rewrite Hleaf. }
  assert (Hviewy : leaf_view h4 y = Some (drop mid (keys l), drop mid (values l), next l)).
  { unfold h4. rewrite leaf_view_insert by (rewrite length_app; cbn; lia).
    rewrite decide_False by lia. by rewrite leaf_view_alloc, decide_True. }
  assert (Hlv : ∀ a, a ≠ x → a ≠ y → leaf_view h4 a = leaf_view h a).
  { intros a Hax Hay. unfold h4. rewrite leaf_view_insert by (rewrite length_app; cbn; lia).
    rewrite decide_False by done. by rewrite leaf_view_alloc, decide_False. }
  destruct Hch as (Hnd & Hall & Hlinked).
  assert (Hxin : x ∈ chain) by (apply Hall; by rewrite Hview).
  assert (Hleafs : ∀ a, a ∈ chain → (a < y)%nat).
  { intros a Ha. apply leaf_view_lt. by eapply linked_live. }
  assert (Hynot : y ∉ chain). { intros Hy%Hleafs. lia. }
  assert (Hk0 : proper (lo x) (Some newKey)).
  { destruct (lookup_lt_is_Some_2 (keys l) 0) as [k0 Hk0]; [lia|].
    destruct (Hin k0) as [Hlo _]; [by eapply list_elem_of_lookup_2|].
    pose proof (Hasc 0%nat mid k0 newKey Hk0 Hup Hmid0). destruct (lo x); cbn in *; lia. }
  assert (Hkhi : below newKey (hi x)). { apply Hin. by eapply list_elem_of_lookup_2. }
  split.
  - exists lo1, hi1, par1. split; [split; cbn [heap root order]|].
    + intros a m Ha. rewrite Hlen4. destruct (decide (a = x)) as [->|Hax].
      * unfold h4 in Ha. rewrite list_lookup_insert_eq in Ha by (rewrite length_app; cbn; lia).
        injection Ha as <-.
        unfold node_ok. cbn [isLeaf keys children values nL with_next with_values with_keys].
        rewrite (Hlo_old x Hx), Hhix, Hleaf. split; [by apply ascending_take|]. split.
        -- intros k (i & Hi)%list_elem_of_lookup_1. apply lookup_take_Some in Hi as [Hi Him].
           split; [apply Hin; by eapply list_elem_of_lookup_2|]. cbn. by apply (Hasc i mid).
        -- rewrite !length_take. lia.
      * destruct (decide (a = y)) as [->|Hay].
        -- unfold h4 in Ha. rewrite list_lookup_insert_ne in Ha by lia.
           rewrite lookup_app_r, Nat.sub_diag in Ha by (unfold y; lia). injection Ha as <-.
           unfold node_ok. cbn [isLeaf keys children values nR].
           rewrite Hloy, Hhiy. split; [by apply ascending_drop|]. split.
           ++ intros k (i & Hi)%list_elem_of_lookup_1. rewrite lookup_drop in Hi.
              split; [|apply Hin; by eapply list_elem_of_lookup_2]. cbn.
              destruct i as [|i].
              ** rewrite Nat.add_0_r in Hi. simplify_eq. lia.
              ** pose proof (Hasc mid (mid + S i)%nat _ _ Hup Hi ltac:(lia)). lia.
           ++ rewrite !length_drop. lia.
        -- unfold h4 in Ha. rewrite list_lookup_insert_ne in Ha by done.
           apply lookup_app_Some in Ha as [Ha|[Hge Ha]].
           2:{ apply list_lookup_singleton_Some in Ha as [Ha _]. unfold y in Hay. lia. }
           assert (Halt : (a < y)%nat) by by eapply lookup_lt_Some.
           eapply node_ok_bound; [|eapply node_ok_ghost; [by apply Hord| | |]].
           ++ unfold y. lia.
           ++ by apply Hlo_old.
           ++ by apply Hhi_old.
           ++ intros Hl' z Hz.
              destruct (ordered_child _ _ _ _ _ _ _ _ Hord Ha Hl' Hz) as [Hzlt Hzp].
              split; [by apply Hlo_old|]. split; [|by apply Hpar_old].
              destruct (decide (z = x)) as [->|Hzc]; [by rewrite pend_eq|].
              rewrite pend_ne by done. by apply Hhi_old.
    + exists r. split; [done|]. split.
      { apply skel_insert_live; apply skel_alloc_live; [|done].
        by rewrite (skel_lookup _ _ _ Hl). }
      assert (Hrlt : (r < y)%nat) by by apply skel_lt.
      split; [by rewrite Hlo_old|]. split; [|by rewrite Hpar_old].
      destruct (decide (r = x)) as [->|Hrc]; [by rewrite pend_eq, Hhiy|].
      rewrite pend_ne by done. by rewrite Hhi_old.
    + split; [by apply NoDup_insert_after|]. split.
      * intros a Ha. destruct (decide (a = y)) as [->|Hay]; [by apply elem_of_insert_after_new|].
        apply elem_of_insert_after_2. destruct (decide (a = x)) as [->|Hax]; [done|].
        apply Hall. by rewrite <- Hlv.
      * apply (linked_split h); [done|done|done| |done].
        intros ks vs nx. rewrite Hview. intros [= <- <- <-]. rewrite Hviewx, Hviewy.
        split; eexists _, _; reflexivity.
    + apply (chain_seg_insert_after lo hi lo1 hi1 None chain None x y newKey); try done.
      * lia.
      * intros a Hax Hay. unfold lo1, hi1. by rewrite !set_at_ne.
      * by apply Hlo_old.
    + rewrite Hlen4. lia.
    + rewrite Hlen4. lia.
    + lia.
    + done.
    + done.
    + by rewrite (Hlo_old x Hx).
    + by rewrite Hhiy.
    + unfold par1. by rewrite set_at_eq, set_at_ne by lia.
    + intros a m Ha Hl' Hin'. destruct (decide (a = x)) as [->|Hax].
      * unfold h4 in Ha. rewrite list_lookup_insert_eq in Ha by (rewrite length_app; cbn; lia).
        injection Ha as <-. cbn in Hl'. congruence.
      * unfold h4 in Ha. rewrite list_lookup_insert_ne in Ha by done.
        apply lookup_app_Some in Ha as [Ha|[Hge Ha]].
        -- destruct (ordered_child _ _ _ _ _ _ _ _ Hord Ha Hl' Hin'). lia.
        -- by apply list_lookup_singleton_Some in Ha as [_ [= <-]].
    + intros Hlup a m Ha Hrt Hskip.
      assert (∃ m0, h !! a = Some (Some m0)) as [m0 Hm0].
      { destruct (decide (a = x)) as [->|Hax]; [by eexists|].
        unfold h4 in Ha. rewrite list_lookup_insert_ne in Ha by done.
        apply lookup_app_Some in Ha as [Ha|[Hge Ha]]; [by eexists|].
        apply list_lookup_singleton_Some in Ha as [Ha _]. exfalso. apply Hskip. f_equal.
        unfold y in *. lia. }
      destruct (Hlup a m0 Hm0 Hrt ltac:(done)) as (p & mp & Hp & Hmp & Hlp & Hain).
      exists p, mp. rewrite Hpar_old by by eapply lookup_lt_Some.
      split; [done|]. split; [|done].
      assert (p ≠ x) by (intros ->; congruence).
      unfold h4. rewrite list_lookup_insert_ne by done. by apply lookup_app_l_Some.
  - apply entries_split; [done|done|done|].
    unfold entries_at. rewrite Hviewx, Hviewy, Hview. symmetry. apply zip_take_drop.
Qed.

(** [mid = (order + 1) / 2] is at least one. *)
Lemma splitLeaf_mid_pos (ord : Z) :
  (3 ≤ ord < 2147483647)%Z → (0 < Z.to_nat (int32 (ord + 1) ÷ 2))%nat.
Proof.
  intros Hord. rewrite int32_id by lia. rewrite Z.quot_div_nonneg by lia.
  assert (2 ≤ (ord + 1) / 2)%Z; [|lia]. apply Z.div_le_lower_bound; lia.
Qed.

Lemma splitLeaf_ord lo hi par chain t x t' :
  sorted_inv lo hi par chain t → (3 ≤ order t < 2147483647)%Z →
  is_Some (leaf_view (heap t) x) →
  splitLeaf gas x t = Done (tt, t') →
  ∃ lo' hi' par' chain',
    sorted_inv lo' hi' par' chain' t'
    ∧ entries (heap t') chain' = entries (heap t) chain
    ∧ order t' = order t
    ∧ (leveled gas t' → counted_but par (λ b, b = x) None t →
       counted_but par' (λ _, False) None t')
    ∧ (uniform (heap t) → uniform (heap t')).
Proof.
  intros Hinv Hbound [[[ks vs] nx] Hview] Hrun.
  destruct (leaf_view_Some _ _ _ _ _ Hview) as (l & Hl & Hleaf & <- & <- & <-).
  unfold splitLeaf in Hrun.
  step Hrun ord t0 H0. apply get_order_inv in H0 as [-> ->].
  set (mid := Z.to_nat (int32 (order t + 1) ÷ 2)) in *.
  step Hrun y t1 H1. apply new_Node_inv in H1 as [-> ->].
  step Hrun l' t2 H2. apply get_node_inv in H2 as [Hl' ->]. cbn [heap] in Hl'.
  rewrite lookup_app_l in Hl' by by eapply lookup_lt_Some.
  rewrite Hl in Hl'. injection Hl' as <-.
  case_bool_decide as Hm; [by apply sfail_Done in Hrun as [? ?]|].
  step Hrun u3 t3 H3. apply put_node_inv in H3. cbn [heap root order] in H3.
  rewrite insert_fresh in H3.
  step Hrun u4 t4 H4. apply put_node_inv in H4. subst t3. cbn [heap root order] in H4.
  step Hrun newKey t5 H5. apply sfail_Done in H5 as [Hup%at_inv ->].
  rewrite lookup_drop, Nat.add_0_r in Hup.
  step Hrun u6 t6 H6. destruct u6.
  pose proof (updateSubtreeSize_same_nodes _ _ _ H6) as (Hs6 & Hr6 & Ho6).
  step Hrun u7 t7 H7. destruct u7.
  pose proof (updateSubtreeSize_same_nodes _ _ _ H7) as (Hs7 & Hr7 & Ho7).
  destruct (leaf_split_pending lo hi par chain t x l mid newKey Hinv Hl Hleaf
              (splitLeaf_mid_pos _ Hbound) Hup) as [(lo1 & hi1 & par1 & Hpe & Hlup1) Hent].
  rewrite <- H4 in Hpe.
  assert (Hpe6 : pending lo1 hi1 par1 (insert_after x (length (heap t)) chain) x
                   (length (heap t)) newKey t6).
  { by apply (pending_same_nodes _ _ _ _ _ _ _ t4). }
  assert (Hpe7 : pending lo1 hi1 par1 (insert_after x (length (heap t)) chain) x
                   (length (heap t)) newKey t7).
  { by apply (pending_same_nodes _ _ _ _ _ _ _ t6). }
  destruct (split_tail_ord gas gas _ _ _ _ _ _ _ _ _ Hpe7 Hrun)
    as (lo' & hi' & par' & Hinv' & Hlv' & Ho' & Hcnt' & Huni').
  exists lo', hi', par', (insert_after x (length (heap t)) chain).
  split; [done|]. split; [|split; [|split]].
  4:{ intros Huni.
      assert (Hs47 : same_nodes (heap t4) (heap t7)) by by eapply same_nodes_trans.
      assert (Hxlt : (x < length (heap t))%nat) by by eapply lookup_lt_Some.
      apply Huni'.
      - apply (uniform_same_nodes _ _ Hs47). subst t4. cbn [heap].
        apply (uniform_refill _ x l); [by apply lookup_app_l_Some|done|done|].
        apply uniform_alloc; [done| |].
        + intros p pn z Hp Hlp Hz. destruct Hinv as [Hord0 _ _ _].
          by destruct (ordered_child _ _ _ _ _ _ _ _ Hord0 Hp Hlp Hz).
        + intros Hnl. cbn in Hnl. done.
      - rewrite !(leafness_same_nodes _ _ _ Hs47). subst t4. cbn [heap].
        unfold leafness.
        rewrite list_lookup_insert_eq by (rewrite length_app; cbn; lia).
        rewrite list_lookup_insert_ne by lia.
        rewrite lookup_app_r, Nat.sub_diag by lia. cbn. by rewrite Hleaf. }
  3:{ intros Hlev [Hlu Hsz]. apply Hcnt'; [done|].
      set (y := length (heap t)) in *.
      set (nL := with_next (Some y) (with_values (take mid (values l))
                                       (with_keys (take mid (keys l)) l))) in *.
      set (nR := mkNode (V:=V) true (drop mid (keys l)) [] (drop mid (values l)) (next l) 0)
        in *.
      assert (Hxlt : (x < y)%nat) by by eapply lookup_lt_Some.
      split.
      { rewrite Hr7, Hr6, H4. cbn [root].
        apply (linked_up_same_nodes _ (heap t4)); [by eapply same_nodes_trans|].
        subst t4. cbn [heap]. by apply Hlup1. }
      assert (Hsz4 : sized_but (λ b, b = x ∨ b = y) (heap t4)).
      { subst t4. cbn [heap].
        pose proof (sized_but_alloc (λ b, b = x) lo hi hi par (heap t) nR
                      (so_ordered _ _ _ _ _ Hinv) Hsz) as Hsa.
        pose proof (sized_but_replace _ (heap t ++ [Some nR]) x l nL
                      (lookup_app_l_Some _ _ _ _ Hl) eq_refl Hsa) as Hsr.
        eapply sized_but_mono; [|exact Hsr]. cbn. intros b [[->| ->]| ->]; auto. }
      assert (Hsz6 : sized_but (λ b, b = y ∨ par1 x = Some b) (heap t6)).
      { eapply sized_but_mono;
          [|eapply (updateSubtreeSize_sized par1 _ x t4 t6); [| |exact Hsz4|exact H6]].
        - intros b [[[->| ->] ?]|?]; auto. done.
        - intros p m Hp Hlp Hin.
          by destruct (ordered_child _ _ _ _ _ _ _ _ (pe_ordered _ _ _ _ _ _ _ _ Hpe) Hp Hlp Hin).
        - intros m Hmx Hlm. subst t4. cbn [heap] in Hmx.
          rewrite list_lookup_insert_eq in Hmx by (rewrite length_app; cbn; lia).
          injection Hmx as <-. cbn in Hlm. congruence. }
      eapply sized_but_mono;
        [|eapply (updateSubtreeSize_sized par1 _ y t6 t7); [| |exact Hsz6|exact H7]].
      - intros b [[[->|?] ?]|Hb]; [done|done|].
        rewrite (pe_par _ _ _ _ _ _ _ _ Hpe) in Hb. done.
      - intros p m Hp Hlp Hin.
        by destruct (ordered_child _ _ _ _ _ _ _ _ (pe_ordered _ _ _ _ _ _ _ _ Hpe6) Hp Hlp Hin).
      - intros m Hmx Hlm.
        destruct (same_nodes_lookup _ _ _ _ Hs6 Hmx) as (m4 & Hm4 & Hl4 & _).
        subst t4. cbn [heap] in Hm4. rewrite list_lookup_insert_ne in Hm4 by lia.
        rewrite lookup_app_r, Nat.sub_diag in Hm4 by (unfold y; lia).
        injection Hm4 as <-. cbn in Hl4. congruence. }
  - rewrite <- Hent. rewrite (entries_ext _ _ _ Hlv').
    rewrite (entries_ext (heap t6) (heap t7)) by (intros a; by apply same_nodes_leaf_view).
    rewrite (entries_ext (heap t4) (heap t6)) by (intros a; by apply same_nodes_leaf_view).
    by subst t4.
  - rewrite Ho', Ho7, Ho6, H4. done.
Qed.

End SplitLeafOrder.

(** ** [insert] keeps the order *)

Section InsertOrder.
Context {V : Type}.
Context (gas : nat).
Implicit Types (h : list (option (Node Z V))) (n : Node Z V) (t : BPlusTree Z V).

(** The descent ends in the leaf whose bounds hold the key. *)
Lemma descend_ord lo hi par h key fuel : ∀ a leaf,
  ordered lo hi hi par h → above (lo a) key → below key (hi a) →
  descend fuel h a key = Done leaf →
  is_Some (leaf_view h leaf) ∧ above (lo leaf) key ∧ below key (hi leaf).
Proof.
  induction fuel as [|fuel IH]; intros a leaf Hord Hlo Hhi; [done|]. cbn [descend].
  intros (n & Hn%load_inv & Hrest)%obind_Done.
  destruct (isLeaf n) eqn:Hleaf.
  - injection Hrest as <-. split; [|done]. by rewrite (leaf_view_lookup _ _ _ Hn Hleaf).
  - apply obind_Done in Hrest as (c & Hc%at_inv & Hrest).
    destruct (Hord a n Hn) as (Hasc & Hin & Hsh). rewrite Hleaf in Hsh.
    destruct Hsh as [Hlen Hcs]. destruct (Hcs _ c Hc) as (_ & Hl & Hu & _).
    destruct (child_covers_key (keys n) (lo a) (hi a) key _ _ Hasc Hlo Hhi Hl Hu).
    by apply (IH c).
Qed.

(** The entries along the chain, around the leaf [leaf]. *)
Lemma entries_around lo hi par chain t leaf key :
  sorted_inv lo hi par chain t → is_Some (leaf_view (heap t) leaf) →
  above (lo leaf) key → below key (hi leaf) →
  ∃ c1 c2, chain = c1 ++ leaf :: c2 ∧ (leaf ∉ c1) ∧ (leaf ∉ c2)
    ∧ (∀ e, e ∈ entries (heap t) c1 → (e.1 < key)%Z)
    ∧ (∀ e, e ∈ entries (heap t) c2 → (key < e.1)%Z).
Proof.
  intros [Hord _ (Hnd & Hall & Hlinked) Hseg] Hlive Hlo Hhi.
  destruct (list_elem_of_split _ _ (Hall _ Hlive)) as (c1 & c2 & ->).
  exists c1, c2. split; [done|].
  apply NoDup_app in Hnd as (_ & Hdisj & [Hnot2 _]%NoDup_cons).
  split; [intros Hin; apply (Hdisj _ Hin); by left|]. split; [done|].
  apply chain_seg_app in Hseg as (mid & Hseg1 & Hseg2 & Hmid_some).
  cbn [chain_seg] in Hseg2. destruct Hseg2 as (Hmid & _ & Hsome & Hseg2). split.
  - intros e He. destruct c1 as [|a c1]; [by apply elem_of_nil in He|].
    destruct Hmid_some as [u0 ->]; [done|done|].
    pose proof (entries_below _ _ _ _ _ _ _ _ u0 e Hord Hseg1 eq_refl He).
    rewrite Hmid in Hlo. cbn in Hlo. lia.
  - intros e He. destruct c2 as [|a c2]; [by apply elem_of_nil in He|].
    destruct Hsome as [f0 Hf]; [done|].
    pose proof (entries_above _ _ _ _ _ _ _ _ f0 e Hord Hseg2 Hf He).
    rewrite Hf in Hhi. cbn in Hhi. lia.
Qed.

(** The leaf [leaf] gets the keys and values of [n'], which fit its
    bounds: the tree stays in order, and the entries change in that leaf
    only. *)
Lemma leaf_refill_ord lo hi par chain t leaf n n' :
  sorted_inv lo hi par chain t →
  heap t !! leaf = Some (Some n) → isLeaf n = true →
  isLeaf n' = true → next n' = next n → length (values n') = length (keys n') →
  ascending (keys n') →
  (∀ k, k ∈ keys n' → above (lo leaf) k ∧ below k (hi leaf)) →
  let t1 := mkTree (<[leaf := Some n']> (heap t)) (root t) (order t) in
  sorted_inv lo hi par chain t1
  ∧ leaf_view (heap t1) leaf = Some (keys n', values n', next n')
  ∧ ∀ c1 c2, chain = c1 ++ leaf :: c2 → leaf ∉ c1 → leaf ∉ c2 →
      entries (heap t1) chain
      = entries (heap t) c1 ++ zip (keys n') (values n') ++ entries (heap t) c2.
Proof.
  intros [Hord (r & Hr & Hrlive & Hrest) (Hnd & Hall & Hlinked) Hseg] Hn Hleaf Hleaf' Hnext
    Hlen Hasc Hin t1.
  assert (Hlt : (leaf < length (heap t))%nat) by by eapply lookup_lt_Some.
  assert (Hview : leaf_view (heap t) leaf = Some (keys n, values n, next n)).
  { by apply leaf_view_lookup. }
  assert (Hview1 : leaf_view (heap t1) leaf = Some (keys n', values n', next n')).
  { unfold t1. cbn [heap]. rewrite leaf_view_insert, decide_True by done. by rewrite Hleaf'. }
  assert (Hvo : ∀ a, a ≠ leaf → leaf_view (heap t1) a = leaf_view (heap t) a).
  { intros a Ha. unfold t1. cbn [heap]. by rewrite leaf_view_insert, decide_False. }
  split; [split|split; [done|]].
  - unfold t1. cbn [heap]. apply ordered_update; [done|].
    split; [done|]. rewrite Hleaf'. split; [done|done].
  - exists r. unfold t1. cbn [heap root]. split; [done|]. split; [|done].
    apply skel_insert_live; [by rewrite (skel_lookup _ _ _ Hn)|done].
  - split; [done|]. split.
    + intros a Ha. destruct (decide (a = leaf)) as [->|Hne]; [apply Hall; by rewrite Hview|].
      apply Hall. by rewrite <- Hvo.
    + apply (linked_refill (heap t) _ _ leaf); [done| |done].
      intros ks vs nx. rewrite Hview. intros [= <- <- <-]. rewrite Hview1, Hnext.
      eexists _, _. reflexivity.
  - done.
  - intros c1 c2 -> Hc1 Hc2. rewrite entries_app, entries_cons.
    rewrite (entries_agree (heap t) (heap t1) c1) by (intros a Ha; apply Hvo; by intros ->).
    rewrite (entries_agree (heap t) (heap t1) c2) by (intros a Ha; apply Hvo; by intros ->).
    unfold entries_at. by rewrite Hview1.
Qed.

Lemma insert_ord lo hi par chain t key (value : V) t' :
  sorted_inv lo hi par chain t → (3 ≤ order t < 2147483647)%Z →
  insert gas key value t = Done (tt, t') →
  ∃ lo' hi' par' chain',
    sorted_inv lo' hi' par' chain' t'
    ∧ entries (heap t') chain' = ins_entry key value (entries (heap t) chain)
    ∧ order t' = order t
    ∧ (leveled gas t' → counted_but par (λ _, False) None t →
       counted_but par' (λ _, False) None t')
    ∧ (uniform (heap t) → uniform (heap t')).
Proof.
  intros Hinv Hbound Hrun.
  pose proof Hinv as [Hord (r & Hr & Hrlive & Hlor & Hhir & Hparr) Hch Hseg].
  unfold insert in Hrun.
  step Hrun leaf t0 H0. apply sread_Done in H0 as [Hdesc ->]. rewrite Hr in Hdesc.
  destruct (descend_ord lo hi par (heap t) key gas r leaf Hord) as (Hlive & Hlo & Hhi);
    [by rewrite Hlor|by rewrite Hhir|done|].
  destruct Hlive as [[[ks vs] nx] Hview].
  destruct (leaf_view_Some _ _ _ _ _ Hview) as (n & Hn & Hleaf & <- & <- & <-).
  step Hrun n0 t0 H0. apply get_node_inv in H0 as [Hn0 ->].
  rewrite Hn in Hn0. injection Hn0 as <-.
  destruct (Hord leaf n Hn) as (Hasc & Hin & Hlen). rewrite Hleaf in Hin, Hlen.
  destruct (entries_around lo hi par chain t leaf key Hinv) as (c1 & c2 & Hsplit & Hc1 & Hc2
    & Hbefore & Hafter); [by rewrite Hview|done|done|].
  assert (Hent : entries (heap t) chain
                 = entries (heap t) c1 ++ zip (keys n) (values n) ++ entries (heap t) c2).
  { rewrite Hsplit, entries_app, entries_cons. unfold entries_at. by rewrite Hview. }
  pose proof (lower_bound_le (keys n) key) as Hidx.
  pose proof (lower_bound_spec (keys n) key Hasc) as [Hlow Hhigh].
  pose proof (found_at_lower_bound (keys n) key Hasc) as Hfound.
  set (index := lower_bound (keys n) key) in *.
  step Hrun u1 t1 H1.
  assert (∃ n', t1 = mkTree (<[leaf := Some n']> (heap t)) (root t) (order t)
            ∧ subtree_size n' = subtree_size n
            ∧ isLeaf n' = true ∧ next n' = next n ∧ length (values n') = length (keys n')
            ∧ ascending (keys n')
            ∧ (∀ k, k ∈ keys n' → above (lo leaf) k ∧ below k (hi leaf))
            ∧ ins_entry key value (zip (keys n) (values n) ++ entries (heap t) c2)
              = zip (keys n') (values n') ++ entries (heap t) c2)
    as (n' & -> & Hsize' & Hleaf' & Hnext & Hlen' & Hasc' & Hin' & Hins).
  { destruct (found_at (keys n) index key).
    - step H1 vals t2 H2. apply sfail_Done in H2 as [Hvals%at_inv ->].
      apply put_node_inv in H1. eexists. split; [exact H1|]. split; [done|].
      cbn [isLeaf next values keys with_values]. split; [done|]. split; [done|].
      split; [by rewrite length_insert|]. split; [done|]. split; [done|].
      by apply ins_entry_leaf_found.
    - case_bool_decide as Hi; [by apply sfail_Done in H1 as [? ?]|].
      apply put_node_inv in H1. eexists. split; [exact H1|]. split; [done|].
      cbn [isLeaf next values keys with_values with_keys]. split; [done|]. split; [done|].
      split; [rewrite !length_insert_at by lia; lia|]. split.
      { apply ascending_insert_at; [done|done|done|].
        intros j a Hj Hij. assert (key ≠ a) by (intros ->; apply Hfound; by eapply list_elem_of_lookup_2).
        pose proof (Hhigh j a Hj Hij). lia. }
      split. { intros k [->|Hk]%elem_of_insert_at; [done|by apply Hin]. }
      by apply ins_entry_leaf_new. }
  destruct (leaf_refill_ord lo hi par chain t leaf n n' Hinv Hn Hleaf Hleaf' Hnext Hlen' Hasc' Hin')
    as (Hinv1 & Hview1 & Hent1).
  set (t1 := mkTree (<[leaf := Some n']> (heap t)) (root t) (order t)) in *.
  assert (Hent' : entries (heap t1) chain = ins_entry key value (entries (heap t) chain)).
  { rewrite (Hent1 c1 c2 Hsplit Hc1 Hc2), Hent, ins_entry_app_l by done. by rewrite Hins. }
  assert (Hcnt1 : counted_but par (λ _, False) None t → counted_but par (λ b, b = leaf) None t1).
  { intros [Hlu Hsz]. split; unfold t1; cbn [heap root].
    - intros a m Ha Hrt _.
      assert (∃ m0, heap t !! a = Some (Some m0)) as [m0 Hm0].
      { destruct (decide (a = leaf)) as [->|Hal]; [by eexists|].
        rewrite list_lookup_insert_ne in Ha by done. by eexists. }
      destruct (Hlu a m0 Hm0 Hrt ltac:(done)) as (p & mp & Hp & Hmp & Hlp & Hain).
      exists p, mp. split; [done|]. split; [|done].
      assert (p ≠ leaf) by (intros ->; congruence).
      by rewrite list_lookup_insert_ne.
    - eapply sized_but_mono; [|apply (sized_but_replace _ _ leaf n n' Hn Hsize' Hsz)].
      cbn. intros b [?| ->]; done. }
  assert (Huni1 : uniform (heap t) → uniform (heap t1)).
  { intros Huni. unfold t1. cbn [heap]. by apply (uniform_refill _ leaf n). }
  step Hrun n1 t2 H2. apply get_node_inv in H2 as [Hn1 ->].
  step Hrun ord t2 H2. apply get_order_inv in H2 as [-> ->].
  destruct (order t1 <=? Z.of_nat (length (keys n1)))%Z.
  - destruct (splitLeaf_ord gas lo hi par chain t1 leaf t' Hinv1 Hbound) as
      (lo' & hi' & par' & chain' & Hinv' & Hent2 & Ho' & Hcnt' & Huni'); [by rewrite Hview1|done|].
    exists lo', hi', par', chain'. split; [done|]. split; [congruence|]. split; [done|].
    split; [|by intros Huni; apply Huni', Huni1].
    intros Hlev Hcnt. by apply Hcnt', Hcnt1.
  - pose proof (updateSubtreeSizesUpwards_same_nodes _ _ _ _ Hrun) as (Hs & Hr' & Ho).
    exists lo, hi, par, chain. split; [by eapply sorted_inv_same_nodes|].
    split; [|split; [done|split]].
    3:{ intros Huni. apply (uniform_same_nodes _ _ Hs). by apply Huni1. }
    + rewrite <- Hent'. apply entries_ext. intros a. by apply same_nodes_leaf_view.
    + intros (lvl & H0 & Hsh' & HH0) Hcnt. destruct (Hcnt1 Hcnt) as [Hlu1 Hsz1].
      destruct Hinv1 as [Hord1 (r1 & Hr1 & Hrlive1 & _ & _ & Hparr1) _ _].
      rewrite Hr1 in Hlu1. split.
      { rewrite Hr', Hr1. by apply (linked_up_same_nodes _ _ _ _ _ Hs). }
      apply (upwards_sized gas lvl H0 lo hi par r1 gas leaf t1 t'); try done.
      by apply (same_nodes_shaped _ _ _ _ (same_nodes_sym _ _ Hs)).
Qed.

End InsertOrder.

(** ** Entry lists *)

Section EntryFacts.
Context {V : Type}.
Implicit Types (m : list (Z * list V)).

Lemma ascending_cons k ks :
  ascending (k :: ks) ↔ (∀ a, a ∈ ks → (k < a)%Z) ∧ ascending ks.
Proof.
  split.
  - intros Hasc. split.
    + intros a (i & Hi)%list_elem_of_lookup_1. apply (Hasc 0%nat (S i)); [done|done|lia].
    + intros i j a b Hi Hj Hij. apply (Hasc (S i) (S j)); [done|done|lia].
  - intros [Hk Hasc] [|i] [|j] a b Hi Hj Hij; try lia.
    + cbn in Hi, Hj. injection Hi as <-. apply Hk. by eapply list_elem_of_lookup_2.
    + cbn in Hi, Hj. apply (Hasc i j); [done|done|lia].
Qed.

Lemma ins_entry_keys key (value : V) m k :
  k ∈ (ins_entry key value m).*1 → k = key ∨ k ∈ m.*1.
Proof.
  induction m as [|[k0 vals] m IH]; cbn.
  - intros [->|?%elem_of_nil]%elem_of_cons; [by left|done].
  - destruct (key <? k0)%Z; [|destruct (key =? k0)%Z]; cbn; rewrite !elem_of_cons.
    + intros [->|[->|?]]; auto.
    + intros [->|?]; auto.
    + intros [->|[->|?]%IH]; auto.
Qed.

Lemma ins_entry_ascending key (value : V) m :
  ascending m.*1 → ascending (ins_entry key value m).*1.
Proof.
  induction m as [|[k0 vals] m IH]; cbn [ins_entry].
  - intros _. cbn. apply ascending_cons. split; [by intros a ?%elem_of_nil|apply ascending_nil].
  - cbn [fmap list_fmap fst]. intros [Hk Hasc]%ascending_cons.
    destruct (Z.ltb_spec key k0); [|destruct (Z.eqb_spec key k0)]; cbn [fmap list_fmap fst].
    + apply ascending_cons. split; [|by apply ascending_cons].
      intros a [->|Ha%Hk]%elem_of_cons; lia.
    + by apply ascending_cons.
    + apply ascending_cons. split; [|by apply IH].
      intros a [->|Ha]%ins_entry_keys; [lia|by apply Hk].
Qed.

Lemma find_entry_None key m : key ∉ m.*1 → find_entry key m = None.
Proof.
  induction m as [|[k0 vals] m IH]; [done|]. cbn. intros [Hne Hnot]%not_elem_of_cons.
  destruct (Z.eqb_spec k0 key); [done|by apply IH].
Qed.

Lemma find_entry_ins_entry key k (value : V) m :
  ascending m.*1 →
  find_entry key (ins_entry k value m)
  = if decide (k = key) then Some (default [] (find_entry key m) ++ [value])
    else find_entry key m.
Proof.
  induction m as [|[k0 vals] m IH]; cbn [ins_entry].
  - intros _. cbn. destruct (Z.eqb_spec k key), (decide (k = key)); done.
  - cbn [fmap list_fmap fst]. intros [Hk Hasc]%ascending_cons.
    destruct (Z.ltb_spec k k0); [|destruct (Z.eqb_spec k k0) as [->|]]; cbn [find_entry].
    + destruct (Z.eqb_spec k key) as [->|], (decide _); try done.
      rewrite (proj2 (Z.eqb_neq k0 key)) by lia.
      rewrite find_entry_None; [done|]. intros Hin%Hk. lia.
    + destruct (Z.eqb_spec k0 key), (decide _); done.
    + rewrite IH by done. destruct (Z.eqb_spec k0 key), (decide _); try done. lia.
Qed.

Lemma entries_of_snoc (pairs : list (Z * V)) p :
  entries_of (pairs ++ [p]) = ins_entry p.1 p.2 (entries_of pairs).
Proof. unfold entries_of. by rewrite foldl_app. Qed.

Lemma entries_of_ascending (pairs : list (Z * V)) : ascending (entries_of pairs).*1.
Proof.
  induction pairs as [|p pairs IH] using rev_ind; [apply ascending_nil|].
  rewrite entries_of_snoc. by apply ins_entry_ascending.
Qed.

(** An entry list built by insertions holds under each key the values
    inserted under it, in insertion order. *)
Lemma find_entry_entries_of key (pairs : list (Z * V)) :
  find_entry key (entries_of pairs)
  = match inserted_under key pairs with [] => None | vals => Some vals end.
Proof.
  induction pairs as [|[k v] pairs IH] using rev_ind; [done|].
  rewrite entries_of_snoc, find_entry_ins_entry by apply entries_of_ascending.
  unfold inserted_under in *. rewrite filter_app, fmap_app. cbn [fst snd].
  rewrite IH. destruct (decide (k = key)) as [->|Hne].
  - rewrite filter_cons_True by done. cbn.
    destruct ((filter (λ p, p.1 = key) pairs).*2) as [|v0 vs0]; done.
  - rewrite filter_cons_False by done. cbn. by rewrite app_nil_r.
Qed.

Lemma find_entry_elem key vals m :
  ascending m.*1 → (key, vals) ∈ m ↔ find_entry key m = Some vals.
Proof.
  induction m as [|[k0 vs0] m IH]; [by split; [intros ?%elem_of_nil|]|].
  cbn [fmap list_fmap fst]. intros [Hk Hasc]%ascending_cons. cbn [find_entry].
  rewrite elem_of_cons. destruct (Z.eqb_spec k0 key) as [->|Hne]; split.
  - intros [[= <-]|Hin]; [done|]. exfalso.
    assert (key ∈ m.*1) by (apply list_elem_of_fmap; by exists (key, vals)).
    pose proof (Hk _ H). lia.
  - intros [= ->]. by left.
  - intros [[= ? ?]|Hin]; [done|]. by apply IH.
  - intros Hf. right. by apply IH.
Qed.

End EntryFacts.

(** ** The queries of a tree in order *)

Section RangeFacts.
Context {V : Type}.
Implicit Types (m : list (Z * list V)).

Lemma values_in_range_app Smin Smax m1 m2 :
  values_in_range Smin Smax (m1 ++ m2)
  = values_in_range (V:=V) Smin Smax m1 ++ values_in_range Smin Smax m2.
Proof. unfold values_in_range. by rewrite filter_app, fmap_app, concat_app. Qed.

Lemma values_in_range_nil Smin Smax m :
  (∀ e, e ∈ m → (e.1 < Smin)%Z ∨ (Smax < e.1)%Z) → values_in_range (V:=V) Smin Smax m = [].
Proof.
  unfold values_in_range. induction m as [|e m IH]; intros Hout; [done|].
  rewrite filter_cons_False.
  - apply IH. intros e' He'. apply Hout. by right.
  - intros [? ?]. destruct (Hout e ltac:(by left)); lia.
Qed.

Lemma find_entry_app key m1 m2 :
  find_entry key (m1 ++ m2)
  = match find_entry key m1 with Some vals => Some vals | None => find_entry key m2 end.
Proof.
  induction m1 as [|[k vals] m1 IH]; [done|]. cbn. by destruct (k =? key)%Z.
Qed.

Lemma find_entry_zip_at key (ks : list Z) : ∀ (vs : list (list V)) i,
  ascending ks → length vs = length ks → ks !! i = Some key →
  find_entry key (zip ks vs) = vs !! i.
Proof.
  induction ks as [|k ks IH]; intros vs i Hasc Hlen Hi; [done|].
  destruct vs as [|vals vs]; [done|]. apply ascending_cons in Hasc as [Hk Hasc].
  cbn [zip zip_with find_entry]. destruct i as [|i].
  - injection Hi as ->. by rewrite Z.eqb_refl.
  - cbn in Hi. pose proof (Hk key ltac:(by eapply list_elem_of_lookup_2)).
    rewrite (proj2 (Z.eqb_neq k key)) by lia. cbn [lookup list_lookup].
    apply IH; [done|cbn in Hlen; lia|done].
Qed.

Lemma find_entry_zip key (ks : list Z) (vs : list (list V)) :
  ascending ks → length vs = length ks →
  find_entry key (zip ks vs)
  = if found_at ks (lower_bound ks key) key then vs !! lower_bound ks key else None.
Proof.
  intros Hasc Hlen. pose proof (found_at_lower_bound ks key Hasc) as Hf.
  destruct (found_at ks (lower_bound ks key) key).
  - by apply find_entry_zip_at.
  - apply find_entry_None. rewrite fst_zip by lia. done.
Qed.

End RangeFacts.

Section QueryOrder.
Context {V : Type}.
Context (gas : nat).
Implicit Types (h : list (option (Node Z V))) (n : Node Z V) (t : BPlusTree Z V).

(** Two chains of the same store are equally long. *)
Lemma chained_length h c1 c2 : chained h c1 → chained h c2 → (length c2 ≤ length c1)%nat.
Proof.
  intros (_ & Hall & _) (Hnd & _ & Hlinked). apply submseteq_length, NoDup_submseteq; [done|].
  intros a Ha. apply Hall. by eapply linked_live.
Qed.

Lemma scan_leaf_exact Smin Smax (vs : list (list V)) : ∀ (ks : list Z) i results,
  ascending ks → length vs = (i + length ks)%nat →
  ∃ stop, scan_leaf ks vs i Smin Smax results
          = Done (results ++ values_in_range Smin Smax (zip ks (drop i vs)), stop)
        ∧ (stop = true → ∃ k, k ∈ ks ∧ (Smax < k)%Z).
Proof.
  induction ks as [|key ks IH]; intros i results Hasc Hlen.
  { exists false. cbn. by rewrite app_nil_r. }
  apply ascending_cons in Hasc as [Hk Hasc]. cbn [scan_leaf].
  change (klt Smax key) with (Smax <? key)%Z.
  change (kle Smin key) with (Smin <=? key)%Z. change (kle key Smax) with (key <=? Smax)%Z.
  destruct (at_lt vs i) as (vals & Hat & Hvals); [cbn in Hlen; lia|].
  assert (Hdrop : drop i vs = vals :: drop (S i) vs) by by apply drop_S.
  rewrite Hdrop. cbn [zip zip_with].
  destruct (Z.ltb_spec Smax key) as [Hgt|Hle].
  { exists true. split; [|intros _; exists key; split; [by left|done]].
    rewrite values_in_range_nil; [by rewrite app_nil_r|].
    intros e [->|He]%elem_of_cons; [by right|]. right.
    apply zip_key_lookup in He as [j Hj].
    pose proof (Hk _ (list_elem_of_lookup_2 _ _ _ Hj)). lia. }
  destruct (Z.leb_spec Smin key) as [Hge|Hlt]; cbn [andb].
  - rewrite (proj2 (Z.leb_le key Smax)) by lia. rewrite Hat. cbn [mbind outcome_bind obind].
    destruct (IH (S i) (results ++ vals) Hasc) as (stop & -> & Hstop); [cbn in Hlen; lia|].
    exists stop. split.
    + unfold values_in_range at 2. rewrite filter_cons_True by (cbn; lia).
      cbn [fmap list_fmap snd concat]. by rewrite app_assoc.
    + intros Hs. destruct (Hstop Hs) as (k & Hin & Hgt). exists k. split; [by right|done].
  - destruct (IH (S i) results Hasc) as (stop & -> & Hstop); [cbn in Hlen; lia|].
    exists stop. split.
    + unfold values_in_range at 2. rewrite filter_cons_False by (cbn; lia). done.
    + intros Hs. destruct (Hstop Hs) as (k & Hin & Hgt). exists k. split; [by right|done].
Qed.

Lemma walk_leaves_exact lo hi par h Smin Smax : ∀ suffix fuel results from,
  ordered lo hi hi par h → linked h suffix → chain_seg lo hi from suffix None →
  (length suffix < fuel)%nat →
  walk_leaves fuel h (head suffix) Smin Smax results
  = Done (results ++ values_in_range Smin Smax (entries h suffix)).
Proof.
  intros suffix. induction suffix as [|a rest IH]; intros fuel results from Hord Hlinked Hseg Hfuel.
  { destruct fuel as [|fuel]; [cbn in Hfuel; lia|]. cbn. by rewrite app_nil_r. }
  destruct fuel as [|fuel]; [lia|]. destruct Hlinked as [(ks & vs & Hview) Hrest].
  destruct (leaf_view_Some _ _ _ _ _ Hview) as (n & Hn & Hleaf & <- & <- & Hnext).
  destruct (Hord a n Hn) as (Hasc & Hin & Hlen). rewrite Hleaf in Hin, Hlen.
  cbn [chain_seg] in Hseg. destruct Hseg as (_ & _ & Hsome & Hseg).
  cbn [walk_leaves head]. rewrite (load_Done _ _ _ Hn). cbn [mbind outcome_bind obind].
  destruct (scan_leaf_exact Smin Smax (values n) (keys n) 0 results Hasc Hlen)
    as (stop & -> & Hstop). cbn [mbind outcome_bind obind]. rewrite drop_0.
  rewrite entries_cons, values_in_range_app. unfold entries_at at 1. rewrite Hview.
  destruct stop.
  - destruct (Hstop eq_refl) as (k & Hk & Hgt).
    rewrite (values_in_range_nil _ _ (entries h rest)); [by rewrite app_nil_r|].
    intros e He. right. destruct rest as [|b rest]; [by apply elem_of_nil in He|].
    destruct Hsome as [f0 Hf]; [done|].
    pose proof (entries_above _ _ _ _ _ _ _ _ f0 e Hord Hseg Hf He).
    destruct (Hin k Hk) as [_ Hb]. rewrite Hf in Hb. cbn in Hb. lia.
  - rewrite Hnext, (IH fuel _ (hi a)), app_assoc; [done|done|done|done|cbn in Hfuel; lia].
Qed.

Lemma rangeQuery_exact lvl H0 chain0 lo hi par chain t Smin Smax :
  tree_inv lvl H0 chain0 t → sorted_inv lo hi par chain t →
  (H0 < gas)%nat → (length chain0 < gas)%nat →
  rangeQuery gas Smin Smax t = Done (values_in_range Smin Smax (entries (heap t) chain)).
Proof.
  intros [_ (r & Hroot & Hrlive) Hsh Hch0] Hinv Hgas Hlen.
  pose proof Hinv as [Hord (r' & Hr' & _ & Hlor & Hhir & _) Hch Hseg].
  rewrite Hroot in Hr'. injection Hr' as <-.
  assert (Hrb : (lvl r ≤ H0)%nat).
  { destruct Hrlive as [[[[??]?]?] Hr]. by destruct (Hsh _ _ _ _ _ Hr). }
  unfold rangeQuery. rewrite Hroot.
  destruct (descend_spec lvl H0 (heap t) gas r Smin Hsh Hrlive ltac:(lia))
    as (leaf & Hdesc & _ & Hview). rewrite Hdesc. cbn [mbind outcome_bind obind].
  destruct (descend_ord lo hi par (heap t) Smin gas r leaf Hord) as (_ & Hlo & Hhi);
    [by rewrite Hlor|by rewrite Hhir|done|].
  destruct (entries_around lo hi par chain t leaf Smin Hinv Hview Hlo Hhi)
    as (c1 & c2 & -> & Hc1 & Hc2 & Hbefore & _).
  apply chain_seg_app in Hseg as (mid & _ & Hseg2 & _).
  pose proof (chained_length _ _ _ Hch0 Hch) as Hlen2.
  destruct Hch as (_ & _ & Hlinked).
  pose proof (walk_leaves_exact lo hi par (heap t) Smin Smax (leaf :: c2) gas [] mid Hord)
    as Hwalk. cbn [head] in Hwalk. rewrite Hwalk.
  - rewrite entries_app, values_in_range_app, (values_in_range_nil _ _ (entries (heap t) c1)).
    + done.
    + intros e He. left. by apply Hbefore.
  - by eapply linked_app_r.
  - done.
  - rewrite length_app in Hlen2. cbn in *. lia.
Qed.

(** What [searchAll] and [search] read in the leaf they reach. *)
Lemma find_in_tree lvl H0 chain0 lo hi par chain t key :
  tree_inv lvl H0 chain0 t → sorted_inv lo hi par chain t → (H0 < gas)%nat →
  ∃ r leaf n, root t = Some r ∧ descend gas (heap t) r key = Done leaf
    ∧ heap t !! leaf = Some (Some n)
    ∧ length (values n) = length (keys n)
    ∧ find_entry key (entries (heap t) chain)
      = if found_at (keys n) (lower_bound (keys n) key) key
        then values n !! lower_bound (keys n) key else None.
Proof.
  intros [_ (r & Hroot & Hrlive) Hsh Hch0] Hinv Hgas.
  pose proof Hinv as [Hord (r' & Hr' & _ & Hlor & Hhir & _) Hch Hseg].
  rewrite Hroot in Hr'. injection Hr' as <-.
  assert (Hrb : (lvl r ≤ H0)%nat).
  { destruct Hrlive as [[[[??]?]?] Hr]. by destruct (Hsh _ _ _ _ _ Hr). }
  destruct (descend_spec lvl H0 (heap t) gas r key Hsh Hrlive ltac:(lia))
    as (leaf & Hdesc & _ & Hview).
  destruct (descend_ord lo hi par (heap t) key gas r leaf Hord) as (_ & Hlo & Hhi);
    [by rewrite Hlor|by rewrite Hhir|done|].
  destruct (entries_around lo hi par chain t leaf key Hinv Hview Hlo Hhi)
    as (c1 & c2 & -> & Hc1 & Hc2 & Hbefore & Hafter).
  destruct Hview as [[[ks vs] nx] Hview].
  destruct (leaf_view_Some _ _ _ _ _ Hview) as (n & Hn & Hleaf & <- & <- & <-).
  destruct (Hord leaf n Hn) as (Hasc & Hin & Hlen). rewrite Hleaf in Hlen.
  exists r, leaf, n. split; [done|]. split; [done|]. split; [done|]. split; [done|].
  rewrite entries_app, entries_cons, !find_entry_app. unfold entries_at. rewrite Hview.
  rewrite (find_entry_None key (entries (heap t) c1)).
  2:{ intros ([k vals] & -> & He)%list_elem_of_fmap. pose proof (Hbefore _ He). cbn in *. lia. }
  rewrite (find_entry_None key (entries (heap t) c2)).
  2:{ intros ([k vals] & -> & He)%list_elem_of_fmap. pose proof (Hafter _ He). cbn in *. lia. }
  rewrite find_entry_zip by done.
  by destruct (found_at _ _ _), (values n !! lower_bound (keys n) key).
Qed.

Lemma searchAll_exact lvl H0 chain0 lo hi par chain t key :
  tree_inv lvl H0 chain0 t → sorted_inv lo hi par chain t → (H0 < gas)%nat →
  searchAll gas key t = Done (find_entry key (entries (heap t) chain)).
Proof.
  intros Hinv0 Hinv Hgas.
  destruct (find_in_tree _ _ _ _ _ _ _ _ key Hinv0 Hinv Hgas)
    as (r & leaf & n & Hroot & Hdesc & Hn & Hlen & ->).
  unfold searchAll. rewrite Hroot, Hdesc. cbn [mbind outcome_bind obind].
  rewrite (load_Done _ _ _ Hn). cbn [mbind outcome_bind obind].
  destruct (found_at (keys n) (lower_bound (keys n) key) key) eqn:Hfound; [|done].
  unfold found_at in Hfound.
  destruct (keys n !! lower_bound (keys n) key) as [k|] eqn:Hk; [|done].
  destruct (at_lt (values n) (lower_bound (keys n) key)) as (vals & -> & ->);
    [rewrite Hlen; by eapply lookup_lt_Some|]. done.
Qed.

Lemma search_exact (d : V) lvl H0 chain0 lo hi par chain t key :
  tree_inv lvl H0 chain0 t → sorted_inv lo hi par chain t → (H0 < gas)%nat →
  search d gas key t
  = Done (match find_entry key (entries (heap t) chain) with
          | Some (v :: _) => v
          | _ => d
          end).
Proof.
  intros Hinv0 Hinv Hgas.
  destruct (find_in_tree _ _ _ _ _ _ _ _ key Hinv0 Hinv Hgas)
    as (r & leaf & n & Hroot & Hdesc & Hn & Hlen & ->).
  unfold search. rewrite Hroot, Hdesc. cbn [mbind outcome_bind obind].
  rewrite (load_Done _ _ _ Hn). cbn [mbind outcome_bind obind].
  destruct (found_at (keys n) (lower_bound (keys n) key) key) eqn:Hfound; [|done].
  unfold found_at in Hfound.
  destruct (keys n !! lower_bound (keys n) key) as [k|] eqn:Hk; [|done].
  destruct (at_lt (values n) (lower_bound (keys n) key)) as (vals & -> & ->);
    [rewrite Hlen; by eapply lookup_lt_Some|]. done.
Qed.

(** ** [traverse] *)

Lemma leftmost_spec lvl H0 lo hi par h fuel : ∀ a,
  shaped lvl H0 h → ordered lo hi hi par h → is_Some (skel h a) → lo a = None →
  (lvl a < fuel)%nat →
  ∃ leaf, leftmost fuel h a = Done leaf ∧ is_Some (leaf_view h leaf) ∧ lo leaf = None.
Proof.
  induction fuel as [|fuel IH]; intros a Hsh Hord Hlive Hlo Hfuel; [lia|].
  destruct (skel_live _ _ Hlive) as [n Hn]. cbn [leftmost].
  rewrite (load_Done _ _ _ Hn). cbn [mbind outcome_bind obind].
  destruct (isLeaf n) eqn:Hleaf.
  - exists a. split; [done|]. split; [|done]. by rewrite (leaf_view_lookup _ _ _ Hn Hleaf).
  - pose proof (skel_lookup _ _ _ Hn) as Hskel. rewrite Hleaf in Hskel.
    destruct (Hsh _ _ _ _ _ Hskel) as [_ [Hlen Hcs]].
    destruct (children n) as [|c cs] eqn:Hchildren; [done|].
    destruct (Hcs c ltac:(by left)) as [Hclive Hlvl].
    destruct (Hord a n Hn) as (_ & _ & Hok). rewrite Hleaf, Hchildren in Hok.
    destruct Hok as [_ Hok]. destruct (Hok 0%nat c eq_refl) as (_ & Hs & _).
    rewrite separators_0 in Hs. injection Hs as Hs.
    apply IH; [done|done|done|congruence|lia].
Qed.

Lemma print_leaf_spec (vs : list (list V)) : ∀ (ks : list Z) i out,
  length vs = (i + length ks)%nat →
  print_leaf ks vs i out = Done (out ++ zip ks (drop i vs)).
Proof.
  induction ks as [|key ks IH]; intros i out Hlen; [cbn; by rewrite app_nil_r|].
  cbn [print_leaf]. destruct (at_lt vs i) as (vals & -> & Hvals); [cbn in Hlen; lia|].
  cbn [mbind outcome_bind obind]. rewrite IH by (cbn in Hlen; lia).
  rewrite (drop_S _ _ _ Hvals). cbn [zip zip_with]. by rewrite <- app_assoc.
Qed.

Lemma print_leaves_spec lo hi par h : ∀ suffix fuel out,
  ordered lo hi hi par h → linked h suffix → (length suffix < fuel)%nat →
  print_leaves fuel h (head suffix) out = Done (out ++ entries h suffix).
Proof.
  intros suffix. induction suffix as [|a rest IH]; intros fuel out Hord Hlinked Hfuel.
  { destruct fuel as [|fuel]; [cbn in Hfuel; lia|]. cbn. by rewrite app_nil_r. }
  destruct fuel as [|fuel]; [lia|]. destruct Hlinked as [(ks & vs & Hview) Hrest].
  destruct (leaf_view_Some _ _ _ _ _ Hview) as (n & Hn & Hleaf & <- & <- & Hnext).
  destruct (Hord a n Hn) as (_ & _ & Hlen). rewrite Hleaf in Hlen.
  cbn [print_leaves head]. rewrite (load_Done _ _ _ Hn). cbn [mbind outcome_bind obind].
  rewrite print_leaf_spec by done. cbn [mbind outcome_bind obind]. rewrite drop_0.
  rewrite Hnext, IH by (done || cbn in Hfuel; lia).
  rewrite entries_cons. unfold entries_at. by rewrite Hview, app_assoc.
Qed.

Lemma traverse_exact lvl H0 chain0 lo hi par chain t :
  tree_inv lvl H0 chain0 t → sorted_inv lo hi par chain t →
  (H0 < gas)%nat → (length chain0 < gas)%nat →
  traverse gas t = Done (entries (heap t) chain).
Proof.
  intros [_ (r & Hroot & Hrlive) Hsh Hch0] Hinv Hgas Hlen.
  pose proof Hinv as [Hord (r' & Hr' & _ & Hlor & Hhir & _) Hch Hseg].
  rewrite Hroot in Hr'. injection Hr' as <-.
  assert (Hrb : (lvl r ≤ H0)%nat).
  { destruct Hrlive as [[[[??]?]?] Hr]. by destruct (Hsh _ _ _ _ _ Hr). }
  unfold traverse. rewrite Hroot.
  destruct (leftmost_spec lvl H0 lo hi par (heap t) gas r Hsh Hord Hrlive Hlor ltac:(lia))
    as (leaf & -> & Hview & Hloleaf). cbn [mbind outcome_bind obind].
  pose proof (chained_length _ _ _ Hch0 Hch) as Hlen2.
  destruct Hch as (_ & Hall & Hlinked).
  pose proof (Hall _ Hview) as Hin.
  destruct chain as [|a0 rest]; [by apply elem_of_nil in Hin|].
  cbn [chain_seg] in Hseg. destruct Hseg as (_ & _ & Hsome & Hseg).
  assert (leaf = a0) as ->.
  { apply elem_of_cons in Hin as [?|Hin]; [done|]. exfalso.
    destruct rest as [|b rest]; [by apply elem_of_nil in Hin|].
    destruct Hsome as [f0 Hf]; [done|].
    destruct (chain_seg_los _ _ _ _ _ f0 Hseg Hf leaf Hin) as (l & Hl & _). congruence. }
  pose proof (print_leaves_spec lo hi par (heap t) (a0 :: rest) gas [] Hord Hlinked) as Hp.
  cbn [head] in Hp. rewrite Hp; [done|]. cbn in *. lia.
Qed.

End QueryOrder.

(** ** Trees with [int] keys built by [insert] *)

Section IntTrees.
Context {V : Type}.
Context (gas : nat).
Implicit Types (t : BPlusTree Z V) (pairs : list (Z * V)).

Lemma BPlusTree_new_sorted ord t :
  BPlusTree_new ord = Done t →
  sorted_inv (λ _, None) (λ _, None) (λ _, None) [0%nat] t
  ∧ counted_but (λ _, None) (λ _, False) None t
  ∧ entries (heap t) [0%nat] = [] ∧ order t = ord.
Proof.
  unfold BPlusTree_new. destruct (ord <? 3)%Z; [done|]. cbn. intros [= <-].
  split; [split|split; [split|done]]; cbn [heap root order].
  - intros [|a] n Hn; [|by destruct a]. injection Hn as <-.
    split; [apply ascending_nil|]. split; [by intros k ?%elem_of_nil|done].
  - exists 0%nat. split; [done|]. split; [by eexists|done].
  - split; [apply NoDup_singleton|]. split.
    + intros [|a] Ha; [by left|]. destruct a; by destruct Ha.
    + split; [|done]. by eexists _, _.
  - done.
  - intros [|a] n Hn Hrt; [done|by destruct a].
  - intros [|a] n Hn _; [|by destruct a]. by injection Hn as <-.
Qed.

Lemma run_inserts_ord pairs : ∀ lvl H0 chain0 lo hi par chain t,
  tree_inv lvl H0 chain0 t → sorted_inv lo hi par chain t →
  counted_but par (λ _, False) None t →
  (3 ≤ order t < 2147483647)%Z → (H0 + length pairs + 1 < gas)%nat →
  ∃ t' lvl' H' chain0' lo' hi' par' chain',
    run_ops gas (inserts pairs) t = Done (tt, t')
    ∧ tree_inv lvl' H' chain0' t'
    ∧ (H' ≤ H0 + length pairs)%nat
    ∧ (length chain0' ≤ length chain0 + length pairs)%nat
    ∧ sorted_inv lo' hi' par' chain' t'
    ∧ counted_but par' (λ _, False) None t'
    ∧ entries (heap t') chain'
      = foldl (λ m p, ins_entry p.1 p.2 m) (entries (heap t) chain) pairs
    ∧ order t' = order t.
Proof.
  induction pairs as [|[key value] pairs IH]; intros lvl H0 chain0 lo hi par chain t
    Hinv0 Hinv Hcnt Hord Hgas.
  - exists t, lvl, H0, chain0, lo, hi, par, chain. cbn.
    split; [done|]. split; [done|]. split; [lia|]. split; [lia|]. done.
  - cbn [length] in Hgas.
    destruct (insert_spec gas lvl H0 chain0 t key value Hinv0 ltac:(lia))
      as (t1 & lvl1 & H1 & chain1 & k' & Hins & Hinv1 & HH1 & Hlen1 & _ & _).
    destruct (insert_ord gas lo hi par chain t key value t1 Hinv Hord Hins)
      as (lo1 & hi1 & par1 & chain1' & Hsorted1 & Hent1 & Ho1 & Hcnt1 & _).
    assert (Hlev1 : leveled gas t1).
    { exists lvl1, H1. split; [by destruct Hinv1|lia]. }
    destruct (IH lvl1 H1 chain1 lo1 hi1 par1 chain1' t1 Hinv1 Hsorted1 (Hcnt1 Hlev1 Hcnt)
                ltac:(by rewrite Ho1) ltac:(lia))
      as (t' & lvl' & H' & chain0' & lo' & hi' & par' & chain' & Hrun & Hinv' & HH' & Hlen'
          & Hsorted' & Hcnt' & Hent' & Ho').
    exists t', lvl', H', chain0', lo', hi', par', chain'. split.
    { cbn [inserts fmap list_fmap run_ops run_op fst snd].
      rewrite (run_bind _ _ _ _ _ Hins). exact Hrun. }
    split; [done|]. cbn [length]. split; [lia|]. split; [lia|]. split; [done|].
    split; [done|]. split; [|congruence]. rewrite Hent', Hent1. done.
Qed.

(** The tree a run of [insert]s builds, and the entries along its
    leaves. *)
Lemma tree_after_inserts ord pairs :
  (3 ≤ ord < 2147483647)%Z → (length pairs + 1 < gas)%nat →
  ∃ t lvl H0 chain0 lo hi par chain,
    tree_after gas ord (inserts pairs) = Done t
    ∧ tree_inv lvl H0 chain0 t ∧ (H0 + 1 < gas)%nat ∧ (length chain0 < gas)%nat
    ∧ sorted_inv lo hi par chain t
    ∧ counted_but par (λ _, False) None t
    ∧ entries (heap t) chain = entries_of pairs
    ∧ order t = ord.
Proof.
  intros Hord Hgas.
  destruct (BPlusTree_new_inv (K:=Z) (V:=V) ord ltac:(lia)) as (t0 & Hnew & Hinv0 & _).
  destruct (BPlusTree_new_sorted ord t0 Hnew) as (Hsorted0 & Hcnt0 & Hent0 & Ho0).
  destruct (run_inserts_ord pairs _ _ _ _ _ _ _ t0 Hinv0 Hsorted0 Hcnt0 ltac:(by rewrite Ho0)
              ltac:(lia))
    as (t & lvl & H0 & chain0 & lo & hi & par & chain & Hrun & Hinv & HH & Hlen & Hsorted
        & Hcnt & Hent & Ho).
  exists t, lvl, H0, chain0, lo, hi, par, chain. unfold tree_after. rewrite Hnew.
  cbn [mbind outcome_bind obind]. rewrite Hrun. split; [done|]. split; [done|].
  split; [lia|]. split; [cbn in Hlen; lia|]. split; [done|]. split; [done|].
  split; [by rewrite Hent, Hent0|congruence].
Qed.

(** What the entries of such a tree are. *)
Lemma entries_of_spec pairs :
  ascending (entries_of pairs).*1
  ∧ ∀ key vals, (key, vals) ∈ entries_of pairs
      ↔ vals ≠ [] ∧ vals = inserted_under key pairs.
Proof.
  split; [apply entries_of_ascending|]. intros key vals.
  rewrite (find_entry_elem key vals _ (entries_of_ascending pairs)), find_entry_entries_of.
  destruct (inserted_under key pairs) as [|v vs]; split.
  - done.
  - by intros [? ->].
  - intros [= <-]. done.
  - by intros [_ ->].
Qed.

(** After any run of [insert]s on a fresh tree with [int] keys,
    [searchAll(key)] returns the values inserted under [key], in the
    order they were inserted, and [nullptr] when there were none. *)
Theorem searchAll_returns_what_was_inserted ord pairs key :
  (3 ≤ ord < 2147483647)%Z → (length pairs + 1 < gas)%nat →
  ∃ t, tree_after gas ord (inserts pairs) = Done t
    ∧ searchAll gas key t
      = Done (match inserted_under key pairs with [] => None | vals => Some vals end).
Proof.
  intros Hord Hgas.
  destruct (tree_after_inserts ord pairs Hord Hgas)
    as (t & lvl & H0 & chain0 & lo & hi & par & chain & Hrun & Hinv0 & HH & Hlen & Hinv & _
        & Hent & _).
  exists t. split; [done|].
  rewrite (searchAll_exact gas lvl H0 chain0 lo hi par chain t key Hinv0 Hinv ltac:(lia)), Hent.
  by rewrite find_entry_entries_of.
Qed.

(** After any run of [insert]s on a fresh tree with [int] keys,
    [search(key)] returns the first value inserted under [key], and a
    default-constructed value when there was none. *)
Theorem search_returns_the_first_inserted (d : V) ord pairs key :
  (3 ≤ ord < 2147483647)%Z → (length pairs + 1 < gas)%nat →
  ∃ t, tree_after gas ord (inserts pairs) = Done t
    ∧ search d gas key t
      = Done (match inserted_under key pairs with [] => d | v :: _ => v end).
Proof.
  intros Hord Hgas.
  destruct (tree_after_inserts ord pairs Hord Hgas)
    as (t & lvl & H0 & chain0 & lo & hi & par & chain & Hrun & Hinv0 & HH & Hlen & Hinv & _
        & Hent & _).
  exists t. split; [done|].
  rewrite (search_exact gas d lvl H0 chain0 lo hi par chain t key Hinv0 Hinv ltac:(lia)), Hent.
  rewrite find_entry_entries_of. by destruct (inserted_under key pairs).
Qed.

(** After any run of [insert]s on a fresh tree with [int] keys,
    [rangeQuery(Smin, Smax)] returns exactly the values inserted under
    the keys in [[Smin, Smax]]: key by key in ascending order of the
    keys, and under one key in insertion order. *)
Theorem rangeQuery_returns_the_range ord pairs Smin Smax :
  (3 ≤ ord < 2147483647)%Z → (length pairs + 1 < gas)%nat →
  ∃ t m, tree_after gas ord (inserts pairs) = Done t
    ∧ rangeQuery gas Smin Smax t = Done (values_in_range Smin Smax m)
    ∧ ascending m.*1
    ∧ ∀ key vals, (key, vals) ∈ m ↔ vals ≠ [] ∧ vals = inserted_under key pairs.
Proof.
  intros Hord Hgas.
  destruct (tree_after_inserts ord pairs Hord Hgas)
    as (t & lvl & H0 & chain0 & lo & hi & par & chain & Hrun & Hinv0 & HH & Hlen & Hinv & _
        & Hent & _).
  exists t, (entries_of pairs). split; [done|]. split; [|apply entries_of_spec].
  by rewrite (rangeQuery_exact gas lvl H0 chain0 lo hi par chain t Smin Smax Hinv0 Hinv ltac:(lia) Hlen),
    Hent.
Qed.

(** After any run of [insert]s on a fresh tree with [int] keys,
    [traverse()] prints every inserted key once, in ascending order, each
    with the values inserted under it in insertion order. *)
Theorem traverse_prints_the_keys_in_order ord pairs :
  (3 ≤ ord < 2147483647)%Z → (length pairs + 1 < gas)%nat →
  ∃ t out, tree_after gas ord (inserts pairs) = Done t
    ∧ traverse gas t = Done out
    ∧ ascending out.*1
    ∧ ∀ key vals, (key, vals) ∈ out ↔ vals ≠ [] ∧ vals = inserted_under key pairs.
Proof.
  intros Hord Hgas.
  destruct (tree_after_inserts ord pairs Hord Hgas)
    as (t & lvl & H0 & chain0 & lo & hi & par & chain & Hrun & Hinv0 & HH & Hlen & Hinv & _
        & Hent & _).
  exists t, (entries_of pairs). split; [done|]. split; [|apply entries_of_spec].
  by rewrite (traverse_exact gas lvl H0 chain0 lo hi par chain t Hinv0 Hinv ltac:(lia) Hlen), Hent.
Qed.

End IntTrees.

Lemma searchAll_returns_what_was_inserted_witness :
  ∃ t, tree_after fuel50 3 (inserts pairs_small) = Done t
    ∧ searchAll fuel50 1%Z t
      = Done (match inserted_under 1%Z pairs_small with [] => None | vals => Some vals end).
Proof.
  apply (searchAll_returns_what_was_inserted fuel50 3 pairs_small 1); [lia|].
  unfold fuel50. simpl. lia.
Defined.

Lemma search_returns_the_first_inserted_witness :
  ∃ t, tree_after fuel50 3 (inserts pairs_small) = Done t
    ∧ search 0%Z fuel50 1%Z t
      = Done (match inserted_under 1%Z pairs_small with [] => 0%Z | v :: _ => v end).
Proof.
  apply (search_returns_the_first_inserted fuel50 0%Z 3 pairs_small 1); [lia|].
  unfold fuel50. simpl. lia.
Defined.

Lemma rangeQuery_returns_the_range_witness :
  ∃ t m, tree_after fuel50 3 (inserts pairs_small) = Done t
    ∧ rangeQuery fuel50 2%Z 4%Z t = Done (values_in_range 2%Z 4%Z m)
    ∧ ascending m.*1
    ∧ ∀ key vals, (key, vals) ∈ m ↔ vals ≠ [] ∧ vals = inserted_under key pairs_small.
Proof.
  apply (rangeQuery_returns_the_range fuel50 3 pairs_small 2 4); [lia|].
  unfold fuel50. simpl. lia.
Defined.

Lemma traverse_prints_the_keys_in_order_witness :
  ∃ t out, tree_after fuel50 3 (inserts pairs_small) = Done t
    ∧ traverse fuel50 t = Done out
    ∧ ascending out.*1
    ∧ ∀ key vals, (key, vals) ∈ out ↔ vals ≠ [] ∧ vals = inserted_under key pairs_small.
Proof.
  apply (traverse_prints_the_keys_in_order fuel50 3 pairs_small); [lia|].
  unfold fuel50. simpl. lia.
Defined.

(** ** [remove] from a leaf that stays full enough *)

Section EraseFacts.
Context {V : Type}.

Lemma ascending_sublist (l1 l2 : list Z) : l1 `sublist_of` l2 → ascending l2 → ascending l1.
Proof.
  induction 1 as [|x l1 l2 Hsub IH|x l1 l2 Hsub IH]; [done| |].
  - intros [Hx Hasc]%ascending_cons. apply ascending_cons. split; [|by apply IH].
    intros a Ha. apply Hx. by eapply elem_of_sublist.
  - intros [_ Hasc]%ascending_cons. by apply IH.
Qed.

Lemma erase_at_sublist {A} i (l : list A) : erase_at i l `sublist_of` l.
Proof.
  unfold erase_at. rewrite <- (take_drop i l) at 3. apply sublist_app; [done|].
  replace (drop (S i) l) with (drop 1 (drop i l)) by (rewrite drop_drop; f_equal; lia).
  apply sublist_drop.
Qed.

Lemma length_erase_at {A} i (l : list A) :
  (i < length l)%nat → length (erase_at i l) = (length l - 1)%nat.
Proof. intros Hi. unfold erase_at. rewrite length_app, length_take, length_drop. lia. Qed.

Lemma filter_all {A} (P : A → Prop) `{∀ x, Decision (P x)} (l : list A) :
  (∀ x, x ∈ l → P x) → filter P l = l.
Proof.
  induction l as [|x l IH]; intros Hall; [done|].
  rewrite filter_cons_True by (apply Hall; by left). f_equal. apply IH.
  intros y Hy. apply Hall. by right.
Qed.

(** Erasing the key at [i] and its values takes the entry of that key
    out of the leaf. *)
Lemma zip_erase_at (ks : list Z) (vs : list (list V)) i key :
  ascending ks → length vs = length ks → ks !! i = Some key →
  zip (erase_at i ks) (erase_at i vs) = filter (λ e, e.1 ≠ key) (zip ks vs).
Proof.
  intros Hasc Hlen Hi. pose proof (lookup_lt_Some _ _ _ Hi) as Hlt.
  destruct (lookup_lt_is_Some_2 vs i) as [vals Hvals]; [lia|].
  rewrite (zip_take_drop ks vs i), filter_app.
  rewrite (drop_S ks key i Hi), (drop_S vs vals i Hvals). cbn [zip zip_with].
  rewrite filter_cons_False by (cbn; intros Hne; by apply Hne).
  rewrite !filter_all.
  - unfold erase_at. rewrite zip_with_app; [done|]. rewrite !length_take. lia.
  - intros e (j & Hj)%zip_key_lookup. rewrite lookup_drop in Hj.
    pose proof (Hasc i (S i + j)%nat _ _ Hi Hj ltac:(lia)). lia.
  - intros e (j & Hj)%zip_key_lookup. apply lookup_take_Some in Hj as [Hj Hji].
    pose proof (Hasc j i _ _ Hj Hi Hji). lia.
Qed.

Lemma find_entry_filter key key' (m : list (Z * list V)) :
  find_entry key' (filter (λ e, e.1 ≠ key) m)
  = if decide (key' = key) then None else find_entry key' m.
Proof.
  induction m as [|[k vals] m IH]; [by destruct (decide _)|].
  destruct (decide (k = key)) as [->|Hne].
  - rewrite filter_cons_False by (cbn; intros Hne; by apply Hne). rewrite IH.
    cbn [find_entry]. destruct (decide (key' = key)) as [->|Hne']; [done|].
    by rewrite (proj2 (Z.eqb_neq key key')) by done.
  - rewrite filter_cons_True by done. cbn [find_entry]. rewrite IH.
    destruct (Z.eqb_spec k key'), (decide (key' = key)); congruence.
Qed.

End EraseFacts.

Section RemoveOrder.
Context {V : Type}.
Context (gas : nat).
Implicit Types (h : list (option (Node Z V))) (n : Node Z V) (t : BPlusTree Z V).

Lemma remove_in_place lvl H0 chain0 lo hi par chain t key r leaf n :
  tree_inv lvl H0 chain0 t → sorted_inv lo hi par chain t → (H0 + 1 < gas)%nat →
  root t = Some r → descend gas (heap t) r key = Done leaf →
  heap t !! leaf = Some (Some n) →
  (leaf = r ∧ (2 ≤ length (keys n))%nat)
  ∨ (leaf ≠ r ∧ (int32 (order t - 1) ÷ 2 < Z.of_nat (length (keys n)))%Z) →
  ∃ t', remove gas key t = Done (tt, t')
    ∧ tree_inv lvl H0 chain0 t' ∧ sorted_inv lo hi par chain t'
    ∧ entries (heap t') chain = filter (λ e, e.1 ≠ key) (entries (heap t) chain)
    ∧ order t' = order t
    ∧ (uniform (heap t) → uniform (heap t')).
Proof.
  intros Hinv0 Hinv Hgas Hroot Hdesc Hn Hfull.
  pose proof Hinv0 as [Hord0 (r0 & Hr0 & Hrlive) Hsh (Hnd0 & Hall0 & Hlinked0)].
  pose proof Hinv as [Hord (r' & Hr' & _ & Hlor & Hhir & _) Hch Hseg].
  rewrite Hroot in Hr0, Hr'. injection Hr0 as <-. injection Hr' as <-.
  destruct (descend_ord lo hi par (heap t) key gas r leaf Hord) as (Hview & Hlo & Hhi);
    [by rewrite Hlor|by rewrite Hhir|done|].
  destruct Hview as [[[ks vs] nx] Hview].
  destruct (leaf_view_Some _ _ _ _ _ Hview) as (n0 & Hn0 & Hleaf & <- & <- & <-).
  rewrite Hn in Hn0. injection Hn0 as <-.
  destruct (Hord leaf n Hn) as (Hasc & Hin & Hlen). rewrite Hleaf in Hin, Hlen.
  pose proof (found_at_lower_bound (keys n) key Hasc) as Hfound.
  set (index := lower_bound (keys n) key) in *.
  destruct (entries_around lo hi par chain t leaf key Hinv) as (c1 & c2 & Hsplit & Hc1 & Hc2
    & Hbefore & Hafter); [by rewrite Hview|done|done|].
  destruct (found_at (keys n) index key) eqn:Hf.
  2:{ exists t. split; [|split; [done|split; [done|split; [|done]]]].
      - unfold remove. rewrite (run_bind get_root _ t (root t) t) by reflexivity. rewrite Hroot.
        destruct (descend_path_descend _ _ _ _ [] _ Hdesc) as (path & Hpath).
        rewrite (run_sread _ _ _ (path, leaf)) by done.
        unfold get_node. rewrite (run_sread _ _ _ n) by by apply load_Done.
        fold index. by rewrite Hf.
      - symmetry. apply filter_all. intros e. rewrite Hsplit, entries_app, entries_cons.
        unfold entries_at. rewrite Hview. intros [He|[He|He]%elem_of_app]%elem_of_app.
        + pose proof (Hbefore e He). lia.
        + intros Heq. apply Hfound. apply zip_key_lookup in He as [j Hj]. rewrite Heq in Hj.
          by eapply list_elem_of_lookup_2.
        + pose proof (Hafter e He). lia. }
  pose proof (lookup_lt_Some _ _ _ Hfound) as Hidx.
  set (n' := with_values (erase_at index (values n)) (with_keys (erase_at index (keys n)) n)).
  set (t1 := mkTree (<[leaf := Some n']> (heap t)) (root t) (order t)).
  assert (Hlen' : length (keys n') = (length (keys n) - 1)%nat).
  { unfold n'. cbn. by apply length_erase_at. }
  destruct (leaf_refill_ord lo hi par chain t leaf n n' Hinv Hn Hleaf) as (Hinv1 & Hview1 & Hent1).
  { done. }
  { done. }
  { unfold n'. cbn. rewrite !length_erase_at by lia. lia. }
  { unfold n'. cbn. eapply ascending_sublist; [apply erase_at_sublist|done]. }
  { unfold n'. cbn. intros k Hk. apply Hin. eapply elem_of_sublist; [done|apply erase_at_sublist]. }
  fold t1 in Hinv1, Hview1, Hent1.
  assert (Hlive : is_Some (skel (heap t) leaf)) by by rewrite (skel_lookup _ _ _ Hn).
  assert (Hinv01 : tree_inv lvl H0 chain0 t1).
  { split; unfold t1; cbn [heap root order].
    - done.
    - exists r. split; [done|]. by apply skel_insert_live.
    - apply shaped_update; [done|done|]. unfold fits, n'. cbn. rewrite Hleaf.
      rewrite !length_erase_at by lia. lia.
    - destruct Hinv1 as [_ _ (_ & Hall1 & _) _]. split; [done|]. split.
      + intros a Ha. apply Hall0. destruct (decide (a = leaf)) as [->|Hne]; [by rewrite Hview|].
        unfold t1 in Ha. cbn [heap] in Ha.
        rewrite leaf_view_insert, decide_False in Ha by (done || by apply skel_lt). done.
      + apply (linked_refill (heap t) _ _ leaf); [| |done].
        * intros a Ha. rewrite leaf_view_insert, decide_False by (done || by apply skel_lt). done.
        * intros ks vs nx. rewrite Hview. intros [= <- <- <-].
          fold t1. change (<[leaf:=Some n']> (heap t)) with (heap t1). rewrite Hview1.
          eexists _, _. reflexivity. }
  destruct (updateSubtreeSizesUpwards_spec gas lvl H0 chain0 t1 leaf Hinv01)
    as (t' & Hup & Hsame); [by apply skel_insert_live|done|].
  pose proof (updateSubtreeSizesUpwards_same_nodes _ _ _ _ Hup) as (Hnodes & Hr' & Ho').
  exists t'. split; [|split; [by eapply tree_inv_sizes|split; [by eapply sorted_inv_same_nodes|
    split; [|split; [by rewrite Ho'|]]]]].
  3:{ intros Huni. apply (uniform_same_nodes _ _ Hnodes). unfold t1. cbn [heap].
      by apply (uniform_refill _ leaf n). }
  - unfold remove. rewrite (run_bind get_root _ t (root t) t) by reflexivity. rewrite Hroot.
    destruct (descend_path_descend _ _ _ _ [] _ Hdesc) as (path & Hpath).
    rewrite (run_sread _ _ _ (path, leaf)) by done.
    unfold get_node. rewrite (run_sread _ _ _ n) by by apply load_Done.
    fold index. rewrite Hf. cbn [negb].
    rewrite (run_bind _ _ t tt t1) by reflexivity.
    rewrite (run_sread _ _ _ n').
    2:{ apply load_Done. unfold t1. cbn [heap]. apply list_lookup_insert_eq.
        by eapply lookup_lt_Some. }
    assert (Htest1 : ptr_eqb (Some leaf) (Some r) && bool_decide (keys n' = []) = false).
    { destruct Hfull as [[-> Hge]|[Hne _]].
      - rewrite (bool_decide_eq_false_2 (keys n' = [])); [by rewrite andb_false_r|].
        intros Hnil. rewrite Hnil in Hlen'. cbn in Hlen'. lia.
      - unfold ptr_eqb. rewrite bool_decide_eq_false_2; [done|]. by intros [= ->]. }
    rewrite Htest1. rewrite (run_bind get_order _ t1 (order t1) t1) by reflexivity.
    assert (Htest2 : (Z.of_nat (length (keys n')) <? int32 (order t1 - 1) ÷ 2)%Z
                     && negb (ptr_eqb (Some leaf) (Some r)) = false).
    { destruct Hfull as [[-> Hge]|[Hne Hmin]].
      - unfold ptr_eqb. rewrite bool_decide_eq_true_2 by done. by rewrite andb_false_r.
      - rewrite (proj2 (Z.ltb_ge _ _)); [done|]. rewrite Hlen'. unfold t1. cbn [order]. lia. }
    rewrite Htest2. exact Hup.
  - rewrite (entries_ext (heap t1) (heap t')) by (intros a; by apply same_nodes_leaf_view).
    rewrite (Hent1 c1 c2 Hsplit Hc1 Hc2), Hsplit, entries_app, entries_cons, !filter_app.
    unfold entries_at. rewrite Hview.
    rewrite (filter_all _ (entries (heap t) c1)).
    2:{ intros e He. pose proof (Hbefore e He). lia. }
    rewrite (filter_all _ (entries (heap t) c2)).
    2:{ intros e He. pose proof (Hafter e He). lia. }
    unfold n'. cbn [keys values with_values with_keys]. by rewrite (zip_erase_at _ _ _ key).
Qed.

End RemoveOrder.

Section IntRemove.
Context {V : Type}.
Context (gas : nat).
Implicit Types (t : BPlusTree Z V) (pairs : list (Z * V)).

(** After any run of [insert]s on a fresh tree with [int] keys,
    [remove(key)] returns without a fault when the leaf the descent for
    [key] ends in is the root and holds at least two keys, or is another
    leaf and holds more than [(order - 1) / 2] keys.  Afterwards
    [searchAll] finds nothing under [key] and under any other key what
    was inserted under it, and [traverse] prints the other keys, in
    ascending order, with their values. *)
Theorem remove_takes_the_key_out ord pairs key t r leaf n :
  (3 ≤ ord < 2147483647)%Z → (length pairs + 1 < gas)%nat →
  tree_after gas ord (inserts pairs) = Done t →
  root t = Some r → descend gas (heap t) r key = Done leaf →
  heap t !! leaf = Some (Some n) →
  (leaf = r ∧ (2 ≤ length (keys n))%nat)
  ∨ (leaf ≠ r ∧ ((ord - 1) ÷ 2 < Z.of_nat (length (keys n)))%Z) →
  ∃ t' out,
    remove gas key t = Done (tt, t')
    ∧ (∀ key', searchAll gas key' t'
               = Done (if decide (key' = key) then None
                       else match inserted_under key' pairs with
                            | [] => None
                            | vals => Some vals
                            end))
    ∧ traverse gas t' = Done out
    ∧ ascending out.*1
    ∧ ∀ key' vals, (key', vals) ∈ out
        ↔ key' ≠ key ∧ vals ≠ [] ∧ vals = inserted_under key' pairs.
Proof.
  intros Hord Hgas Hrun Hroot Hdesc Hn Hfull.
  destruct (tree_after_inserts gas ord pairs Hord Hgas)
    as (t0 & lvl & H0 & chain0 & lo & hi & par & chain & Hrun0 & Hinv0 & HH & Hlen & Hinv & _
        & Hent & Ho).
  rewrite Hrun in Hrun0. injection Hrun0 as <-.
  destruct (remove_in_place gas lvl H0 chain0 lo hi par chain t key r leaf n Hinv0 Hinv HH
              Hroot Hdesc Hn) as (t' & Hrem & Hinv0' & Hinv' & Hent' & _).
  { rewrite Ho, int32_id by lia. done. }
  rewrite Hent in Hent'.
  exists t', (filter (λ e, e.1 ≠ key) (entries_of pairs)). split; [done|]. split; [|split; [|split]].
  - intros key'.
    rewrite (searchAll_exact gas lvl H0 chain0 lo hi par chain t' key' Hinv0' Hinv' ltac:(lia)).
    by rewrite Hent', find_entry_filter, find_entry_entries_of.
  - by rewrite (traverse_exact gas lvl H0 chain0 lo hi par chain t' Hinv0' Hinv' ltac:(lia) Hlen),
      Hent'.
  - apply (ascending_sublist _ (entries_of pairs).*1); [|apply entries_of_ascending].
    apply fmap_sublist, sublist_filter.
  - intros key' vals. rewrite list_elem_of_filter. cbn [fst].
    destruct (entries_of_spec pairs) as [_ Hspec]. rewrite Hspec. tauto.
Qed.

End IntRemove.

Lemma remove_takes_the_key_out_witness :
  ∃ t t' out,
    tree_after fuel50 3 (inserts pairs_small) = Done t
    ∧ remove fuel50 1%Z t = Done (tt, t')
    ∧ (∀ key', searchAll fuel50 key' t'
               = Done (if decide (key' = 1%Z) then None
                       else match inserted_under key' pairs_small with
                            | [] => None
                            | vals => Some vals
                            end))
    ∧ traverse fuel50 t' = Done out
    ∧ ascending out.*1
    ∧ ∀ key' vals, (key', vals) ∈ out
        ↔ key' ≠ 1%Z ∧ vals ≠ [] ∧ vals = inserted_under key' pairs_small.
Proof.
  edestruct (remove_takes_the_key_out (V:=Z) fuel50 3 pairs_small 1) as (t' & out & H1 & H2);
    [lia|unfold fuel50; simpl; lia|vm_compute; reflexivity|vm_compute; reflexivity
    |vm_compute; reflexivity|vm_compute; reflexivity
    |right; split; [discriminate|vm_compute; reflexivity]|].
  eexists _, t', out. split; [|split; [exact H1|exact H2]]. vm_compute. reflexivity.
Defined.

(** ** Weights *)

Section WeightFacts.
Context {V : Type}.
Implicit Types (m : list (Z * list V)).

Lemma weight_cons e m : weight (e :: m) = (Z.of_nat (length e.2) + weight m)%Z.
Proof. done. Qed.

Lemma weight_app m1 m2 : weight (m1 ++ m2) = (weight m1 + weight m2)%Z.
Proof.
  induction m1 as [|e m1 IH]; [done|].
  rewrite <- app_comm_cons, !weight_cons, IH. lia.
Qed.

Lemma weight_nonneg m : (0 ≤ weight m)%Z.
Proof. induction m as [|e m IH]; [done|]. rewrite weight_cons. lia. Qed.

Lemma weight_filter_le (P : Z * list V → Prop) `{∀ e, Decision (P e)} m :
  (weight (filter P m) ≤ weight m)%Z.
Proof.
  induction m as [|e m IH]; [done|]. destruct (decide (P e)).
  - rewrite filter_cons_True by done. rewrite ?weight_cons. lia.
  - rewrite filter_cons_False by done. rewrite ?weight_cons. lia.
Qed.

Lemma weight_filter_mono (P Q : Z * list V → Prop) `{∀ e, Decision (P e)}
    `{∀ e, Decision (Q e)} m :
  (∀ e, e ∈ m → P e → Q e) → (weight (filter P m) ≤ weight (filter Q m))%Z.
Proof.
  induction m as [|e m IH]; intros Himp; [done|].
  assert (IH' : (weight (filter P m) ≤ weight (filter Q m))%Z).
  { apply IH. intros e' He'. apply Himp. by right. }
  destruct (decide (P e)) as [HP|HP].
  - rewrite filter_cons_True by done. rewrite (filter_cons_True Q) by (apply Himp; [by left|done]).
    rewrite ?weight_cons. lia.
  - rewrite filter_cons_False by done. destruct (decide (Q e)).
    + rewrite (filter_cons_True Q) by done. rewrite ?weight_cons. lia.
    + by rewrite (filter_cons_False Q) by done.
Qed.

Lemma weight_filter_ext (P Q : Z * list V → Prop) `{∀ e, Decision (P e)}
    `{∀ e, Decision (Q e)} m :
  (∀ e, e ∈ m → P e ↔ Q e) → weight (filter P m) = weight (filter Q m).
Proof.
  intros Heq. apply Z.le_antisymm; apply weight_filter_mono; intros e He; by apply Heq.
Qed.

(** Two sides of a key that lies within the bounds. *)
Lemma weight_filter_split (P Q R : Z * list V → Prop) `{∀ e, Decision (P e)}
    `{∀ e, Decision (Q e)} `{∀ e, Decision (R e)} m :
  (∀ e, e ∈ m → (P e ↔ Q e ∨ R e) ∧ ¬ (Q e ∧ R e)) →
  weight (filter P m) = (weight (filter Q m) + weight (filter R m))%Z.
Proof.
  induction m as [|e m IH]; intros Hsplit; [done|].
  assert (IH' : weight (filter P m) = (weight (filter Q m) + weight (filter R m))%Z).
  { apply IH. intros e' He'. apply Hsplit. by right. }
  destruct (Hsplit e ltac:(by left)) as [Hiff Hnot].
  destruct (decide (Q e)) as [HQ|HQ], (decide (R e)) as [HR|HR].
  - destruct Hnot. done.
  - rewrite (filter_cons_True P) by (apply Hiff; by left).
    rewrite (filter_cons_True Q), (filter_cons_False R) by done. rewrite ?weight_cons. lia.
  - rewrite (filter_cons_True P) by (apply Hiff; by right).
    rewrite (filter_cons_False Q), (filter_cons_True R) by done. rewrite ?weight_cons. lia.
  - rewrite (filter_cons_False P) by (intros [?|?]%Hiff; done).
    rewrite (filter_cons_False Q), (filter_cons_False R) by done. done.
Qed.

Lemma within_spec l u k : within l u k = true ↔ above l k ∧ below k u.
Proof.
  unfold within, above, below. rewrite andb_true_iff.
  destruct l, u; rewrite ?Z.leb_le, ?Z.ltb_lt; tauto.
Qed.

Lemma between_split l k u m :
  proper l (Some k) → below k u →
  weight (between l u m)
  = (weight (between l (Some k) m) + weight (between (Some k) u m))%Z.
Proof.
  intros Hl Hu. unfold between. apply weight_filter_split. intros e _.
  rewrite !within_spec. unfold above, below, proper in *.
  destruct l, u; cbn; lia.
Qed.

Lemma between_all m : between None None m = m.
Proof. unfold between. apply filter_all. intros e _. done. Qed.

Lemma weight_zip (ks : list Z) : ∀ (vs : list (list V)),
  length vs = length ks →
  weight (zip ks vs) = foldr (λ v s, (Z.of_nat (length v) + s)%Z) 0%Z vs.
Proof.
  induction ks as [|k ks IH]; intros [|v vs] Hlen; try done.
  cbn [zip zip_with foldr]. rewrite weight_cons, (IH vs) by (cbn in Hlen; lia). done.
Qed.

Lemma sum_value_sizes_loop (vs : list (list V)) : ∀ acc,
  (0 ≤ acc)%Z →
  (acc + foldr (λ v s, (Z.of_nat (length v) + s)%Z) 0 vs < 2147483648)%Z →
  foldl (λ count valVec, int32 (count + Z.of_nat (length valVec))) acc vs
  = (acc + foldr (λ v s, (Z.of_nat (length v) + s)%Z) 0%Z vs)%Z.
Proof.
  induction vs as [|v vs IH]; intros acc Hacc Hsum; cbn; [lia|].
  cbn in Hsum.
  assert (0 ≤ foldr (λ v s, (Z.of_nat (length v) + s)%Z) 0 vs)%Z.
  { clear. induction vs; cbn; lia. }
  rewrite int32_id by lia. rewrite IH by lia. lia.
Qed.

Lemma weight_ins_entry (P : Z → Prop) `{∀ k, Decision (P k)} k (v : V) m :
  weight (filter (λ e, P e.1) (ins_entry k v m))
  = (weight (filter (λ e, P e.1) m) + if decide (P k) then 1 else 0)%Z.
Proof.
  induction m as [|[k0 vals] m IHm]; cbn [ins_entry].
  - destruct (decide (P k)).
    + rewrite filter_cons_True by done. done.
    + rewrite filter_cons_False by done. done.
  - destruct (Z.ltb_spec k k0); [|destruct (Z.eqb_spec k k0) as [->|]].
    + destruct (decide (P k)).
      * rewrite (filter_cons_True _ (k, [v])) by done. rewrite weight_cons. cbn [snd length]. lia.
      * rewrite (filter_cons_False _ (k, [v])) by done. lia.
    + destruct (decide (P k0)).
      * rewrite !filter_cons_True by done. rewrite !weight_cons. cbn [snd].
        rewrite length_app. cbn [length]. lia.
      * rewrite !filter_cons_False by done. lia.
    + destruct (decide (P k0)).
      * rewrite !(filter_cons_True _ (k0, vals)) by done. rewrite !weight_cons, IHm. lia.
      * rewrite !(filter_cons_False _ (k0, vals)) by done. by rewrite IHm.
Qed.

Lemma weight_entries_of_filter (P : Z → Prop) `{∀ k, Decision (P k)} (pairs : list (Z * V)) :
  weight (filter (λ e, P e.1) (entries_of pairs))
  = Z.of_nat (length (filter (λ p, P p.1) pairs)).
Proof.
  induction pairs as [|[k v] pairs IH] using rev_ind; [done|].
  rewrite entries_of_snoc, filter_app, length_app. cbn [fst snd].
  rewrite weight_ins_entry, IH. destruct (decide (P k)).
  - rewrite (filter_cons_True _ (k, v)) by done. rewrite filter_nil. cbn [length]. lia.
  - rewrite (filter_cons_False _ (k, v)) by done. rewrite filter_nil. cbn [length]. lia.
Qed.

End WeightFacts.

(** ** The counters of a tree in order *)

Section SizeExact.
Context {V : Type}.
Context (lvl : addr → nat) (H0 : nat) (lo hi : addr → option Z) (par : addr → option addr).
Context (chain : list addr) (t : BPlusTree Z V).
Context (Hsh : shaped lvl H0 (heap t)).
Context (Hinv : sorted_inv lo hi par chain t).
Context (Hsz : sized_but (λ _, False) (heap t)).
Context (Hfit : (weight (entries (heap t) chain) < 2147483648)%Z).

Lemma filter_none {A} (P : A → Prop) `{∀ x, Decision (P x)} (l : list A) :
  (∀ x, x ∈ l → ¬ P x) → filter P l = [].
Proof.
  induction l as [|x l IH]; intros Hnone; [done|].
  rewrite filter_cons_False by (apply Hnone; by left). apply IH.
  intros y Hy. apply Hnone. by right.
Qed.

(** The entries within the bounds of a leaf are those of the leaf. *)
Lemma leaf_between a ks vs nx :
  leaf_view (heap t) a = Some (ks, vs, nx) →
  between (lo a) (hi a) (entries (heap t) chain) = zip ks vs.
Proof.
  intros Hview. destruct Hinv as [Hord _ (Hnd & Hall & Hlinked) Hseg].
  destruct (list_elem_of_split _ _ (Hall a ltac:(by eexists))) as (c1 & c2 & ->).
  apply chain_seg_app in Hseg as (mid & Hseg1 & Hseg2 & Hmid_some).
  cbn [chain_seg] in Hseg2. destruct Hseg2 as (Hmid & _ & Hsome & Hseg2).
  rewrite entries_app, entries_cons. unfold between. rewrite !filter_app.
  unfold entries_at at 1. rewrite Hview.
  rewrite (filter_none _ (entries (heap t) c1)), (filter_none _ (entries (heap t) c2)).
  - rewrite app_nil_r. cbn [app]. apply filter_all. intros e He. apply within_spec.
    apply (entries_at_bounds lo hi hi par (heap t) a e Hord). unfold entries_at.
    by rewrite Hview.
  - intros e He [_ Hb]%within_spec. destruct c2 as [|b c2]; [by apply elem_of_nil in He|].
    destruct Hsome as [f0 Hf]; [done|].
    pose proof (entries_above _ _ _ _ _ _ _ _ f0 e Hord Hseg2 Hf He).
    rewrite Hf in Hb. cbn in Hb. lia.
  - intros e He [Ha _]%within_spec. destruct c1 as [|b c1]; [by apply elem_of_nil in He|].
    destruct Hmid_some as [u0 ->]; [done|done|].
    pose proof (entries_below _ _ _ _ _ _ _ _ u0 e Hord Hseg1 eq_refl He).
    rewrite Hmid in Ha. cbn in Ha. lia.
Qed.

Lemma between_le l u : (weight (between l u (entries (heap t) chain)) < 2147483648)%Z.
Proof.
  pose proof (weight_filter_le (λ e, within l u e.1 = true) (entries (heap t) chain)).
  unfold between. lia.
Qed.

(** The first [j + 1] children of a node hold what the first [j] hold
    and what child [j] holds. *)
Lemma prefix_weight_step a n j c :
  heap t !! a = Some (Some n) → isLeaf n = false → children n !! j = Some c →
  prefix_weight (lo a) (separators (lo a) (keys n) (hi a)) (entries (heap t) chain) (S j)
  = (prefix_weight (lo a) (separators (lo a) (keys n) (hi a)) (entries (heap t) chain) j
     + weight (between (lo c) (hi c) (entries (heap t) chain)))%Z.
Proof.
  intros Hn Hleaf Hc. destruct Hinv as [Hord _ _ _].
  destruct (Hord a n Hn) as (Hasc & Hin & Hsh'). rewrite Hleaf in Hin, Hsh'.
  destruct Hsh' as [Hlen Hcs]. destruct (Hcs j c Hc) as (_ & Hl & Hu & _).
  unfold prefix_weight at 1. rewrite Hu. cbn [default from_option]. unfold id.
  destruct j as [|j].
  - rewrite separators_0 in Hl. injection Hl as <-. cbn [prefix_weight]. lia.
  - unfold prefix_weight. rewrite Hl. cbn [default from_option]. unfold id.
    assert (Hjlt : (j < length (keys n))%nat). { apply lookup_lt_Some in Hc. lia. }
    destruct (lookup_lt_is_Some_2 (keys n) j Hjlt) as [k Hk].
    rewrite (separators_S _ _ _ _ _ Hk) in Hl. injection Hl as Hl.
    destruct (Hin k ltac:(by eapply list_elem_of_lookup_2)) as [Hpk Hbk].
    rewrite <- Hl. apply between_split; [done|].
    destruct (keys n !! S j) as [k'|] eqn:Hk'.
    + rewrite (separators_S _ _ _ _ _ Hk') in Hu. injection Hu as <-. cbn.
      apply (Hasc j (S j)); [done|done|lia].
    + apply lookup_ge_None in Hk'. replace (S j) with (length (keys n)) in Hu by lia.
      rewrite separators_last in Hu. by injection Hu as <-.
Qed.

Lemma prefix_weight_bounds l seps j :
  (0 ≤ prefix_weight l seps (entries (heap t) chain) j < 2147483648)%Z.
Proof.
  destruct j as [|j]; cbn [prefix_weight]; [lia|].
  split; [apply weight_nonneg|apply between_le].
Qed.

(** The counters say what the leaves below hold. *)
Lemma subtree_size_exact k : ∀ a n,
  (lvl a ≤ k)%nat → heap t !! a = Some (Some n) →
  subtree_size n = weight (between (lo a) (hi a) (entries (heap t) chain)).
Proof.
  induction k as [|k IH]; intros a n Hk Hn.
  all: pose proof (Hsz a n Hn ltac:(tauto)) as Hok; unfold size_ok in Hok.
  all: pose proof (skel_lookup _ _ _ Hn) as Hskel.
  all: destruct (Hsh _ _ _ _ _ Hskel) as [_ Hshape].
  all: destruct (isLeaf n) eqn:Hleaf.
  1, 3: rewrite (leaf_between a (keys n) (values n) (next n)) by by apply leaf_view_lookup.
  1, 2: rewrite Hok; unfold sum_value_sizes; rewrite sum_value_sizes_loop;
    [by rewrite weight_zip|lia|];
    pose proof (between_le (lo a) (hi a)) as Hb;
    rewrite (leaf_between a (keys n) (values n) (next n)) in Hb by (by apply leaf_view_lookup);
    by rewrite weight_zip in Hb.
  - destruct Hshape as [Hlen Hcs]. destruct (children n) as [|c cs] eqn:Hchildren; [done|].
    destruct (Hcs c ltac:(by left)) as [_ Hl]. lia.
  - destruct Hshape as [Hlen Hcs].
    set (E := entries (heap t) chain) in *.
    set (seps := separators (lo a) (keys n) (hi a)).
    assert (Hloop : ∀ m j, (m + j = length (children n))%nat →
              sum_child_sizes (heap t) (drop j (children n)) (prefix_weight (lo a) seps E j)
              = Done (prefix_weight (lo a) seps E (length (children n)))).
    { induction m as [|m IHm]; intros j Hj.
      - rewrite drop_ge by lia. cbn. f_equal. f_equal. lia.
      - destruct (lookup_lt_is_Some_2 (children n) j) as [c Hc]; [lia|].
        rewrite (drop_S _ _ _ Hc). cbn [sum_child_sizes].
        destruct (Hcs c ltac:(by eapply list_elem_of_lookup_2)) as [Hclive Hcl].
        destruct (skel_live _ _ Hclive) as [mc Hmc].
        rewrite (load_Done _ _ _ Hmc). cbn [mbind outcome_bind obind].
        rewrite (IH c mc ltac:(lia) Hmc).
        pose proof (prefix_weight_step a n j c Hn Hleaf Hc) as Hstep.
        fold seps E in Hstep. rewrite <- Hstep.
        pose proof (prefix_weight_bounds (lo a) seps (S j)) as Hb. fold E in Hb.
        rewrite int32_id by lia.
        apply IHm. lia. }
    specialize (Hloop (length (children n)) 0%nat ltac:(lia)). rewrite drop_0 in Hloop.
    change (prefix_weight (lo a) seps E 0) with 0%Z in Hloop.
    rewrite Hloop in Hok. injection Hok as <-.
    rewrite Hlen. cbn [prefix_weight]. unfold seps. by rewrite separators_last.
Qed.

Lemma count_values_spec (vs : list (list V)) : ∀ idx i acc,
  (i + idx ≤ length vs)%nat → (0 ≤ acc)%Z →
  (acc + foldr (λ v s, (Z.of_nat (length v) + s)%Z) 0 (take idx (drop i vs)) < 2147483648)%Z →
  count_values vs i idx acc
  = Done (acc + foldr (λ v s, (Z.of_nat (length v) + s)%Z) 0 (take idx (drop i vs)))%Z.
Proof.
  induction idx as [|idx IH]; intros i acc Hi Hacc Hsum.
  { cbn [count_values]. rewrite take_0. cbn [foldr]. f_equal. lia. }
  cbn [count_values]. destruct (at_lt vs i) as (v & -> & Hv); [lia|].
  cbn [mbind outcome_bind obind]. rewrite (drop_S _ _ _ Hv) in Hsum |- *.
  cbn [take foldr] in Hsum |- *.
  assert (0 ≤ foldr (λ v s, (Z.of_nat (length v) + s)%Z) 0 (take idx (drop (S i) vs)))%Z.
  { generalize (take idx (drop (S i) vs)). clear. induction l; cbn; lia. }
  rewrite int32_id by lia. rewrite IH by lia. f_equal. lia.
Qed.

Lemma filter_le_zip (ks : list Z) (vs : list (list V)) x :
  ascending ks → length vs = length ks →
  filter (λ e, (e.1 ≤ x)%Z) (zip ks vs)
  = zip (take (upper_bound ks x) ks) (take (upper_bound ks x) vs).
Proof.
  intros Hasc Hlen. destruct (upper_bound_spec ks x Hasc) as [Hlow Hhigh].
  rewrite (zip_take_drop ks vs (upper_bound ks x)) at 1. rewrite filter_app.
  rewrite filter_all, filter_none; [by rewrite app_nil_r| |].
  - intros e (j & Hj)%zip_key_lookup. rewrite lookup_drop in Hj.
    pose proof (Hhigh _ _ Hj ltac:(lia)). lia.
  - intros e (j & Hj)%zip_key_lookup. apply lookup_take_Some in Hj as [Hj Hlt].
    by apply (Hlow j).
Qed.

Lemma count_children_spec a n : ∀ i c,
  heap t !! a = Some (Some n) → isLeaf n = false → (c + i ≤ length (children n))%nat →
  count_children (heap t) (children n) c i
    (prefix_weight (lo a) (separators (lo a) (keys n) (hi a)) (entries (heap t) chain) c)
  = Done (prefix_weight (lo a) (separators (lo a) (keys n) (hi a)) (entries (heap t) chain)
            (c + i)).
Proof.
  induction i as [|i IH]; intros c Hn Hleaf Hc.
  { cbn. by rewrite Nat.add_0_r. }
  cbn [count_children].
  destruct (at_lt (children n) c) as (ci & -> & Hci); [lia|]. cbn [mbind outcome_bind obind].
  pose proof (skel_lookup _ _ _ Hn) as Hskel. rewrite Hleaf in Hskel.
  destruct (Hsh _ _ _ _ _ Hskel) as [_ [Hlen Hcs]].
  destruct (Hcs ci ltac:(by eapply list_elem_of_lookup_2)) as [Hclive Hcl].
  destruct (skel_live _ _ Hclive) as [mc Hmc].
  rewrite (load_Done _ _ _ Hmc). cbn [mbind outcome_bind obind].
  rewrite (subtree_size_exact (lvl ci) ci mc ltac:(lia) Hmc).
  rewrite <- (prefix_weight_step a n c ci Hn Hleaf Hci).
  pose proof (prefix_weight_bounds (lo a) (separators (lo a) (keys n) (hi a)) (S c)).
  rewrite int32_id by lia. rewrite IH by (done || lia). f_equal. f_equal. lia.
Qed.

(** [countLessOrEqualRecursive(node, x)] counts the values under [node]
    whose key is at most [x]. *)
Lemma countLessOrEqualRecursive_exact x fuel : ∀ a n,
  (lvl a < fuel)%nat → heap t !! a = Some (Some n) →
  countLessOrEqualRecursive fuel (heap t) (Some a) x
  = Done (weight (filter (λ e, (e.1 ≤ x)%Z) (between (lo a) (hi a) (entries (heap t) chain)))).
Proof.
  induction fuel as [|fuel IH]; intros a n Hfuel Hn; [lia|].
  cbn [countLessOrEqualRecursive]. rewrite (load_Done _ _ _ Hn).
  cbn [mbind outcome_bind obind].
  pose proof Hinv as [Hord _ _ _].
  destruct (Hord a n Hn) as (Hasc & Hin & Hshape).
  pose proof (weight_filter_le (λ e, (e.1 ≤ x)%Z)
                (between (lo a) (hi a) (entries (heap t) chain))) as Hle.
  pose proof (between_le (lo a) (hi a)) as Hlt.
  destruct (isLeaf n) eqn:Hleaf.
  - rewrite (leaf_between a (keys n) (values n) (next n)) in Hle |- * by by apply leaf_view_lookup.
    rewrite filter_le_zip in Hle |- * by done.
    pose proof (upper_bound_le (keys n) x) as Hub.
    rewrite weight_zip in Hle |- * by (rewrite !length_take; lia).
    rewrite (leaf_between a (keys n) (values n) (next n)) in Hlt by by apply leaf_view_lookup.
    rewrite weight_zip in Hlt by done.
    rewrite count_values_spec; rewrite ?drop_0; [done|lia|lia|].
    pose proof (weight_filter_le (λ e, (e.1 ≤ x)%Z) (zip (keys n) (values n))) as Hle2.
    rewrite filter_le_zip, !weight_zip in Hle2 by (done || rewrite !length_take; lia). lia.
  - destruct Hshape as [Hlen Hcs].
    pose proof (upper_bound_le (keys n) x) as Hub.
    destruct (upper_bound_spec (keys n) x Hasc) as [Hlow Hhigh].
    set (i := upper_bound (keys n) x) in *.
    pose proof (count_children_spec a n i 0 Hn Hleaf ltac:(lia)) as Hcc.
    change (prefix_weight _ _ _ 0) with 0%Z in Hcc. rewrite Hcc.
    cbn [mbind outcome_bind obind Nat.add].
    destruct (lookup_lt_is_Some_2 (children n) i) as [ci Hci]; [lia|]. rewrite Hci.
    pose proof (skel_lookup _ _ _ Hn) as Hskel. rewrite Hleaf in Hskel.
    destruct (Hsh _ _ _ _ _ Hskel) as [_ [_ Hkids]].
    destruct (Hkids ci ltac:(by eapply list_elem_of_lookup_2)) as [Hclive Hcl].
    destruct (skel_live _ _ Hclive) as [mc Hmc].
    rewrite (IH ci mc ltac:(lia) Hmc). cbn [mbind outcome_bind obind].
    destruct (Hcs i ci Hci) as (_ & Hl & Hu & _).
    assert (Heq : weight (filter (λ e, (e.1 ≤ x)%Z)
                            (between (lo a) (hi a) (entries (heap t) chain)))
                  = (prefix_weight (lo a) (separators (lo a) (keys n) (hi a))
                       (entries (heap t) chain) i
                     + weight (filter (λ e, (e.1 ≤ x)%Z)
                                 (between (lo ci) (hi ci) (entries (heap t) chain))))%Z).
    { unfold between. rewrite !list_filter_filter.
      assert (Hhi : match keys n !! i with
                    | Some k => hi ci = Some k ∧ (x < k)%Z ∧ below k (hi a)
                    | None => hi ci = hi a
                    end).
      { destruct (keys n !! i) as [k|] eqn:Hk.
        - rewrite (separators_S _ _ _ _ _ Hk) in Hu. injection Hu as <-.
          split; [done|]. split; [by apply (Hhigh i)|].
          apply Hin. by eapply list_elem_of_lookup_2.
        - apply lookup_ge_None in Hk. replace i with (length (keys n)) in Hu by lia.
          rewrite separators_last in Hu. by injection Hu as <-. }
      destruct i as [|i'].
      - rewrite separators_0 in Hl. injection Hl as Hl. cbn [prefix_weight].
        rewrite Z.add_0_l. apply weight_filter_ext. intros e _.
        rewrite !within_spec, <- Hl. unfold above, below.
        destruct (keys n !! 0%nat) as [k|].
        + destruct Hhi as (-> & Hxk & Hka). destruct (lo a), (hi a); cbn in *; lia.
        + by rewrite Hhi.
      - assert (Hi' : (i' < length (keys n))%nat) by lia.
        destruct (lookup_lt_is_Some_2 (keys n) i' Hi') as [k' Hk'].
        rewrite (separators_S _ _ _ _ _ Hk') in Hl. injection Hl as Hl.
        pose proof (Hlow i' k' Hk' ltac:(lia)) as Hk'x.
        destruct (Hin k' ltac:(by eapply list_elem_of_lookup_2)) as [Hpk Hbk].
        unfold prefix_weight. rewrite (separators_S _ _ _ _ _ Hk'). cbn [default from_option].
        unfold id, between. apply weight_filter_split. intros e _.
        rewrite !within_spec, <- Hl. unfold above, below, proper in *.
        destruct (keys n !! S i') as [k|].
        + destruct Hhi as (-> & Hxk & Hka). destruct (lo a), (hi a); cbn in *; lia.
        + rewrite Hhi. destruct (lo a), (hi a); cbn in *; lia. }
    rewrite <- Heq. rewrite int32_id; [done|].
    pose proof (weight_nonneg (filter (λ e, (e.1 ≤ x)%Z)
                  (between (lo a) (hi a) (entries (heap t) chain)))). lia.
Qed.

End SizeExact.

(** ** Counting in a tree with [int] keys built by [insert] *)

Section IntCounts.
Context {V : Type}.
Context (gas : nat).
Implicit Types (t : BPlusTree Z V) (pairs : list (Z * V)).

Lemma weight_entries_of pairs : weight (entries_of pairs) = Z.of_nat (length pairs).
Proof.
  pose proof (weight_entries_of_filter (λ _, True) pairs) as Hw.
  rewrite !filter_all in Hw by done. done.
Qed.

Lemma length_filter_split {A} (P Q R : A → Prop) `{∀ x, Decision (P x)}
    `{∀ x, Decision (Q x)} `{∀ x, Decision (R x)} (l : list A) :
  (∀ x, x ∈ l → (P x ↔ Q x ∨ R x) ∧ ¬ (Q x ∧ R x)) →
  length (filter P l) = (length (filter Q l) + length (filter R l))%nat.
Proof.
  induction l as [|x l IH]; intros Hsplit; [done|].
  assert (IH' : length (filter P l) = (length (filter Q l) + length (filter R l))%nat).
  { apply IH. intros y Hy. apply Hsplit. by right. }
  destruct (Hsplit x ltac:(by left)) as [Hiff Hnot].
  destruct (decide (Q x)) as [HQ|HQ], (decide (R x)) as [HR|HR].
  - destruct Hnot. done.
  - rewrite (filter_cons_True P) by (apply Hiff; by left).
    rewrite (filter_cons_True Q), (filter_cons_False R) by done. cbn. lia.
  - rewrite (filter_cons_True P) by (apply Hiff; by right).
    rewrite (filter_cons_False Q), (filter_cons_True R) by done. cbn. lia.
  - rewrite (filter_cons_False P) by (intros [?|?]%Hiff; done).
    rewrite (filter_cons_False Q), (filter_cons_False R) by done. done.
Qed.

(** What [countLessOrEqual] answers on a tree in order with right
    counters. *)
Lemma countLessOrEqual_exact lvl H0 chain0 lo hi par chain t x :
  tree_inv lvl H0 chain0 t → sorted_inv lo hi par chain t →
  counted_but par (λ _, False) None t → (H0 < gas)%nat →
  (weight (entries (heap t) chain) < 2147483648)%Z →
  countLessOrEqual gas x t
  = Done (weight (filter (λ e, (e.1 ≤ x)%Z) (entries (heap t) chain))).
Proof.
  intros [_ (r & Hroot & Hrlive) Hsh _] Hinv [_ Hsz] Hgas Hfit.
  pose proof Hinv as [_ (r' & Hr' & _ & Hlor & Hhir & _) _ _].
  rewrite Hroot in Hr'. injection Hr' as <-.
  destruct (skel_live _ _ Hrlive) as [n Hn].
  assert (Hrb : (lvl r ≤ H0)%nat).
  { destruct Hrlive as [[[[??]?]?] Hr]. by destruct (Hsh _ _ _ _ _ Hr). }
  unfold countLessOrEqual. rewrite Hroot.
  rewrite (countLessOrEqualRecursive_exact lvl H0 lo hi par chain t Hsh Hinv Hsz Hfit x gas r n)
    by (done || lia).
  by rewrite Hlor, Hhir, between_all.
Qed.

(** After any run of fewer than 2^31 [insert]s on a fresh tree with
    [int] keys, [countLessOrEqual(x)] is the number of inserted pairs
    whose key is at most [x]. *)
Theorem countLessOrEqual_counts_the_pairs ord pairs x :
  (3 ≤ ord < 2147483647)%Z → (length pairs + 1 < gas)%nat →
  (Z.of_nat (length pairs) < 2147483648)%Z →
  ∃ t, tree_after gas ord (inserts pairs) = Done t
    ∧ countLessOrEqual gas x t
      = Done (Z.of_nat (length (filter (λ p, (p.1 ≤ x)%Z) pairs))).
Proof.
  intros Hord Hgas Hfit.
  destruct (tree_after_inserts gas ord pairs Hord Hgas)
    as (t & lvl & H0 & chain0 & lo & hi & par & chain & Hrun & Hinv0 & HH & Hlen & Hinv & Hcnt
        & Hent & _).
  exists t. split; [done|].
  rewrite (countLessOrEqual_exact lvl H0 chain0 lo hi par chain t x Hinv0 Hinv Hcnt ltac:(lia))
    by (rewrite Hent, weight_entries_of; lia).
  rewrite Hent. f_equal. exact (weight_entries_of_filter (λ k, (k ≤ x)%Z) pairs).
Qed.

(** After any run of fewer than 2^31 [insert]s on a fresh tree with
    [int] keys, [countInRange(Smin, Smax)] is the number of inserted
    pairs with a key at most [Smax] less the number of those with a key
    below [Smin]: for [Smin <= Smax + 1], the number of inserted pairs
    with a key in [[Smin, Smax]]. *)
Theorem countInRange_counts_the_pairs ord pairs Smin Smax :
  (3 ≤ ord < 2147483647)%Z → (length pairs + 1 < gas)%nat →
  (Z.of_nat (length pairs) < 2147483648)%Z →
  Forall (λ p, (-2147483648 ≤ p.1)%Z) pairs →
  (-2147483648 ≤ Smin < 2147483648)%Z →
  ∃ t, tree_after gas ord (inserts pairs) = Done t
    ∧ countInRange gas Smin Smax t
      = Done (Z.of_nat (length (filter (λ p, (p.1 ≤ Smax)%Z) pairs))
              - Z.of_nat (length (filter (λ p, (p.1 < Smin)%Z) pairs)))%Z
    ∧ ((Smin ≤ Smax + 1)%Z →
       (Z.of_nat (length (filter (λ p, (p.1 ≤ Smax)%Z) pairs))
        - Z.of_nat (length (filter (λ p, (p.1 < Smin)%Z) pairs)))%Z
       = Z.of_nat (length (filter (λ p, (Smin ≤ p.1)%Z ∧ (p.1 ≤ Smax)%Z) pairs))).
Proof.
  intros Hord Hgas Hfit Hkeys HSmin.
  destruct (tree_after_inserts gas ord pairs Hord Hgas)
    as (t & lvl & H0 & chain0 & lo & hi & par & chain & Hrun & Hinv0 & HH & Hlen & Hinv & Hcnt
        & Hent & _).
  assert (Hle : ∀ x, countLessOrEqual gas x t
                     = Done (Z.of_nat (length (filter (λ p, (p.1 ≤ x)%Z) pairs)))).
  { intros x.
    rewrite (countLessOrEqual_exact lvl H0 chain0 lo hi par chain t x Hinv0 Hinv Hcnt ltac:(lia))
      by (rewrite Hent, weight_entries_of; lia).
    rewrite Hent. f_equal. exact (weight_entries_of_filter (λ k, (k ≤ x)%Z) pairs). }
  assert (Hbound : ∀ (P : Z * V → Prop) `{∀ p, Decision (P p)},
            (0 ≤ Z.of_nat (length (filter P pairs)) < 2147483648)%Z).
  { intros P ?. pose proof (length_filter P pairs). lia. }
  exists t. split; [done|]. split.
  - unfold countInRange. destruct Hinv0 as [_ (r & -> & _) _ _].
    change (klt klowest Smin) with (-2147483648 <? Smin)%Z.
    change (kpred1 Smin) with (int32 (Smin - 1)).
    pose proof (Hbound (λ p, (p.1 ≤ Smax)%Z) _) as Hb1.
    destruct (Z.ltb_spec (-2147483648) Smin) as [Hlt|Hge].
    + rewrite (int32_id (Smin - 1)) by lia.
      rewrite (Hle Smax), (Hle (Smin - 1)%Z). cbn [mbind outcome_bind obind].
      pose proof (Hbound (λ p, (p.1 ≤ Smin - 1)%Z) _) as Hb2.
      rewrite int32_id by lia. f_equal. f_equal. f_equal. f_equal.
      apply list_filter_iff. intros p. lia.
    + rewrite (Hle Smax). cbn [mbind outcome_bind obind]. f_equal.
      rewrite (filter_none (λ p, (p.1 < Smin)%Z)).
      * cbn [length]. rewrite int32_id by lia. lia.
      * intros p Hp. rewrite Forall_forall in Hkeys. pose proof (Hkeys p Hp). lia.
  - intros Hrange.
    rewrite (length_filter_split (λ p, (p.1 ≤ Smax)%Z) (λ p, (p.1 < Smin)%Z)
               (λ p, (Smin ≤ p.1)%Z ∧ (p.1 ≤ Smax)%Z) pairs); [lia|].
    intros p _. lia.
Qed.

(** After any run of fewer than 2^31 [insert]s on a fresh tree with
    [int] keys, the counter [subtree_size] of the root is the number of
    inserted pairs. *)
Theorem root_counter_counts_the_pairs ord pairs :
  (3 ≤ ord < 2147483647)%Z → (length pairs + 1 < gas)%nat →
  (Z.of_nat (length pairs) < 2147483648)%Z →
  ∃ t r n, tree_after gas ord (inserts pairs) = Done t
    ∧ root t = Some r ∧ heap t !! r = Some (Some n)
    ∧ subtree_size n = Z.of_nat (length pairs).
Proof.
  intros Hord Hgas Hfit.
  destruct (tree_after_inserts gas ord pairs Hord Hgas)
    as (t & lvl & H0 & chain0 & lo & hi & par & chain & Hrun & Hinv0 & HH & Hlen & Hinv & Hcnt
        & Hent & _).
  destruct Hinv0 as [_ (r & Hroot & Hrlive) Hsh _]. destruct Hcnt as [_ Hsz].
  pose proof Hinv as [_ (r' & Hr' & _ & Hlor & Hhir & _) _ _].
  rewrite Hroot in Hr'. injection Hr' as <-.
  destruct (skel_live _ _ Hrlive) as [n Hn].
  exists t, r, n. split; [done|]. split; [done|]. split; [done|].
  rewrite (subtree_size_exact lvl H0 lo hi par chain t Hsh Hinv Hsz
             ltac:(rewrite Hent, weight_entries_of; lia) (lvl r) r n ltac:(lia) Hn).
  by rewrite Hlor, Hhir, between_all, Hent, weight_entries_of.
Qed.

End IntCounts.

Lemma countLessOrEqual_counts_the_pairs_witness :
  ∃ t, tree_after fuel50 3 (inserts pairs_small) = Done t
    ∧ countLessOrEqual fuel50 3%Z t
      = Done (Z.of_nat (length (filter (λ p, (p.1 ≤ 3)%Z) pairs_small))).
Proof.
  apply (countLessOrEqual_counts_the_pairs fuel50 3 pairs_small 3); [lia| |simpl; lia].
  unfold fuel50. simpl. lia.
Defined.

Lemma countInRange_counts_the_pairs_witness :
  ∃ t, tree_after fuel50 3 (inserts pairs_small) = Done t
    ∧ countInRange fuel50 2%Z 4%Z t
      = Done (Z.of_nat (length (filter (λ p, (p.1 ≤ 4)%Z) pairs_small))
              - Z.of_nat (length (filter (λ p, (p.1 < 2)%Z) pairs_small)))%Z
    ∧ ((2 ≤ 4 + 1)%Z →
       (Z.of_nat (length (filter (λ p, (p.1 ≤ 4)%Z) pairs_small))
        - Z.of_nat (length (filter (λ p, (p.1 < 2)%Z) pairs_small)))%Z
       = Z.of_nat (length (filter (λ p, (2 ≤ p.1)%Z ∧ (p.1 ≤ 4)%Z) pairs_small))).
Proof.
  apply (countInRange_counts_the_pairs fuel50 3 pairs_small 2 4); [lia| |simpl; lia| |lia].
  - unfold fuel50. simpl. lia.
  - unfold pairs_small. repeat constructor; simpl; lia.
Defined.

Lemma root_counter_counts_the_pairs_witness :
  ∃ t r n, tree_after fuel50 3 (inserts pairs_small) = Done t
    ∧ root t = Some r ∧ heap t !! r = Some (Some n)
    ∧ subtree_size n = Z.of_nat (length pairs_small).
Proof.
  apply (root_counter_counts_the_pairs fuel50 3 pairs_small); [lia| |simpl; lia].
  unfold fuel50. simpl. lia.
Defined.

(** ** Two leaves side by side under one parent *)

Section ListFacts.
Context {A : Type}.
Implicit Types (l : list A).

Lemma lookup_erase_at l i j :
  erase_at i l !! j = if decide (j < i)%nat then l !! j else l !! S j.
Proof.
  unfold erase_at. destruct (decide (j < i)%nat) as [Hlt|Hge].
  - destruct (decide (i ≤ length l)%nat).
    + rewrite lookup_app_l by (rewrite length_take; lia). by apply lookup_take_lt.
    + rewrite drop_ge, app_nil_r by lia. by apply lookup_take_lt.
  - destruct (decide (i ≤ length l)%nat).
    + rewrite lookup_app_r by (rewrite length_take; lia).
      rewrite length_take, lookup_drop. f_equal. lia.
    + rewrite drop_ge, app_nil_r, take_ge by lia.
      rewrite !(proj2 (lookup_ge_None _ _)) by lia. done.
Qed.

Lemma elem_of_erase_at l i x : x ∈ erase_at i l → x ∈ l.
Proof. intros Hx. eapply elem_of_sublist; [done|apply erase_at_sublist]. Qed.

Lemma removelast_last l x : last l = Some x → l = removelast l ++ [x].
Proof.
  intros Hl. destruct (decide (l = [])) as [->|Hne]; [done|].
  rewrite (app_removelast_last x Hne) at 1. f_equal. f_equal.
  clear Hne. induction l as [|a [|b l] IH]; [done|by injection Hl|]. by apply IH.
Qed.

Lemma length_removelast l : length (removelast l) = (length l - 1)%nat.
Proof.
  induction l as [|a [|b l] IH]; [done|done|]. cbn [removelast length] in *. rewrite IH. lia.
Qed.

Lemma index_of_lookup (a : addr) (cs : list addr) i :
  index_of a cs = Some i → cs !! i = Some a.
Proof.
  revert i. induction cs as [|c cs IH]; intros i; [done|]. cbn [index_of].
  case_bool_decide as Hc.
  - intros [= <-]. cbn. by f_equal.
  - destruct (index_of a cs) as [j|]; cbn; [|done]. intros [= <-]. cbn. by apply IH.
Qed.

Lemma index_of_elem (a : addr) (cs : list addr) : a ∈ cs → is_Some (index_of a cs).
Proof.
  induction cs as [|c cs IH]; intros Hin; [by apply elem_of_nil in Hin|]. cbn [index_of].
  case_bool_decide as Hc; [by eexists|].
  apply elem_of_cons in Hin as [->|Hin]; [done|]. destruct (IH Hin) as [j ->]. cbn. by eexists.
Qed.

End ListFacts.

Section Siblings.
Context {V : Type}.
Implicit Types (h : list (option (Node Z V))) (n : Node Z V) (t : BPlusTree Z V).
Implicit Types (lo hi hiP : nat → option Z) (par : nat → option nat).

Lemma descend_path_parent h key fuel : ∀ a path0 path leaf,
  descend_path fuel h a key path0 = Done (path, leaf) →
  (leaf = a ∧ path = path0)
  ∨ ∃ p pn path', path = path' ++ [p] ∧ h !! p = Some (Some pn) ∧ isLeaf pn = false
      ∧ children pn !! upper_bound (keys pn) key = Some leaf.
Proof.
  induction fuel as [|fuel IH]; intros a path0 path leaf Hd; [done|].
  cbn [descend_path] in Hd. apply obind_Done in Hd as (n & Hn%load_inv & Hd).
  destruct (isLeaf n) eqn:Hleaf; [injection Hd as <- <-; by left|].
  apply obind_Done in Hd as (c & Hc%at_inv & Hd). right.
  destruct (IH _ _ _ _ Hd) as [[-> ->]|Hdeep]; [|done].
  by exists a, n, path0.
Qed.

Lemma chain_seg_proper lo hi from chain to a :
  chain_seg lo hi from chain to → a ∈ chain → proper (lo a) (hi a).
Proof.
  revert from. induction chain as [|b rest IH]; intros from Hseg Ha; [by apply elem_of_nil in Ha|].
  destruct Hseg as (_ & Hp & _ & Hseg). apply elem_of_cons in Ha as [->|Ha]; [done|].
  by eapply IH.
Qed.

(** Two children next to each other in a parent are next to each other
    in the leaf chain, and the key between them is their common bound. *)
Lemma siblings_adjacent lo hi par chain t p pn i x y :
  sorted_inv lo hi par chain t → heap t !! p = Some (Some pn) → isLeaf pn = false →
  children pn !! i = Some x → children pn !! S i = Some y →
  is_Some (leaf_view (heap t) x) → is_Some (leaf_view (heap t) y) →
  ∃ c1 c2 k, chain = c1 ++ x :: y :: c2 ∧ keys pn !! i = Some k
    ∧ hi x = Some k ∧ lo y = Some k ∧ x ≠ y.
Proof.
  intros [Hord _ (Hnd & Hall & Hlinked) Hseg] Hp Hleaf Hx Hy Hxl Hyl.
  pose proof (Hord p pn Hp) as Hok. pose proof Hok as (Hasc & Hin & Hsh).
  rewrite Hleaf in Hin, Hsh. destruct Hsh as [Hlen Hcs].
  assert (Hne : x ≠ y).
  { intros ->. pose proof (children_inj _ _ _ _ _ _ _ _ _ _ Hok Hleaf Hx Hy). lia. }
  destruct (lookup_lt_is_Some_2 (keys pn) i) as [k Hk].
  { apply lookup_lt_Some in Hy. lia. }
  destruct (Hcs i x Hx) as (_ & _ & Hhx & _). destruct (Hcs (S i) y Hy) as (_ & Hly & _ & _).
  rewrite (separators_S _ _ _ _ _ Hk) in Hhx, Hly.
  injection Hhx as Hhx. injection Hly as Hly. symmetry in Hhx, Hly.
  destruct (list_elem_of_split _ _ (Hall _ Hxl)) as (c1 & rest & ->).
  pose proof (Hall _ Hyl) as Hyin.
  pose proof (chain_seg_proper _ _ _ _ _ y Hseg Hyin) as Hpy.
  apply chain_seg_app in Hseg as (mid & Hseg1 & Hseg2 & Hmid_some).
  cbn [chain_seg] in Hseg2. destruct Hseg2 as (Hmid & Hpx & Hsome & Hseg2).
  rewrite Hhx in Hseg2, Hpx. rewrite Hly in Hpy.
  destruct rest as [|z rest]; [done|].
  cbn [chain_seg] in Hseg2. destruct Hseg2 as (Hlz & Hpz & Hsomez & Hseg3).
  exists c1, rest, k. apply elem_of_app in Hyin as [Hy1|Hy2].
  - exfalso. destruct c1 as [|a c1]; [by apply elem_of_nil in Hy1|].
    destruct Hmid_some as [u0 ->]; [done|done|].
    destruct (chain_seg_his _ _ _ _ _ u0 Hseg1 eq_refl y Hy1) as (u & Hu & Hle).
    rewrite Hu in Hpy. rewrite Hmid in Hpx. cbn in Hpy, Hpx. lia.
  - apply elem_of_cons in Hy2 as [->|Hy2]; [done|].
    apply elem_of_cons in Hy2 as [->|Hy2]; [done|]. exfalso.
    destruct rest as [|b rest]; [by apply elem_of_nil in Hy2|].
    destruct Hsomez as [u Hu]; [done|]. rewrite Hu, Hlz in Hpz.
    destruct (chain_seg_los _ _ _ _ _ u Hseg3 Hu y Hy2) as (l & Hl & Hle).
    rewrite Hly in Hl. injection Hl as <-. cbn in Hpz. lia.
Qed.

(** The bound between two leaves next to each other moves to [k']. *)
Lemma chain_seg_shift lo hi from c1 x y c2 to k' :
  NoDup (c1 ++ x :: y :: c2) → chain_seg lo hi from (c1 ++ x :: y :: c2) to →
  proper (lo x) (Some k') → proper (Some k') (hi y) →
  chain_seg (set_at lo y (Some k')) (set_at hi x (Some k')) from (c1 ++ x :: y :: c2) to.
Proof.
  intros Hnd Hseg Hpx Hpy. revert from Hnd Hseg.
  induction c1 as [|a c1 IH]; intros from Hnd Hseg.
  - cbn [app] in *. apply NoDup_cons in Hnd as [Hx Hnd]. apply NoDup_cons in Hnd as [Hy Hnd].
    assert (Hne : x ≠ y) by (intros ->; apply Hx; by left).
    destruct Hseg as (Hlx & _ & _ & Hly & _ & Hsome & Hseg).
    cbn [chain_seg]. rewrite !set_at_eq, (set_at_ne _ _ _ x), (set_at_ne _ _ _ y) by done.
    split; [done|]. split; [done|]. split; [by eexists|]. split; [done|]. split; [done|].
    split; [done|]. apply (chain_seg_ext lo hi); [|done].
    intros b Hb. rewrite !set_at_ne; [done| |]; intros ->; [apply Hx; by right|done].
  - cbn [app] in *. apply NoDup_cons in Hnd as [Ha Hnd].
    destruct Hseg as (Hla & Hpa & Hsome & Hseg).
    assert (a ≠ x ∧ a ≠ y) as [Hax Hay].
    { split; intros ->; apply Ha; apply elem_of_app; right; [by left|right; by left]. }
    cbn [chain_seg]. rewrite !set_at_ne by done.
    split; [done|]. split; [done|]. split; [done|]. by apply IH.
Qed.

(** The second of two leaves next to each other goes, and the first
    covers the bounds of both. *)
Lemma chain_seg_merge lo hi from c1 x y c2 to :
  NoDup (c1 ++ x :: y :: c2) → chain_seg lo hi from (c1 ++ x :: y :: c2) to →
  chain_seg lo (set_at hi x (hi y)) from (c1 ++ x :: c2) to.
Proof.
  intros Hnd Hseg. revert from Hnd Hseg.
  induction c1 as [|a c1 IH]; intros from Hnd Hseg.
  - cbn [app] in *. apply NoDup_cons in Hnd as [Hx Hnd]. apply NoDup_cons in Hnd as [Hy Hnd].
    destruct Hseg as (Hlx & Hpx & Hsx & Hly & Hpy & Hsome & Hseg).
    cbn [chain_seg]. rewrite set_at_eq. split; [done|]. split.
    { destruct Hsx as [u Hu]; [done|]. rewrite Hu in Hpx, Hly. rewrite Hly in Hpy.
      destruct (lo x), (hi y); cbn in *; try done. lia. }
    split; [done|]. apply (chain_seg_ext lo hi); [|done].
    intros b Hb. split; [done|]. rewrite set_at_ne; [done|]. intros ->. apply Hx. by right.
  - cbn [app] in *. apply NoDup_cons in Hnd as [Ha Hnd].
    destruct Hseg as (Hla & Hpa & Hsome & Hseg).
    assert (Hax : a ≠ x) by (intros ->; apply Ha; apply elem_of_app; right; by left).
    cbn [chain_seg]. rewrite !set_at_ne by done.
    split; [done|]. split; [done|]. split; [|by apply IH].
    intros _. apply Hsome. by destruct c1.
Qed.

Lemma separators_set (l0 : option Z) (ks : list Z) (u0 : option Z) i k :
  (i < length ks)%nat →
  separators l0 (<[i := k]> ks) u0 = <[S i := Some k]> (separators l0 ks u0).
Proof.
  intros Hi. unfold separators.
  change (<[S i := Some k]> (l0 :: (Some <$> ks) ++ [u0]))
    with (l0 :: <[i := Some k]> ((Some <$> ks) ++ [u0])). f_equal.
  rewrite insert_app_l by (rewrite length_fmap; lia). by rewrite list_fmap_insert.
Qed.

Lemma separators_erase (l0 : option Z) (ks : list Z) (u0 : option Z) i j :
  (i < length ks)%nat →
  separators l0 (erase_at i ks) u0 !! j
  = if decide (j ≤ i)%nat then separators l0 ks u0 !! j else separators l0 ks u0 !! S j.
Proof.
  intros Hi. destruct j as [|j]; [by rewrite decide_True by lia|].
  assert (Hcons : ∀ (x : option Z) l (m : nat), (x :: l) !! S m = l !! m) by done.
  unfold separators. rewrite !Hcons.
  assert (Hlen : length (erase_at i ks) = (length ks - 1)%nat) by by apply length_erase_at.
  destruct (decide (S j ≤ i)%nat) as [Hle|Hgt].
  - rewrite !lookup_app_l by (rewrite length_fmap, ?Hlen; lia).
    rewrite !list_lookup_fmap, lookup_erase_at, decide_True by lia. done.
  - destruct (decide (j < length ks - 1)%nat).
    + rewrite !lookup_app_l by (rewrite length_fmap, ?Hlen; lia).
      rewrite !list_lookup_fmap, lookup_erase_at, decide_False by lia. done.
    + rewrite !lookup_app_r by (rewrite length_fmap, ?Hlen; lia).
      rewrite !length_fmap, Hlen. f_equal. lia.
Qed.

Lemma ascending_set (ks : list Z) i k :
  ascending ks →
  (∀ j a, ks !! j = Some a → (j < i)%nat → (a < k)%Z) →
  (∀ j a, ks !! j = Some a → (i < j)%nat → (k < a)%Z) →
  ascending (<[i := k]> ks).
Proof.
  intros Hasc Hlt Hgt j1 j2 a b Ha Hb Hj.
  destruct (decide (j1 = i)) as [->|Hn1], (decide (j2 = i)) as [->|Hn2]; [lia| | |].
  - rewrite list_lookup_insert_ne in Hb by done.
    apply list_lookup_insert_Some in Ha as [(_ & <- & _)|[? _]]; [|done]. by eapply Hgt.
  - rewrite list_lookup_insert_ne in Ha by done.
    apply list_lookup_insert_Some in Hb as [(_ & <- & _)|[? _]]; [|done]. by eapply Hlt.
  - rewrite list_lookup_insert_ne in Ha, Hb by done. by eapply Hasc.
Qed.

Lemma shaped_release lvl H0 h y :
  shaped lvl H0 h →
  (∀ a n, h !! a = Some (Some n) → a ≠ y → isLeaf n = false → y ∉ children n) →
  shaped lvl H0 (<[y := None]> h).
Proof.
  intros Hsh Hfree a leaf cs nk nv Ha.
  assert (Hay : a ≠ y).
  { intros ->. unfold skel in Ha. destruct (decide (y < length h)%nat).
    - by rewrite list_lookup_insert_eq in Ha.
    - by rewrite list_insert_ge, (proj2 (lookup_ge_None _ _)) in Ha by lia. }
  assert (Ha0 : skel h a = Some (leaf, cs, nk, nv)).
  { unfold skel in *. by rewrite list_lookup_insert_ne in Ha. }
  destruct (Hsh _ _ _ _ _ Ha0) as [Hlvl Hfits]. split; [done|].
  destruct leaf; [done|]. destruct Hfits as [Hlen Hcs]. split; [done|].
  intros c Hc. destruct (Hcs c Hc) as [Hlive Hl]. split; [|done].
  destruct (skel_Some _ _ _ _ _ _ Ha0) as (n & Hn & Hleaf & <- & _).
  assert (c ≠ y) by (intros ->; by eapply Hfree).
  unfold skel in *. by rewrite list_lookup_insert_ne.
Qed.

End Siblings.

(** ** A leaf borrows from the leaf next to it *)

Section Shift.
Context {V : Type}.
Implicit Types (h : list (option (Node Z V))) (n : Node Z V) (t : BPlusTree Z V).
Implicit Types (lo hi hiP : nat → option Z) (par : nat → option nat).

Lemma proper_trans_lt (l : option Z) (k k' : Z) :
  proper l (Some k) → (k ≤ k')%Z → proper l (Some k').
Proof. destruct l; cbn; [lia|done]. Qed.

Lemma below_trans_lt (k k' : Z) (u : option Z) :
  (k' ≤ k)%Z → below k u → below k' u.
Proof. destruct u; cbn; [lia|done]. Qed.

(** The key between two children may move as far as the bounds of the
    two allow. *)
Lemma set_key_ok (l0 u0 : option Z) (ks : list Z) i k' lx hy :
  ascending ks → (∀ k, k ∈ ks → proper l0 (Some k) ∧ below k u0) → (i < length ks)%nat →
  separators l0 ks u0 !! i = Some lx → separators l0 ks u0 !! S (S i) = Some hy →
  proper lx (Some k') → proper (Some k') hy →
  ascending (<[i := k']> ks)
  ∧ ∀ k, k ∈ <[i := k']> ks → proper l0 (Some k) ∧ below k u0.
Proof.
  intros Hasc Hin Hi Hlx Hhy Hpx Hpy.
  assert (Hbefore : ∀ j a, ks !! j = Some a → (j < i)%nat → (a < k')%Z).
  { intros j a Ha Hj. destruct i as [|i']; [lia|].
    destruct (lookup_lt_is_Some_2 ks i') as [ki Hki]; [lia|].
    rewrite (separators_S _ _ _ _ _ Hki) in Hlx. injection Hlx as <-. cbn in Hpx.
    destruct (decide (j = i')) as [->|Hne]; [congruence|].
    pose proof (Hasc j i' a ki Ha Hki ltac:(lia)). lia. }
  assert (Hafter : ∀ j a, ks !! j = Some a → (i < j)%nat → (k' < a)%Z).
  { intros j a Ha Hj. pose proof (lookup_lt_Some _ _ _ Ha) as Hjl.
    destruct (lookup_lt_is_Some_2 ks (S i)) as [kn Hkn]; [lia|].
    rewrite (separators_S _ _ _ _ _ Hkn) in Hhy. injection Hhy as <-. cbn in Hpy.
    destruct (decide (j = S i)) as [->|Hne]; [congruence|].
    pose proof (Hasc (S i) j kn a Hkn Ha ltac:(lia)). lia. }
  split; [by apply ascending_set|].
  intros k Hk. apply list_elem_of_lookup in Hk as [j Hj].
  destruct (decide (j = i)) as [->|Hne].
  2:{ rewrite list_lookup_insert_ne in Hj by done. apply Hin.
      by eapply list_elem_of_lookup_2. }
  apply list_lookup_insert_Some in Hj as [(_ & <- & _)|[? _]]; [|done]. split.
  - destruct i as [|i'].
    + rewrite separators_0 in Hlx. by injection Hlx as <-.
    + destruct (lookup_lt_is_Some_2 ks i') as [ki Hki]; [lia|].
      rewrite (separators_S _ _ _ _ _ Hki) in Hlx. injection Hlx as <-. cbn in Hpx.
      apply (proper_trans_lt _ ki); [|lia]. apply Hin. by eapply list_elem_of_lookup_2.
  - destruct (decide (S i < length ks)%nat) as [Hlt|Hge].
    + destruct (lookup_lt_is_Some_2 ks (S i)) as [kn Hkn]; [lia|].
      rewrite (separators_S _ _ _ _ _ Hkn) in Hhy. injection Hhy as <-. cbn in Hpy.
      apply (below_trans_lt kn); [lia|]. apply Hin. by eapply list_elem_of_lookup_2.
    + replace (S i) with (length ks) in Hhy by lia. rewrite separators_last in Hhy.
      injection Hhy as <-. by destruct u0.
Qed.

Lemma shift_ordered lo hi par h p pn i x y xn' yn' k' :
  ordered lo hi hi par h → h !! p = Some (Some pn) → isLeaf pn = false →
  children pn !! i = Some x → children pn !! S i = Some y →
  is_Some (leaf_view h x) → is_Some (leaf_view h y) →
  isLeaf xn' = true → isLeaf yn' = true →
  length (values xn') = length (keys xn') → length (values yn') = length (keys yn') →
  ascending (keys xn') → ascending (keys yn') →
  (∀ k, k ∈ keys xn' → above (lo x) k ∧ (k < k')%Z) →
  (∀ k, k ∈ keys yn' → (k' ≤ k)%Z ∧ below k (hi y)) →
  proper (lo x) (Some k') → proper (Some k') (hi y) →
  ordered (set_at lo y (Some k')) (set_at hi x (Some k')) (set_at hi x (Some k')) par
    (<[p := Some (with_keys (<[i := k']> (keys pn)) pn)]>
       (<[y := Some yn']> (<[x := Some xn']> h))).
Proof.
  intros Hord Hp Hleaf Hx Hy [[[kx vx] nx] Hxv] [[[ky vy] ny] Hyv] Hxl Hyl Hxlen Hylen
    Hxasc Hyasc Hxin Hyin Hpx Hpy.
  destruct (leaf_view_Some _ _ _ _ _ Hxv) as (xn & Hxn & Hxleaf & _).
  destruct (leaf_view_Some _ _ _ _ _ Hyv) as (yn & Hyn & Hyleaf & _).
  pose proof (Hord p pn Hp) as Hok. pose proof Hok as (Hasc & Hin & Hsh).
  rewrite Hleaf in Hin, Hsh. destruct Hsh as [Hlen Hcs].
  assert (Hxy : x ≠ y).
  { intros ->. pose proof (children_inj _ _ _ _ _ _ _ _ _ _ Hok Hleaf Hx Hy). lia. }
  assert (Hpx' : p ≠ x) by (intros ->; congruence).
  assert (Hpy' : p ≠ y) by (intros ->; congruence).
  pose proof (lookup_lt_Some _ _ _ Hp) as Hpl. pose proof (lookup_lt_Some _ _ _ Hxn) as Hxlt.
  pose proof (lookup_lt_Some _ _ _ Hyn) as Hylt.
  assert (Hi : (i < length (keys pn))%nat) by (apply lookup_lt_Some in Hy; lia).
  destruct (Hcs i x Hx) as (_ & Hlx & Hhx & Hparx).
  destruct (Hcs (S i) y Hy) as (_ & Hly & Hhy & Hpary).
  destruct (set_key_ok (lo p) (hi p) (keys pn) i k' (lo x) (hi y) Hasc Hin Hi Hlx Hhy Hpx Hpy)
    as [Hasc' Hin'].
  intros a n Ha. rewrite !length_insert.
  destruct (decide (a = p)) as [->|Hap].
  { rewrite list_lookup_insert_eq in Ha by (rewrite !length_insert; lia).
    injection Ha as <-. unfold node_ok. cbn [keys isLeaf children with_keys].
    rewrite Hleaf, length_insert.
    rewrite !set_at_ne by done. split; [done|]. split; [done|]. split; [done|].
    intros j c Hc. destruct (Hcs j c Hc) as (Hcb & Hlc & Hhc & Hparc).
    split; [done|]. rewrite separators_set by done.
    destruct (decide (j = i)) as [->|Hji].
    - assert (c = x) as -> by congruence.
      rewrite list_lookup_insert_ne by lia. rewrite list_lookup_insert_eq
        by (rewrite separators_length; lia).
      rewrite set_at_eq, set_at_ne by done. done.
    - destruct (decide (j = S i)) as [->|HjSi].
      + assert (c = y) as -> by congruence.
        rewrite list_lookup_insert_eq by (rewrite separators_length; lia).
        rewrite list_lookup_insert_ne by lia. rewrite set_at_eq, set_at_ne by done. done.
      + rewrite !list_lookup_insert_ne by lia.
        assert (c ≠ x).
        { intros ->. apply Hji. by eapply (children_inj _ _ _ _ _ _ _ _ _ _ Hok). }
        assert (c ≠ y).
        { intros ->. apply HjSi. by eapply (children_inj _ _ _ _ _ _ _ _ _ _ Hok). }
        rewrite !set_at_ne by done. done. }
  rewrite list_lookup_insert_ne in Ha by done.
  destruct (decide (a = y)) as [->|Hay].
  { rewrite list_lookup_insert_eq in Ha by (rewrite !length_insert; lia).
    injection Ha as <-. unfold node_ok. rewrite Hyl, set_at_eq, set_at_ne by done.
    split; [done|]. split; [|done]. intros k Hk. destruct (Hyin k Hk). split; [done|done]. }
  rewrite list_lookup_insert_ne in Ha by done.
  destruct (decide (a = x)) as [->|Hax].
  { rewrite list_lookup_insert_eq in Ha by lia.
    injection Ha as <-. unfold node_ok. rewrite Hxl, set_at_eq, set_at_ne by done.
    split; [done|]. split; [|done]. intros k Hk. destruct (Hxin k Hk). split; [done|done]. }
  rewrite list_lookup_insert_ne in Ha by done.
  apply (node_ok_ghost lo hi hi par); [by apply Hord|by rewrite set_at_ne|by rewrite set_at_ne|].
  intros Hnl c Hc. destruct (ordered_child _ _ _ _ _ _ _ _ Hord Ha Hnl Hc) as [_ Hparc].
  assert (c ≠ x) by (intros ->; congruence). assert (c ≠ y) by (intros ->; congruence).
  by rewrite !set_at_ne.
Qed.

Lemma zip_app_same {A B} (l1 l2 : list A) (k1 k2 : list B) :
  length l1 = length k1 → zip (l1 ++ l2) (k1 ++ k2) = zip l1 k1 ++ zip l2 k2.
Proof. intros Hlen. by apply zip_with_app. Qed.

(** Two leaves next to each other under [p] hand entries over and the
    key between them in [p] becomes [k']: the invariants stay and the
    leaf chain holds the same entries. *)
Lemma shift_boundary lvl H0 lo hi par chain t p pn i x y xn yn xn' yn' k' :
  tree_inv lvl H0 chain t → sorted_inv lo hi par chain t →
  heap t !! p = Some (Some pn) → isLeaf pn = false →
  children pn !! i = Some x → children pn !! S i = Some y →
  heap t !! x = Some (Some xn) → heap t !! y = Some (Some yn) →
  isLeaf xn = true → isLeaf yn = true →
  isLeaf xn' = true → isLeaf yn' = true → next xn' = next xn → next yn' = next yn →
  length (values xn') = length (keys xn') → length (values yn') = length (keys yn') →
  ascending (keys xn') → ascending (keys yn') →
  (∀ k, k ∈ keys xn' → above (lo x) k ∧ (k < k')%Z) →
  (∀ k, k ∈ keys yn' → (k' ≤ k)%Z ∧ below k (hi y)) →
  proper (lo x) (Some k') → proper (Some k') (hi y) →
  zip (keys xn') (values xn') ++ zip (keys yn') (values yn')
  = zip (keys xn) (values xn) ++ zip (keys yn) (values yn) →
  let t' := mkTree (<[p := Some (with_keys (<[i := k']> (keys pn)) pn)]>
                      (<[y := Some yn']> (<[x := Some xn']> (heap t)))) (root t) (order t) in
  ∃ lo' hi', tree_inv lvl H0 chain t' ∧ sorted_inv lo' hi' par chain t'
    ∧ entries (heap t') chain = entries (heap t) chain
    ∧ (uniform (heap t) → uniform (heap t'))
    ∧ (∀ a, is_Some (skel (heap t) a) → is_Some (skel (heap t') a)).
Proof.
  intros Hinv0 Hinv Hp Hleaf Hx Hy Hxn Hyn Hxleaf Hyleaf Hxl Hyl Hxnext Hynext Hxlen Hylen
    Hxasc Hyasc Hxin Hyin Hpx Hpy Hzip t'.
  pose proof Hinv0 as [Hord0 (r0 & Hr0 & Hrlive) Hsh _].
  pose proof Hinv as [Hord (r & Hr & _ & Hlor & Hhir & Hparr) (Hnd & Hall & Hlinked) Hseg].
  rewrite Hr in Hr0. injection Hr0 as <-.
  pose proof (leaf_view_lookup _ _ _ Hxn Hxleaf) as Hxv.
  pose proof (leaf_view_lookup _ _ _ Hyn Hyleaf) as Hyv.
  destruct (siblings_adjacent lo hi par chain t p pn i x y Hinv Hp Hleaf Hx Hy)
    as (c1 & c2 & k & Hchain & Hk & Hhx & Hly & Hxy); [by rewrite Hxv|by rewrite Hyv|].
  assert (Hpx' : p ≠ x) by (intros ->; congruence).
  assert (Hpy' : p ≠ y) by (intros ->; congruence).
  pose proof (lookup_lt_Some _ _ _ Hp) as Hpl. pose proof (lookup_lt_Some _ _ _ Hxn) as Hxlt.
  pose proof (lookup_lt_Some _ _ _ Hyn) as Hylt.
  destruct (ordered_child _ _ _ _ _ _ _ _ Hord Hp Hleaf (list_elem_of_lookup_2 _ _ _ Hx))
    as [_ Hparx].
  destruct (ordered_child _ _ _ _ _ _ _ _ Hord Hp Hleaf (list_elem_of_lookup_2 _ _ _ Hy))
    as [_ Hpary].
  set (h1 := <[x := Some xn']> (heap t)).
  set (h2 := <[y := Some yn']> h1).
  set (pn' := with_keys (<[i := k']> (keys pn)) pn).
  assert (Hlive : ∀ a, is_Some (skel (heap t) a) → is_Some (skel (heap t') a)).
  { intros a Ha. unfold t'. cbn [heap].
    apply skel_insert_live; [|apply skel_insert_live; [|apply skel_insert_live]];
      try done; unfold skel.
    - by rewrite !list_lookup_insert_ne, Hp by done.
    - by rewrite list_lookup_insert_ne, Hyn by done.
    - by rewrite Hxn. }
  assert (Hview : ∀ a, leaf_view (heap t') a
                       = if decide (a = x) then Some (keys xn', values xn', next xn')
                         else if decide (a = y) then Some (keys yn', values yn', next yn')
                         else leaf_view (heap t) a).
  { intros a. unfold t'. cbn [heap].
    rewrite leaf_view_insert by (rewrite !length_insert; lia).
    destruct (decide (p = a)) as [<-|Hpa].
    - cbn [isLeaf with_keys]. rewrite Hleaf, !decide_False by done.
      unfold leaf_view. by rewrite Hp, Hleaf.
    - rewrite leaf_view_insert by (rewrite !length_insert; lia).
      destruct (decide (y = a)) as [<-|Hya].
      + by rewrite Hyl, decide_False, decide_True by done.
      + rewrite leaf_view_insert by lia. destruct (decide (x = a)) as [<-|Hxa].
        * by rewrite Hxl, decide_True by done.
        * by rewrite !decide_False by done. }
  assert (Hch' : chained (heap t') chain).
  { split; [done|]. split.
    - intros a. rewrite Hview. destruct (decide (a = x)) as [->|?].
      { intros _. apply Hall. by rewrite Hxv. }
      destruct (decide (a = y)) as [->|?]; [|by apply Hall].
      intros _. apply Hall. by rewrite Hyv.
    - apply (linked_refill h1 _ _ y).
      + intros a Hay. rewrite Hview. unfold h1. rewrite leaf_view_insert by lia.
        destruct (decide (a = x)) as [->|?]; [by rewrite decide_True, Hxl|].
        by rewrite !decide_False by done.
      + intros ks vs nx. unfold h1. rewrite leaf_view_insert, decide_False by (done || lia).
        rewrite Hyv. intros [= <- <- <-]. rewrite Hview, decide_False, decide_True by done.
        rewrite Hynext. by eexists _, _.
      + apply (linked_refill (heap t) _ _ x); [| |done].
        * intros a Hax. unfold h1. by rewrite leaf_view_insert, decide_False by (done || lia).
        * intros ks vs nx. rewrite Hxv. intros [= <- <- <-]. unfold h1.
          rewrite leaf_view_insert, decide_True, Hxl, Hxnext by (done || lia).
          by eexists _, _. }
  exists (set_at lo y (Some k')), (set_at hi x (Some k')). split; [|split; [|split; [|split]]].
  5: done.
  4:{ intros Huni. unfold t'. cbn [heap].
      apply (uniform_keep _ p pn); [by rewrite !list_lookup_insert_ne|done|done|done|].
      apply (uniform_refill _ y yn); [by rewrite list_lookup_insert_ne|done|done|].
      by apply (uniform_refill _ x xn). }
  - split; [done|exists r; split; [done|by apply Hlive]| |done].
    unfold t'. cbn [heap]. apply shaped_update.
    + apply shaped_update; [apply shaped_update; [done|by rewrite (skel_lookup _ _ _ Hxn)|]| |].
      * unfold fits. by rewrite Hxl.
      * unfold skel. by rewrite list_lookup_insert_ne, Hyn by done.
      * unfold fits. by rewrite Hyl.
    + unfold skel. rewrite !list_lookup_insert_ne by done. by rewrite Hp.
    + unfold fits, pn'. cbn [isLeaf keys children with_keys]. rewrite Hleaf, length_insert.
      destruct (Hsh p false (children pn) (length (keys pn)) (length (values pn)))
        as [_ [Hlen Hcs]]; [by rewrite (skel_lookup _ _ _ Hp), Hleaf|].
      split; [done|]. intros c Hc. destruct (Hcs c Hc) as [Hcl Hlvl]. split; [|done].
      apply skel_insert_live; [|apply skel_insert_live]; unfold skel; try done.
      * by rewrite list_lookup_insert_ne, Hyn by done.
      * by rewrite Hxn.
  - split.
    + unfold t'. cbn [heap]. apply (shift_ordered lo hi par (heap t) p pn i x y); try done.
    + exists r. split; [done|]. split; [by apply Hlive|].
      assert (r ≠ x) by (intros ->; congruence). assert (r ≠ y) by (intros ->; congruence).
      by rewrite !set_at_ne.
    + done.
    + rewrite Hchain. apply chain_seg_shift; [by rewrite <- Hchain|by rewrite <- Hchain|done|done].
  - rewrite Hchain in Hnd |- *.
    apply NoDup_app in Hnd as (_ & Hdisj & Hnd2).
    apply NoDup_cons in Hnd2 as [Hx2 Hnd2]. apply NoDup_cons in Hnd2 as [Hy2 _].
    rewrite !entries_app, !entries_cons.
    assert (entries_at (heap t') x = zip (keys xn') (values xn')) as ->.
    { unfold entries_at. by rewrite Hview, decide_True. }
    assert (entries_at (heap t') y = zip (keys yn') (values yn')) as ->.
    { unfold entries_at. by rewrite Hview, decide_False, decide_True. }
    assert (entries_at (heap t) x = zip (keys xn) (values xn)) as ->.
    { unfold entries_at. by rewrite Hxv. }
    assert (entries_at (heap t) y = zip (keys yn) (values yn)) as ->.
    { unfold entries_at. by rewrite Hyv. }
    rewrite (app_assoc (zip (keys xn') _)), Hzip, <- app_assoc. f_equal; [|f_equal; f_equal].
    + apply entries_agree. intros a Ha. rewrite Hview, !decide_False; [done| |].
      * intros ->. apply (Hdisj _ Ha). right. by left.
      * intros ->. apply (Hdisj _ Ha). by left.
    + apply entries_agree. intros a Ha. rewrite Hview, !decide_False; [done| |].
      * by intros ->.
      * intros ->. apply Hx2. by right.
Qed.

End Shift.

(** ** A leaf takes in the leaf next to it *)

Section Merge.
Context {V : Type}.
Implicit Types (h : list (option (Node Z V))) (n : Node Z V) (t : BPlusTree Z V).
Implicit Types (lo hi hiP : nat → option Z) (par : nat → option nat).

Lemma ascending_app (l1 l2 : list Z) :
  ascending l1 → ascending l2 → (∀ a b, a ∈ l1 → b ∈ l2 → (a < b)%Z) → ascending (l1 ++ l2).
Proof.
  intros H1 H2 H12 i j a b Ha Hb Hij.
  apply lookup_app_Some in Ha as [Ha|[Hi Ha]], Hb as [Hb|[Hj Hb]].
  - by eapply H1.
  - apply H12; by eapply list_elem_of_lookup_2.
  - apply lookup_lt_Some in Hb. lia.
  - eapply H2; [done|done|lia].
Qed.

Lemma linked_merge h h' c1 x y c2 :
  NoDup (c1 ++ x :: y :: c2) →
  (∀ a, a ≠ x → a ≠ y → leaf_view h' a = leaf_view h a) →
  (∀ ks vs nx, leaf_view h y = Some (ks, vs, nx) →
     ∃ ks' vs', leaf_view h' x = Some (ks', vs', nx)) →
  linked h (c1 ++ x :: y :: c2) → linked h' (c1 ++ x :: c2).
Proof.
  intros Hnd Hsame Hx. induction c1 as [|a c1 IH]; cbn [app linked].
  - apply NoDup_cons in Hnd as [Hx1 Hnd]. apply NoDup_cons in Hnd as [Hy1 _].
    intros (_ & (ks & vs & Hy) & Hl). split; [by eapply Hx|].
    apply (linked_agree h); [|done]. intros b Hb. apply Hsame; intros ->; [|done].
    apply Hx1. by right.
  - cbn [app] in Hnd. apply NoDup_cons in Hnd as [Ha Hnd].
    intros ((ks & vs & Hav) & Hl). split; [|by apply IH].
    rewrite Hsame.
    + exists ks, vs. rewrite Hav. by destruct c1.
    + intros ->. apply Ha. apply elem_of_app. right. by left.
    + intros ->. apply Ha. apply elem_of_app. right. right. by left.
Qed.

Lemma merge_ordered lo hi par h p pn i x y xn yn :
  ordered lo hi hi par h → h !! p = Some (Some pn) → isLeaf pn = false →
  children pn !! i = Some x → children pn !! S i = Some y →
  h !! x = Some (Some xn) → h !! y = Some (Some yn) → isLeaf xn = true → isLeaf yn = true →
  proper (lo x) (hi x) → proper (lo y) (hi y) →
  ordered lo (set_at hi x (hi y)) (set_at hi x (hi y)) par
    (<[y := None]>
       (<[p := Some (with_children (erase_at (S i) (children pn))
                       (with_keys (erase_at i (keys pn)) pn))]>
          (<[x := Some (with_next (next yn)
                          (with_values (values xn ++ values yn)
                             (with_keys (keys xn ++ keys yn) xn)))]> h))).
Proof.
  intros Hord Hp Hleaf Hx Hy Hxn Hyn Hxleaf Hyleaf Hpx Hpy.
  pose proof (Hord p pn Hp) as Hok. pose proof Hok as (Hasc & Hin & Hsh).
  rewrite Hleaf in Hin, Hsh. destruct Hsh as [Hlen Hcs].
  assert (Hxy : x ≠ y).
  { intros ->. pose proof (children_inj _ _ _ _ _ _ _ _ _ _ Hok Hleaf Hx Hy). lia. }
  assert (Hpx' : p ≠ x) by (intros ->; congruence).
  assert (Hpy' : p ≠ y) by (intros ->; congruence).
  pose proof (lookup_lt_Some _ _ _ Hp) as Hpl. pose proof (lookup_lt_Some _ _ _ Hxn) as Hxlt.
  pose proof (lookup_lt_Some _ _ _ Hyn) as Hylt.
  assert (Hi : (i < length (keys pn))%nat) by (apply lookup_lt_Some in Hy; lia).
  destruct (lookup_lt_is_Some_2 (keys pn) i) as [k Hk]; [done|].
  destruct (Hcs i x Hx) as (_ & Hlx & Hhx & Hparx).
  destruct (Hcs (S i) y Hy) as (_ & Hly & Hhy & Hpary).
  rewrite (separators_S _ _ _ _ _ Hk) in Hhx, Hly.
  injection Hhx as Hhx. injection Hly as Hly. symmetry in Hhx, Hly.
  intros a n Ha. rewrite !length_insert.
  destruct (decide (a = y)) as [->|Hay].
  { by rewrite list_lookup_insert_eq in Ha by (rewrite !length_insert; lia). }
  rewrite list_lookup_insert_ne in Ha by done.
  destruct (decide (a = p)) as [->|Hap].
  { rewrite list_lookup_insert_eq in Ha by (rewrite !length_insert; lia).
    injection Ha as <-. unfold node_ok. cbn [keys isLeaf children with_keys with_children].
    rewrite Hleaf. rewrite !set_at_ne by done. split.
    { eapply ascending_sublist; [apply erase_at_sublist|done]. }
    split. { intros k0 Hk0. apply Hin. by eapply elem_of_erase_at. }
    split. { rewrite !length_erase_at by lia. lia. }
    intros j c Hc. rewrite lookup_erase_at in Hc. rewrite !separators_erase by done.
    destruct (decide (j < S i)%nat) as [Hj|Hj].
    - destruct (Hcs j c Hc) as (Hcb & Hlc & Hhc & Hparc). split; [done|].
      rewrite (decide_True (P := (j ≤ i)%nat)) by lia.
      destruct (decide (j = i)) as [->|Hji].
      + assert (c = x) as -> by congruence. rewrite set_at_eq.
        rewrite decide_False by lia. done.
      + rewrite decide_True by lia.
        assert (c ≠ x).
        { intros ->. apply Hji. by eapply (children_inj _ _ _ _ _ _ _ _ _ _ Hok). }
        by rewrite set_at_ne.
    - destruct (Hcs (S j) c Hc) as (Hcb & Hlc & Hhc & Hparc). split; [done|].
      rewrite !decide_False by lia.
      assert (c ≠ x).
      { intros ->. pose proof (children_inj _ _ _ _ _ _ _ _ _ _ Hok Hleaf Hx Hc). lia. }
      by rewrite set_at_ne. }
  rewrite list_lookup_insert_ne in Ha by done.
  destruct (decide (a = x)) as [->|Hax].
  { rewrite list_lookup_insert_eq in Ha by lia. injection Ha as <-.
    destruct (Hord x xn Hxn) as (Hxasc & Hxin & Hxlen).
    destruct (Hord y yn Hyn) as (Hyasc & Hyin & Hylen).
    rewrite Hxleaf in Hxin, Hxlen. rewrite Hyleaf in Hyin, Hylen.
    rewrite Hhx in Hxin, Hpx. rewrite Hly in Hyin, Hpy.
    unfold node_ok. cbn [keys isLeaf values with_keys with_values with_next].
    rewrite Hxleaf, set_at_eq. split; [|split].
    - apply ascending_app; [done|done|]. intros a b Ha Hb.
      destruct (Hxin a Ha) as [_ Hlt]. destruct (Hyin b Hb) as [Hge _]. cbn in Hlt, Hge. lia.
    - intros k0 [Hk0|Hk0]%elem_of_app.
      + destruct (Hxin k0 Hk0) as [Hab Hlt]. split; [done|]. cbn in Hlt.
        destruct (hi y); cbn in *; [lia|done].
      + destruct (Hyin k0 Hk0) as [Hab Hlt]. split; [|done]. cbn in Hab.
        destruct (lo x); cbn in *; [lia|done].
    - rewrite !length_app. lia. }
  rewrite list_lookup_insert_ne in Ha by done.
  apply (node_ok_ghost lo hi hi par); [by apply Hord|done|by rewrite set_at_ne|].
  intros Hnl c Hc. destruct (ordered_child _ _ _ _ _ _ _ _ Hord Ha Hnl Hc) as [_ Hparc].
  assert (c ≠ x) by (intros ->; congruence).
  by rewrite !set_at_ne.
Qed.

(** The leaf [y] is poured into the leaf [x] before it, leaves the chain
    and its parent [p], and its cell is freed: the invariants stay, and
    the leaf chain holds the same entries. *)
Lemma merge_siblings lvl H0 lo hi par chain t p pn i x y xn yn :
  tree_inv lvl H0 chain t → sorted_inv lo hi par chain t →
  heap t !! p = Some (Some pn) → isLeaf pn = false →
  children pn !! i = Some x → children pn !! S i = Some y →
  heap t !! x = Some (Some xn) → heap t !! y = Some (Some yn) →
  isLeaf xn = true → isLeaf yn = true →
  let xn' := with_next (next yn)
               (with_values (values xn ++ values yn) (with_keys (keys xn ++ keys yn) xn)) in
  let pn' := with_children (erase_at (S i) (children pn))
               (with_keys (erase_at i (keys pn)) pn) in
  let t' := mkTree (<[y := None]> (<[p := Some pn']> (<[x := Some xn']> (heap t))))
              (root t) (order t) in
  ∃ hi' chain', tree_inv lvl H0 chain' t' ∧ sorted_inv lo hi' par chain' t'
    ∧ entries (heap t') chain' = entries (heap t) chain
    ∧ (length chain' ≤ length chain)%nat
    ∧ (uniform (heap t) → uniform (heap t'))
    ∧ (∀ a, a ≠ y → is_Some (skel (heap t) a) → is_Some (skel (heap t') a)).
Proof.
  intros Hinv0 Hinv Hp Hleaf Hx Hy Hxn Hyn Hxleaf Hyleaf xn' pn' t'.
  pose proof Hinv0 as [Hord0 (r0 & Hr0 & Hrlive) Hsh _].
  pose proof Hinv as [Hord (r & Hr & _ & Hlor & Hhir & Hparr) (Hnd & Hall & Hlinked) Hseg].
  rewrite Hr in Hr0. injection Hr0 as <-.
  pose proof (leaf_view_lookup _ _ _ Hxn Hxleaf) as Hxv.
  pose proof (leaf_view_lookup _ _ _ Hyn Hyleaf) as Hyv.
  destruct (siblings_adjacent lo hi par chain t p pn i x y Hinv Hp Hleaf Hx Hy)
    as (c1 & c2 & k & Hchain & Hk & Hhx & Hly & Hxy); [by rewrite Hxv|by rewrite Hyv|].
  assert (Hpx' : p ≠ x) by (intros ->; congruence).
  assert (Hpy' : p ≠ y) by (intros ->; congruence).
  pose proof (lookup_lt_Some _ _ _ Hp) as Hpl. pose proof (lookup_lt_Some _ _ _ Hxn) as Hxlt.
  pose proof (lookup_lt_Some _ _ _ Hyn) as Hylt.
  pose proof (Hord p pn Hp) as Hok.
  destruct (ordered_child _ _ _ _ _ _ _ _ Hord Hp Hleaf (list_elem_of_lookup_2 _ _ _ Hx))
    as [_ Hparx].
  destruct (ordered_child _ _ _ _ _ _ _ _ Hord Hp Hleaf (list_elem_of_lookup_2 _ _ _ Hy))
    as [_ Hpary].
  assert (Hxin : x ∈ chain) by (apply Hall; by rewrite Hxv).
  assert (Hyin : y ∈ chain) by (apply Hall; by rewrite Hyv).
  pose proof (chain_seg_proper _ _ _ _ _ x Hseg Hxin) as Hpropx.
  pose proof (chain_seg_proper _ _ _ _ _ y Hseg Hyin) as Hpropy.
  destruct (Hord x xn Hxn) as (_ & _ & Hxlen). rewrite Hxleaf in Hxlen.
  destruct (Hord y yn Hyn) as (_ & _ & Hylen). rewrite Hyleaf in Hylen.
  assert (Hi : (i < length (keys pn))%nat) by by eapply lookup_lt_Some.
  destruct (Hsh p false (children pn) (length (keys pn)) (length (values pn)))
    as [_ [Hlen Hcs]]; [by rewrite (skel_lookup _ _ _ Hp), Hleaf|].
  assert (Hlook : ∀ a, a ≠ y → a ≠ p → a ≠ x → heap t' !! a = heap t !! a).
  { intros a ???. unfold t'. cbn [heap]. by rewrite !list_lookup_insert_ne. }
  assert (Hlooky : heap t' !! y = Some None).
  { unfold t'. cbn [heap]. by rewrite list_lookup_insert_eq by (rewrite !length_insert; lia). }
  assert (Hlookp : heap t' !! p = Some (Some pn')).
  { unfold t'. cbn [heap]. rewrite list_lookup_insert_ne by done.
    by rewrite list_lookup_insert_eq by (rewrite !length_insert; lia). }
  assert (Hlookx : heap t' !! x = Some (Some xn')).
  { unfold t'. cbn [heap]. rewrite !list_lookup_insert_ne by done.
    by rewrite list_lookup_insert_eq by lia. }
  assert (Hlive : ∀ a, a ≠ y → is_Some (skel (heap t) a) → is_Some (skel (heap t') a)).
  { intros a Hay Ha. unfold skel in *.
    destruct (decide (a = p)) as [->|Hap]; [by rewrite Hlookp|].
    destruct (decide (a = x)) as [->|Hax]; [by rewrite Hlookx|].
    by rewrite Hlook. }
  assert (Hview : ∀ a, leaf_view (heap t') a
                       = if decide (a = x) then Some (keys xn ++ keys yn, values xn ++ values yn,
                                                      next yn)
                         else if decide (a = y) then None
                         else leaf_view (heap t) a).
  { intros a. unfold leaf_view at 1.
    destruct (decide (a = x)) as [->|Hax]; [by rewrite Hlookx; cbn; rewrite Hxleaf|].
    destruct (decide (a = y)) as [->|Hay]; [by rewrite Hlooky|].
    destruct (decide (a = p)) as [->|Hap].
    - rewrite Hlookp. cbn. rewrite Hleaf. unfold leaf_view. by rewrite Hp, Hleaf.
    - by rewrite Hlook. }
  rewrite Hchain in Hnd, Hseg, Hlinked.
  pose proof Hnd as Hnd0.
  apply NoDup_app in Hnd0 as (Hnd1 & Hdisj & Hnd2).
  apply NoDup_cons in Hnd2 as [Hx2 Hnd2]. apply NoDup_cons in Hnd2 as [Hy2 Hnd3].
  assert (Hch' : chained (heap t') (c1 ++ x :: c2)).
  { split; [|split].
    - apply NoDup_app. split; [done|]. split.
      + intros a Ha [->|Ha2]%elem_of_cons; [eapply Hdisj; [done|by left]|].
        eapply Hdisj; [done|]. right. by right.
      + apply NoDup_cons. split; [|done]. intros Hx3. apply Hx2. by right.
    - intros a. rewrite Hview. destruct (decide (a = x)) as [->|Hax].
      { intros _. apply elem_of_app. right. by left. }
      destruct (decide (a = y)) as [->|Hay]; [by intros []|].
      intros Ha. pose proof (Hall _ Ha) as Hin. rewrite Hchain in Hin.
      apply elem_of_app in Hin as [Hin|Hin]; [apply elem_of_app; by left|].
      apply elem_of_cons in Hin as [->|Hin]; [done|].
      apply elem_of_cons in Hin as [->|Hin]; [done|].
      apply elem_of_app. right. by right.
    - apply (linked_merge (heap t) _ c1 x y c2); [done| | |done].
      + intros a Hax Hay. by rewrite Hview, !decide_False.
      + intros ks vs nx. rewrite Hyv. intros [= <- <- <-].
        rewrite Hview, decide_True by done. by eexists _, _. }
  assert (Hfree : ∀ a n,
            <[p := Some pn']> (<[x := Some xn']> (heap t)) !! a = Some (Some n) →
            a ≠ y → isLeaf n = false → y ∉ children n).
  2: exists (set_at hi x (hi y)), (c1 ++ x :: c2); split; [|split; [|split; [|split; [|split]]]].
  7: done.
  6:{ intros Huni. unfold t'. cbn [heap]. apply uniform_release; [|done].
      apply (uniform_keep _ p pn); [by rewrite !list_lookup_insert_ne|done|done| |].
      { intros c Hc. cbn in Hc. by eapply elem_of_erase_at. }
      by apply (uniform_refill _ x xn). }
  2:{ split; [done| | |done].
    { exists r. split; [done|]. apply Hlive; [|done]. intros ->. congruence. }
    unfold t'. cbn [heap]. apply shaped_release; [|done].
    apply shaped_update.
      * apply shaped_update; [done|by rewrite (skel_lookup _ _ _ Hxn)|].
        unfold fits, xn'. cbn. rewrite Hxleaf, !length_app. lia.
      * unfold skel. by rewrite list_lookup_insert_ne, Hp by done.
      * unfold fits, pn'. cbn [isLeaf keys children with_keys with_children]. rewrite Hleaf.
        rewrite !length_erase_at by lia. split; [lia|].
        intros c Hc%elem_of_erase_at. destruct (Hcs c Hc) as [Hcl Hlvl]. split; [|done].
        apply skel_insert_live; [by rewrite (skel_lookup _ _ _ Hxn)|done]. }
  - intros a n Ha Hay Hnl.
      destruct (decide (a = p)) as [->|Hap].
      { rewrite list_lookup_insert_eq in Ha by (rewrite !length_insert; lia).
        injection Ha as <-. cbn [children with_children with_keys pn'].
        intros Hyc. apply list_elem_of_lookup in Hyc as [j Hj].
        rewrite lookup_erase_at in Hj. destruct (decide (j < S i)%nat).
        + pose proof (children_inj _ _ _ _ _ _ _ _ _ _ Hok Hleaf Hy Hj). lia.
        + pose proof (children_inj _ _ _ _ _ _ _ _ _ _ Hok Hleaf Hy Hj). lia. }
      rewrite list_lookup_insert_ne in Ha by done.
      destruct (decide (a = x)) as [->|Hax].
      { rewrite list_lookup_insert_eq in Ha by lia. injection Ha as <-.
        cbn in Hnl. congruence. }
      rewrite list_lookup_insert_ne in Ha by done. intros Hyc.
      destruct (ordered_child _ _ _ _ _ _ _ _ Hord Ha Hnl Hyc) as [_ Hpara]. congruence.
  - split.
    + unfold t', pn', xn'. cbn [heap].
      by apply (merge_ordered lo hi par (heap t) p pn i x y xn yn).
    + exists r. split; [done|]. assert (r ≠ x) by (intros ->; congruence).
      assert (r ≠ y) by (intros ->; congruence).
      split; [by apply Hlive|]. by rewrite set_at_ne.
    + done.
    + by apply chain_seg_merge.
  - rewrite Hchain, !entries_app, !entries_cons.
    assert (entries_at (heap t') x = zip (keys xn ++ keys yn) (values xn ++ values yn)) as ->.
    { unfold entries_at. by rewrite Hview, decide_True. }
    assert (entries_at (heap t) x = zip (keys xn) (values xn)) as ->.
    { unfold entries_at. by rewrite Hxv. }
    assert (entries_at (heap t) y = zip (keys yn) (values yn)) as ->.
    { unfold entries_at. by rewrite Hyv. }
    rewrite zip_app_same by done. rewrite <- app_assoc. f_equal; [|f_equal; f_equal].
    + apply entries_agree. intros a Ha. rewrite Hview, !decide_False; [done| |].
      * intros ->. apply (Hdisj _ Ha). right. by left.
      * intros ->. apply (Hdisj _ Ha). by left.
    + apply entries_agree. intros a Ha. rewrite Hview, !decide_False; [done| |].
      * by intros ->.
      * intros ->. apply Hx2. by right.
  - rewrite Hchain, !length_app. cbn. lia.
Qed.

End Merge.

(** ** What [borrowFromLeftLeaf], [borrowFromRightLeaf] and [mergeLeaf] do to the store *)

Section RunLeaves.
Context {V : Type}.
Context (gas : nat).
Implicit Types (h : list (option (Node Z V))) (n : Node Z V) (t : BPlusTree Z V).

Lemma run_get_node {B} a (k : Node Z V → St (BPlusTree Z V) B) t n :
  heap t !! a = Some (Some n) → (get_node a ≫= k) t = k n t.
Proof. intros Hn. apply run_bind. by apply get_node_Done. Qed.

Lemma run_put_node {B} a n (k : unit → St (BPlusTree Z V) B) t :
  (put_node a n ≫= k) t = k tt (mkTree (<[a := Some n]> (heap t)) (root t) (order t)).
Proof. done. Qed.

Lemma back_Done {A} (l : list A) x : last l = Some x → back l = Done x.
Proof. intros Hl. unfold back. by rewrite Hl. Qed.

Lemma borrowFromLeftLeaf_run t leaf L p (j : nat) n ln pn k v :
  heap t !! leaf = Some (Some n) → heap t !! L = Some (Some ln) →
  heap t !! p = Some (Some pn) → leaf ≠ L → leaf ≠ p → L ≠ p →
  last (keys ln) = Some k → last (values ln) = Some v → (j < length (keys pn))%nat →
  borrowFromLeftLeaf gas leaf L p (Z.of_nat (S j)) t
  = updateSubtreeSizesUpwards gas (Some leaf)
      (mkTree
         (<[p := Some (with_keys (<[j := k]> (keys pn)) pn)]>
            (<[L := Some (with_values (removelast (values ln))
                            (with_keys (removelast (keys ln)) ln))]>
               (<[leaf := Some (with_values (v :: values n) (with_keys (k :: keys n) n))]>
                  (heap t))))
         (root t) (order t)).
Proof.
  intros Hn Hln Hpn HlL Hlp HLp Hk Hv Hj.
  pose proof (lookup_lt_Some _ _ _ Hn) as Hnl. pose proof (lookup_lt_Some _ _ _ Hln) as HLl.
  pose proof (lookup_lt_Some _ _ _ Hpn) as Hpl.
  unfold borrowFromLeftLeaf.
  rewrite (run_get_node _ _ _ ln) by done.
  rewrite (back_Done _ _ Hk), run_sfail.
  rewrite (run_get_node _ _ _ n) by done.
  rewrite run_put_node.
  rewrite (run_get_node _ _ _ ln) by (cbn [heap]; by rewrite list_lookup_insert_ne).
  rewrite (back_Done _ _ Hv), run_sfail.
  rewrite (run_get_node _ _ _ (with_keys (k :: keys n) n))
    by (cbn [heap]; by rewrite list_lookup_insert_eq).
  rewrite run_put_node. cbn [heap root order].
  rewrite list_insert_insert_eq.
  rewrite (run_get_node _ _ _ ln) by (cbn [heap]; by rewrite list_lookup_insert_ne).
  rewrite run_put_node. cbn [heap root order].
  rewrite (run_get_node _ _ _ (with_values (v :: values (with_keys (k :: keys n) n))
                                 (with_keys (k :: keys n) n))).
  2:{ cbn [heap]. rewrite list_lookup_insert_ne by done.
      by rewrite list_lookup_insert_eq. }
  cbn [keys with_values with_keys values]. unfold at_ at 1. cbn [lookup list_lookup].
  rewrite run_sfail.
  rewrite (run_get_node _ _ _ pn) by (cbn [heap]; by rewrite !list_lookup_insert_ne).
  rewrite bool_decide_eq_true_2 by lia.
  rewrite run_put_node. cbn [heap root order].
  replace (Z.to_nat (Z.of_nat (S j) - 1)) with j by lia. done.
Qed.

Lemma borrowFromRightLeaf_run t leaf R p (j : nat) n rn pn k0 v0 k1 :
  heap t !! leaf = Some (Some n) → heap t !! R = Some (Some rn) →
  heap t !! p = Some (Some pn) → leaf ≠ R → leaf ≠ p → R ≠ p →
  keys rn !! 0%nat = Some k0 → values rn !! 0%nat = Some v0 → keys rn !! 1%nat = Some k1 →
  (j < length (keys pn))%nat →
  borrowFromRightLeaf gas leaf R p (Z.of_nat j) t
  = updateSubtreeSizesUpwards gas (Some leaf)
      (mkTree
         (<[p := Some (with_keys (<[j := k1]> (keys pn)) pn)]>
            (<[R := Some (with_values (erase_at 0 (values rn))
                            (with_keys (erase_at 0 (keys rn)) rn))]>
               (<[leaf := Some (with_values (values n ++ [v0]) (with_keys (keys n ++ [k0]) n))]>
                  (heap t))))
         (root t) (order t)).
Proof.
  intros Hn Hrn Hpn HlR Hlp HRp Hk0 Hv0 Hk1 Hj.
  pose proof (lookup_lt_Some _ _ _ Hn) as Hnl. pose proof (lookup_lt_Some _ _ _ Hrn) as HRl.
  pose proof (lookup_lt_Some _ _ _ Hpn) as Hpl.
  unfold borrowFromRightLeaf.
  rewrite (run_get_node _ _ _ rn) by done.
  rewrite (at_Done _ _ _ Hk0), run_sfail.
  rewrite (run_get_node _ _ _ n) by done.
  rewrite run_put_node.
  rewrite (run_get_node _ _ _ rn) by (cbn [heap]; by rewrite list_lookup_insert_ne).
  rewrite (at_Done _ _ _ Hv0), run_sfail.
  rewrite (run_get_node _ _ _ (with_keys (keys n ++ [k0]) n))
    by (cbn [heap]; by rewrite list_lookup_insert_eq).
  rewrite run_put_node. cbn [heap root order].
  rewrite list_insert_insert_eq.
  rewrite (run_get_node _ _ _ rn) by (cbn [heap]; by rewrite list_lookup_insert_ne).
  rewrite run_put_node. cbn [heap root order].
  rewrite (run_get_node _ _ _ (with_values (erase_at 0 (values rn))
                                 (with_keys (erase_at 0 (keys rn)) rn)))
    by (cbn [heap]; by rewrite list_lookup_insert_eq by (rewrite length_insert; lia)).
  cbn [keys with_values with_keys values].
  rewrite (at_Done _ _ k1) by (by rewrite lookup_erase_at, decide_False by lia).
  rewrite run_sfail.
  rewrite (run_get_node _ _ _ pn) by (cbn [heap]; by rewrite !list_lookup_insert_ne).
  rewrite bool_decide_eq_true_2 by lia.
  rewrite run_put_node. cbn [heap root order].
  rewrite Nat2Z.id. done.
Qed.

Lemma mergeLeaf_run t left right p (i : nat) ln rn pn :
  heap t !! left = Some (Some ln) → heap t !! right = Some (Some rn) →
  heap t !! p = Some (Some pn) → left ≠ right → left ≠ p → right ≠ p →
  isLeaf rn = true → (0 < gas)%nat →
  (i < length (keys pn))%nat → (S i < length (children pn))%nat →
  mergeLeaf gas left right p (Z.of_nat i) t
  = (updateSubtreeSize (Some left);;
     updateSubtreeSize (Some p);;
     rt ← get_root;
     p' ← get_node p;
     (if ptr_eqb (Some p) rt && bool_decide (keys p' = [])
      then set_root (Some left);; delete_Node gas p
      else mret tt);;
     updateSubtreeSizesUpwards gas (Some left))
      (mkTree
         (<[right := None]>
            (<[p := Some (with_children (erase_at (S i) (children pn))
                            (with_keys (erase_at i (keys pn)) pn))]>
               (<[left := Some (with_next (next rn)
                                  (with_values (values ln ++ values rn)
                                     (with_keys (keys ln ++ keys rn) ln)))]> (heap t))))
         (root t) (order t)).
Proof.
  intros Hln Hrn Hpn Hlr Hlp Hrp Hrleaf Hgas Hi HSi.
  pose proof (lookup_lt_Some _ _ _ Hln) as Hll. pose proof (lookup_lt_Some _ _ _ Hrn) as Hrl.
  pose proof (lookup_lt_Some _ _ _ Hpn) as Hpl.
  unfold mergeLeaf.
  rewrite (run_get_node _ _ _ rn) by done.
  rewrite (run_get_node _ _ _ ln) by done.
  rewrite run_put_node.
  rewrite (run_get_node _ _ _ pn) by (cbn [heap]; by rewrite list_lookup_insert_ne).
  rewrite bool_decide_eq_true_2 by lia.
  rewrite run_put_node. cbn [heap root order].
  rewrite Nat2Z.id.
  destruct gas as [|gas']; [lia|]. cbn [delete_Node].
  set (t2 := mkTree _ (root t) (order t)).
  assert (Hr2 : heap t2 !! right = Some (Some rn)).
  { unfold t2. cbn [heap]. by rewrite !list_lookup_insert_ne. }
  rewrite (run_bind _ _ t2 tt (mkTree (<[right := None]> (heap t2)) (root t2) (order t2))).
  2:{ rewrite (run_get_node _ _ _ rn) by done. rewrite Hrleaf. done. }
  done.
Qed.

End RunLeaves.

Section RemoveSteps.
Context {V : Type}.
Context (gas : nat).
Implicit Types (h : list (option (Node Z V))) (n : Node Z V) (t : BPlusTree Z V).
Implicit Types (lo hi hiP : nat → option Z) (par : nat → option nat).

Lemma upwards_keeps lvl H0 lo hi par chain t a :
  tree_inv lvl H0 chain t → sorted_inv lo hi par chain t →
  is_Some (skel (heap t) a) → (H0 + 1 < gas)%nat →
  ∃ t', updateSubtreeSizesUpwards gas (Some a) t = Done (tt, t')
    ∧ tree_inv lvl H0 chain t' ∧ sorted_inv lo hi par chain t'
    ∧ entries (heap t') chain = entries (heap t) chain
    ∧ same_nodes (heap t) (heap t') ∧ root t' = root t ∧ order t' = order t.
Proof.
  intros Hinv0 Hinv Ha Hgas.
  destruct (updateSubtreeSizesUpwards_spec gas lvl H0 chain t a Hinv0 Ha Hgas)
    as (t' & Hup & Hsame).
  pose proof (updateSubtreeSizesUpwards_same_nodes _ _ _ _ Hup) as (Hnodes & Hr & Ho).
  exists t'. split; [done|]. split; [by eapply tree_inv_sizes|].
  split; [by eapply sorted_inv_same_nodes|]. split; [|done].
  apply entries_ext. intros b. by apply same_nodes_leaf_view.
Qed.

Lemma size_keeps lvl H0 lo hi par chain t a :
  tree_inv lvl H0 chain t → sorted_inv lo hi par chain t →
  is_Some (skel (heap t) a) →
  ∃ t', updateSubtreeSize (Some a) t = Done (tt, t')
    ∧ tree_inv lvl H0 chain t' ∧ sorted_inv lo hi par chain t'
    ∧ entries (heap t') chain = entries (heap t) chain
    ∧ same_nodes (heap t) (heap t') ∧ root t' = root t ∧ order t' = order t.
Proof.
  intros Hinv0 Hinv Ha.
  destruct (updateSubtreeSize_spec lvl H0 t a (inv_shaped _ _ _ _ Hinv0) Ha)
    as (t' & Hup & Hsame).
  pose proof (updateSubtreeSize_same_nodes _ _ _ Hup) as (Hnodes & Hr & Ho).
  exists t'. split; [done|]. split; [by eapply tree_inv_sizes|].
  split; [by eapply sorted_inv_same_nodes|]. split; [|done].
  apply entries_ext. intros b. by apply same_nodes_leaf_view.
Qed.

Lemma borrow_left_ord lvl H0 lo hi par chain t p pn j leaf L n ln :
  tree_inv lvl H0 chain t → sorted_inv lo hi par chain t → (H0 + 1 < gas)%nat →
  heap t !! p = Some (Some pn) → isLeaf pn = false →
  children pn !! j = Some L → children pn !! S j = Some leaf →
  heap t !! leaf = Some (Some n) → heap t !! L = Some (Some ln) →
  isLeaf n = true → isLeaf ln = true → (2 ≤ length (keys ln))%nat →
  ∃ t' lo' hi',
    borrowFromLeftLeaf gas leaf L p (Z.of_nat (S j)) t = Done (tt, t')
    ∧ tree_inv lvl H0 chain t' ∧ sorted_inv lo' hi' par chain t'
    ∧ entries (heap t') chain = entries (heap t) chain
    ∧ root t' = root t ∧ order t' = order t
    ∧ (uniform (heap t) → uniform (heap t'))
    ∧ (∀ a, is_Some (skel (heap t) a) → is_Some (skel (heap t') a)).
Proof.
  intros Hinv0 Hinv Hgas Hp Hleaf HL Hlf Hn Hln Hnleaf Hlnleaf Hrich.
  pose proof Hinv as [Hord _ (Hnd & Hall & Hlinked) Hseg].
  pose proof (leaf_view_lookup _ _ _ Hn Hnleaf) as Hnv.
  pose proof (leaf_view_lookup _ _ _ Hln Hlnleaf) as Hlnv.
  destruct (siblings_adjacent lo hi par chain t p pn j L leaf Hinv Hp Hleaf HL Hlf)
    as (c1 & c2 & kk & Hchain & Hkk & HhiL & Hlol & HLl); [by rewrite Hlnv|by rewrite Hnv|].
  assert (Hpl : leaf ≠ p) by (intros ->; congruence).
  assert (HpL : L ≠ p) by (intros ->; congruence).
  assert (Hlin : leaf ∈ chain) by (apply Hall; by rewrite Hnv).
  pose proof (chain_seg_proper _ _ _ _ _ leaf Hseg Hlin) as Hproper. rewrite Hlol in Hproper.
  destruct (Hord leaf n Hn) as (Hnasc & Hnin & Hnlen). rewrite Hnleaf in Hnin, Hnlen.
  destruct (Hord L ln Hln) as (Hlasc & Hlin' & Hllen). rewrite Hlnleaf in Hlin', Hllen.
  rewrite Hlol in Hnin. rewrite HhiL in Hlin'.
  destruct (last (keys ln)) as [k|] eqn:Hk.
  2:{ apply last_None in Hk. rewrite Hk in Hrich. cbn in Hrich. lia. }
  destruct (last (values ln)) as [v|] eqn:Hv.
  2:{ apply last_None in Hv. rewrite Hv in Hllen. cbn in Hllen. lia. }
  pose proof (removelast_last _ _ Hk) as Hks. pose proof (removelast_last _ _ Hv) as Hvs.
  assert (Hj : (j < length (keys pn))%nat).
  { destruct (Hord p pn Hp) as (_ & _ & Hsh). rewrite Hleaf in Hsh. destruct Hsh as [Hlen _].
    apply lookup_lt_Some in Hlf. lia. }
  assert (Hkin : k ∈ keys ln) by (rewrite Hks; apply elem_of_app; right; by left).
  assert (Hklt : (k < kk)%Z) by (destruct (Hlin' k Hkin) as [_ Hb]; exact Hb).
  assert (Hrl : ∀ a, a ∈ removelast (keys ln) → a ∈ keys ln ∧ (a < k)%Z).
  { intros a Ha. split; [rewrite Hks; apply elem_of_app; by left|].
    apply list_elem_of_lookup in Ha as [i Hi].
    apply (Hlasc i (length (removelast (keys ln))) a k); [| |by eapply lookup_lt_Some].
    - rewrite Hks. by apply lookup_app_l_Some.
    - rewrite Hks at 2. by rewrite lookup_app_r, Nat.sub_diag by lia. }
  rewrite (borrowFromLeftLeaf_run gas t leaf L p j n ln pn k v) by done.
  rewrite (list_insert_insert_ne _ L leaf) by done.
  set (ln' := with_values (removelast (values ln)) (with_keys (removelast (keys ln)) ln)).
  set (n' := with_values (v :: values n) (with_keys (k :: keys n) n)).
  destruct (shift_boundary lvl H0 lo hi par chain t p pn j L leaf ln n ln' n' k)
    as (lo' & hi' & Hinv0' & Hinv' & Hent' & Huni' & Hlive'); try done.
  - unfold ln'. cbn. rewrite !length_removelast. lia.
  - unfold n'. cbn. lia.
  - unfold ln'. cbn. rewrite Hks in Hlasc. by apply ascending_app_inv in Hlasc as [? _].
  - unfold n'. cbn. apply ascending_cons. split; [|done].
    intros a Ha. destruct (Hnin a Ha) as [Hge _]. cbn in Hge. lia.
  - unfold ln'. cbn. intros a Ha. destruct (Hrl a Ha) as [Hin Hlt]. split; [|done].
    by destruct (Hlin' a Hin).
  - unfold n'. cbn. intros a [->|Ha]%elem_of_cons.
    + split; [lia|]. destruct (hi leaf); cbn in *; [lia|done].
    + destruct (Hnin a Ha) as [Hge Hb]. cbn in Hge. split; [lia|done].
  - destruct (removelast (keys ln)) as [|f rest] eqn:Hrm.
    { rewrite Hks in Hrich. cbn in Hrich. lia. }
    destruct (Hrl f ltac:(by left)) as [Hfin Hflt]. destruct (Hlin' f Hfin) as [Hab _].
    destruct (lo L); cbn in *; [lia|done].
  - destruct (hi leaf); cbn in *; [lia|done].
  - unfold ln', n'. cbn [keys values with_values with_keys].
    rewrite Hks at 2. rewrite Hvs at 2.
    rewrite zip_app_same by (rewrite !length_removelast; lia).
    rewrite <- app_assoc. done.
  - set (t3 := mkTree _ (root t) (order t)) in *.
    destruct (upwards_keeps lvl H0 lo' hi' par chain t3 leaf Hinv0' Hinv')
      as (t' & Hup & Hinv0'' & Hinv'' & Hent'' & Hsame & Hr' & Ho'); [|done|].
    { apply Hlive'. by rewrite (skel_lookup _ _ _ Hn). }
    exists t', lo', hi'. split; [done|]. split; [done|]. split; [done|].
    split; [congruence|]. split; [done|]. split; [done|]. split.
    + intros Huni. apply (uniform_same_nodes _ _ Hsame). by apply Huni'.
    + intros a Ha. rewrite (same_nodes_skel _ _ _ Hsame). by apply Hlive'.
Qed.

Lemma borrow_right_ord lvl H0 lo hi par chain t p pn j leaf R n rn :
  tree_inv lvl H0 chain t → sorted_inv lo hi par chain t → (H0 + 1 < gas)%nat →
  heap t !! p = Some (Some pn) → isLeaf pn = false →
  children pn !! j = Some leaf → children pn !! S j = Some R →
  heap t !! leaf = Some (Some n) → heap t !! R = Some (Some rn) →
  isLeaf n = true → isLeaf rn = true → (2 ≤ length (keys rn))%nat →
  ∃ t' lo' hi',
    borrowFromRightLeaf gas leaf R p (Z.of_nat j) t = Done (tt, t')
    ∧ tree_inv lvl H0 chain t' ∧ sorted_inv lo' hi' par chain t'
    ∧ entries (heap t') chain = entries (heap t) chain
    ∧ root t' = root t ∧ order t' = order t
    ∧ (uniform (heap t) → uniform (heap t'))
    ∧ (∀ a, is_Some (skel (heap t) a) → is_Some (skel (heap t') a)).
Proof.
  intros Hinv0 Hinv Hgas Hp Hleaf Hlf HR Hn Hrn Hnleaf Hrnleaf Hrich.
  pose proof Hinv as [Hord _ (Hnd & Hall & Hlinked) Hseg].
  pose proof (leaf_view_lookup _ _ _ Hn Hnleaf) as Hnv.
  pose proof (leaf_view_lookup _ _ _ Hrn Hrnleaf) as Hrnv.
  destruct (siblings_adjacent lo hi par chain t p pn j leaf R Hinv Hp Hleaf Hlf HR)
    as (c1 & c2 & kk & Hchain & Hkk & Hhil & HloR & HlR); [by rewrite Hnv|by rewrite Hrnv|].
  assert (Hpl : leaf ≠ p) by (intros ->; congruence).
  assert (HpR : R ≠ p) by (intros ->; congruence).
  assert (Hlin : leaf ∈ chain) by (apply Hall; by rewrite Hnv).
  pose proof (chain_seg_proper _ _ _ _ _ leaf Hseg Hlin) as Hproper. rewrite Hhil in Hproper.
  destruct (Hord leaf n Hn) as (Hnasc & Hnin & Hnlen). rewrite Hnleaf in Hnin, Hnlen.
  destruct (Hord R rn Hrn) as (Hrasc & Hrin & Hrlen). rewrite Hrnleaf in Hrin, Hrlen.
  rewrite Hhil in Hnin. rewrite HloR in Hrin.
  destruct (keys rn) as [|k0 [|k1 ks]] eqn:Hks; [cbn in Hrich; lia|cbn in Hrich; lia|].
  destruct (values rn) as [|v0 vs] eqn:Hvs; [done|].
  assert (Hj : (j < length (keys pn))%nat).
  { destruct (Hord p pn Hp) as (_ & _ & Hsh). rewrite Hleaf in Hsh. destruct Hsh as [Hlen _].
    apply lookup_lt_Some in HR. lia. }
  apply ascending_cons in Hrasc as [Hk0 Hrasc'].
  pose proof Hrasc' as [Hk1 _]%ascending_cons.
  destruct (Hrin k0 ltac:(by left)) as [Hk0ge _]. cbn in Hk0ge.
  assert (Hk01 : (k0 < k1)%Z) by (apply Hk0; by left).
  rewrite (borrowFromRightLeaf_run gas t leaf R p j n rn pn k0 v0 k1);
    [|done|done|done|done|done|done|by rewrite Hks|by rewrite Hvs|by rewrite Hks|done].
  rewrite Hks, Hvs.
  change (erase_at 0 (v0 :: vs)) with vs. change (erase_at 0 (k0 :: k1 :: ks)) with (k1 :: ks).
  set (rn' := with_values vs (with_keys (k1 :: ks) rn)).
  set (n' := with_values (values n ++ [v0]) (with_keys (keys n ++ [k0]) n)).
  destruct (shift_boundary lvl H0 lo hi par chain t p pn j leaf R n rn n' rn' k1)
    as (lo' & hi' & Hinv0' & Hinv' & Hent' & Huni' & Hlive'); try done.
  - unfold n'. cbn. rewrite !length_app. cbn. lia.
  - unfold rn'. cbn. cbn in Hrlen. lia.
  - unfold n'. cbn. apply ascending_app; [done|apply ascending_cons; split; [|done]|].
    + by intros a ?%elem_of_nil.
    + intros a b Ha ->%list_elem_of_singleton. destruct (Hnin a Ha) as [_ Hb]. cbn in Hb. lia.
  - unfold n'. cbn. intros a [Ha| ->%list_elem_of_singleton]%elem_of_app.
    + destruct (Hnin a Ha) as [Hab Hb]. cbn in Hb. split; [done|lia].
    + split; [|done]. destruct (lo leaf); cbn in *; [lia|done].
  - unfold rn'. cbn. intros a [->|Ha]%elem_of_cons.
    + split; [lia|]. apply Hrin. right. by left.
    + split; [pose proof (Hk1 a Ha); lia|]. apply Hrin. right. by right.
  - destruct (lo leaf); cbn in *; [lia|done].
  - destruct (Hrin k1 ltac:(right; by left)) as [_ Hb]. by destruct (hi R).
  - unfold rn', n'. cbn [keys values with_values with_keys]. rewrite Hks, Hvs.
    rewrite zip_app_same by done. rewrite <- app_assoc. done.
  - set (t3 := mkTree _ (root t) (order t)) in *.
    destruct (upwards_keeps lvl H0 lo' hi' par chain t3 leaf Hinv0' Hinv')
      as (t' & Hup & Hinv0'' & Hinv'' & Hent'' & Hsame & Hr' & Ho'); [|done|].
    { apply Hlive'. by rewrite (skel_lookup _ _ _ Hn). }
    exists t', lo', hi'. split; [done|]. split; [done|]. split; [done|].
    split; [congruence|]. split; [done|]. split; [done|]. split.
    + intros Huni. apply (uniform_same_nodes _ _ Hsame). by apply Huni'.
    + intros a Ha. rewrite (same_nodes_skel _ _ _ Hsame). by apply Hlive'.
Qed.

(** [mergeLeaf] when the root is not left with no key. *)
Lemma merge_ord lvl H0 lo hi par chain t p pn i x y xn yn :
  tree_inv lvl H0 chain t → sorted_inv lo hi par chain t → (H0 + 1 < gas)%nat →
  heap t !! p = Some (Some pn) → isLeaf pn = false →
  children pn !! i = Some x → children pn !! S i = Some y →
  heap t !! x = Some (Some xn) → heap t !! y = Some (Some yn) →
  isLeaf xn = true → isLeaf yn = true →
  (root t = Some p → (2 ≤ length (keys pn))%nat) →
  ∃ t' hi' chain',
    mergeLeaf gas x y p (Z.of_nat i) t = Done (tt, t')
    ∧ tree_inv lvl H0 chain' t' ∧ sorted_inv lo hi' par chain' t'
    ∧ entries (heap t') chain' = entries (heap t) chain
    ∧ (length chain' ≤ length chain)%nat
    ∧ root t' = root t ∧ order t' = order t
    ∧ (uniform (heap t) → uniform (heap t'))
    ∧ (∀ a, a ≠ y → is_Some (skel (heap t) a) → is_Some (skel (heap t') a)).
Proof.
  intros Hinv0 Hinv Hgas Hp Hleaf Hx Hy Hxn Hyn Hxleaf Hyleaf Hroot.
  pose proof Hinv as [Hord _ _ _].
  assert (Hxy : x ≠ y).
  { intros ->. pose proof (children_inj _ _ _ _ _ _ _ _ _ _ (Hord p pn Hp) Hleaf Hx Hy). lia. }
  assert (Hpx : x ≠ p) by (intros ->; congruence).
  assert (Hpy : y ≠ p) by (intros ->; congruence).
  assert (Hlen : length (children pn) = S (length (keys pn))).
  { destruct (Hord p pn Hp) as (_ & _ & Hsh). rewrite Hleaf in Hsh. by destruct Hsh. }
  assert (Hi : (i < length (keys pn))%nat) by (apply lookup_lt_Some in Hy; lia).
  rewrite (mergeLeaf_run gas t x y p i xn yn pn) by (done || lia).
  destruct (merge_siblings lvl H0 lo hi par chain t p pn i x y xn yn)
    as (hi' & chain' & Hinv0' & Hinv' & Hent' & Hclen & Huni' & Hlive'); try done.
  set (t3 := mkTree _ (root t) (order t)) in *.
  destruct (size_keeps lvl H0 lo hi' par chain' t3 x Hinv0' Hinv')
    as (t4 & Hup4 & Hinv04 & Hinv4 & Hent4 & Hsame4 & Hr4 & Ho4).
  { apply Hlive'; [done|]. by rewrite (skel_lookup _ _ _ Hxn). }
  assert (Hlive4 : ∀ a, a ≠ y → is_Some (skel (heap t) a) → is_Some (skel (heap t4) a)).
  { intros a Hay Ha. rewrite (same_nodes_skel _ _ _ Hsame4). by apply Hlive'. }
  destruct (size_keeps lvl H0 lo hi' par chain' t4 p Hinv04 Hinv4)
    as (t5 & Hup5 & Hinv05 & Hinv5 & Hent5 & Hsame5 & Hr5 & Ho5).
  { apply Hlive4; [done|]. by rewrite (skel_lookup _ _ _ Hp). }
  assert (Hsame35 : same_nodes (heap t3) (heap t5)) by by eapply same_nodes_trans.
  assert (Hlive5 : ∀ a, a ≠ y → is_Some (skel (heap t) a) → is_Some (skel (heap t5) a)).
  { intros a Hay Ha. rewrite (same_nodes_skel _ _ _ Hsame35). by apply Hlive'. }
  destruct (upwards_keeps lvl H0 lo hi' par chain' t5 x Hinv05 Hinv5)
    as (t' & Hup & Hinv0'' & Hinv'' & Hent'' & Hsame & Hr' & Ho'); [|done|].
  { apply Hlive5; [done|]. by rewrite (skel_lookup _ _ _ Hxn). }
  assert (Hp5 : ∃ p5, heap t5 !! p = Some (Some p5)
                 ∧ length (keys p5) = (length (keys pn) - 1)%nat).
  { pose proof (same_nodes_skel _ _ p Hsame35) as Hsk. unfold t3 in Hsk. cbn [heap] in Hsk.
    unfold skel in Hsk at 2. rewrite list_lookup_insert_ne in Hsk by done.
    rewrite list_lookup_insert_eq in Hsk
      by (rewrite length_insert; by eapply lookup_lt_Some).
    cbn [isLeaf keys children values with_children with_keys] in Hsk.
    apply skel_Some in Hsk as (p5 & Hp5 & _ & _ & Hk5 & _). exists p5. split; [done|].
    rewrite Hk5. by apply length_erase_at. }
  destruct Hp5 as (p5 & Hp5 & Hk5).
  exists t', hi', chain'. split.
  { rewrite (run_bind _ _ _ _ _ Hup4). rewrite (run_bind _ _ _ _ _ Hup5).
    rewrite (run_bind get_root _ t5 (root t5) t5) by reflexivity.
    rewrite (run_get_node _ _ _ p5) by done.
    assert (Htest : ptr_eqb (Some p) (root t5) && bool_decide (keys p5 = []) = false).
    { unfold ptr_eqb. case_bool_decide as Hrt; [|done].
      rewrite bool_decide_eq_false_2; [done|]. intros Hnil.
      rewrite Hr5, Hr4 in Hrt. unfold t3 in Hrt. cbn [root] in Hrt.
      symmetry in Hrt. specialize (Hroot Hrt). rewrite Hnil in Hk5. cbn in Hk5. lia. }
    rewrite Htest. exact Hup. }
  split; [done|]. split; [done|]. split; [congruence|]. split; [done|].
  split; [by rewrite Hr', Hr5, Hr4|]. split; [by rewrite Ho', Ho5, Ho4|]. split.
  - intros Huni. apply (uniform_same_nodes _ _ Hsame).
    apply (uniform_same_nodes _ _ Hsame35). by apply Huni'.
  - intros a Hay Ha. rewrite (same_nodes_skel _ _ _ Hsame). by apply Hlive5.
Qed.

Lemma run_ret {S A B} (a : A) (k : A → St S B) (s : S) : (mret a ≫= k) s = k a s.
Proof. done. Qed.

(** The four ways [remove] mends a leaf that is short of keys. *)
Lemma remove_borrows_left lvl H0 lo hi par chain t p pn j leaf L n ln :
  tree_inv lvl H0 chain t → sorted_inv lo hi par chain t → uniform (heap t) →
  (H0 + 1 < gas)%nat →
  heap t !! p = Some (Some pn) → isLeaf pn = false →
  children pn !! j = Some L → children pn !! S j = Some leaf →
  heap t !! leaf = Some (Some n) → heap t !! L = Some (Some ln) →
  isLeaf n = true → isLeaf ln = true → (2 ≤ length (keys ln))%nat →
  ∃ t', (borrowFromLeftLeaf gas leaf L p (Z.of_nat (S j));;
         updateSubtreeSizesUpwards gas (Some leaf);; mret true) t = Done (true, t')
    ∧ kept lvl H0 par chain t t'.
Proof.
  intros Hinv0 Hinv Huni Hgas Hp Hleaf HL Hlf Hn Hln Hnleaf Hlnleaf Hrich.
  destruct (borrow_left_ord lvl H0 lo hi par chain t p pn j leaf L n ln)
    as (t2 & lo' & hi' & Hrun & Hinv02 & Hinv2 & Hent2 & Hr2 & Ho2 & Huni2 & Hlive2); try done.
  destruct (upwards_keeps lvl H0 lo' hi' par chain t2 leaf Hinv02 Hinv2)
    as (t' & Hup & Hinv0' & Hinv' & Hent' & Hsame & Hr' & Ho'); [|done|].
  { apply Hlive2. by rewrite (skel_lookup _ _ _ Hn). }
  exists t'. split.
  { rewrite (run_bind _ _ _ _ _ Hrun). by rewrite (run_bind _ _ _ _ _ Hup). }
  exists lo', hi', chain. split; [done|]. split; [done|]. split.
  { apply (uniform_same_nodes _ _ Hsame). by apply Huni2. }
  split; [done|]. split; congruence.
Qed.

Lemma remove_borrows_right lvl H0 lo hi par chain t p pn j leaf R n rn :
  tree_inv lvl H0 chain t → sorted_inv lo hi par chain t → uniform (heap t) →
  (H0 + 1 < gas)%nat →
  heap t !! p = Some (Some pn) → isLeaf pn = false →
  children pn !! j = Some leaf → children pn !! S j = Some R →
  heap t !! leaf = Some (Some n) → heap t !! R = Some (Some rn) →
  isLeaf n = true → isLeaf rn = true → (2 ≤ length (keys rn))%nat →
  ∃ t', (borrowFromRightLeaf gas leaf R p (Z.of_nat j);;
         updateSubtreeSizesUpwards gas (Some leaf);; mret true) t = Done (true, t')
    ∧ kept lvl H0 par chain t t'.
Proof.
  intros Hinv0 Hinv Huni Hgas Hp Hleaf Hlf HR Hn Hrn Hnleaf Hrnleaf Hrich.
  destruct (borrow_right_ord lvl H0 lo hi par chain t p pn j leaf R n rn)
    as (t2 & lo' & hi' & Hrun & Hinv02 & Hinv2 & Hent2 & Hr2 & Ho2 & Huni2 & Hlive2); try done.
  destruct (upwards_keeps lvl H0 lo' hi' par chain t2 leaf Hinv02 Hinv2)
    as (t' & Hup & Hinv0' & Hinv' & Hent' & Hsame & Hr' & Ho'); [|done|].
  { apply Hlive2. by rewrite (skel_lookup _ _ _ Hn). }
  exists t'. split.
  { rewrite (run_bind _ _ _ _ _ Hrun). by rewrite (run_bind _ _ _ _ _ Hup). }
  exists lo', hi', chain. split; [done|]. split; [done|]. split.
  { apply (uniform_same_nodes _ _ Hsame). by apply Huni2. }
  split; [done|]. split; congruence.
Qed.

Lemma remove_merges lvl H0 lo hi par chain t p pn i x y xn yn :
  tree_inv lvl H0 chain t → sorted_inv lo hi par chain t → uniform (heap t) →
  (H0 + 1 < gas)%nat →
  heap t !! p = Some (Some pn) → isLeaf pn = false →
  children pn !! i = Some x → children pn !! S i = Some y →
  heap t !! x = Some (Some xn) → heap t !! y = Some (Some yn) →
  isLeaf xn = true → isLeaf yn = true →
  (root t = Some p → (2 ≤ length (keys pn))%nat) →
  ∃ t', (mergeLeaf gas x y p (Z.of_nat i);;
         updateSubtreeSizesUpwards gas (Some x)) t = Done (tt, t')
    ∧ kept lvl H0 par chain t t'.
Proof.
  intros Hinv0 Hinv Huni Hgas Hp Hleaf Hx Hy Hxn Hyn Hxleaf Hyleaf Hroot.
  destruct (merge_ord lvl H0 lo hi par chain t p pn i x y xn yn)
    as (t2 & hi' & chain' & Hrun & Hinv02 & Hinv2 & Hent2 & Hclen & Hr2 & Ho2 & Huni2 & Hlive2);
    try done.
  destruct (upwards_keeps lvl H0 lo hi' par chain' t2 x Hinv02 Hinv2)
    as (t' & Hup & Hinv0' & Hinv' & Hent' & Hsame & Hr' & Ho'); [|done|].
  { apply Hlive2; [|by rewrite (skel_lookup _ _ _ Hxn)]. intros ->.
    pose proof (children_inj _ _ _ _ _ _ _ _ _ _ (so_ordered _ _ _ _ _ Hinv p pn Hp) Hleaf Hx Hy).
    lia. }
  exists t'. split.
  { rewrite (run_bind _ _ _ _ _ Hrun). exact Hup. }
  exists lo, hi', chain'. split; [done|]. split; [done|]. split.
  { apply (uniform_same_nodes _ _ Hsame). by apply Huni2. }
  split; [done|]. split; congruence.
Qed.

End RemoveSteps.

Section RemoveOrd.
Context {V : Type}.
Context (gas : nat).
Implicit Types (h : list (option (Node Z V))) (n : Node Z V) (t : BPlusTree Z V).
Implicit Types (lo hi hiP : nat → option Z) (par : nat → option nat).

Lemma remove_ord lvl H0 lo hi par chain t key :
  tree_inv lvl H0 chain t → sorted_inv lo hi par chain t → uniform (heap t) →
  (H0 + 1 < gas)%nat → (3 ≤ order t < 2147483647)%Z →
  keeps_root t = true →
  ∃ t' lo' hi' chain',
    remove gas key t = Done (tt, t')
    ∧ tree_inv lvl H0 chain' t' ∧ sorted_inv lo' hi' par chain' t' ∧ uniform (heap t')
    ∧ (length chain' ≤ length chain)%nat
    ∧ entries (heap t') chain' = filter (λ e, e.1 ≠ key) (entries (heap t) chain)
    ∧ order t' = order t.
Proof.
  intros Hinv0 Hinv Huni Hgas Hbound Hsafe.
  unfold keeps_root in Hsafe. destruct (root t) as [r|] eqn:Hroot; [|done].
  destruct (heap t !! r) as [[rn|]|] eqn:Hrn; [|done|done].
  assert (Hrkeys : (2 ≤ length (keys rn))%nat
                   ∨ (isLeaf rn = false
                      ∧ ∃ c cn cs, children rn = c :: cs ∧ heap t !! c = Some (Some cn)
                          ∧ isLeaf cn = false)).
  { apply orb_true_iff in Hsafe as [Hwide%Nat.leb_le|[Hnl Htall]%andb_true_iff]; [by left|].
    right. split; [by destruct (isLeaf rn)|].
    destruct (children rn) as [|c cs]; [done|].
    destruct (heap t !! c) as [[cn|]|] eqn:Hcn; [|done|done].
    exists c, cn, cs. split; [done|]. split; [done|]. by destruct (isLeaf cn). }
  clear Hsafe.
  pose proof Hinv0 as [Hord0 (r0 & Hr0 & Hrlive) Hsh (Hnd0 & Hall0 & Hlinked0)].
  pose proof Hinv as [Hord (r' & Hr' & _ & Hlor & Hhir & Hparr) Hch Hseg].
  rewrite Hroot in Hr0, Hr'. injection Hr0 as <-. injection Hr' as <-.
  destruct (descend_spec lvl H0 (heap t) gas r key Hsh Hrlive) as (leaf & Hdesc & Hreach & Hlv).
  { destruct Hrlive as [[[[??]?]?] Hr]. destruct (Hsh _ _ _ _ _ Hr). lia. }
  destruct (descend_ord lo hi par (heap t) key gas r leaf Hord) as (Hview & Hlo & Hhi);
    [by rewrite Hlor|by rewrite Hhir|done|].
  destruct Hview as [[[ks vs] nx] Hview].
  destruct (leaf_view_Some _ _ _ _ _ Hview) as (n & Hn & Hleaf & <- & <- & <-).
  assert (Hsimple : (leaf = r ∧ (2 ≤ length (keys n))%nat)
                    ∨ (leaf ≠ r ∧ (int32 (order t - 1) ÷ 2 < Z.of_nat (length (keys n)))%Z) →
    ∃ t' lo' hi' chain',
      remove gas key t = Done (tt, t')
      ∧ tree_inv lvl H0 chain' t' ∧ sorted_inv lo' hi' par chain' t' ∧ uniform (heap t')
      ∧ (length chain' ≤ length chain)%nat
      ∧ entries (heap t') chain' = filter (λ e, e.1 ≠ key) (entries (heap t) chain)
      ∧ order t' = order t).
  { intros Hfull.
    destruct (remove_in_place gas lvl H0 chain lo hi par chain t key r leaf n Hinv0 Hinv Hgas
                Hroot Hdesc Hn Hfull) as (t' & Hrem & Hinv0' & Hinv' & Hent' & Ho' & Huni').
    exists t', lo, hi, chain. split; [done|]. split; [done|]. split; [done|].
    split; [by apply Huni'|]. split; [done|]. done. }
  destruct (decide (leaf = r)) as [->|Hlr].
  { apply Hsimple. left. split; [done|]. rewrite Hrn in Hn. injection Hn as <-.
    destruct Hrkeys as [?|[? _]]; [done|congruence]. }
  destruct (Z_lt_dec (int32 (order t - 1) ÷ 2) (Z.of_nat (length (keys n)))) as [Hmany|Hfew].
  { apply Hsimple. by right. }
  clear Hsimple.
  destruct (Hord leaf n Hn) as (Hasc & Hin & Hlen). rewrite Hleaf in Hin, Hlen.
  pose proof (found_at_lower_bound (keys n) key Hasc) as Hfound.
  set (index := lower_bound (keys n) key) in *.
  destruct (entries_around lo hi par chain t leaf key Hinv) as (c1 & c2 & Hsplit & Hc1 & Hc2
    & Hbefore & Hafter); [by rewrite Hview|done|done|].
  destruct (descend_path_descend _ _ _ _ [] _ Hdesc) as (path & Hpath).
  destruct (found_at (keys n) index key) eqn:Hf.
  2:{ exists t, lo, hi, chain. split; [|split; [done|split; [done|split; [done|split; [done|]]]]].
      - unfold remove. rewrite (run_bind get_root _ t (root t) t) by reflexivity. rewrite Hroot.
        rewrite (run_sread _ _ _ (path, leaf)) by done.
        unfold get_node. rewrite (run_sread _ _ _ n) by by apply load_Done.
        fold index. by rewrite Hf.
      - split; [|done]. symmetry. apply filter_all. intros e.
        rewrite Hsplit, entries_app, entries_cons.
        unfold entries_at. rewrite Hview. intros [He|[He|He]%elem_of_app]%elem_of_app.
        + pose proof (Hbefore e He). lia.
        + intros Heq. apply Hfound. apply zip_key_lookup in He as [j Hj]. rewrite Heq in Hj.
          by eapply list_elem_of_lookup_2.
        + pose proof (Hafter e He). lia. }
  pose proof (lookup_lt_Some _ _ _ Hfound) as Hidx.
  set (n' := with_values (erase_at index (values n)) (with_keys (erase_at index (keys n)) n)).
  set (t1 := mkTree (<[leaf := Some n']> (heap t)) (root t) (order t)).
  assert (Hlen' : length (keys n') = (length (keys n) - 1)%nat).
  { unfold n'. cbn. by apply length_erase_at. }
  destruct (leaf_refill_ord lo hi par chain t leaf n n' Hinv Hn Hleaf) as (Hinv1 & Hview1 & Hent1).
  { done. }
  { done. }
  { unfold n'. cbn. rewrite !length_erase_at by lia. lia. }
  { unfold n'. cbn. eapply ascending_sublist; [apply erase_at_sublist|done]. }
  { unfold n'. cbn. intros k Hk. apply Hin. eapply elem_of_sublist; [done|apply erase_at_sublist]. }
  fold t1 in Hinv1, Hview1, Hent1.
  assert (Hlive : is_Some (skel (heap t) leaf)) by by rewrite (skel_lookup _ _ _ Hn).
  assert (Hinv01 : tree_inv lvl H0 chain t1).
  { split; unfold t1; cbn [heap root order].
    - done.
    - exists r. split; [done|]. by apply skel_insert_live.
    - apply shaped_update; [done|done|]. unfold fits, n'. cbn. rewrite Hleaf.
      rewrite !length_erase_at by lia. lia.
    - by destruct Hinv1. }
  assert (Huni1 : uniform (heap t1)).
  { unfold t1. cbn [heap]. by apply (uniform_refill _ leaf n). }
  assert (Hent1' : entries (heap t1) chain = filter (λ e, e.1 ≠ key) (entries (heap t) chain)).
  { rewrite (Hent1 c1 c2 Hsplit Hc1 Hc2), Hsplit, entries_app, entries_cons, !filter_app.
    unfold entries_at. rewrite Hview.
    rewrite (filter_all _ (entries (heap t) c1)).
    2:{ intros e He. pose proof (Hbefore e He). lia. }
    rewrite (filter_all _ (entries (heap t) c2)).
    2:{ intros e He. pose proof (Hafter e He). lia. }
    unfold n'. cbn [keys values with_values with_keys]. by rewrite (zip_erase_at _ _ _ key). }
  assert (Hn1 : heap t1 !! leaf = Some (Some n')).
  { unfold t1. cbn [heap]. apply list_lookup_insert_eq. by eapply lookup_lt_Some. }
  (* the parent of the leaf *)
  destruct (descend_path_parent _ _ _ _ _ _ _ Hpath) as [[-> _]|(p & pn & path' & -> & Hp & Hpleaf
    & Hpc)]; [done|].
  assert (Hpl : p ≠ leaf) by (intros ->; congruence).
  assert (Hp1 : heap t1 !! p = Some (Some pn)).
  { unfold t1. cbn [heap]. by rewrite list_lookup_insert_ne. }
  destruct (index_of_elem leaf (children pn)) as [j Hj]; [by eapply list_elem_of_lookup_2|].
  pose proof (index_of_lookup _ _ _ Hj) as Hjc.
  assert (Hmin : (1 ≤ int32 (order t - 1) ÷ 2)%Z).
  { rewrite int32_id by lia. apply Z.quot_le_lower_bound; lia. }
  unfold remove. rewrite (run_bind get_root _ t (root t) t) by reflexivity. rewrite Hroot.
  rewrite (run_sread _ _ _ (path' ++ [p], leaf)) by done.
  rewrite (run_get_node _ _ _ n) by done.
  fold index. rewrite Hf. cbn [negb].
  rewrite (run_bind _ _ t tt t1) by reflexivity.
  rewrite (run_get_node _ _ _ n') by done.
  assert (Htest1 : ptr_eqb (Some leaf) (Some r) && bool_decide (keys n' = []) = false).
  { unfold ptr_eqb. rewrite bool_decide_eq_false_2; [done|]. by intros [= ->]. }
  rewrite Htest1. rewrite (run_bind get_order _ t1 (order t1) t1) by reflexivity.
  assert (Htest2 : (Z.of_nat (length (keys n')) <? int32 (order t1 - 1) ÷ 2)%Z
                   && negb (ptr_eqb (Some leaf) (Some r)) = true).
  { unfold ptr_eqb. rewrite bool_decide_eq_false_2 by (by intros [= ->]).
    rewrite andb_true_r. apply Z.ltb_lt. unfold t1. cbn [order]. lia. }
  rewrite Htest2.
  rewrite (run_sread _ _ _ (Some p, Z.of_nat j)).
  2:{ rewrite reverse_snoc. cbn [find_in_path]. rewrite (load_Done _ _ _ Hp1).
      cbn [mbind outcome_bind obind]. by rewrite Hj. }
  rewrite (run_bind _ _ _ _ _ (get_ptr_Done t1 p pn Hp1)).
  set (m := (int32 (order t1 - 1) ÷ 2)%Z).
  assert (Hm : (1 ≤ m)%Z) by exact Hmin.
  assert (Hpar_len : length (children pn) = S (length (keys pn))).
  { destruct (Hord p pn Hp) as (_ & _ & Hsh'). rewrite Hpleaf in Hsh'. by destruct Hsh'. }
  assert (Hkids : ∀ i c, children pn !! i = Some c →
            ∃ cn, heap t1 !! c = Some (Some cn) ∧ isLeaf cn = true).
  { intros i c Hc.
    destruct (inv_shaped _ _ _ _ Hinv01 p false (children pn) (length (keys pn))
                (length (values pn))) as [_ [_ Hcs]];
      [by rewrite (skel_lookup _ _ _ Hp1), Hpleaf|].
    destruct (Hcs c (list_elem_of_lookup_2 _ _ _ Hc)) as [Hclive _].
    destruct (skel_live _ _ Hclive) as [cn Hcn]. exists cn. split; [done|].
    pose proof (Huni1 p pn c leaf Hp1 Hpleaf (list_elem_of_lookup_2 _ _ _ Hc)
                  (list_elem_of_lookup_2 _ _ _ Hjc)) as Hk.
    unfold leafness in Hk. rewrite Hcn, Hn1 in Hk. injection Hk as ->. done. }
  assert (Hnocollapse : root t1 = Some p → (2 ≤ length (keys pn))%nat).
  { unfold t1. cbn [root]. rewrite Hroot. intros [= <-]. rewrite Hrn in Hp. injection Hp as <-.
    destruct Hrkeys as [?|(_ & c & cn & cs & Hcs & Hcn & Hcl)]; [done|]. exfalso.
    pose proof (Huni r rn c leaf Hrn Hpleaf ltac:(rewrite Hcs; by left)
                  (list_elem_of_lookup_2 _ _ _ Hjc)) as Hk.
    unfold leafness in Hk. rewrite Hcn, Hn in Hk. congruence. }
  assert (Hn'leaf : isLeaf n' = true) by done.
  assert (Hwrap : ∀ R : outcome (unit * BPlusTree Z V),
            (∃ t', R = Done ((), t') ∧ kept lvl H0 par chain t1 t') →
            ∃ t' lo' hi' chain',
              R = Done ((), t')
              ∧ tree_inv lvl H0 chain' t' ∧ sorted_inv lo' hi' par chain' t'
              ∧ uniform (heap t')
              ∧ (length chain' ≤ length chain)%nat
              ∧ entries (heap t') chain'
                = filter (λ e, e.1 ≠ key) (entries (heap t) chain)
              ∧ order t' = order t).
  { intros R (t' & HR & lo' & hi' & chain' & H1 & H2 & H3 & H4 & H5 & H6).
    exists t', lo', hi', chain'. split; [done|]. split; [done|]. split; [done|].
    split; [done|]. split; [done|]. split; [by rewrite H5|by rewrite H6]. }
  apply Hwrap. clear Hwrap.
  assert (Hkept1 : kept lvl H0 par chain t1 t1).
  { exists lo, hi, chain. split; [done|]. split; [done|]. split; [done|]. done. }
  assert (Hmerge_left : ∀ j0 L, j = S j0 → children pn !! j0 = Some L →
            ∃ t', (mergeLeaf gas L leaf p (Z.of_nat j0);;
                   updateSubtreeSizesUpwards gas (Some L)) t1 = Done (tt, t')
              ∧ kept lvl H0 par chain t1 t').
  { intros j0 L -> HL. destruct (Hkids _ _ HL) as (ln & Hln & Hlnleaf).
    by apply (remove_merges gas lvl H0 lo hi par chain t1 p pn j0 L leaf ln n'). }
  assert (Hright : ∀ R rnn, children pn !! S j = Some R → heap t1 !! R = Some (Some rnn) →
            isLeaf rnn = true → (m <? Z.of_nat (length (keys rnn)))%Z = true →
            ∃ t', (borrowFromRightLeaf gas leaf R p (Z.of_nat j);;
                   updateSubtreeSizesUpwards gas (Some leaf);; mret true) t1 = Done (true, t')
              ∧ kept lvl H0 par chain t1 t').
  { intros R rnn HR Hrnn Hrleaf Hrich%Z.ltb_lt.
    apply (remove_borrows_right gas lvl H0 lo hi par chain t1 p pn j leaf R n' rnn);
      try done. lia. }
  destruct j as [|j0].
  - (* the leaf is the first child *)
    replace (0 <? Z.of_nat 0)%Z with false by done.
    rewrite run_ret. lazy beta iota.
    destruct (decide (1 < length (children pn))%nat) as [Hsib|Hnosib].
    + destruct (lookup_lt_is_Some_2 (children pn) 1 Hsib) as [R HR].
      destruct (Hkids _ _ HR) as (rnn & Hrnn & Hrleaf).
      replace (Z.of_nat 0 <? Z.of_nat (length (children pn)) - 1)%Z with true
        by (symmetry; apply Z.ltb_lt; lia).
      replace (Z.to_nat (Z.of_nat 0 + 1)) with 1%nat by lia.
      destruct (m <? Z.of_nat (length (keys rnn)))%Z eqn:Hrich.
      * destruct (Hright R rnn HR Hrnn Hrleaf Hrich) as (t' & Hrun & Hkept).
        rewrite (run_bind _ _ t1 true t').
        2:{ rewrite (at_Done _ _ _ HR), run_sfail.
            rewrite (run_get_node _ _ _ rnn) by done. rewrite Hrich. exact Hrun. }
        lazy beta iota. by exists t'.
      * rewrite (run_bind _ _ t1 false t1).
        2:{ rewrite (at_Done _ _ _ HR), run_sfail.
            rewrite (run_get_node _ _ _ rnn) by done. by rewrite Hrich. }
        lazy beta iota.
        rewrite (at_Done _ _ _ HR), run_sfail.
        by apply (remove_merges gas lvl H0 lo hi par chain t1 p pn 0 leaf R n' rnn).
    + replace (Z.of_nat 0 <? Z.of_nat (length (children pn)) - 1)%Z with false
        by (symmetry; apply Z.ltb_ge; lia).
      rewrite run_ret. lazy beta iota. by exists t1.
  - (* the leaf has a left sibling *)
    destruct (lookup_lt_is_Some_2 (children pn) j0) as [L HL];
      [apply lookup_lt_Some in Hjc; lia|].
    destruct (Hkids _ _ HL) as (ln & Hln & Hlnleaf).
    replace (0 <? Z.of_nat (S j0))%Z with true by (symmetry; apply Z.ltb_lt; lia).
    replace (Z.to_nat (Z.of_nat (S j0) - 1)) with j0 by lia.
    replace (Z.of_nat (S j0) - 1)%Z with (Z.of_nat j0) by lia.
    destruct (m <? Z.of_nat (length (keys ln)))%Z eqn:Hrich.
    + pose proof Hrich as Hrich'%Z.ltb_lt.
      destruct (remove_borrows_left gas lvl H0 lo hi par chain t1 p pn j0 leaf L n' ln)
        as (t' & Hrun & Hkept); try done; [lia|].
      rewrite (run_bind _ _ t1 true t').
      2:{ rewrite (at_Done _ _ _ HL), run_sfail.
          rewrite (run_get_node _ _ _ ln) by done. rewrite Hrich. exact Hrun. }
      lazy beta iota. by exists t'.
    + rewrite (run_bind _ _ t1 false t1).
      2:{ rewrite (at_Done _ _ _ HL), run_sfail.
          rewrite (run_get_node _ _ _ ln) by done. by rewrite Hrich. }
      lazy beta iota.
      destruct (decide (S (S j0) < length (children pn))%nat) as [Hsib|Hnosib].
      * destruct (lookup_lt_is_Some_2 (children pn) (S (S j0)) Hsib) as [R HR].
        destruct (Hkids _ _ HR) as (rnn & Hrnn & Hrleaf).
        replace (Z.of_nat (S j0) <? Z.of_nat (length (children pn)) - 1)%Z with true
          by (symmetry; apply Z.ltb_lt; lia).
        replace (Z.to_nat (Z.of_nat (S j0) + 1)) with (S (S j0)) by lia.
        destruct (m <? Z.of_nat (length (keys rnn)))%Z eqn:Hrrich.
        -- destruct (Hright R rnn HR Hrnn Hrleaf Hrrich) as (t' & Hrun & Hkept).
           rewrite (run_bind _ _ t1 true t').
           2:{ rewrite (at_Done _ _ _ HR), run_sfail.
               rewrite (run_get_node _ _ _ rnn) by done. rewrite Hrrich. exact Hrun. }
           lazy beta iota. by exists t'.
        -- rewrite (run_bind _ _ t1 false t1).
           2:{ rewrite (at_Done _ _ _ HR), run_sfail.
               rewrite (run_get_node _ _ _ rnn) by done. by rewrite Hrrich. }
           lazy beta iota.
           rewrite (at_Done _ _ _ HL), run_sfail. by apply Hmerge_left.
      * replace (Z.of_nat (S j0) <? Z.of_nat (length (children pn)) - 1)%Z with false
          by (symmetry; apply Z.ltb_ge; lia).
        rewrite run_ret. lazy beta iota.
        rewrite (at_Done _ _ _ HL), run_sfail. by apply Hmerge_left.
Qed.

End RemoveOrd.

Section Mixed.
Context {V : Type}.
Context (gas : nat).
Implicit Types (t : BPlusTree Z V) (pairs : list (Z * V)) (ops : list (op Z V)).
Implicit Types (m : list (Z * list V)).

Lemma filter_ins_entry_same key (v : V) m :
  filter (λ e, e.1 ≠ key) (ins_entry key v m) = filter (λ e, e.1 ≠ key) m.
Proof.
  induction m as [|[k vals] m IH]; cbn [ins_entry].
  - by rewrite filter_cons_False by (cbn; intros Hne; by apply Hne).
  - destruct (Z.ltb_spec key k) as [Hlt|Hge].
    + by rewrite (filter_cons_False _ (key, [v])) by (cbn; intros Hne; by apply Hne).
    + destruct (Z.eqb_spec key k) as [->|Hne].
      * by rewrite !filter_cons_False by (cbn; intros Hne; by apply Hne).
      * rewrite !(filter_cons_True _ (k, vals)) by (cbn; congruence). by rewrite IH.
Qed.

Lemma filter_ins_entry_other key k (v : V) m :
  k ≠ key → ascending m.*1 →
  filter (λ e, e.1 ≠ key) (ins_entry k v m) = ins_entry k v (filter (λ e, e.1 ≠ key) m).
Proof.
  intros Hk. induction m as [|[k0 vals] m IH]; intros Hasc; cbn [ins_entry].
  - by rewrite filter_cons_True by done.
  - cbn [fmap list_fmap fst] in Hasc. apply ascending_cons in Hasc as [Hk0 Hasc].
    destruct (Z.ltb_spec k k0) as [Hlt|Hge].
    + rewrite (filter_cons_True _ (k, [v])) by done.
      destruct (decide (k0 = key)) as [->|Hne].
      * rewrite filter_cons_False by (cbn; intros Hne; by apply Hne).
        rewrite ins_entry_before; [done|].
        intros e [_ He]%list_elem_of_filter.
        pose proof (Hk0 e.1 ltac:(by apply list_elem_of_fmap_2)). lia.
      * rewrite filter_cons_True by done. cbn [ins_entry].
        by rewrite (proj2 (Z.ltb_lt k k0)) by done.
    + destruct (Z.eqb_spec k k0) as [<-|Hne0].
      * rewrite !filter_cons_True by done. cbn [ins_entry].
        by rewrite Z.ltb_irrefl, Z.eqb_refl.
      * destruct (decide (k0 = key)) as [->|Hne].
        -- rewrite !filter_cons_False by (cbn; intros Hne; by apply Hne). by apply IH.
        -- rewrite !filter_cons_True by done. cbn [ins_entry].
           rewrite (proj2 (Z.ltb_ge k k0)) by done.
           rewrite (proj2 (Z.eqb_neq k k0)) by done. by rewrite IH.
Qed.

Lemma entries_of_app pairs p :
  entries_of (pairs ++ [p]) = ins_entry p.1 p.2 (entries_of pairs).
Proof. unfold entries_of. by rewrite foldl_app. Qed.

Lemma entries_of_removed key pairs :
  entries_of (stored [Remove key] pairs) = filter (λ e, e.1 ≠ key) (entries_of pairs).
Proof.
  cbn [stored]. induction pairs as [|[k v] pairs IH] using rev_ind; [done|].
  rewrite filter_app, entries_of_app. cbn [fst snd].
  change (keq k key) with (k =? key)%Z.
  destruct (Z.eqb_spec k key) as [->|Hne].
  - rewrite filter_cons_False by (cbn [fst]; change (keq key key) with (key =? key)%Z;
      rewrite Z.eqb_refl; done).
    rewrite filter_nil, app_nil_r, IH. by rewrite filter_ins_entry_same.
  - rewrite filter_cons_True by (cbn [fst]; change (keq k key) with (k =? key)%Z;
      by apply Z.eqb_neq).
    rewrite filter_nil, entries_of_app, IH. cbn [fst snd].
    rewrite filter_ins_entry_other; [done|done|apply entries_of_ascending].
Qed.

Lemma BPlusTree_new_uniform ord t : BPlusTree_new ord = Done t → uniform (heap t).
Proof.
  unfold BPlusTree_new. intros Hnew p pn c1 c2 Hp Hl.
  destruct (ord <? 3)%Z; [done|]. cbn in Hnew. injection Hnew as <-.
  cbn in Hp. destruct p as [|p]; [|done]. injection Hp as <-. done.
Qed.

(** [insert] and [remove] keep the tree in order and the leaf chain
    holding what is stored, along any run in which no [remove] can empty
    the root. *)
Lemma run_ops_ord ops : ∀ lvl H0 lo hi par chain t pairs,
  tree_inv lvl H0 chain t → sorted_inv lo hi par chain t → uniform (heap t) →
  (3 ≤ order t < 2147483647)%Z → (H0 + length ops + 1 < gas)%nat →
  removes_keep_root gas ops t = true →
  entries (heap t) chain = entries_of pairs →
  ∃ t' lvl' H' lo' hi' par' chain',
    run_ops gas ops t = Done (tt, t')
    ∧ tree_inv lvl' H' chain' t'
    ∧ (H' ≤ H0 + length ops)%nat
    ∧ (length chain' ≤ length chain + length ops)%nat
    ∧ sorted_inv lo' hi' par' chain' t'
    ∧ entries (heap t') chain' = entries_of (stored ops pairs).
Proof.
  induction ops as [|o ops IH]; intros lvl H0 lo hi par chain t pairs
    Hinv0 Hinv Huni Hord Hgas Hsafe Hent.
  - exists t, lvl, H0, lo, hi, par, chain. cbn.
    split; [done|]. split; [done|]. split; [lia|]. split; [lia|]. done.
  - cbn [length] in Hgas. cbn [removes_keep_root] in Hsafe.
    apply andb_true_iff in Hsafe as [Hroot Hsafe].
    destruct o as [key value|key].
    + destruct (insert_spec gas lvl H0 chain t key value Hinv0 ltac:(lia))
        as (t1 & lvl1 & H1 & chain1 & k' & Hins & Hinv1 & HH1 & Hlen1 & _ & _).
      destruct (insert_ord gas lo hi par chain t key value t1 Hinv Hord Hins)
        as (lo1 & hi1 & par1 & chain1' & Hsorted1 & Hent1 & Ho1 & _ & Huni1).
      cbn [run_op] in Hsafe. rewrite Hins in Hsafe.
      assert (Hinv1' : tree_inv lvl1 H1 chain1' t1).
      { destruct Hinv1. split; try done. by destruct Hsorted1. }
      assert (Hlen1' : (length chain1' ≤ length chain1)%nat).
      { apply (chained_length (heap t1)); [by destruct Hinv1|by destruct Hsorted1]. }
      destruct (IH lvl1 H1 lo1 hi1 par1 chain1' t1 (pairs ++ [(key, value)]) Hinv1' Hsorted1
                  (Huni1 Huni) ltac:(by rewrite Ho1) ltac:(lia) Hsafe)
        as (t' & lvl' & H' & lo' & hi' & par' & chain' & Hrun & Hinv' & HH' & Hlen'
            & Hsorted' & Hent').
      { by rewrite Hent1, Hent, entries_of_app. }
      exists t', lvl', H', lo', hi', par', chain'. split.
      { cbn [run_ops run_op]. rewrite (run_bind _ _ _ _ _ Hins). exact Hrun. }
      split; [done|]. cbn [length]. split; [lia|]. split; [lia|]. split; [done|]. done.
    + destruct (remove_ord gas lvl H0 lo hi par chain t key Hinv0 Hinv Huni ltac:(lia) Hord
                  Hroot)
        as (t1 & lo1 & hi1 & chain1 & Hrem & Hinv1 & Hsorted1 & Huni1 & Hlen1 & Hent1 & Ho1).
      cbn [run_op] in Hsafe. rewrite Hrem in Hsafe.
      destruct (IH lvl H0 lo1 hi1 par chain1 t1 (stored [Remove key] pairs) Hinv1 Hsorted1
                  Huni1 ltac:(by rewrite Ho1) ltac:(lia) Hsafe)
        as (t' & lvl' & H' & lo' & hi' & par' & chain' & Hrun & Hinv' & HH' & Hlen'
            & Hsorted' & Hent').
      { by rewrite Hent1, Hent, entries_of_removed. }
      exists t', lvl', H', lo', hi', par', chain'. split.
      { cbn [run_ops run_op]. rewrite (run_bind _ _ _ _ _ Hrem). exact Hrun. }
      split; [done|]. cbn [length]. split; [lia|]. split; [lia|]. split; [done|]. done.
Qed.

Lemma tree_after_ops ord ops :
  (3 ≤ ord < 2147483647)%Z → (length ops + 1 < gas)%nat →
  safe_removes gas ord ops = true →
  ∃ t lvl H0 lo hi par chain,
    tree_after gas ord ops = Done t
    ∧ tree_inv lvl H0 chain t ∧ (H0 + 1 < gas)%nat ∧ (length chain < gas)%nat
    ∧ sorted_inv lo hi par chain t
    ∧ entries (heap t) chain = entries_of (stored ops []).
Proof.
  intros Hord Hgas Hsafe.
  destruct (BPlusTree_new_inv (K:=Z) (V:=V) ord ltac:(lia)) as (t0 & Hnew & Hinv0 & _).
  destruct (BPlusTree_new_sorted ord t0 Hnew) as (Hsorted0 & _ & Hent0 & Ho0).
  unfold safe_removes in Hsafe. rewrite Hnew in Hsafe.
  destruct (run_ops_ord ops _ _ _ _ _ _ t0 [] Hinv0 Hsorted0 (BPlusTree_new_uniform _ _ Hnew)
              ltac:(by rewrite Ho0) ltac:(lia) Hsafe Hent0)
    as (t & lvl & H0 & lo & hi & par & chain & Hrun & Hinv & HH & Hlen & Hsorted & Hent).
  exists t, lvl, H0, lo, hi, par, chain. unfold tree_after. rewrite Hnew.
  cbn [mbind outcome_bind obind]. rewrite Hrun. split; [done|]. split; [done|].
  split; [lia|]. split; [cbn in Hlen; lia|]. done.
Qed.

(** Take any run of [insert] and [remove] calls on a fresh tree with
    [int] keys in which each [remove] finds a root that holds two keys or
    more, or is an internal node over internal nodes.  Every call
    returns, whatever leaves split, borrow from a sibling or merge, and
    afterwards [searchAll(key)] returns the values inserted under [key]
    since [key] was last removed, in insertion order, and null when there
    is none. *)
Theorem searchAll_after_inserts_and_removes ord ops key :
  (3 ≤ ord < 2147483647)%Z → (length ops + 1 < gas)%nat →
  safe_removes gas ord ops = true →
  ∃ t, tree_after gas ord ops = Done t
    ∧ searchAll gas key t
      = Done (match inserted_under key (stored ops []) with
              | [] => None
              | vals => Some vals
              end).
Proof.
  intros Hord Hgas Hsafe.
  destruct (tree_after_ops ord ops Hord Hgas Hsafe)
    as (t & lvl & H0 & lo & hi & par & chain & Hrun & Hinv0 & HH & Hlen & Hinv & Hent).
  exists t. split; [done|].
  rewrite (searchAll_exact gas lvl H0 chain lo hi par chain t key Hinv0 Hinv ltac:(lia)), Hent.
  by rewrite find_entry_entries_of.
Qed.

(** After any run of [insert] and [remove] calls on a fresh tree with
    [int] keys in which each [remove] finds a root that holds two keys or
    more, or is an internal node over internal nodes,
    [rangeQuery(Smin, Smax)] returns exactly the values stored under the
    keys in [[Smin, Smax]], those inserted and not removed since: key by
    key in ascending order of the keys, and under one key in insertion
    order. *)
Theorem rangeQuery_after_inserts_and_removes ord ops Smin Smax :
  (3 ≤ ord < 2147483647)%Z → (length ops + 1 < gas)%nat →
  safe_removes gas ord ops = true →
  ∃ t m, tree_after gas ord ops = Done t
    ∧ rangeQuery gas Smin Smax t = Done (values_in_range Smin Smax m)
    ∧ ascending m.*1
    ∧ ∀ key vals, (key, vals) ∈ m
        ↔ vals ≠ [] ∧ vals = inserted_under key (stored ops []).
Proof.
  intros Hord Hgas Hsafe.
  destruct (tree_after_ops ord ops Hord Hgas Hsafe)
    as (t & lvl & H0 & lo & hi & par & chain & Hrun & Hinv0 & HH & Hlen & Hinv & Hent).
  exists t, (entries_of (stored ops [])). split; [done|]. split; [|apply entries_of_spec].
  by rewrite (rangeQuery_exact gas lvl H0 chain lo hi par chain t Smin Smax Hinv0 Hinv
                ltac:(lia) Hlen), Hent.
Qed.

(** After any run of [insert] and [remove] calls on a fresh tree with
    [int] keys in which each [remove] finds a root that holds two keys or
    more, or is an internal node over internal nodes, [traverse()] prints
    every stored key once, in ascending order, each with the values
    inserted under it since it was last removed: the leaves still
    partition the keys in order. *)
Theorem traverse_after_inserts_and_removes ord ops :
  (3 ≤ ord < 2147483647)%Z → (length ops + 1 < gas)%nat →
  safe_removes gas ord ops = true →
  ∃ t out, tree_after gas ord ops = Done t
    ∧ traverse gas t = Done out
    ∧ ascending out.*1
    ∧ ∀ key vals, (key, vals) ∈ out
        ↔ vals ≠ [] ∧ vals = inserted_under key (stored ops []).
Proof.
  intros Hord Hgas Hsafe.
  destruct (tree_after_ops ord ops Hord Hgas Hsafe)
    as (t & lvl & H0 & lo & hi & par & chain & Hrun & Hinv0 & HH & Hlen & Hinv & Hent).
  exists t, (entries_of (stored ops [])). split; [done|]. split; [|apply entries_of_spec].
  by rewrite (traverse_exact gas lvl H0 chain lo hi par chain t Hinv0 Hinv ltac:(lia) Hlen),
    Hent.
Qed.

End Mixed.

Lemma searchAll_after_inserts_and_removes_witness :
  ∃ t, tree_after fuel50 3 ops_mixed = Done t
    ∧ searchAll fuel50 4%Z t
      = Done (match inserted_under 4%Z (stored ops_mixed []) with
              | [] => None
              | vals => Some vals
              end).
Proof.
  apply (searchAll_after_inserts_and_removes fuel50 3 ops_mixed 4);
    [lia|unfold fuel50; simpl; lia|vm_compute; reflexivity].
Defined.

Lemma rangeQuery_after_inserts_and_removes_witness :
  ∃ t m, tree_after fuel50 3 ops_mixed = Done t
    ∧ rangeQuery fuel50 2%Z 7%Z t = Done (values_in_range 2%Z 7%Z m)
    ∧ ascending m.*1
    ∧ ∀ key vals, (key, vals) ∈ m
        ↔ vals ≠ [] ∧ vals = inserted_under key (stored ops_mixed []).
Proof.
  apply (rangeQuery_after_inserts_and_removes fuel50 3 ops_mixed 2 7);
    [lia|unfold fuel50; simpl; lia|vm_compute; reflexivity].
Defined.

Lemma traverse_after_inserts_and_removes_witness :
  ∃ t out, tree_after fuel50 3 ops_mixed = Done t
    ∧ traverse fuel50 t = Done out
    ∧ ascending out.*1
    ∧ ∀ key vals, (key, vals) ∈ out
        ↔ vals ≠ [] ∧ vals = inserted_under key (stored ops_mixed []).
Proof.
  apply (traverse_after_inserts_and_removes fuel50 3 ops_mixed);
    [lia|unfold fuel50; simpl; lia|vm_compute; reflexivity].
Defined.
